(* ===== verification/_CoqProject ===== *)
-Q . S2P
Prelude.v
Types.v
Host.v
Logic.v
Frame.v
Typing.v
SampleHost.v
Events.v
Reentrancy.v
Reputation.v
Guardian.v
CircuitBreaker.v
Storage.v
Tasks.v
Drips.v
Gas.v
Consensus.v
Vault.v
Contract.v
VoteSpec.v
System.v
SampleRun.v
Spec.v
Commits.v
Lifecycle.v
Tally.v
Registry.v
Refinement.v
Kani.v
Control.v
Custody.v
Snapshots.v
Meter.v
Reenter.v
Safekeeping.v
Consent.v
UnitTests.v
Ledger.v
Queries.v
Indexer.v
Commute.v
Quorum.v
Takeover.v
Lifetime.v
Independence.v
Upgrade.v
Restoration.v
Growth.v
