(* ===== verification/Prelude.v ===== *)
(** * Vero core contracts: a verification library

    Vero is a Soroban (Stellar) smart contract for weighted guardian consensus:
    guardians who have locked tokens vote on tasks with their reputation as
    weight; a task whose accrued weight reaches a threshold is resolved, the
    vault is asked to pay it, and a reward stream may be started for it.  This
    library models the whole contract ([src/src/*.rs]), the Kani harnesses of its
    pure consensus module ([src/verification/src/lib.rs]) and the repository's
    tests ([src/tests/]).

    ** How the program is modelled

    A Rust function is a program [prog] (Host.v): a tree of calls to the host
    ([HostE]: instance storage, authorization, events, time, other contracts)
    that ends in a value, in a [ContractError] ([Err], propagated by [?]) or in
    a trap (panic).  [run] interprets it on a [state]: the contract's instance
    storage, the world of the other contracts, and the events and TTL
    extensions so far.  A failed run keeps its state, so that what the code
    undoes itself can be told from what the host rolls back.

    What the contract relies on without defining it is a parameter:
    - [InstanceStorage] is the storage, any type with the laws of a key/value
      store ([gmap] is one);
    - [World] is the token, the vault and the drips contract, whose calls may
      fail; [TokenLedger] (Custody.v) adds that a token which carries out a transfer
      moves what it says it moves, and that nobody else can spend the contract's
      tokens.  A token may refuse any transfer.  SampleHost.v and Custody.v give a
      concrete world with both;
    - [Archival] (Lifetime.v) is the network's rules for extending an entry's life,
      which anybody may ask for, and for restoring it; [installed] (Upgrade.v) is the
      code the network has.
    The host forbids a contract to be re-entered, so a call to another contract
    does not change this contract's own storage under [run].  Reenter.v drops that
    assumption ([rrun]): it shows what the mutex guarantees by itself and what
    is left to the host.  Machine integers are [Z] with their ranges,
    and every addition is written with its overflow behaviour (the profiles set
    [overflow-checks = true]): checked additions trap or return an error,
    [saturating_add] saturates.  Vectors are lists, their lengths [u32]; the
    SDK's [Map] is [gmap].  Addresses are opaque.

    ** Files

    - Prelude.v: machine integers, tactics.  Types.v: [types.rs], the structs,
      keys and errors, and the values stored.  Host.v: host calls, programs and
      their semantics.
    - Logic.v: two ways to reason about programs: inversion of runs ([run_inv])
      and a program logic over protocols ([obeys], [obeys_run]).  Frame.v:
      equivalence of stores, event logs, read-only programs, authorization.
      Typing.v: the Rust type stored under every key ([val_ok]) and the check
      that programs keep to it ([typed], [typed_run]); symbolic execution
      ([run_go]).
    - One file per component, with its functions and what each does in every
      case: Events.v ([events.rs]), Reentrancy.v ([reentrancy.rs]),
      Reputation.v ([reputation.rs]), Guardian.v ([guardian.rs]),
      CircuitBreaker.v ([circuit_breaker.rs]), Storage.v ([storage.rs]), Tasks.v
      ([task.rs]), Drips.v ([drips.rs]), Gas.v ([gas.rs]), Consensus.v
      ([consensus.rs]), Vault.v ([vault.rs]), Contract.v (the entry points of
      [lib.rs]; [vote] is cut at its threshold check, [resolve_if_met], and its
      final writes, [record_vote]).
    - System.v: the entry points that change state as calls ([Call], [exec]),
      transactions that commit or roll back ([step]), reachable states, and what
      the text of the handlers guarantees: typing, footprint, events, signer.
      SampleRun.v: a concrete history, for the witnesses.
    - VoteSpec.v and Spec.v: the specification of every call as a function of the
      state, without host calls and mutex ([spec]), and the proof that the code
      implements it ([exec_spec]).  Commits.v: each committed call inverted into
      its conditions and its effect.
    - The properties: Refinement.v (histories against the specification, errors,
      traps), Lifecycle.v (the state machine of a task, the threshold, the
      mutex), Tally.v (votes against markers and events), Registry.v (the
      indexes of tasks, streams and guardians), Kani.v (the harnesses, and
      [apply_vote] against [vote]), Control.v (signatures, pausing, the circuit
      breaker, configuration), Custody.v (calls to other contracts, solvency,
      refunds), Snapshots.v ([get_snapshot]), Takeover.v (what one signer can do
      alone).
    - Ledger.v: the contract without its storage, as a record of deposits,
      members, ballots and task entries with one transaction per call
      ([transact]), the storage that record stands for ([encode]), and the
      simulation between the two.  On top of it: Queries.v, the entry points that
      only read; Indexer.v, a reader that follows the event log; Commute.v,
      ledgers up to the order of their ballots ([same_ledger]) and votes that
      change places; Quorum.v, several votes together; Lifetime.v, calls,
      extensions and restorations at numbered ledgers, on a contract whose two entries,
      instance and code, expire ([Archival], [live]), and Restoration.v, what a
      restoration brings back; Independence.v, what every call looks at
      and sets, and calls that do not meet; Growth.v, the number of stored keys;
      Upgrade.v, [upgrade_contract] among the calls, over any codes.
    - Reenter.v: runs during whose external calls other entry points may run
      ([rrun]), nested to any depth ([reenters], [rreachable]), for any host that
      says who may call back ([host]).  Safekeeping.v: custody when everybody but
      the token may.  Consent.v: what nobody can do without a guardian's signature.
    - Meter.v: the cost of a run for any price list ([meter]) and bounds on every
      path of a program ([within], [within_meter]); with the price 1 it counts
      host calls, with the schedule of [gas.rs] it prices the operations.
    - UnitTests.v: the tests of [consensus.rs], [init.rs] and [test.rs], run on
      the model.

    ** What the theorems show

    - Refinement: the store after any history is exactly what the ledger of that
      history encodes, and the next call is answered alike
      ([ledger_refinement]), every query too ([queries_agree]); any history of
      calls ends in the state the specification computes
      ([history_refines_spec]).
    - Consensus: each task follows the life-cycle machine and never goes back
      ([task_lifecycle], [history_never_turns_back]); its tally is the sum of its
      [wt_vote] events, one per guardian ([tally_matches_events],
      [no_second_vote]); it is resolved exactly at the threshold
      ([resolved_iff_weight_reached]); admissible votes go through
      ([admissible_vote_commits]), several of them together ([quorum_votes]), in
      any order and with the same result ([votes_in_any_order]) but for the
      number of payments ([vote_order_changes_payments]).  Other calls may change
      places wherever they do not meet ([independent_calls_in_any_order]).  None of a vote depends
      on the host's ban on re-entry ([votes_survive_reentry]), and nobody votes for
      another ([only_the_owner_acts]).
    - Money: locked balances are covered, even if everybody but the token calls
      back ([custody_survives_reentry]), and nothing but the token itself stands
      between a guardian and a refund ([refund_needs_only_the_token],
      [lock_unlock_roundtrip]), as long as the contract has not expired.  Of its own
      calls only [initialize] and [add_guardian] put that off, besides what others do
      for it from outside ([unrenewed_contract_expires]).  Restored, it pays what was
      locked, if the token does ([expired_deposit_comes_back]).
    - Errors and control: a failed call leaves the store and the world as they were;
      what it has published by then, [rw_fail], or [resolved] where the vault refuses,
      only the host's rollback drops ([failed_call_leaves_only_events]).  Each trap
      has its exact condition ([traps_exact]).  Unsigned and paused calls do nothing,
      the breaker trips past 50.  Only
      [upgrade_contract] replaces the code, and it hands everything over
      ([upgrades_hand_over]).
    - Types and termination: every stored value has its Rust type
      ([storage_types_hold]); every call ends within a fixed number of host calls
      ([entry_points_terminate]); what is stored only grows ([storage_grows_with_use]).
    - Reads: the indexes are exact; joined snapshots give every active task, vote,
      stream and registered guardian ([snapshots_reassemble]); the events rebuild
      what is stored of each task ([events_rebuild_tasks]).
    - Where the code differs from its documentation, a theorem says what the code
      does: [any_signer_is_admin], [admin_never_set], [pause_leaves_the_rest],
      [resolved_task_pays_again], [guardian_registry],
      [already_archived_unreachable], [anyone_can_resolve] (provided the token and
      the vault carry out what they are asked),
      [unguarded_calls_need_the_host], [gas_estimates_measured],
      [unrenewed_contract_expires], [upgrades_hand_over], [storage_grows_with_use].
    - The repository's own tests pass in the model ([unit_tests_pass]).

    Recursion is structural throughout, so there is no fuel: [run] terminates on
    every program, and [call_bound] bounds its length.

    ** What is not modelled

    - Entry expiry is modelled in Lifetime.v and Restoration.v only, for the contract's
      own two entries; an upgrade, which replaces the code's entry, and the expiry of
      the other contracts' entries are not.
    - [upgrade_contract] is not a [Call]: other code runs after it.  Upgrade.v has it
      as an action of its own; what other code does is a parameter there.
    - The network's limit on the size of an entry: keys are counted, not bytes.
    - Gas is priced by the schedule [gas.rs] documents, not by the host's metering
      of instructions.
    - The token, the vault and the drips contract themselves, which are not part of
      the repository; build files and test snapshots. *)

From stdpp Require Export prelude gmap list strings.
From Stdlib Require Export ZArith Lia.

#[global] Open Scope Z_scope.

(** ** Machine integers

    Rust integers are modelled as [Z] together with a range predicate; the
    arithmetic used by the sources is written with its overflow behaviour. *)

Definition u32_max : Z := 4294967295.
Definition u64_max : Z := 18446744073709551615.
Definition i128_max : Z := 170141183460469231731687303715884105727.
Definition i128_min : Z := -170141183460469231731687303715884105728.

Definition in_u32 (z : Z) : Prop := 0 <= z <= u32_max.
Definition in_u64 (z : Z) : Prop := 0 <= z <= u64_max.
Definition in_i128 (z : Z) : Prop := i128_min <= z <= i128_max.

#[global] Instance in_u32_dec z : Decision (in_u32 z) := ltac:(unfold in_u32; apply _).
#[global] Instance in_u64_dec z : Decision (in_u64 z) := ltac:(unfold in_u64; apply _).
#[global] Instance in_i128_dec z : Decision (in_i128 z) := ltac:(unfold in_i128; apply _).

(** [u64::checked_add], and the overflow-checked [+] of [u32] and [i128]
    ([overflow-checks = true] in every profile): [None] is the overflow. *)
Definition u64_checked_add (a b : Z) : option Z :=
  if decide (in_u64 (a + b)) then Some (a + b) else None.
Definition u32_checked_add (a b : Z) : option Z :=
  if decide (in_u32 (a + b)) then Some (a + b) else None.
Definition i128_checked_add (a b : Z) : option Z :=
  if decide (in_i128 (a + b)) then Some (a + b) else None.

(** [u32::saturating_add] and [u64::saturating_sub]. *)
Definition u32_saturating_add (a b : Z) : Z := Z.min (a + b) u32_max.
Definition u64_saturating_sub (a b : Z) : Z := Z.max (a - b) 0.

Lemma u64_checked_add_Some a b c :
  u64_checked_add a b = Some c <-> c = a + b /\ in_u64 (a + b).
Proof. unfold u64_checked_add. case_decide; naive_solver. Qed.

Lemma u64_checked_add_None a b : u64_checked_add a b = None <-> ~ in_u64 (a + b).
Proof. unfold u64_checked_add. case_decide; naive_solver. Qed.

Lemma u32_checked_add_Some a b c :
  u32_checked_add a b = Some c <-> c = a + b /\ in_u32 (a + b).
Proof. unfold u32_checked_add. case_decide; naive_solver. Qed.

Lemma u32_checked_add_None a b : u32_checked_add a b = None <-> ~ in_u32 (a + b).
Proof. unfold u32_checked_add. case_decide; naive_solver. Qed.

Lemma i128_checked_add_Some a b c :
  i128_checked_add a b = Some c <-> c = a + b /\ in_i128 (a + b).
Proof. unfold i128_checked_add. case_decide; naive_solver. Qed.

(** ** Tactics *)

(** A decidable fact, by evaluating the decision. *)
Ltac by_eval :=
  lazymatch goal with
  | |- ?P => refine (@bool_decide_unpack P (_ : Decision P) _); vm_compute; exact I
  end.

(** Membership in an explicit list. *)
Ltac solve_elem :=
  solve [repeat first [apply list_elem_of_here | apply list_elem_of_further]].

(** Membership in an explicit list, refuted. *)
Ltac solve_not_elem :=
  solve [rewrite ?not_elem_of_cons; repeat split; try congruence; try apply not_elem_of_nil].

(** The checked additions that succeeded, as equations with their range. *)
Ltac checked_adds :=
  repeat match goal with
  | H : u64_checked_add _ _ = Some _ |- _ => apply u64_checked_add_Some in H as [-> ?]
  | H : u32_checked_add _ _ = Some _ |- _ => apply u32_checked_add_Some in H as [-> ?]
  | H : i128_checked_add _ _ = Some _ |- _ => apply i128_checked_add_Some in H as [-> ?]
  end.
