(* ===== verification/Types.v ===== *)
(** * Data types of the contract ([src/src/types.rs])

    The structs and enums of [types.rs], the values the contract keeps in its
    instance storage, and their decidable equality and countability. *)

From stdpp Require Import prelude gmap list strings.
From Stdlib Require Import ZArith Lia.
From S2P Require Import Prelude.

(** ** Addresses

    [soroban_sdk::Address] is an opaque identifier: the contract only compares,
    stores and passes addresses. *)

Inductive Address := Addr (id : N).

#[global] Instance Address_eq_dec : EqDecision Address.
Proof. solve_decision. Defined.

#[global] Instance Address_countable : Countable Address.
Proof. by apply (inj_countable' (λ '(Addr i), i) Addr); intros []. Defined.

(** ** Structs

    Each struct lives in a module of its own, so that its fields keep their
    Rust names. *)

Module Task.

Record Task := mk {
  id : Z;                    (* u64 *)
  votes : Z;                 (* u32 *)
  is_done : bool;
  resolved_at : Z;           (* u64 *)
  total_weight_accrued : Z;  (* u64 *)
  is_cancelled : bool;
}.

End Task.

Abbreviation Task := Task.Task.

Module RewardStream.

Record RewardStream := mk {
  task_id : Z;               (* u64 *)
  contributor : Address;
  drips_contract : Address;
  active : bool;
}.

End RewardStream.

Abbreviation RewardStream := RewardStream.RewardStream.

#[global] Instance Task_eq_dec : EqDecision Task.
Proof. solve_decision. Defined.

#[global] Instance RewardStream_eq_dec : EqDecision RewardStream.
Proof. solve_decision. Defined.

(** The page of contract state [get_snapshot] returns.  The SDK's [Map] is a
    finite map. *)
Module Snapshot.

Record Snapshot := mk {
  paused : bool;
  failure_count : Z;         (* u32 *)
  weight_threshold : Z;      (* u64 *)
  admin : option Address;
  vault_address : option Address;
  drips_address : option Address;
  guardians : gmap Address bool;
  reputations : gmap Address Z;
  tasks : gmap Z Task;
  votes : gmap (Z * Address) bool;
  reward_streams : gmap Z RewardStream;
}.

End Snapshot.

Abbreviation Snapshot := Snapshot.Snapshot.

(** ** Storage keys *)

Module DataKey.

Inductive DataKey :=
| Guardian (a : Address)
| Reputation (a : Address)
| WeightThreshold
| ActiveTask (id : Z)
| ArchivedTask (id : Z)
| Voted (id : Z) (a : Address)
| Admin
| DripsAddress
| VaultAddress
| RewardStream (id : Z)
| TokenAddress
| LockThreshold
| LockedBalance (a : Address)
| Lock
| FailureCount
| Paused
| AllGuardians
| AllTasks
| AllVotes
| AllRewardStreams
| Initialized.

End DataKey.

Abbreviation DataKey := DataKey.DataKey.

#[global] Instance DataKey_eq_dec : EqDecision DataKey.
Proof. solve_decision. Defined.

(** Every variant has its own tag, so that no two keys alias; this is the
    layout [#[contracttype]] gives an enum: the variant's name and its fields. *)
Definition DataKey_to_sum (k : DataKey) : nat * (Address * Z) :=
  let n := Addr 0 in
  match k with
  | DataKey.Guardian a => (0%nat, (a, 0))
  | DataKey.Reputation a => (1%nat, (a, 0))
  | DataKey.WeightThreshold => (2%nat, (n, 0))
  | DataKey.ActiveTask i => (3%nat, (n, i))
  | DataKey.ArchivedTask i => (4%nat, (n, i))
  | DataKey.Voted i a => (5%nat, (a, i))
  | DataKey.Admin => (6%nat, (n, 0))
  | DataKey.DripsAddress => (7%nat, (n, 0))
  | DataKey.VaultAddress => (8%nat, (n, 0))
  | DataKey.RewardStream i => (9%nat, (n, i))
  | DataKey.TokenAddress => (10%nat, (n, 0))
  | DataKey.LockThreshold => (11%nat, (n, 0))
  | DataKey.LockedBalance a => (12%nat, (a, 0))
  | DataKey.Lock => (13%nat, (n, 0))
  | DataKey.FailureCount => (14%nat, (n, 0))
  | DataKey.Paused => (15%nat, (n, 0))
  | DataKey.AllGuardians => (16%nat, (n, 0))
  | DataKey.AllTasks => (17%nat, (n, 0))
  | DataKey.AllVotes => (18%nat, (n, 0))
  | DataKey.AllRewardStreams => (19%nat, (n, 0))
  | DataKey.Initialized => (20%nat, (n, 0))
  end.

Definition DataKey_of_sum (x : nat * (Address * Z)) : DataKey :=
  let '(tag, (a, i)) := x in
  match tag with
  | 0 => DataKey.Guardian a
  | 1 => DataKey.Reputation a
  | 2 => DataKey.WeightThreshold
  | 3 => DataKey.ActiveTask i
  | 4 => DataKey.ArchivedTask i
  | 5 => DataKey.Voted i a
  | 6 => DataKey.Admin
  | 7 => DataKey.DripsAddress
  | 8 => DataKey.VaultAddress
  | 9 => DataKey.RewardStream i
  | 10 => DataKey.TokenAddress
  | 11 => DataKey.LockThreshold
  | 12 => DataKey.LockedBalance a
  | 13 => DataKey.Lock
  | 14 => DataKey.FailureCount
  | 15 => DataKey.Paused
  | 16 => DataKey.AllGuardians
  | 17 => DataKey.AllTasks
  | 18 => DataKey.AllVotes
  | 19 => DataKey.AllRewardStreams
  | _ => DataKey.Initialized
  end%nat.

Lemma DataKey_of_to_sum k : DataKey_of_sum (DataKey_to_sum k) = k.
Proof. by destruct k. Qed.

#[global] Instance DataKey_countable : Countable DataKey :=
  inj_countable' DataKey_to_sum DataKey_of_sum DataKey_of_to_sum.

(** ** Operations and errors *)

Module Operation.

Inductive Operation :=
| RegisterTask
| Vote
| AddGuardian
| SetReputation
| LockTokens
| UnlockTokens
| ResignGuardian
| SetWeightThreshold
| StartRewardStream
| TogglePause
| RecordFailure
| ResetCircuitBreaker
| UpgradeContract.

End Operation.

Abbreviation Operation := Operation.Operation.

#[global] Instance Operation_eq_dec : EqDecision Operation.
Proof. solve_decision. Defined.

Module ContractError.

Inductive ContractError :=
| NotAuthorized
| DuplicateVote
| TaskNotVerified
| StreamAlreadyActive
| DripsCallFailed
| AlreadyInitialized
| NotInitialized
| NoReputationScore
| ZeroWeightVote
| WeightOverflow
| InsufficientLockedBalance
| StillGuardian
| NotGuardian
| Locked
| ContractPaused
| EscrowUnavailable
| TaskCancelled
| TaskNotFound
| TaskNotStale
| TaskAlreadyArchived
| BatchTooLarge.

End ContractError.

Abbreviation ContractError := ContractError.ContractError.

#[global] Instance ContractError_eq_dec : EqDecision ContractError.
Proof. solve_decision. Defined.

(** The discriminants of [#[contracterror]], the numbers a failed invocation
    reports. *)
Definition error_code (e : ContractError) : Z :=
  match e with
  | ContractError.NotAuthorized => 1
  | ContractError.DuplicateVote => 2
  | ContractError.TaskNotVerified => 3
  | ContractError.StreamAlreadyActive => 4
  | ContractError.DripsCallFailed => 5
  | ContractError.AlreadyInitialized => 6
  | ContractError.NotInitialized => 7
  | ContractError.NoReputationScore => 8
  | ContractError.ZeroWeightVote => 9
  | ContractError.WeightOverflow => 10
  | ContractError.InsufficientLockedBalance => 11
  | ContractError.StillGuardian => 12
  | ContractError.NotGuardian => 13
  | ContractError.Locked => 14
  | ContractError.ContractPaused => 15
  | ContractError.EscrowUnavailable => 16
  | ContractError.TaskCancelled => 17
  | ContractError.TaskNotFound => 18
  | ContractError.TaskNotStale => 19
  | ContractError.TaskAlreadyArchived => 20
  | ContractError.BatchTooLarge => 21
  end.

(** ** Stored values

    A storage entry holds a host value; the contract reads it back at the Rust
    type it expects.  [Val] is the union of the types the sources store. *)

Inductive Val :=
| VBool (b : bool)
| VU32 (z : Z)
| VU64 (z : Z)
| VI128 (z : Z)
| VAddress (a : Address)
| VTask (t : Task)
| VRewardStream (s : RewardStream)
| VVecAddress (l : list Address)
| VVecU64 (l : list Z)
| VVecVote (l : list (Z * Address)).

#[global] Instance Val_eq_dec : EqDecision Val.
Proof. solve_decision. Defined.

(** A codec is the [IntoVal]/[TryFromVal] pair of a Rust type: reading a value
    of another type fails the conversion. *)
Record codec (T : Type) := Codec {
  into_val : T -> Val;
  try_from_val : Val -> option T;
  try_from_into : forall x, try_from_val (into_val x) = Some x;
  into_try_from : forall v x, try_from_val v = Some x -> v = into_val x;
}.
Arguments Codec {T}.
Arguments into_val {T}.
Arguments try_from_val {T}.
Arguments try_from_into {T}.
Arguments into_try_from {T}.

Definition c_bool : codec bool :=
  Codec VBool (fun v => match v with VBool b => Some b | _ => None end) (fun _ => eq_refl)
    ltac:(by intros [] ? [= ->]).

Definition c_u32 : codec Z :=
  Codec VU32 (fun v => match v with VU32 z => Some z | _ => None end) (fun _ => eq_refl)
    ltac:(by intros [] ? [= ->]).

Definition c_u64 : codec Z :=
  Codec VU64 (fun v => match v with VU64 z => Some z | _ => None end) (fun _ => eq_refl)
    ltac:(by intros [] ? [= ->]).

Definition c_i128 : codec Z :=
  Codec VI128 (fun v => match v with VI128 z => Some z | _ => None end) (fun _ => eq_refl)
    ltac:(by intros [] ? [= ->]).

Definition c_Address : codec Address :=
  Codec VAddress (fun v => match v with VAddress a => Some a | _ => None end) (fun _ => eq_refl)
    ltac:(by intros [] ? [= ->]).

Definition c_Task : codec Task :=
  Codec VTask (fun v => match v with VTask t => Some t | _ => None end) (fun _ => eq_refl)
    ltac:(by intros [] ? [= ->]).

Definition c_RewardStream : codec RewardStream :=
  Codec VRewardStream (fun v => match v with VRewardStream s => Some s | _ => None end) (fun _ => eq_refl)
    ltac:(by intros [] ? [= ->]).

Definition c_Vec_Address : codec (list Address) :=
  Codec VVecAddress (fun v => match v with VVecAddress l => Some l | _ => None end) (fun _ => eq_refl)
    ltac:(by intros [] ? [= ->]).

Definition c_Vec_u64 : codec (list Z) :=
  Codec VVecU64 (fun v => match v with VVecU64 l => Some l | _ => None end) (fun _ => eq_refl)
    ltac:(by intros [] ? [= ->]).

Definition c_Vec_vote : codec (list (Z * Address)) :=
  Codec VVecVote (fun v => match v with VVecVote l => Some l | _ => None end) (fun _ => eq_refl)
    ltac:(by intros [] ? [= ->]).
