(* ===== verification/Host.v ===== *)
(** * The host environment the contract runs in

    Every handler of the contract is a program over the host calls of
    [soroban_sdk::Env].  A program is a finite tree of host calls ([prog]); the
    host itself is a parameter: the instance storage is a type with the
    documented laws of a key/value store ([InstanceStorage]), the other
    contracts and the token ledger are a world ([World]) whose calls may
    succeed or fail.  [run] interprets a program against such a host. *)

From stdpp Require Import prelude gmap list strings.
From Stdlib Require Import ZArith Lia Strings.Byte.
From S2P Require Import Prelude.
From S2P Require Import Types.

(** ** Host calls *)

(** Why an invocation traps: the host refuses a call, or the code panics. *)
Inductive trap :=
| AuthFailure (a : Address)      (* require_auth of an address that did not sign *)
| CallFailure (a : Address)      (* a called contract failed *)
| ConversionFailure              (* a stored value of another type *)
| Overflow                       (* overflow-checked arithmetic *)
| UnwrapNone                     (* Option::unwrap on None *)
| PanicWith (msg : string).      (* panic! *)

(** The body of an event: a tuple of values or a single value. *)
Inductive event_data :=
| DTuple (l : list Val)
| DValue (v : Val).

Inductive HostE : Type -> Type :=
| StorageGet (k : DataKey) : HostE (option Val)
| StorageHas (k : DataKey) : HostE bool
| StorageSet (k : DataKey) (v : Val) : HostE unit
| StorageRemove (k : DataKey) : HostE unit
| ExtendTtl (threshold extend_to : Z) : HostE unit
| RequireAuth (a : Address) : HostE unit
| LedgerTimestamp : HostE Z
| CurrentContractAddress : HostE Address
| EventsPublish (topics : list string) (d : event_data) : HostE unit
| TokenTransfer (token from to : Address) (amount : Z) : HostE unit
| TryReleaseFunds (vault : Address) (task_id : Z) : HostE bool
| InvokeContract (contract : Address) (fn : string) (args : list Val) : HostE unit
| UpdateCurrentContractWasm (hash : list byte) : HostE unit.

(** ** Programs

    [Fail] is a Rust function returning [Err], which [?] propagates through
    [mbind]; [Panic] unwinds the whole invocation. *)

Inductive prog (A : Type) : Type :=
| Ret (a : A)
| Fail (e : ContractError)
| Panic (r : trap)
| Vis (X : Type) (op : HostE X) (k : X -> prog A).
Arguments Ret {A} a.
Arguments Fail {A} e.
Arguments Panic {A} r.
Arguments Vis {A X} op k.

Fixpoint prog_bind {A B} (p : prog A) (f : A -> prog B) : prog B :=
  match p with
  | Ret a => f a
  | Fail e => Fail e
  | Panic r => Panic r
  | Vis op k => Vis op (fun x => prog_bind (k x) f)
  end.

#[global] Instance prog_ret : MRet prog := fun A a => Ret a.
#[global] Instance prog_mbind : MBind prog := fun A B f p => prog_bind p f.

(** [match r { Ok(..) => .., Err(..) => .. }] on the result of a call. *)
Fixpoint catch {A} (p : prog A) : prog (A + ContractError) :=
  match p with
  | Ret a => Ret (inl a)
  | Fail e => Ret (inr e)
  | Panic r => Panic r
  | Vis op k => Vis op (fun x => catch (k x))
  end.

Definition perform {X} (op : HostE X) : prog X := Vis op Ret.

(** ** The SDK's interface *)

Definition storage_get {T} (c : codec T) (k : DataKey) : prog (option T) :=
  Vis (StorageGet k) (fun ov =>
    match ov with
    | None => Ret None
    | Some v =>
        match try_from_val c v with
        | Some x => Ret (Some x)
        | None => Panic ConversionFailure
        end
    end).

Definition storage_has (k : DataKey) : prog bool := perform (StorageHas k).
Definition storage_set {T} (c : codec T) (k : DataKey) (x : T) : prog unit :=
  perform (StorageSet k (into_val c x)).
Definition storage_remove (k : DataKey) : prog unit := perform (StorageRemove k).
Definition extend_ttl (threshold extend_to : Z) : prog unit :=
  perform (ExtendTtl threshold extend_to).
Definition require_auth (a : Address) : prog unit := perform (RequireAuth a).
Definition ledger_timestamp : prog Z := perform LedgerTimestamp.
Definition current_contract_address : prog Address := perform CurrentContractAddress.
Definition events_publish (topics : list string) (d : event_data) : prog unit :=
  perform (EventsPublish topics d).

(** Rust's [Option::unwrap], [Option::ok_or] (with [?]) and overflow-checked
    arithmetic. *)
Definition unwrap {A} (o : option A) : prog A :=
  match o with Some a => Ret a | None => Panic UnwrapNone end.
Definition ok_or {A} (o : option A) (e : ContractError) : prog A :=
  match o with Some a => Ret a | None => Fail e end.
Definition arith (o : option Z) : prog Z :=
  match o with Some z => Ret z | None => Panic Overflow end.

(** ** The host *)

(** The instance storage: a key/value store with the laws of one. *)
Class InstanceStorage (Sto : Type) := {
  sempty : Sto;
  sget : DataKey -> Sto -> option Val;
  sset : DataKey -> Val -> Sto -> Sto;
  sremove : DataKey -> Sto -> Sto;
  sget_sempty k : sget k sempty = None;
  sget_sset k v s : sget k (sset k v s) = Some v;
  sget_sset_ne k k' v s : k <> k' -> sget k' (sset k v s) = sget k' s;
  sget_sremove k s : sget k (sremove k s) = None;
  sget_sremove_ne k k' s : k <> k' -> sget k' (sremove k s) = sget k' s;
}.

(** The contracts this one calls.  [None] is a failed call; a successful one
    may change the world. *)
Class World (Wld : Type) := {
  token_transfer : Address -> Address -> Address -> Z -> Wld -> option Wld;
  release_funds : Address -> Z -> Wld -> option Wld;
  invoke_contract : Address -> string -> list Val -> Wld -> option Wld;
}.

#[global] Instance gmap_storage : InstanceStorage (gmap DataKey Val) := {
  sempty := ∅;
  sget k s := s !! k;
  sset k v s := <[k:=v]> s;
  sremove k s := delete k s;
  sget_sempty k := lookup_empty k;
  sget_sset k v s := lookup_insert_eq s k v;
  sget_sset_ne k k' v s := lookup_insert_ne s k k' v;
  sget_sremove k s := lookup_delete_eq s k;
  sget_sremove_ne k k' s := lookup_delete_ne s k k';
}.

(** What an invocation does besides storage and calls, in order. *)
Inductive effect :=
| Published (topics : list string) (d : event_data)
| TtlExtended (threshold extend_to : Z)
| WasmUpdated (hash : list byte).

(** The invocation's context: who signed it, the ledger's time, and the
    contract's own address. *)
Record context := Context {
  authorized : Address -> bool;
  timestamp : Z;
  self_address : Address;
}.

Record state (Sto Wld : Type) := State {
  storage : Sto;
  world : Wld;
  effects : list effect;
}.
Arguments State {Sto Wld}.
Arguments storage {Sto Wld}.
Arguments world {Sto Wld}.
Arguments effects {Sto Wld}.

(** How a program ends.  A failed program keeps its state, so that what the
    code itself undoes can be told from what the host rolls back. *)
Inductive outcome (Sto Wld A : Type) :=
| Done (a : A) (st : state Sto Wld)
| Failed (e : ContractError) (st : state Sto Wld)
| Trapped (r : trap).
Arguments Done {Sto Wld A}.
Arguments Failed {Sto Wld A}.
Arguments Trapped {Sto Wld A}.

Section semantics.
Context {Sto Wld : Type} `{!InstanceStorage Sto} `{!World Wld}.
Implicit Types (st : state Sto Wld) (cx : context).

Definition with_storage (f : Sto -> Sto) st : state Sto Wld :=
  State (f (storage st)) (world st) (effects st).
Definition with_world (w : Wld) st : state Sto Wld :=
  State (storage st) w (effects st).
Definition log (e : effect) st : state Sto Wld :=
  State (storage st) (world st) (effects st ++ [e]).

(** One host call: its answer and the state after it, or a trap. *)
Definition handle cx {X} (op : HostE X) st : X * state Sto Wld + trap :=
  match op in HostE X return X * state Sto Wld + trap with
  | StorageGet k => inl (sget k (storage st), st)
  | StorageHas k => inl (bool_decide (is_Some (sget k (storage st))), st)
  | StorageSet k v => inl (tt, with_storage (sset k v) st)
  | StorageRemove k => inl (tt, with_storage (sremove k) st)
  | ExtendTtl t e => inl (tt, log (TtlExtended t e) st)
  | RequireAuth a => if authorized cx a then inl (tt, st) else inr (AuthFailure a)
  | LedgerTimestamp => inl (timestamp cx, st)
  | CurrentContractAddress => inl (self_address cx, st)
  | EventsPublish ts d => inl (tt, log (Published ts d) st)
  | TokenTransfer token from to amount =>
      match token_transfer token from to amount (world st) with
      | Some w => inl (tt, with_world w st)
      | None => inr (CallFailure token)
      end
  | TryReleaseFunds vault id =>
      match release_funds vault id (world st) with
      | Some w => inl (true, with_world w st)
      | None => inl (false, st)
      end
  | InvokeContract c fn args =>
      match invoke_contract c fn args (world st) with
      | Some w => inl (tt, with_world w st)
      | None => inr (CallFailure c)
      end
  | UpdateCurrentContractWasm h => inl (tt, log (WasmUpdated h) st)
  end.

Fixpoint run cx {A} (p : prog A) st : outcome Sto Wld A :=
  match p with
  | Ret a => Done a st
  | Fail e => Failed e st
  | Panic r => Trapped r
  | Vis op k =>
      match handle cx op st with
      | inl (x, st') => run cx (k x) st'
      | inr r => Trapped r
      end
  end.

Lemma run_vis cx {A X} (op : HostE X) (k : X -> prog A) st :
  run cx (Vis op k) st =
    match handle cx op st with
    | inl (x, st') => run cx (k x) st'
    | inr r => Trapped r
    end.
Proof. done. Qed.

Lemma run_bind cx {A B} (p : prog A) (f : A -> prog B) st :
  run cx (p ≫= f) st =
    match run cx p st with
    | Done a st' => run cx (f a) st'
    | Failed e st' => Failed e st'
    | Trapped r => Trapped r
    end.
Proof.
  revert st. induction p as [a|e|r|X op k IH]; intros st; simpl; try done.
  destruct (handle cx op st) as [[x st']|r]; [apply IH | done].
Qed.

Lemma run_catch cx {A} (p : prog A) st :
  run cx (catch p) st =
    match run cx p st with
    | Done a st' => Done (inl a) st'
    | Failed e st' => Done (inr e) st'
    | Trapped r => Trapped r
    end.
Proof.
  revert st. induction p as [a|e|r|X op k IH]; intros st; simpl; try done.
  destruct (handle cx op st) as [[x st']|r]; [apply IH | done].
Qed.

End semantics.
