(* ===== verification/Logic.v ===== *)
(** * Reasoning about programs

    Two ways to reason about a [prog]:
    - [run_inv H] inverts a completed run into the sequence of host calls it
      made, one equation each;
    - [obeys] is a program logic over the tree itself: a protocol says which
      host calls a program may make and what it may assume of their answers,
      and [obeys_run] turns it into a statement about every run. *)

From stdpp Require Import prelude gmap list strings.
From Stdlib Require Import ZArith Lia Strings.Byte.
From S2P Require Import Prelude.
From S2P Require Import Types.
From S2P Require Import Host.

Create HintDb vero.

(** ** Protocols *)

Record protocol := Protocol {
  guar : forall X, HostE X -> Prop;         (* the calls a program may make *)
  rely : forall X, HostE X -> X -> Prop;    (* the answers it may count on *)
  may_fail : ContractError -> Prop;
  may_trap : trap -> Prop;
}.

Fixpoint obeys (pr : protocol) {A} (p : prog A) (Q : A -> Prop) : Prop :=
  match p with
  | Ret a => Q a
  | Fail e => may_fail pr e
  | Panic r => may_trap pr r
  | @Vis _ X op k => guar pr X op /\ forall x, rely pr X op x -> obeys pr (k x) Q
  end.

Lemma obeys_bind pr {A B} (p : prog A) (f : A -> prog B) Q :
  obeys pr p (fun a => obeys pr (f a) Q) -> obeys pr (p ≫= f) Q.
Proof. induction p as [a|e|r|X op k IH]; simpl; naive_solver. Qed.

Lemma obeys_mono pr {A} (p : prog A) (Q Q' : A -> Prop) :
  obeys pr p Q -> (forall a, Q a -> Q' a) -> obeys pr p Q'.
Proof. induction p as [a|e|r|X op k IH]; simpl; naive_solver. Qed.

Lemma obeys_ret pr {A} (a : A) (Q : A -> Prop) : Q a -> obeys pr (mret a) Q.
Proof. done. Qed.

(** Two protocols at once: each may count on the answers of both. *)
Definition both (pr1 pr2 : protocol) : protocol := {|
  guar X op := guar pr1 X op /\ guar pr2 X op;
  rely X op x := rely pr1 X op x /\ rely pr2 X op x;
  may_fail e := may_fail pr1 e /\ may_fail pr2 e;
  may_trap r := may_trap pr1 r /\ may_trap pr2 r;
|}.

Lemma obeys_both pr1 pr2 {A} (p : prog A) (Q1 Q2 : A -> Prop) :
  obeys pr1 p Q1 -> obeys pr2 p Q2 -> obeys (both pr1 pr2) p (fun a => Q1 a /\ Q2 a).
Proof. induction p as [a|e|r|X op k IH]; simpl; naive_solver. Qed.

(** A caught error is an ordinary result. *)
Lemma obeys_catch_any pr {A} (p : prog A) Q :
  (forall e, Q (inr e)) -> obeys pr p (fun a => Q (inl a)) -> obeys pr (catch p) Q.
Proof. intros HQ. induction p as [a|e|r|X op k IH]; simpl; naive_solver. Qed.

Section soundness.
Context {Sto Wld : Type} `{!InstanceStorage Sto} `{!World Wld}.

(** The host upholds a protocol in an invariant: permitted calls keep the
    invariant, answer as the protocol promises, and trap only as it allows. *)
Definition upholds (pr : protocol) (cx : context) (Inv : state Sto Wld -> Prop) : Prop :=
  forall X (op : HostE X) st, Inv st -> guar pr X op ->
    match handle cx op st with
    | inl (x, st') => rely pr X op x /\ Inv st'
    | inr r => may_trap pr r
    end.

Lemma obeys_run pr cx Inv {A} (p : prog A) Q st :
  upholds pr cx Inv -> Inv st -> obeys pr p Q ->
  match run cx p st with
  | Done a st' => Inv st' /\ Q a
  | Failed e st' => Inv st' /\ may_fail pr e
  | Trapped r => may_trap pr r
  end.
Proof.
  intros Hup. revert st. induction p as [a|e|r|X op k IH]; intros st HI Hob; simpl in *; [done..|].
  destruct Hob as [Hg Hk]. specialize (Hup X op st HI Hg).
  destruct (handle cx op st) as [[x st']|r]; [|done].
  destruct Hup as [Hr HI']. by apply IH, Hk.
Qed.

End soundness.

(** ** Reads as views

    [look c k s] is what [get::<_, T>(k)] answers on a store it can read. *)

Section views.
Context {Sto Wld : Type} `{!InstanceStorage Sto} `{!World Wld}.

Definition look {T} (c : codec T) (k : DataKey) (s : Sto) : option T :=
  match sget k s with Some v => try_from_val c v | None => None end.

Definition readable {T} (c : codec T) (k : DataKey) (s : Sto) : Prop :=
  forall v, sget k s = Some v -> try_from_val c v <> None.

Lemma run_get {T} cx (c : codec T) k (st : state Sto Wld) :
  readable c k (storage st) ->
  run cx (storage_get c k) st = Done (look c k (storage st)) st.
Proof.
  unfold readable, look, storage_get. simpl. intros Hr.
  destruct (sget k (storage st)) as [v|]; [|done].
  destruct (try_from_val c v) eqn:E; [done|]. by destruct (Hr v).
Qed.

Lemma run_has cx k (st : state Sto Wld) :
  run cx (storage_has k) st = Done (bool_decide (is_Some (sget k (storage st)))) st.
Proof. done. Qed.

Lemma run_set {T} cx (c : codec T) k x (st : state Sto Wld) :
  run cx (storage_set c k x) st = Done tt (with_storage (sset k (into_val c x)) st).
Proof. done. Qed.

Lemma run_remove cx k (st : state Sto Wld) :
  run cx (storage_remove k) st = Done tt (with_storage (sremove k) st).
Proof. done. Qed.

Lemma run_ttl cx a b (st : state Sto Wld) :
  run cx (extend_ttl a b) st = Done tt (log (TtlExtended a b) st).
Proof. done. Qed.

Lemma run_publish cx ts d (st : state Sto Wld) :
  run cx (events_publish ts d) st = Done tt (log (Published ts d) st).
Proof. done. Qed.

Lemma run_auth cx a (st : state Sto Wld) :
  run cx (require_auth a) st =
    if authorized cx a then Done tt st else Trapped (AuthFailure a).
Proof. simpl. by destruct (authorized cx a). Qed.

Lemma run_timestamp cx (st : state Sto Wld) :
  run cx ledger_timestamp st = Done (timestamp cx) st.
Proof. done. Qed.

Lemma run_self cx (st : state Sto Wld) :
  run cx current_contract_address st = Done (self_address cx) st.
Proof. done. Qed.

Lemma run_transfer cx tk from to n (st : state Sto Wld) :
  run cx (perform (TokenTransfer tk from to n)) st =
    match token_transfer tk from to n (world st) with
    | Some w => Done tt (with_world w st)
    | None => Trapped (CallFailure tk)
    end.
Proof. simpl. by destruct (token_transfer _ _ _ _ _). Qed.

Lemma run_release cx v i (st : state Sto Wld) :
  run cx (perform (TryReleaseFunds v i)) st =
    match release_funds v i (world st) with
    | Some w => Done true (with_world w st)
    | None => Done false st
    end.
Proof. simpl. by destruct (release_funds _ _ _). Qed.

Lemma run_invoke cx c fn args (st : state Sto Wld) :
  run cx (perform (InvokeContract c fn args)) st =
    match invoke_contract c fn args (world st) with
    | Some w => Done tt (with_world w st)
    | None => Trapped (CallFailure c)
    end.
Proof. simpl. by destruct (invoke_contract _ _ _ _). Qed.

Lemma run_ret cx {A} (a : A) (st : state Sto Wld) : run cx (mret a) st = Done a st.
Proof. done. Qed.

Lemma run_fail cx {A} e (st : state Sto Wld) : run cx (Fail e : prog A) st = Failed e st.
Proof. done. Qed.

Lemma run_panic cx {A} r (st : state Sto Wld) : run cx (Panic r : prog A) st = Trapped r.
Proof. done. Qed.

Lemma run_unwrap cx {A} (o : option A) (st : state Sto Wld) :
  run cx (unwrap o) st = match o with Some a => Done a st | None => Trapped UnwrapNone end.
Proof. by destruct o. Qed.

Lemma run_ok_or cx {A} (o : option A) e (st : state Sto Wld) :
  run cx (ok_or o e) st = match o with Some a => Done a st | None => Failed e st end.
Proof. by destruct o. Qed.

Lemma run_arith cx o (st : state Sto Wld) :
  run cx (arith o) st = match o with Some a => Done a st | None => Trapped Overflow end.
Proof. by destruct o. Qed.

Lemma look_Some {T} (c : codec T) k s x : look c k s = Some x -> sget k s = Some (into_val c x).
Proof. unfold look. case_match; [|done]. intros ->%into_try_from. done. Qed.

Lemma look_into {T} (c : codec T) k s o : sget k s = into_val c <$> o -> look c k s = o.
Proof. unfold look. intros ->. destruct o; simpl; [apply try_from_into | done]. Qed.

Lemma look_sset {T} (c : codec T) k x s : look c k (sset k (into_val c x) s) = Some x.
Proof. unfold look. rewrite sget_sset. apply try_from_into. Qed.

Lemma look_sset_ne {T} (c : codec T) k k' v s : k <> k' -> look c k' (sset k v s) = look c k' s.
Proof. intros. unfold look. by rewrite sget_sset_ne. Qed.

Lemma look_sremove {T} (c : codec T) k s : look c k (sremove k s) = None.
Proof. unfold look. by rewrite sget_sremove. Qed.

Lemma look_sremove_ne {T} (c : codec T) k k' s : k <> k' -> look c k' (sremove k s) = look c k' s.
Proof. intros. unfold look. by rewrite sget_sremove_ne. Qed.

Lemma look_frame {T} (c : codec T) k s s' : sget k s = sget k s' -> look c k s = look c k s'.
Proof. unfold look. by intros ->. Qed.

End views.

(** ** Inversion of runs *)

Section inversion.
Context {Sto Wld : Type} `{!InstanceStorage Sto} `{!World Wld}.
Implicit Types (st : state Sto Wld) (cx : context).

Lemma run_bind_done cx {A B} (p : prog A) (f : A -> prog B) st b st'' :
  run cx (p ≫= f) st = Done b st'' <->
  exists a st', run cx p st = Done a st' /\ run cx (f a) st' = Done b st''.
Proof. rewrite run_bind. destruct (run cx p st); naive_solver. Qed.

Lemma run_ret_done cx {A} (a b : A) st st' :
  run cx (mret a) st = Done b st' <-> b = a /\ st' = st.
Proof. simpl. naive_solver. Qed.

Lemma run_fail_done cx {A} e (b : A) st st' : run cx (Fail e) st = Done b st' <-> False.
Proof. done. Qed.

Lemma run_panic_done cx {A} r (b : A) st st' : run cx (Panic r) st = Done b st' <-> False.
Proof. done. Qed.

Lemma run_get_done cx {T} (c : codec T) k st o st' :
  run cx (storage_get c k) st = Done o st' <->
  st' = st /\ sget k (storage st) = into_val c <$> o.
Proof.
  unfold storage_get; simpl. destruct (sget k (storage st)) as [v|] eqn:E; simpl.
  - destruct (try_from_val c v) as [x|] eqn:Hc; simpl.
    + apply into_try_from in Hc as ->. split.
      * by intros [= <- <-].
      * intros [-> H]. destruct o as [y|]; [|done]. simpl in H. simplify_eq.
        pose proof (try_from_into c x) as H1. rewrite H, try_from_into in H1. congruence.
    + split; [done|]. intros [_ H]. destruct o; simplify_eq/=. by rewrite try_from_into in Hc.
  - split; [by intros [= <- <-] |]. intros [-> H]. by destruct o.
Qed.

Lemma run_has_done cx k st b st' :
  run cx (storage_has k) st = Done b st' <->
  st' = st /\ b = bool_decide (is_Some (sget k (storage st))).
Proof. simpl. naive_solver. Qed.

Lemma run_set_done cx {T} (c : codec T) k x st u st' :
  run cx (storage_set c k x) st = Done u st' <-> st' = with_storage (sset k (into_val c x)) st.
Proof. destruct u. simpl. naive_solver. Qed.

Lemma run_remove_done cx k st u st' :
  run cx (storage_remove k) st = Done u st' <-> st' = with_storage (sremove k) st.
Proof. destruct u. simpl. naive_solver. Qed.

Lemma run_ttl_done cx a b st u st' :
  run cx (extend_ttl a b) st = Done u st' <-> st' = log (TtlExtended a b) st.
Proof. destruct u. simpl. naive_solver. Qed.

Lemma run_publish_done cx ts d st u st' :
  run cx (events_publish ts d) st = Done u st' <-> st' = log (Published ts d) st.
Proof. destruct u. simpl. naive_solver. Qed.

Lemma run_auth_done cx a st u st' :
  run cx (require_auth a) st = Done u st' <-> authorized cx a = true /\ st' = st.
Proof. destruct u. simpl. destruct (authorized cx a); naive_solver. Qed.

Lemma run_timestamp_done cx st t st' :
  run cx ledger_timestamp st = Done t st' <-> t = timestamp cx /\ st' = st.
Proof. simpl. naive_solver. Qed.

Lemma run_self_done cx st a st' :
  run cx current_contract_address st = Done a st' <-> a = self_address cx /\ st' = st.
Proof. simpl. naive_solver. Qed.

Lemma run_transfer_done cx token from to amount st u st' :
  run cx (perform (TokenTransfer token from to amount)) st = Done u st' <->
  exists w, token_transfer token from to amount (world st) = Some w /\ st' = with_world w st.
Proof. destruct u. simpl. repeat case_match; naive_solver. Qed.

Lemma run_release_done cx vault id st b st' :
  run cx (perform (TryReleaseFunds vault id)) st = Done b st' <->
  (exists w, release_funds vault id (world st) = Some w /\ b = true /\ st' = with_world w st) \/
  release_funds vault id (world st) = None /\ b = false /\ st' = st.
Proof. simpl. destruct (release_funds vault id (world st)); naive_solver. Qed.

Lemma run_invoke_done cx c fn args st u st' :
  run cx (perform (InvokeContract c fn args)) st = Done u st' <->
  exists w, invoke_contract c fn args (world st) = Some w /\ st' = with_world w st.
Proof. destruct u. simpl. repeat case_match; naive_solver. Qed.

Lemma run_wasm_done cx h st u st' :
  run cx (perform (UpdateCurrentContractWasm h)) st = Done u st' <-> st' = log (WasmUpdated h) st.
Proof. destruct u. simpl. naive_solver. Qed.

Lemma run_unwrap_done cx {A} (o : option A) st a st' :
  run cx (unwrap o) st = Done a st' <-> o = Some a /\ st' = st.
Proof. destruct o; simpl; naive_solver. Qed.

Lemma run_ok_or_done cx {A} (o : option A) e st a st' :
  run cx (ok_or o e) st = Done a st' <-> o = Some a /\ st' = st.
Proof. destruct o; simpl; naive_solver. Qed.

Lemma run_arith_done cx o st a st' :
  run cx (arith o) st = Done a st' <-> o = Some a /\ st' = st.
Proof. destruct o; simpl; naive_solver. Qed.

Lemma run_catch_done cx {A} (p : prog A) st r st' :
  run cx (catch p) st = Done r st' <->
  match r with inl a => run cx p st = Done a st' | inr e => run cx p st = Failed e st' end.
Proof. rewrite run_catch. destruct r, (run cx p st); naive_solver. Qed.

(** Error returns: only [Fail] and [ok_or] return one. *)

Lemma run_bind_failed cx {A B} (p : prog A) (f : A -> prog B) st e st'' :
  run cx (p ≫= f) st = Failed e st'' <->
  run cx p st = Failed e st'' \/
  exists a st', run cx p st = Done a st' /\ run cx (f a) st' = Failed e st''.
Proof. rewrite run_bind. destruct (run cx p st); naive_solver. Qed.

Lemma run_perform_failed cx {X} (op : HostE X) st e st' :
  run cx (perform op) st = Failed e st' <-> False.
Proof. unfold perform; simpl. destruct (handle cx op st) as [[]|]; naive_solver. Qed.

Lemma run_get_failed cx {T} (c : codec T) k st e st' :
  run cx (storage_get c k) st = Failed e st' <-> False.
Proof. unfold storage_get; simpl. destruct (sget k _) as [v|]; [destruct (try_from_val c v)|]; naive_solver. Qed.

Lemma run_fail_failed cx {A} e st e' st' :
  run cx (Fail e : prog A) st = Failed e' st' <-> e' = e /\ st' = st.
Proof. simpl. naive_solver. Qed.

Lemma run_ok_or_failed cx {A} (o : option A) e st e' st' :
  run cx (ok_or o e) st = Failed e' st' <-> o = None /\ e' = e /\ st' = st.
Proof. destruct o; simpl; naive_solver. Qed.

Lemma run_unwrap_failed cx {A} (o : option A) st e st' :
  run cx (unwrap o) st = Failed e st' <-> False.
Proof. destruct o; simpl; naive_solver. Qed.

Lemma run_arith_failed cx o st e st' : run cx (arith o) st = Failed e st' <-> False.
Proof. destruct o; simpl; naive_solver. Qed.

Lemma run_catch_failed cx {A} (p : prog A) st e st' :
  run cx (catch p) st = Failed e st' <-> False.
Proof. rewrite run_catch. destruct (run cx p st); naive_solver. Qed.

End inversion.

(** ** Tactics

    [simpl] does not run programs: [run_inv] works on the source of a program,
    not on its normal form.

    [run_inv] opens a definition when it reaches it. *)

#[global] Arguments run : simpl never.
#[global] Arguments mbind : simpl never.
#[global] Arguments prog_bind : simpl never.
#[global] Arguments obeys : simpl never.
#[global] Arguments catch : simpl never.
#[global] Arguments perform : simpl never.
#[global] Arguments storage_get : simpl never.
#[global] Arguments storage_set : simpl never.
#[global] Arguments look : simpl never.

Ltac prog_head p :=
  lazymatch p with
  | ?f _ => prog_head f
  | ?f => f
  end.

Ltac run_inv_prim H p :=
  lazymatch p with
  | mret _ => apply run_ret_done in H; destruct H as [? ?]
  | storage_get _ _ => apply run_get_done in H; destruct H as [? ?]
  | storage_has _ => apply run_has_done in H; destruct H as [? ?]
  | storage_set _ _ _ => apply run_set_done in H
  | storage_remove _ => apply run_remove_done in H
  | require_auth _ => apply run_auth_done in H; destruct H as [? ?]
  | extend_ttl _ _ => apply run_ttl_done in H
  | events_publish _ _ => apply run_publish_done in H
  | ledger_timestamp => apply run_timestamp_done in H; destruct H as [? ?]
  | current_contract_address => apply run_self_done in H; destruct H as [? ?]
  | perform (TokenTransfer _ _ _ _) => apply run_transfer_done in H; destruct H as (? & ? & ?)
  | perform (TryReleaseFunds _ _) =>
      apply run_release_done in H; destruct H as [(? & ? & ? & ?) | (? & ? & ?)]
  | perform (InvokeContract _ _ _) => apply run_invoke_done in H; destruct H as (? & ? & ?)
  | perform (UpdateCurrentContractWasm _) => apply run_wasm_done in H
  | unwrap _ => apply run_unwrap_done in H; destruct H as [? ?]
  | ok_or _ _ => apply run_ok_or_done in H; destruct H as [? ?]
  | arith _ => apply run_arith_done in H; destruct H as [? ?]
  | catch _ => apply run_catch_done in H
  end.

Ltac run_inv_failed_prim H p :=
  lazymatch p with
  | mret _ => discriminate H
  | Panic _ => discriminate H
  | Fail _ => apply run_fail_failed in H; destruct H as [? ?]
  | storage_get _ _ => apply run_get_failed in H; destruct H
  | ok_or _ _ => apply run_ok_or_failed in H; destruct H as (? & ? & ?)
  | unwrap _ => apply run_unwrap_failed in H; destruct H
  | arith _ => apply run_arith_failed in H; destruct H
  | catch _ => apply run_catch_failed in H; destruct H
  | perform _ => apply run_perform_failed in H; destruct H
  end.

(** [simplify_eq] on the equations [run_inv] leaves, and the laws of the store
    on the reads that follow writes. *)
Ltac store_simpl_hyp H :=
  repeat first
    [ rewrite sget_sset in H | rewrite sget_sremove in H
    | rewrite sget_sset_ne in H by congruence
    | rewrite sget_sremove_ne in H by congruence ].

Ltac store_simpl :=
  simpl in *;
  repeat match goal with
  | H : context [sget _ (sset _ _ _)] |- _ => progress store_simpl_hyp H
  | H : context [sget _ (sremove _ _)] |- _ => progress store_simpl_hyp H
  end;
  repeat first
    [ rewrite sget_sset | rewrite sget_sremove
    | rewrite sget_sset_ne by congruence
    | rewrite sget_sremove_ne by congruence ].

Ltac run_inv_step :=
  match goal with
  | H : run _ (Fail _) _ = Done _ _ |- _ => discriminate H
  | H : run _ (Panic _) _ = Done _ _ |- _ => discriminate H
  | H : run _ (_ ≫= _) _ = Done _ _ |- _ =>
      apply run_bind_done in H; destruct H as (? & ? & ? & H); cbv beta zeta in H
  | H : run _ (_ ≫= _) _ = Failed _ _ |- _ =>
      apply run_bind_failed in H;
      destruct H as [H | (? & ? & ? & H)]; cbv beta zeta in H
  | H : run _ (if ?b then _ else _) _ = _ |- _ => destruct b eqn:?
  | H : run _ (match ?x with _ => _ end) _ = _ |- _ => destruct x eqn:?
  | H : run _ ?p _ = Done _ _ |- _ => run_inv_prim H p
  | H : run _ ?p _ = Failed _ _ |- _ => run_inv_failed_prim H p
  | H : run _ ?p _ = _ |- _ => let h := prog_head p in unfold h in H; cbv beta zeta in H
  end; simplify_eq.

Ltac run_inv := repeat run_inv_step.

(** ** Rules and tactic for protocols *)

Lemma obeys_fail pr {A} e (Q : A -> Prop) : may_fail pr e -> obeys pr (Fail e) Q.
Proof. done. Qed.

Lemma obeys_panic pr {A} r (Q : A -> Prop) : may_trap pr r -> obeys pr (Panic r) Q.
Proof. done. Qed.

Lemma obeys_perform pr {X} (op : HostE X) (Q : X -> Prop) :
  guar pr X op -> (forall x, rely pr X op x -> Q x) -> obeys pr (perform op) Q.
Proof. done. Qed.

Lemma obeys_get pr {T} (c : codec T) k (Q : option T -> Prop) :
  guar pr _ (StorageGet k) ->
  (forall o, rely pr _ (StorageGet k) (into_val c <$> o) -> Q o) ->
  (forall v, rely pr _ (StorageGet k) (Some v) -> try_from_val c v = None ->
    may_trap pr ConversionFailure) ->
  obeys pr (storage_get c k) Q.
Proof.
  intros Hg HQ Hc. split; [done|]. intros [v|] Hr.
  - destruct (try_from_val c v) as [x|] eqn:E; [|by eapply Hc].
    apply into_try_from in E as ->. by apply (HQ (Some x)).
  - by apply (HQ None).
Qed.

Lemma obeys_unwrap pr {A} (o : option A) (Q : A -> Prop) :
  (forall a, o = Some a -> Q a) -> may_trap pr UnwrapNone -> obeys pr (unwrap o) Q.
Proof. destruct o; intros HQ Hr; [by apply HQ | done]. Qed.

Lemma obeys_ok_or pr {A} (o : option A) e (Q : A -> Prop) :
  (forall a, o = Some a -> Q a) -> may_fail pr e -> obeys pr (ok_or o e) Q.
Proof. destruct o; intros HQ Hr; [by apply HQ | done]. Qed.

Lemma obeys_arith pr o (Q : Z -> Prop) :
  (forall z, o = Some z -> Q z) -> may_trap pr Overflow -> obeys pr (arith o) Q.
Proof. destruct o; intros HQ Hr; [by apply HQ | done]. Qed.

Ltac obey_step :=
  lazymatch goal with
  | |- obeys _ (_ ≫= _) _ => apply obeys_bind
  | |- obeys _ (mret _) _ => apply obeys_ret
  | |- obeys _ (Fail _) _ => apply obeys_fail
  | |- obeys _ (Panic _) _ => apply obeys_panic
  | |- obeys _ (if ?b then _ else _) _ => destruct b eqn:?
  | |- obeys _ (match ?x with _ => _ end) _ => destruct x eqn:?
  | |- obeys _ (perform _) _ => apply obeys_perform
  | |- obeys _ (storage_get _ _) _ => apply obeys_get
  | |- obeys _ (unwrap _) _ => apply obeys_unwrap
  | |- obeys _ (ok_or _ _) _ => apply obeys_ok_or
  | |- obeys _ (arith _) _ => apply obeys_arith
  | |- obeys _ (catch _) _ => apply obeys_catch_any
  | |- obeys _ ?p _ => let h := prog_head p in unfold h
  | |- forall _, _ => intro
  end; cbv beta zeta.

Ltac obey := repeat obey_step.
