(* ===== verification/Frame.v ===== *)
(** * Store equivalence, event logs and authorization

    What can be read off the text of a handler, without running it:
    - [store_eq]: stores that answer every key alike, and that programs cannot
      tell such stores apart ([run_proper]);
    - [publishes Ev p]: what it may append to the host's log;
    - [auth_first a p]: [a] signs before anything is changed. *)

From stdpp Require Import prelude gmap list strings.
From Stdlib Require Import ZArith Lia Morphisms.
From S2P Require Import Prelude.
From S2P Require Import Types.
From S2P Require Import Host.
From S2P Require Import Logic.

Section equivalence.
Context {Sto Wld : Type} `{!InstanceStorage Sto} `{!World Wld}.

Definition store_eq (s1 s2 : Sto) : Prop := forall k, sget k s1 = sget k s2.

Definition state_eq (st1 st2 : state Sto Wld) : Prop :=
  store_eq (storage st1) (storage st2) /\ world st1 = world st2 /\ effects st1 = effects st2.

Definition outcome_eq {A} (o1 o2 : outcome Sto Wld A) : Prop :=
  match o1, o2 with
  | Done a1 st1, Done a2 st2 => a1 = a2 /\ state_eq st1 st2
  | Failed e1 st1, Failed e2 st2 => e1 = e2 /\ state_eq st1 st2
  | Trapped r1, Trapped r2 => r1 = r2
  | _, _ => False
  end.

#[global] Instance store_eq_equivalence : Equivalence store_eq.
Proof.
  split.
  - by intros s k.
  - intros s1 s2 H k. by rewrite H.
  - intros s1 s2 s3 H1 H2 k. by rewrite H1.
Qed.

#[global] Instance state_eq_equivalence : Equivalence state_eq.
Proof.
  split; unfold state_eq.
  - done.
  - intros st1 st2 (H1 & H2 & H3). by rewrite H1, H2, H3.
  - intros st1 st2 st3 (H1 & H2 & H3) (H4 & H5 & H6). by rewrite H1, H2, H3.
Qed.

#[global] Instance sget_proper : Proper (eq ==> store_eq ==> eq) sget.
Proof. intros k ? <- s1 s2 H. apply H. Qed.

#[global] Instance sset_proper : Proper (eq ==> eq ==> store_eq ==> store_eq) sset.
Proof.
  intros k ? <- v ? <- s1 s2 H k'. destruct (decide (k = k')) as [->|Hne].
  - by rewrite !sget_sset.
  - by rewrite !sget_sset_ne.
Qed.

#[global] Instance sremove_proper : Proper (eq ==> store_eq ==> store_eq) sremove.
Proof.
  intros k ? <- s1 s2 H k'. destruct (decide (k = k')) as [->|Hne].
  - by rewrite !sget_sremove.
  - by rewrite !sget_sremove_ne.
Qed.

(** Taking and releasing an entry that was not there changes nothing. *)
Lemma sremove_sset k v s : sget k s = None -> store_eq (sremove k (sset k v s)) s.
Proof.
  intros Hk k'. destruct (decide (k = k')) as [<-|Hne].
  - by rewrite sget_sremove.
  - by rewrite sget_sremove_ne, sget_sset_ne.
Qed.

Lemma handle_proper cx {X} (op : HostE X) st1 st2 :
  state_eq st1 st2 ->
  match handle cx op st1, handle cx op st2 with
  | inl (x1, st1'), inl (x2, st2') => x1 = x2 /\ state_eq st1' st2'
  | inr r1, inr r2 => r1 = r2
  | _, _ => False
  end.
Proof.
  intros (Hs & Hw & He).
  destruct op; simpl; rewrite ?(Hs k), ?Hw, ?He; try done;
    repeat case_match; simplify_eq; unfold state_eq; simpl; rewrite ?Hs, ?He; done.
Qed.

(** Programs only see a store through [sget]. *)
Lemma run_proper cx {A} (p : prog A) st1 st2 :
  state_eq st1 st2 -> outcome_eq (run cx p st1) (run cx p st2).
Proof.
  revert st1 st2. induction p as [a|e|r|X op k IH]; intros st1 st2 Heq; [done..|].
  rewrite !run_vis. pose proof (handle_proper cx op st1 st2 Heq) as Hh.
  destruct (handle cx op st1) as [[x1 st1']|r1], (handle cx op st2) as [[x2 st2']|r2]; try done.
  destruct Hh as [<- Heq']. by apply IH.
Qed.

End equivalence.

Definition any {A} (_ : A) : Prop := True.

(** ** The event log *)

Definition logs_protocol (Ev : effect -> Prop) : protocol := {|
  guar X op := match op with
               | EventsPublish ts d => Ev (Published ts d)
               | ExtendTtl a b => Ev (TtlExtended a b)
               | UpdateCurrentContractWasm h => Ev (WasmUpdated h)
               | _ => True
               end;
  rely X op x := True;
  may_fail := any;
  may_trap := any;
|}.

(** [p] logs only effects that satisfy [Ev]. *)
Definition publishes (Ev : effect -> Prop) {A} (p : prog A) : Prop :=
  obeys (logs_protocol Ev) p any.

(** ** Read-only programs *)

Definition read_only {X} (op : HostE X) : Prop :=
  match op with
  | StorageGet _ | StorageHas _ | LedgerTimestamp | CurrentContractAddress => True
  | _ => False
  end.

Definition view_protocol : protocol := {|
  guar X op := read_only op;
  rely X op x := True;
  may_fail := any;
  may_trap := any;
|}.

Definition views {A} (p : prog A) : Prop := obeys view_protocol p any.

(** ** Authorization

    On every path of [p] that completes or changes anything, [a] has signed
    first: before [RequireAuth a] there are only reads. *)

Fixpoint auth_first (a : Address) {A} (p : prog A) : Prop :=
  match p with
  | Ret _ => False
  | Fail _ | Panic _ => True
  | Vis op k =>
      match op with RequireAuth b => b = a | _ => False end \/
      (read_only op /\ forall x, auth_first a (k x))
  end.

#[global] Arguments auth_first : simpl never.

Lemma auth_first_bind_read a {A B} (p : prog A) (f : A -> prog B) :
  views p -> (forall x, auth_first a (f x)) -> auth_first a (p ≫= f).
Proof.
  intros Hp Hf. induction p as [x|e|r|X op k IH]; [apply Hf|done|done|].
  destruct Hp as [Hop Hk]. right. split; [done|]. intros x. by apply IH, Hk.
Qed.

Lemma auth_first_bind_auth a {B} (f : unit -> prog B) :
  auth_first a (require_auth a ≫= f).
Proof. by left. Qed.

Lemma auth_first_fail a {A} e : auth_first a (Fail e : prog A).
Proof. done. Qed.

Section frame_soundness.
Context {Sto Wld : Type} `{!InstanceStorage Sto} `{!World Wld}.
Implicit Types (st : state Sto Wld) (cx : context).

(** What one call does to the store and to the log. *)
Definition op_store {X} (op : HostE X) (s : Sto) : Sto :=
  match op with
  | StorageSet k v => sset k v s
  | StorageRemove k => sremove k s
  | _ => s
  end.

Definition op_log {X} (op : HostE X) : list effect :=
  match op with
  | EventsPublish ts d => [Published ts d]
  | ExtendTtl a b => [TtlExtended a b]
  | UpdateCurrentContractWasm h => [WasmUpdated h]
  | _ => []
  end.

Lemma handle_inl cx {X} (op : HostE X) st x st' :
  handle cx op st = inl (x, st') ->
  storage st' = op_store op (storage st) /\ effects st' = effects st ++ op_log op.
Proof.
  destruct op; simpl; intros; repeat case_match; simplify_eq; simpl;
    by rewrite ?app_nil_r.
Qed.

(** The state a run ends in, when it ends in one. *)
Definition final_state {A} (o : outcome Sto Wld A) : option (state Sto Wld) :=
  match o with Done _ st | Failed _ st => Some st | Trapped _ => None end.

Lemma obeys_final pr cx (Inv : state Sto Wld -> Prop) {A} (p : prog A) Q st st' :
  upholds pr cx Inv -> Inv st -> obeys pr p Q ->
  final_state (run cx p st) = Some st' -> Inv st'.
Proof.
  intros Hup HI Hob Hf. pose proof (obeys_run pr cx Inv p Q st Hup HI Hob) as H.
  destruct (run cx p st); simplify_eq/=; naive_solver.
Qed.

Lemma publishes_log Ev cx {A} (p : prog A) st st' :
  publishes Ev p -> final_state (run cx p st) = Some st' ->
  exists l, effects st' = effects st ++ l /\ Forall Ev l.
Proof.
  intros Hp. eapply (obeys_final _ _ (fun st1 => exists l, effects st1 = effects st ++ l /\ Forall Ev l));
    [| by exists []; rewrite app_nil_r | done].
  intros X op st1 (l & Hl & HF) Hg.
  destruct (handle cx op st1) as [[x st2]|r] eqn:E; [|done].
  split; [done|]. apply handle_inl in E as [_ He]. exists (l ++ op_log op).
  rewrite He, Hl, app_assoc. split; [done|]. apply Forall_app. split; [done|].
  destruct op; simpl; auto.
Qed.

Lemma views_state cx {A} (p : prog A) st st' :
  views p -> final_state (run cx p st) = Some st' -> st' = st.
Proof.
  intros Hv. eapply (obeys_final _ _ (fun st1 => st1 = st)); [|done|done].
  intros X op st1 -> Hg. by destruct op.
Qed.

(** A program that asks for [a]'s signature first does nothing without it. *)
Lemma auth_first_run a cx {A} (p : prog A) st :
  auth_first a p -> authorized cx a = false ->
  match run cx p st with
  | Done _ _ => False
  | Failed _ st' => st' = st
  | Trapped _ => True
  end.
Proof.
  intros Hp Ha. revert st. induction p as [x|e|r|X op k IH]; intros st; try done.
  destruct Hp as [Hop | [Hop Hk]].
  - destruct op; try done. subst. rewrite run_vis. simpl. by rewrite Ha.
  - destruct op; try done; rewrite run_vis; simpl; apply IH, Hk.
Qed.

End frame_soundness.

Ltac frame_solve := obey; simpl; try done; try (by unfold any); try set_solver.

Ltac auth_solve :=
  repeat first
    [ apply auth_first_bind_auth | apply auth_first_fail
    | apply auth_first_bind_read; [unfold views; frame_solve; fail | intro]
    | lazymatch goal with
      | |- auth_first _ (if ?b then _ else _) => destruct b eqn:?
      | |- auth_first _ (_ ≫= _) => fail
      | |- auth_first _ ?p => let h := prog_head p in unfold h; cbv beta zeta
      end ].
