(* ===== verification/Typing.v ===== *)
(** * Storage typing

    [val_ok k v] is the type of key [k]: which Rust type the sources store
    under it, in range, with the key agreeing with the identifier inside the
    value.  [typed ks p] checks a program against it: reading typed values, it
    writes only typed values, only under the keys [ks], and never meets a value
    it cannot convert. *)

From stdpp Require Import prelude gmap list strings.
From Stdlib Require Import ZArith Lia.
From S2P Require Import Prelude.
From S2P Require Import Types.
From S2P Require Import Host.
From S2P Require Import Logic.
From S2P Require Import Frame.

Definition task_ok (t : Task) : Prop :=
  in_u64 (Task.id t) /\ in_u32 (Task.votes t) /\
  in_u64 (Task.resolved_at t) /\ in_u64 (Task.total_weight_accrued t).

(** No code writes [Admin] or [DripsAddress]. *)
Definition val_ok (k : DataKey) (v : Val) : Prop :=
  match k, v with
  | DataKey.Guardian _, VBool _ => True
  | DataKey.Reputation _, VU64 z => in_u64 z
  | DataKey.WeightThreshold, VU64 z => in_u64 z
  | DataKey.ActiveTask i, VTask t => Task.id t = i /\ task_ok t
  | DataKey.ArchivedTask i, VTask t =>
      Task.id t = i /\ task_ok t /\ Task.is_done t = true
  | DataKey.Voted _ _, VBool b => b = true
  | DataKey.VaultAddress, VAddress _ => True
  | DataKey.RewardStream i, VRewardStream s =>
      RewardStream.task_id s = i /\ RewardStream.active s = true
  | DataKey.TokenAddress, VAddress _ => True
  | DataKey.LockThreshold, VI128 z => in_i128 z
  | DataKey.LockedBalance _, VI128 z => in_i128 z
  | DataKey.Lock, VBool b => b = true
  | DataKey.FailureCount, VU32 z => in_u32 z
  | DataKey.Paused, VBool _ => True
  | DataKey.AllGuardians, VVecAddress _ => True
  | DataKey.AllTasks, VVecU64 l => Forall in_u64 l
  | DataKey.AllVotes, VVecVote l => Forall (fun v => in_u64 v.1) l
  | DataKey.AllRewardStreams, VVecU64 l => Forall in_u64 l
  | DataKey.Initialized, VBool b => b = true
  | _, _ => False
  end.

Definition typed_protocol (ks : list DataKey) : protocol := {|
  guar X op := match op with
               | StorageSet k v => k ∈ ks /\ val_ok k v
               | StorageRemove k => k ∈ ks
               | _ => True
               end;
  rely X op := match op in HostE X return X -> Prop with
               | StorageGet k => fun ov => forall v, ov = Some v -> val_ok k v
               | LedgerTimestamp => in_u64
               | _ => fun _ => True
               end;
  may_fail := any;
  may_trap r := r <> ConversionFailure;
|}.

Definition typed (ks : list DataKey) {A} (p : prog A) : Prop :=
  obeys (typed_protocol ks) p any.

(** ** Rules *)

Lemma typed_get ks {T} (c : codec T) k (Q : option T -> Prop) :
  (forall v, val_ok k v -> try_from_val c v <> None) ->
  (forall o, (forall x, o = Some x -> val_ok k (into_val c x)) -> Q o) ->
  obeys (typed_protocol ks) (storage_get c k) Q.
Proof.
  intros Hc HQ. apply obeys_get; [done| |].
  - intros o Hr. apply HQ. intros x ->. by apply Hr.
  - intros v Hr Hn. by destruct (Hc v (Hr v eq_refl)).
Qed.

Lemma typed_set ks {T} (c : codec T) k x (Q : unit -> Prop) :
  k ∈ ks -> val_ok k (into_val c x) -> Q tt ->
  obeys (typed_protocol ks) (storage_set c k x) Q.
Proof. intros Hk Hv HQ. apply obeys_perform; [done|]. by intros []. Qed.

Lemma typed_remove ks k (Q : unit -> Prop) :
  k ∈ ks -> Q tt -> obeys (typed_protocol ks) (storage_remove k) Q.
Proof. intros Hk HQ. apply obeys_perform; [done|]. by intros []. Qed.

Ltac typed_step :=
  lazymatch goal with
  | |- obeys _ (storage_get _ _) _ =>
      apply typed_get; [intros [] ?; simpl in *; solve [done | naive_solver] | intros ? ?]
  | |- obeys _ (storage_set _ _ _) _ => apply typed_set; [try solve_elem | try done |]
  | |- obeys _ (storage_remove _) _ => apply typed_remove; [try solve_elem |]
  | _ => obey_step
  end; cbv beta zeta.

(** The typing facts of the values read. *)
Ltac use_reads :=
  simplify_eq;
  repeat match goal with
  | H : forall x, Some _ = Some x -> val_ok _ _ |- _ => specialize (H _ eq_refl)
  | H : forall x, ?o = Some x -> val_ok _ _ |- context [?o] => destruct o; [|clear H]
  end;
  simpl in *; unfold task_ok in *; destruct_and?; checked_adds; simpl in *.

Ltac typed_solve :=
  repeat typed_step; try done;
  use_reads; try done;
  rewrite ?Forall_app, ?Forall_singleton; simpl; try done;
  try (by split_and!); try by subst; solve_elem.

Section typing.
Context {Sto Wld : Type} `{!InstanceStorage Sto} `{!World Wld}.
Implicit Types (st : state Sto Wld) (cx : context).

Definition well_typed st : Prop :=
  forall k v, sget k (storage st) = Some v -> val_ok k v.

Lemma typed_upholds ks cx st0 :
  in_u64 (timestamp cx) ->
  upholds (typed_protocol ks) cx
    (fun st => well_typed st /\
       forall k, k ∉ ks -> sget k (storage st) = sget k (storage st0)).
Proof.
  intros Hts X op st [Hwt Hfr] Hg.
  destruct (handle cx op st) as [[x st']|r] eqn:E.
  - pose proof (handle_inl cx op st x st' E) as [Hs _]. split.
    + destruct op; simpl in *; simplify_eq; try done. by intros v Hv; apply Hwt.
    + unfold well_typed. rewrite Hs. destruct op; simpl in *; simplify_eq; try done.
      * destruct Hg as [Hin Hok]. split.
        -- intros k' v'. destruct (decide (k = k')) as [<-|]; [rewrite sget_sset; congruence|].
           rewrite sget_sset_ne by done. apply Hwt.
        -- intros k' Hk'. rewrite sget_sset_ne by set_solver. by apply Hfr.
      * split.
        -- intros k' v'. destruct (decide (k = k')) as [<-|]; [by rewrite sget_sremove|].
           rewrite sget_sremove_ne by done. apply Hwt.
        -- intros k' Hk'. rewrite sget_sremove_ne by set_solver. by apply Hfr.
  - destruct op; simpl in *; repeat case_match; simplify_eq; done.
Qed.

Lemma typed_run ks cx {A} (p : prog A) st :
  in_u64 (timestamp cx) -> well_typed st -> typed ks p ->
  match run cx p st with
  | Done _ st' | Failed _ st' =>
      well_typed st' /\ forall k, k ∉ ks -> sget k (storage st') = sget k (storage st)
  | Trapped r => r <> ConversionFailure
  end.
Proof.
  intros Hts Hwt Hp.
  pose proof (obeys_run _ cx _ p _ st (typed_upholds ks cx st Hts) (conj Hwt (fun _ _ => eq_refl)) Hp) as H.
  by destruct (run cx p st) as [a st'|e st'|r]; [destruct H|destruct H|].
Qed.

Lemma well_typed_empty w l : well_typed (State sempty w l).
Proof. intros k v. simpl. by rewrite sget_sempty. Qed.

Lemma well_typed_set k v st :
  well_typed st -> val_ok k v -> well_typed (with_storage (sset k v) st).
Proof.
  intros Hwt Hv k' v'. simpl. destruct (decide (k = k')) as [<-|].
  - rewrite sget_sset. congruence.
  - rewrite sget_sset_ne by done. apply Hwt.
Qed.

Lemma well_typed_log e st : well_typed st -> well_typed (log e st).
Proof. done. Qed.

Lemma well_typed_world w st : well_typed st -> well_typed (with_world w st).
Proof. done. Qed.

Lemma well_typed_readable {T} (c : codec T) k st :
  well_typed st -> (forall v, val_ok k v -> try_from_val c v <> None) ->
  readable c k (storage st).
Proof. intros Hwt Hc v Hv. by apply Hc, Hwt. Qed.

End typing.

#[export] Hint Resolve well_typed_set well_typed_log well_typed_world : vero.

(** [readable] from [well_typed], also after writes to other keys. *)
Ltac solve_readable :=
  match goal with
  | Hwt : well_typed ?st |- readable _ _ _ =>
      let v := fresh in let Hv := fresh in
      intros v Hv; store_simpl; apply Hwt in Hv;
      destruct v; simpl in *; solve [done | naive_solver]
  end.

(** Symbolic execution: rewrites a run step by step, opening definitions as it
    reaches them, up to the first choice.  The state must be well typed where it
    is read. *)
Ltac run_open p := let h := prog_head p in unfold h.

Ltac run_go_step :=
  first
    [ rewrite run_bind
    | rewrite run_get by solve_readable
    | rewrite run_has | rewrite run_set | rewrite run_remove | rewrite run_ttl
    | rewrite run_publish | rewrite run_auth | rewrite run_timestamp | rewrite run_self
    | rewrite run_transfer | rewrite run_release | rewrite run_invoke | rewrite run_ret
    | rewrite run_fail | rewrite run_panic | rewrite run_unwrap | rewrite run_ok_or
    | rewrite run_arith
    | lazymatch goal with
      | |- context [run _ (_ ≫= _) _] => fail
      | |- context [run _ (if _ then _ else _) _] => fail
      | |- context [run _ (match _ with _ => _ end) _] => fail
      | |- context [run _ (storage_get _ _) _] => fail
      | |- context [run _ ?p _] => run_open p
      end ];
  cbv beta iota zeta.

Ltac run_go := repeat run_go_step.
