(* ===== verification/SampleHost.v ===== *)
(** * A sample host

    A concrete world the witnesses run against: one token ledger that moves
    balances and refuses negative or uncovered transfers, a vault that is down
    at one address, and a log of the payments and streams made. *)

From stdpp Require Import prelude gmap list strings.
From Stdlib Require Import ZArith Lia.
From S2P Require Import Prelude.
From S2P Require Import Types.
From S2P Require Import Host.

Record sample_world := SampleWorld {
  balances : gmap Address Z;
  payments : list (Address * Z);
  streams : list (Address * list Val);
}.

Definition balance_of (a : Address) (w : sample_world) : Z := default 0 (balances w !! a).

Definition dead_vault : Address := Addr 666.

Definition token : Address := Addr 7.

(** Only one token has any supply. *)
Definition sample_transfer (tk from to : Address) (amount : Z) (w : sample_world)
    : option sample_world :=
  if decide (tk = token) then
    if (amount <? 0) || (balance_of from w <? amount) then None
    else
      let w1 := SampleWorld (<[from := balance_of from w - amount]> (balances w))
                  (payments w) (streams w) in
      Some (SampleWorld (<[to := balance_of to w1 + amount]> (balances w1))
              (payments w) (streams w))
  else if amount =? 0 then Some w else None.

Definition sample_release (vault : Address) (task_id : Z) (w : sample_world)
    : option sample_world :=
  if decide (vault = dead_vault) then None
  else Some (SampleWorld (balances w) (payments w ++ [(vault, task_id)]) (streams w)).

#[global] Instance sample_host : World sample_world := {
  token_transfer := sample_transfer;
  release_funds := sample_release;
  invoke_contract c fn args w :=
    Some (SampleWorld (balances w) (payments w) (streams w ++ [(c, args)]));
}.

(** The state a contract is deployed in, and a signed context. *)
Abbreviation sample_state := (state (gmap DataKey Val) sample_world).

Definition w0 : sample_world :=
  SampleWorld (list_to_map [(Addr 1, 1000); (Addr 2, 1000); (Addr 3, 1000)]) [] [].

Definition self : Address := Addr 99.
Definition admin : Address := Addr 42.
Definition guardian1 : Address := Addr 1.
Definition guardian2 : Address := Addr 2.
Definition guardian3 : Address := Addr 3.

Definition at_time (t : Z) : context := Context (fun a => bool_decide (a <> self)) t self.
Definition unsigned (t : Z) : context := Context (fun _ => false) t self.
