(* ===== verification/Events.v ===== *)
(** * Event emission ([src/src/events.rs])

    One definition per [emit_*] function: its topic and its data. *)

From stdpp Require Import prelude gmap list strings.
From Stdlib Require Import ZArith Lia.
From S2P Require Import Prelude.
From S2P Require Import Types.
From S2P Require Import Host.

Local Open Scope string_scope.

Definition emit_task_resolved (task_id weight : Z) : prog unit :=
  events_publish ["resolved"] (DTuple [VU64 task_id; VU64 weight]).

Definition emit_weighted_vote (task_id : Z) (guardian : Address) (weight : Z) : prog unit :=
  events_publish ["wt_vote"] (DTuple [VU64 task_id; VAddress guardian; VU64 weight]).

Definition emit_pause_toggled (paused : bool) : prog unit :=
  events_publish ["paused"] (DValue (VBool paused)).

Definition emit_reward_stream_started (task_id : Z) (contributor : Address) : prog unit :=
  events_publish ["rw_start"] (DTuple [VU64 task_id; VAddress contributor]).

Definition emit_reward_stream_failed (task_id : Z) (contributor : Address) : prog unit :=
  events_publish ["rw_fail"] (DTuple [VU64 task_id; VAddress contributor]).

Definition emit_circuit_breaker_triggered (failure_count : Z) : prog unit :=
  events_publish ["cb_trip"] (DTuple [VU32 failure_count]).

Definition emit_task_cancelled (task_id : Z) : prog unit :=
  events_publish ["cancelled"] (DValue (VU64 task_id)).

Definition emit_task_archived (task_id resolved_at : Z) : prog unit :=
  events_publish ["archived"] (DTuple [VU64 task_id; VU64 resolved_at]).
