(* ===== verification/Reentrancy.v ===== *)
(** * The re-entrancy mutex ([src/src/reentrancy.rs]) *)

From stdpp Require Import prelude gmap list strings.
From Stdlib Require Import ZArith Lia.
From S2P Require Import Prelude.
From S2P Require Import Types.
From S2P Require Import Host.
From S2P Require Import Logic.
From S2P Require Import Frame.
From S2P Require Import Typing.
From S2P Require Import SampleHost.

(** Acquires the mutex, or fails with [Locked]. *)
Definition lock : prog unit :=
  held ← storage_has DataKey.Lock;
  if (held : bool) then Fail ContractError.Locked
  else storage_set c_bool DataKey.Lock true.

Definition unlock : prog unit := storage_remove DataKey.Lock.

(** ** Behaviour *)

Section behaviour.
Context {Sto Wld : Type} `{!InstanceStorage Sto} `{!World Wld}.
Implicit Types (st : state Sto Wld) (cx : context).

Definition locked st : bool := bool_decide (is_Some (sget DataKey.Lock (storage st))).

Lemma lock_run cx st :
  run cx lock st =
    if locked st then Failed ContractError.Locked st
    else Done tt (with_storage (sset DataKey.Lock (VBool true)) st).
Proof. unfold lock, locked. run_go. by case_match. Qed.

Lemma unlock_run cx st : run cx unlock st = Done tt (with_storage (sremove DataKey.Lock) st).
Proof. done. Qed.

(** The mutex excludes itself: whoever holds it makes [lock] fail and change
    nothing, and taking then releasing a free mutex leaves the store as it was. *)
Lemma lock_unlock cx st :
  locked st = false ->
  exists st', run cx (lock;; unlock) st = Done tt st' /\ state_eq st' st.
Proof.
  intros Hl. rewrite run_bind, lock_run, Hl, unlock_run. eexists; split; [done|].
  split; [|done]. apply sremove_sset. unfold locked in Hl.
  by apply bool_decide_eq_false, eq_None_not_Some in Hl.
Qed.

End behaviour.
