(* ===== verification/Reputation.v ===== *)
(** * Guardian reputation ([src/src/reputation.rs]) *)

From stdpp Require Import prelude gmap list strings.
From Stdlib Require Import ZArith Lia.
From S2P Require Import Prelude.
From S2P Require Import Types.
From S2P Require Import Host.

Definition set_reputation (admin guardian : Address) (score : Z) : prog unit :=
  require_auth admin;;
  storage_set c_u64 (DataKey.Reputation guardian) score.

Definition get_reputation (guardian : Address) : prog (option Z) :=
  storage_get c_u64 (DataKey.Reputation guardian).

(** The raw score is the weight. *)
Definition calculate_voting_power (guardian : Address) : prog (option Z) :=
  get_reputation guardian.
