(* ===== verification/Guardian.v ===== *)
(** * The guardian registry ([src/src/guardian.rs]) *)

From stdpp Require Import prelude gmap list strings.
From Stdlib Require Import ZArith Lia.
From S2P Require Import Prelude.
From S2P Require Import Types.
From S2P Require Import Host.
From S2P Require Import Logic.
From S2P Require Import Frame.
From S2P Require Import Typing.
From S2P Require Import SampleHost.

Definition LEDGER_TTL : Z := 100000.

Definition add_guardian (admin guardian : Address) : prog unit :=
  require_auth admin;;
  let key := DataKey.Guardian guardian in
  known ← storage_has key;
  (if negb known then
     all_guardians ← storage_get c_Vec_Address DataKey.AllGuardians;
     storage_set c_Vec_Address DataKey.AllGuardians
       (default [] all_guardians ++ [guardian])
   else mret ());;
  storage_set c_bool key true;;
  extend_ttl LEDGER_TTL LEDGER_TTL.

Definition remove_guardian (admin guardian : Address) : prog unit :=
  require_auth admin;;
  let key := DataKey.Guardian guardian in
  known ← storage_has key;
  if negb known then Panic (PanicWith "Guardian not found")
  else storage_remove key.

Definition is_guardian (guardian : Address) : prog bool :=
  b ← storage_get c_bool (DataKey.Guardian guardian);
  mret (default false b).

Definition get_all_guardians : prog (list Address) :=
  l ← storage_get c_Vec_Address DataKey.AllGuardians;
  mret (default [] l).

(** ** Behaviour *)

Section behaviour.
Context {Sto Wld : Type} `{!InstanceStorage Sto} `{!World Wld}.
Implicit Types (st : state Sto Wld) (cx : context).

Definition registered st (g : Address) : bool :=
  default false (look c_bool (DataKey.Guardian g) (storage st)).

Definition all_guardians st : list Address :=
  default [] (look c_Vec_Address DataKey.AllGuardians (storage st)).

Lemma is_guardian_run cx g st :
  well_typed st -> run cx (is_guardian g) st = Done (registered st g) st.
Proof. intros Hwt. unfold is_guardian. by run_go. Qed.

(** The store after [add_guardian]: an address is appended to the list the
    first time its key appears. *)
Definition guardian_added (g : Address) st : state Sto Wld :=
  let known := bool_decide (is_Some (sget (DataKey.Guardian g) (storage st))) in
  let st1 :=
    if known then st
    else with_storage (sset DataKey.AllGuardians (VVecAddress (all_guardians st ++ [g]))) st in
  log (TtlExtended LEDGER_TTL LEDGER_TTL)
    (with_storage (sset (DataKey.Guardian g) (VBool true)) st1).

Lemma add_guardian_run cx admin g st :
  well_typed st ->
  run cx (add_guardian admin g) st =
    if authorized cx admin then Done tt (guardian_added g st) else Trapped (AuthFailure admin).
Proof.
  intros Hwt. unfold add_guardian, guardian_added. run_go. destruct (authorized cx admin); [|done]. run_go.
  case_bool_decide; simpl; by run_go.
Qed.

Lemma remove_guardian_run cx admin g st :
  run cx (remove_guardian admin g) st =
    if authorized cx admin then
      match sget (DataKey.Guardian g) (storage st) with
      | Some _ => Done tt (with_storage (sremove (DataKey.Guardian g)) st)
      | None => Trapped (PanicWith "Guardian not found")
      end
    else Trapped (AuthFailure admin).
Proof.
  unfold remove_guardian. run_go. destruct (authorized cx admin); [|done]. run_go.
  by destruct (sget (DataKey.Guardian g) (storage st)) eqn:E.
Qed.

Lemma registered_added g g' st :
  registered (guardian_added g st) g' = if decide (g = g') then true else registered st g'.
Proof.
  unfold registered, guardian_added. simpl. case_decide as Hg.
  - subst. by rewrite (look_sset c_bool).
  - rewrite look_sset_ne by congruence. case_bool_decide; simpl; [done|].
    by rewrite look_sset_ne.
Qed.

End behaviour.
