(* ===== verification/CircuitBreaker.v ===== *)
(** * The circuit breaker ([src/src/circuit_breaker.rs]) *)

From stdpp Require Import prelude gmap list strings.
From Stdlib Require Import ZArith Lia.
From S2P Require Import Prelude.
From S2P Require Import Types.
From S2P Require Import Host.
From S2P Require Import Logic.
From S2P Require Import Frame.
From S2P Require Import Typing.
From S2P Require Import SampleHost.
From S2P Require Import Events.

Definition FAILURE_THRESHOLD : Z := 50.

Definition require_not_paused : prog unit :=
  paused ← storage_get c_bool DataKey.Paused;
  if default false paused then Fail ContractError.ContractPaused else mret ().

(** Counts a reported failure; past the threshold it pauses the contract,
    unless it is paused already. *)
Definition record_failure : prog unit :=
  prev ← storage_get c_u32 DataKey.FailureCount;
  count ← arith (u32_checked_add (default 0 prev) 1);
  storage_set c_u32 DataKey.FailureCount count;;
  if FAILURE_THRESHOLD <? count then
    paused ← storage_get c_bool DataKey.Paused;
    if negb (default false paused) then
      storage_set c_bool DataKey.Paused true;;
      emit_circuit_breaker_triggered count
    else mret ()
  else mret ().

Definition reset (admin : Address) : prog unit :=
  require_auth admin;;
  storage_set c_u32 DataKey.FailureCount 0;;
  storage_remove DataKey.Paused.

(** ** Behaviour *)

Section behaviour.
Context {Sto Wld : Type} `{!InstanceStorage Sto} `{!World Wld}.
Implicit Types (st : state Sto Wld) (cx : context).

Definition failure_count st : Z := default 0 (look c_u32 DataKey.FailureCount (storage st)).

Definition paused st : bool := default false (look c_bool DataKey.Paused (storage st)).

Lemma require_not_paused_spec cx st :
  well_typed st ->
  run cx require_not_paused st =
    if paused st then Failed ContractError.ContractPaused st else Done tt st.
Proof. intros Hwt. unfold require_not_paused. run_go. unfold paused. by case_match. Qed.

(** What a report does to the state: count it, and trip past the threshold. *)
Definition after_failure st : state Sto Wld :=
  let n := failure_count st + 1 in
  let st1 := with_storage (sset DataKey.FailureCount (VU32 n)) st in
  if (FAILURE_THRESHOLD <? n) && negb (paused st) then
    log (Published ["cb_trip"%string] (DTuple [VU32 n]))
      (with_storage (sset DataKey.Paused (VBool true)) st1)
  else st1.

Lemma record_failure_run cx st :
  well_typed st ->
  run cx record_failure st =
    if decide (failure_count st < u32_max) then Done tt (after_failure st)
    else Trapped Overflow.
Proof.
  intros Hwt.
  assert (Hc : in_u32 (failure_count st)).
  { unfold failure_count, look. destruct (sget _ _) as [v|] eqn:E; [|done].
    apply Hwt in E. by destruct v. }
  unfold record_failure. run_go. fold (failure_count st).
  unfold u32_checked_add, in_u32 in *. do 2 case_decide; try lia; [|done].
  unfold after_failure. run_go. case_match; simpl; [|done].
  run_go. simpl. rewrite look_sset_ne by done. fold (paused st). by case_match.
Qed.

End behaviour.
