(* ===== verification/Storage.v ===== *)
(** * Task storage and archiving ([src/src/storage.rs]) *)

From stdpp Require Import prelude gmap list strings.
From Stdlib Require Import ZArith Lia.
From S2P Require Import Prelude.
From S2P Require Import Types.
From S2P Require Import Host.
From S2P Require Import Logic.
From S2P Require Import Frame.
From S2P Require Import Typing.
From S2P Require Import SampleHost.

(** Thirty days. *)
Definition ARCHIVE_AFTER_SECONDS : Z := 30 * 24 * 60 * 60.

Definition active_task_key (task_id : Z) : DataKey := DataKey.ActiveTask task_id.
Definition archived_task_key (task_id : Z) : DataKey := DataKey.ArchivedTask task_id.

Definition has_active_task (task_id : Z) : prog bool :=
  storage_has (active_task_key task_id).

Definition get_active_task (task_id : Z) : prog (option Task) :=
  storage_get c_Task (active_task_key task_id).

Definition set_active_task (task : Task) : prog unit :=
  storage_set c_Task (active_task_key (Task.id task)) task.

Definition get_archived_task (task_id : Z) : prog (option Task) :=
  storage_get c_Task (archived_task_key task_id).

Definition archive_task (task_id : Z) : prog unit :=
  archived ← get_archived_task task_id;
  if bool_decide (is_Some archived) then Fail ContractError.TaskAlreadyArchived
  else
    active ← get_active_task task_id;
    task ← ok_or active ContractError.TaskNotFound;
    if negb (Task.is_done task) || (Task.resolved_at task =? 0) then
      Fail ContractError.TaskNotVerified
    else
      now ← ledger_timestamp;
      let age := u64_saturating_sub now (Task.resolved_at task) in
      if age <=? ARCHIVE_AFTER_SECONDS then Fail ContractError.TaskNotStale
      else
        storage_set c_Task (archived_task_key task_id) task;;
        storage_remove (active_task_key task_id).

(** ** Behaviour *)

Section behaviour.
Context {Sto Wld : Type} `{!InstanceStorage Sto} `{!World Wld}.
Implicit Types (st : state Sto Wld) (cx : context).

Definition active_task st (i : Z) : option Task := look c_Task (DataKey.ActiveTask i) (storage st).

Definition archived_task st (i : Z) : option Task :=
  look c_Task (DataKey.ArchivedTask i) (storage st).

(** [archive_task] in every case. *)
Definition archive_outcome cx (i : Z) st : outcome Sto Wld unit :=
  match archived_task st i, active_task st i with
  | Some _, _ => Failed ContractError.TaskAlreadyArchived st
  | None, None => Failed ContractError.TaskNotFound st
  | None, Some t =>
      if decide (Task.is_done t = true /\ Task.resolved_at t <> 0) then
        if decide (Task.resolved_at t + ARCHIVE_AFTER_SECONDS < timestamp cx) then
          Done tt
            (with_storage
               (fun s => sremove (DataKey.ActiveTask i) (sset (DataKey.ArchivedTask i) (VTask t) s))
               st)
        else Failed ContractError.TaskNotStale st
      else Failed ContractError.TaskNotVerified st
  end.

Lemma archive_task_run cx i st :
  well_typed st -> run cx (archive_task i) st = archive_outcome cx i st.
Proof.
  intros Hwt. unfold archive_task, archive_outcome, get_archived_task, get_active_task,
    archived_task_key, active_task_key. run_go.
  fold (archived_task st i). destruct (archived_task st i); [done|]. simpl. run_go.
  fold (active_task st i). destruct (active_task st i) as [t|]; [|done].
  destruct (Task.is_done t), (Z.eqb_spec (Task.resolved_at t) 0); simpl;
    rewrite ?decide_False by naive_solver; try done.
  rewrite decide_True by naive_solver. run_go.
  unfold u64_saturating_sub. case_match eqn:E; case_decide; try done;
    unfold ARCHIVE_AFTER_SECONDS in *; lia.
Qed.

End behaviour.
