(* ===== verification/Tasks.v ===== *)
(** * Task registration and cancellation ([src/src/task.rs]) *)

From stdpp Require Import prelude gmap list strings.
From Stdlib Require Import ZArith Lia.
From S2P Require Import Prelude.
From S2P Require Import Types.
From S2P Require Import Host.
From S2P Require Import Logic.
From S2P Require Import Frame.
From S2P Require Import Typing.
From S2P Require Import Events.
From S2P Require Import Reentrancy.
From S2P Require Import Storage.

Definition MAX_REGISTER_TASK_BATCH_SIZE : Z := 32.

(** The record a task is registered with. *)
Definition new_task (task_id : Z) : Task := Task.mk task_id 0 false 0 0 false.

(** The loop of [register_tasks]: it returns early, after releasing the mutex,
    on an identifier that is in use. *)
Fixpoint register_each (task_ids : list Z) : prog unit :=
  match task_ids with
  | [] => mret ()
  | task_id :: rest =>
      active ← has_active_task task_id;
      taken ← (if (active : bool) then mret true
               else archived ← get_archived_task task_id;
                    mret (bool_decide (is_Some archived)));
      if (taken : bool) then unlock;; Fail ContractError.NotAuthorized
      else
        set_active_task (new_task task_id);;
        register_each rest
  end.

Definition register_tasks (admin : Address) (task_ids : list Z) : prog unit :=
  if MAX_REGISTER_TASK_BATCH_SIZE <? Z.of_nat (length task_ids) then
    Fail ContractError.BatchTooLarge
  else
    require_auth admin;;
    lock;;
    all_tasks ← storage_get c_Vec_u64 DataKey.AllTasks;
    register_each task_ids;;
    storage_set c_Vec_u64 DataKey.AllTasks (default [] all_tasks ++ task_ids);;
    unlock.

Definition get_task (task_id : Z) : prog (option Task) := get_active_task task_id.

Definition get_all_tasks : prog (list Z) :=
  l ← storage_get c_Vec_u64 DataKey.AllTasks;
  mret (default [] l).

Definition cancelled (t : Task) : Task :=
  Task.mk (Task.id t) (Task.votes t) (Task.is_done t) (Task.resolved_at t)
    (Task.total_weight_accrued t) true.

Definition cancel_task (admin : Address) (task_id : Z) : prog unit :=
  require_auth admin;;
  lock;;
  found ← get_active_task task_id;
  match found with
  | None => unlock;; Fail ContractError.NotAuthorized
  | Some task =>
      set_active_task (cancelled task);;
      emit_task_cancelled task_id;;
      unlock
  end.

(** ** Behaviour *)

Section behaviour.
Context {Sto Wld : Type} `{!InstanceStorage Sto} `{!World Wld}.
Implicit Types (st : state Sto Wld) (cx : context).

(** An identifier is taken while it is active or archived. *)
Definition id_free st (i : Z) : Prop :=
  sget (DataKey.ActiveTask i) (storage st) = None /\
  sget (DataKey.ArchivedTask i) (storage st) = None.

(** A batch can be registered: no identifier is taken or repeated. *)
Definition batch_free st (ids : list Z) : Prop := NoDup ids /\ Forall (id_free st) ids.

Definition add_tasks (ids : list Z) (s : Sto) : Sto :=
  foldl (fun s i => sset (DataKey.ActiveTask i) (VTask (new_task i)) s) s ids.

Definition task_added (i : Z) st : state Sto Wld :=
  with_storage (sset (DataKey.ActiveTask i) (VTask (new_task i))) st.

Definition all_tasks st : list Z :=
  default [] (look c_Vec_u64 DataKey.AllTasks (storage st)).

Lemma new_task_ok i : in_u64 i -> val_ok (DataKey.ActiveTask i) (VTask (new_task i)).
Proof. intros Hi. by split_and!. Qed.

Lemma id_free_added i j st : id_free (task_added i st) j <-> i <> j /\ id_free st j.
Proof.
  unfold id_free, task_added. simpl. rewrite (sget_sset_ne _ (DataKey.ArchivedTask j)) by done.
  destruct (decide (i = j)) as [<-|Hne].
  - rewrite sget_sset. naive_solver.
  - rewrite sget_sset_ne by congruence. naive_solver.
Qed.

Lemma batch_free_cons i ids st :
  batch_free st (i :: ids) <-> id_free st i /\ batch_free (task_added i st) ids.
Proof.
  unfold batch_free. rewrite NoDup_cons, Forall_cons, !Forall_forall.
  setoid_rewrite id_free_added. naive_solver.
Qed.

Lemma id_taken_run cx i st :
  well_typed st ->
  run cx (active ← has_active_task i;
          if (active : bool) then mret true
          else archived ← get_archived_task i; mret (bool_decide (is_Some archived))) st =
    Done (negb (bool_decide (sget (DataKey.ActiveTask i) (storage st) = None)
                && bool_decide (sget (DataKey.ArchivedTask i) (storage st) = None))) st.
Proof.
  intros Hwt. unfold has_active_task, get_archived_task, active_task_key, archived_task_key.
  run_go. destruct (sget (DataKey.ActiveTask i) (storage st)); simpl; [done|]. run_go.
  unfold look. destruct (sget (DataKey.ArchivedTask i) (storage st)) as [v|] eqn:E; [|done].
  apply Hwt in E. by destruct v.
Qed.

Lemma register_each_cons_run cx i ids st :
  well_typed st ->
  run cx (register_each (i :: ids)) st =
    if bool_decide (sget (DataKey.ActiveTask i) (storage st) = None)
       && bool_decide (sget (DataKey.ArchivedTask i) (storage st) = None)
    then run cx (register_each ids) (task_added i st)
    else Failed ContractError.NotAuthorized (with_storage (sremove DataKey.Lock) st).
Proof.
  intros Hwt. pose proof (id_taken_run cx i st Hwt) as Ht. simpl.
  rewrite run_bind in Ht |- *. unfold has_active_task in *. rewrite run_has in Ht |- *.
  rewrite run_bind, Ht. by destruct (_ && _).
Qed.

(** The loop registers the whole batch, or stops at the first taken identifier
    with the mutex released and the identifiers before it written. *)
Lemma register_each_run cx ids st :
  well_typed st -> Forall in_u64 ids ->
  match run cx (register_each ids) st with
  | Done _ st' => batch_free st ids /\ st' = with_storage (add_tasks ids) st
  | Failed e st' =>
      e = ContractError.NotAuthorized /\ ~ batch_free st ids /\
      exists pre i post, ids = pre ++ i :: post /\
        st' = with_storage (fun s => sremove DataKey.Lock (add_tasks pre s)) st
  | Trapped _ => False
  end.
Proof.
  revert st. induction ids as [|i ids IH]; intros st Hwt Hids.
  { simpl. split; [by split; constructor | by destruct st]. }
  apply Forall_cons in Hids as [Hi Hids].
  rewrite register_each_cons_run by done.
  destruct (bool_decide _ && bool_decide _) eqn:E.
  - apply andb_true_iff in E as [Ha%bool_decide_eq_true Hb%bool_decide_eq_true].
    specialize (IH (task_added i st) (well_typed_set _ _ _ Hwt (new_task_ok i Hi)) Hids).
    destruct (run cx (register_each ids) _) as [u st'|e st'|r]; [| |done].
    + destruct IH as [Hf ->]. by rewrite batch_free_cons.
    + destruct IH as (-> & Hf & pre & j & post & -> & ->). rewrite batch_free_cons.
      split_and!; [done|naive_solver|]. by exists (i :: pre), j, post.
  - rewrite batch_free_cons. split_and!; [done| |by exists [], i, ids].
    unfold id_free. intros [[Ha Hb] _]. by rewrite Ha, Hb in E.
Qed.

Lemma sget_add_tasks ids s k :
  sget k (add_tasks ids s) =
    match k with
    | DataKey.ActiveTask i =>
        if decide (i ∈ ids) then Some (VTask (new_task i)) else sget k s
    | _ => sget k s
    end.
Proof.
  revert s. induction ids as [|j ids IH]; intros s; simpl.
  { by destruct k. }
  rewrite IH. destruct k; try by rewrite sget_sset_ne.
  destruct (decide (id ∈ ids)); [by rewrite decide_True by set_solver|].
  destruct (decide (j = id)) as [->|].
  - by rewrite sget_sset, decide_True by set_solver.
  - by rewrite sget_sset_ne, decide_False by (try congruence; set_solver).
Qed.

Definition locked_state st : state Sto Wld := with_storage (sset DataKey.Lock (VBool true)) st.

Lemma batch_free_locked st ids : batch_free (locked_state st) ids <-> batch_free st ids.
Proof.
  unfold batch_free, id_free. simpl. apply and_iff_compat_l, Forall_iff.
  intros i. by rewrite !sget_sset_ne.
Qed.

(** The store after a batch is registered. *)
Definition tasks_registered (ids : list Z) st : state Sto Wld :=
  with_storage
    (fun s => sset DataKey.AllTasks (VVecU64 (all_tasks st ++ ids)) (add_tasks ids s)) st.

(** [register_tasks] in every case; up to [state_eq], the mutex leaves no
    trace.  Only on a taken identifier may earlier entries of the batch stay
    behind for the host to roll back. *)
Lemma register_tasks_run cx admin ids st :
  well_typed st -> Forall in_u64 ids ->
  match run cx (register_tasks admin ids) st with
  | Done _ st' =>
      Z.of_nat (length ids) <= MAX_REGISTER_TASK_BATCH_SIZE /\ authorized cx admin = true /\
      locked st = false /\ batch_free st ids /\ state_eq st' (tasks_registered ids st)
  | Failed e st' =>
      (e = ContractError.BatchTooLarge /\ MAX_REGISTER_TASK_BATCH_SIZE < Z.of_nat (length ids) /\ st' = st) \/
      (e = ContractError.Locked /\ locked st = true /\ st' = st) \/
      (e = ContractError.NotAuthorized /\ locked st = false /\ ~ batch_free st ids /\
       exists pre i post, ids = pre ++ i :: post /\ state_eq st' (with_storage (add_tasks pre) st))
  | Trapped r => r = AuthFailure admin /\ authorized cx admin = false
  end.
Proof.
  intros Hwt Hids. unfold register_tasks.
  destruct (Z.ltb_spec MAX_REGISTER_TASK_BATCH_SIZE (Z.of_nat (length ids))); [by left|].
  run_go. destruct (authorized cx admin) eqn:Hau; [|done].
  rewrite run_bind, lock_run. destruct (locked st) eqn:Hl; [by right; left|].
  assert (Hno : sget DataKey.Lock (storage st) = None).
  { unfold locked in Hl. by apply bool_decide_eq_false, eq_None_not_Some in Hl. }
  fold (locked_state st). assert (Hwt1 : well_typed (locked_state st)) by (by apply well_typed_set).
  run_go. pose proof (register_each_run cx ids (locked_state st) Hwt1 Hids) as He.
  destruct (run cx (register_each ids) _) as [u st'|e st'|r]; [| |done].
  - destruct He as [Hf ->]. rewrite batch_free_locked in Hf. run_go.
    do 4 (split; [done|]). split_and!; try done. intros k. simpl.
    destruct (decide (k = DataKey.Lock)) as [->|Hk].
    + rewrite sget_sremove, sget_sset_ne, sget_add_tasks by done. by symmetry.
    + rewrite sget_sremove_ne by done. destruct (decide (k = DataKey.AllTasks)) as [->|Ha].
      * rewrite !sget_sset. unfold all_tasks, locked_state. simpl. by rewrite look_sset_ne.
      * rewrite !sget_sset_ne, !sget_add_tasks by done. destruct k; rewrite ?sget_sset_ne; done.
  - destruct He as (-> & Hf & pre & i & post & Hids' & ->). rewrite batch_free_locked in Hf.
    right; right. do 3 (split; [done|]). exists pre, i, post. split; [done|]. split_and!; try done. intros k. simpl.
    destruct (decide (k = DataKey.Lock)) as [->|Hk].
    + rewrite sget_sremove, sget_add_tasks. by symmetry.
    + rewrite sget_sremove_ne, !sget_add_tasks by done. destruct k; rewrite ?sget_sset_ne; done.
Qed.

(** [cancel_task] in every case. *)
Definition cancel_outcome cx (admin : Address) (i : Z) st : outcome Sto Wld unit :=
  if negb (authorized cx admin) then Trapped (AuthFailure admin)
  else if locked st then Failed ContractError.Locked st
  else
    match active_task st i with
    | None => Failed ContractError.NotAuthorized st
    | Some t =>
        Done tt
          (log (Published ["cancelled"%string] (DValue (VU64 i)))
             (with_storage (sset (DataKey.ActiveTask i) (VTask (cancelled t))) st))
    end.

Lemma cancel_task_run cx admin i st :
  well_typed st ->
  outcome_eq (run cx (cancel_task admin i) st) (cancel_outcome cx admin i st).
Proof.
  intros Hwt. unfold cancel_task, cancel_outcome. run_go.
  destruct (authorized cx admin); [|done]. rewrite run_bind, lock_run.
  destruct (locked st) eqn:Hl; [done|].
  assert (Hno : sget DataKey.Lock (storage st) = None).
  { unfold locked in Hl. by apply bool_decide_eq_false, eq_None_not_Some in Hl. }
  fold (locked_state st). assert (Hwt1 : well_typed (locked_state st)) by (by apply well_typed_set).
  unfold get_active_task, active_task_key. run_go. simpl. rewrite look_sset_ne by done.
  fold (active_task st i). destruct (active_task st i) as [t|] eqn:Ht; run_go.
  - assert (Hid : Task.id t = i).
    { apply look_Some, Hwt in Ht. by destruct Ht. }
    unfold set_active_task. run_go. simpl. unfold active_task_key. rewrite Hid.
    split; [done|]. split_and!; try done. intros k. simpl. destruct (decide (k = DataKey.Lock)) as [->|Hk].
    + by rewrite sget_sremove, sget_sset_ne.
    + rewrite sget_sremove_ne by done. destruct (decide (k = DataKey.ActiveTask i)) as [->|].
      * by rewrite !sget_sset.
      * by rewrite !sget_sset_ne.
  - split; [done|]. split_and!; try done. by apply sremove_sset.
Qed.

End behaviour.
