(* ===== verification/Drips.v ===== *)
(** * Reward streams ([src/src/drips.rs]) *)

From stdpp Require Import prelude gmap list strings.
From Stdlib Require Import ZArith Lia.
From S2P Require Import Prelude.
From S2P Require Import Types.
From S2P Require Import Host.
From S2P Require Import Logic.
From S2P Require Import Frame.
From S2P Require Import Typing.
From S2P Require Import SampleHost.

Definition start_drips_stream (drips_address contributor : Address) (task_id : Z) : prog unit :=
  found ← storage_get c_Task (DataKey.ActiveTask task_id);
  task ← ok_or found ContractError.NotAuthorized;
  if Task.is_cancelled task then Fail ContractError.TaskCancelled
  else if negb (Task.is_done task) then Fail ContractError.TaskNotVerified
  else
    let stream_key := DataKey.RewardStream task_id in
    exists_ ← storage_has stream_key;
    if (exists_ : bool) then Fail ContractError.StreamAlreadyActive
    else
      let resolution_status := 1 in
      perform (InvokeContract drips_address "start_stream"
                 [VAddress contributor; VU64 task_id; VU32 resolution_status]);;
      all_streams ← storage_get c_Vec_u64 DataKey.AllRewardStreams;
      storage_set c_Vec_u64 DataKey.AllRewardStreams (default [] all_streams ++ [task_id]);;
      storage_set c_RewardStream stream_key
        (RewardStream.mk task_id contributor drips_address true).

Definition get_reward_stream (task_id : Z) : prog (option RewardStream) :=
  storage_get c_RewardStream (DataKey.RewardStream task_id).

Definition get_all_reward_streams : prog (list Z) :=
  l ← storage_get c_Vec_u64 DataKey.AllRewardStreams;
  mret (default [] l).

(** ** Behaviour *)

Section behaviour.
Context {Sto Wld : Type} `{!InstanceStorage Sto} `{!World Wld}.
Implicit Types (st : state Sto Wld) (cx : context).

(** [start_drips_stream] in every case. *)
Definition drips_outcome (drips_address contributor : Address) (i : Z) st : outcome Sto Wld unit :=
  match look c_Task (DataKey.ActiveTask i) (storage st) with
  | None => Failed ContractError.NotAuthorized st
  | Some t =>
      if Task.is_cancelled t then Failed ContractError.TaskCancelled st
      else if negb (Task.is_done t) then Failed ContractError.TaskNotVerified st
      else if bool_decide (is_Some (sget (DataKey.RewardStream i) (storage st))) then
        Failed ContractError.StreamAlreadyActive st
      else
        match invoke_contract drips_address "start_stream"
                [VAddress contributor; VU64 i; VU32 1] (world st) with
        | None => Trapped (CallFailure drips_address)
        | Some w =>
            let all := default [] (look c_Vec_u64 DataKey.AllRewardStreams (storage st)) in
            Done tt
              (with_storage
                 (fun s =>
                    sset (DataKey.RewardStream i)
                      (VRewardStream (RewardStream.mk i contributor drips_address true))
                      (sset DataKey.AllRewardStreams (VVecU64 (all ++ [i])) s))
                 (with_world w st))
        end
  end.

Lemma start_drips_stream_run cx d c i st :
  well_typed st -> run cx (start_drips_stream d c i) st = drips_outcome d c i st.
Proof.
  intros Hwt. unfold start_drips_stream, drips_outcome. run_go.
  destruct (look c_Task _ _) as [t|]; [|done].
  destruct (Task.is_cancelled t), (Task.is_done t); try done. simpl. run_go.
  case_bool_decide; [done|]. run_go. destruct (invoke_contract _ _ _ _); [|done]. by run_go.
Qed.

End behaviour.
