(* ===== verification/Gas.v ===== *)
(** * Gas estimates ([src/src/gas.rs]) *)

From stdpp Require Import prelude gmap list strings.
From Stdlib Require Import ZArith Lia.
From S2P Require Import Prelude.
From S2P Require Import Types.

Definition COST_REGISTER_TASK : Z := 1000000.
Definition COST_VOTE : Z := 1960000.
Definition COST_ADD_GUARDIAN : Z := 700000.
Definition COST_SET_REPUTATION : Z := 700000.
Definition COST_LOCK_TOKENS : Z := 1250000.
Definition COST_UNLOCK_TOKENS : Z := 1300000.
Definition COST_RESIGN_GUARDIAN : Z := 1400000.
Definition COST_SET_WEIGHT_THRESHOLD : Z := 650000.
Definition COST_START_REWARD_STREAM : Z := 1330000.
Definition COST_TOGGLE_PAUSE : Z := 730000.
Definition COST_RECORD_FAILURE : Z := 880000.
Definition COST_RESET_CIRCUIT_BREAKER : Z := 800000.
Definition COST_UPGRADE_CONTRACT : Z := 2500000.

Definition get_estimated_cost (op : Operation) : Z :=
  match op with
  | Operation.RegisterTask => COST_REGISTER_TASK
  | Operation.Vote => COST_VOTE
  | Operation.AddGuardian => COST_ADD_GUARDIAN
  | Operation.SetReputation => COST_SET_REPUTATION
  | Operation.LockTokens => COST_LOCK_TOKENS
  | Operation.UnlockTokens => COST_UNLOCK_TOKENS
  | Operation.ResignGuardian => COST_RESIGN_GUARDIAN
  | Operation.SetWeightThreshold => COST_SET_WEIGHT_THRESHOLD
  | Operation.StartRewardStream => COST_START_REWARD_STREAM
  | Operation.TogglePause => COST_TOGGLE_PAUSE
  | Operation.RecordFailure => COST_RECORD_FAILURE
  | Operation.ResetCircuitBreaker => COST_RESET_CIRCUIT_BREAKER
  | Operation.UpgradeContract => COST_UPGRADE_CONTRACT
  end.
