(* ===== verification/Consensus.v ===== *)
(** * The pure consensus module ([src/src/consensus.rs])

    [apply_vote] takes its state by mutable reference: the model returns the
    state after the call next to the result. *)

From stdpp Require Import prelude gmap list strings.
From Stdlib Require Import ZArith Lia.
From S2P Require Import Prelude.

Module ConsensusError.

Inductive ConsensusError :=
| WeightOverflow
| ZeroWeight.

End ConsensusError.

Abbreviation ConsensusError := ConsensusError.ConsensusError.

#[global] Instance ConsensusError_eq_dec : EqDecision ConsensusError.
Proof. solve_decision. Defined.

Module ConsensusState.

Record ConsensusState := mk {
  total_weight_accrued : Z;  (* u64 *)
  votes : Z;                 (* u32 *)
  is_done : bool;
}.

Definition new : ConsensusState := mk 0 0 false.

End ConsensusState.

Abbreviation ConsensusState := ConsensusState.ConsensusState.

#[global] Instance ConsensusState_eq_dec : EqDecision ConsensusState.
Proof. solve_decision. Defined.

Definition apply_vote (state : ConsensusState) (weight threshold : Z)
    : ConsensusState * (unit + ConsensusError) :=
  if weight =? 0 then (state, inr ConsensusError.ZeroWeight)
  else
    match u64_checked_add (ConsensusState.total_weight_accrued state) weight with
    | None => (state, inr ConsensusError.WeightOverflow)
    | Some total =>
        let votes := u32_saturating_add (ConsensusState.votes state) 1 in
        let done :=
          if threshold <=? total then true else ConsensusState.is_done state in
        (ConsensusState.mk total votes done, inl tt)
    end.

Definition resolution_invariant_holds (state : ConsensusState) (threshold : Z) : bool :=
  let weight_meets_threshold :=
    threshold <=? ConsensusState.total_weight_accrued state in
  if ConsensusState.is_done state then weight_meets_threshold else true.

(** ** Sequences of votes *)

(** Votes applied in turn; a rejected one leaves the state alone. *)
Definition apply_votes (state : ConsensusState) (threshold : Z) (ws : list Z) : ConsensusState :=
  foldl (fun s w => (apply_vote s w threshold).1) state ws.

Definition sum (ws : list Z) : Z := foldr Z.add 0 ws.

Definition state_ok (state : ConsensusState) : Prop :=
  in_u64 (ConsensusState.total_weight_accrued state) /\ in_u32 (ConsensusState.votes state).

#[global] Instance state_ok_dec state : Decision (state_ok state) := ltac:(unfold state_ok; apply _).

(** The vote counter after [n] accepted votes. *)
Definition saturated (n : Z) : Z := Z.min n u32_max.

Lemma sum_nonneg ws : Forall (fun w => 0 < w) ws -> 0 <= sum ws.
Proof. induction 1; simpl; lia. Qed.

Lemma sum_perm ws ws' : ws ≡ₚ ws' -> sum ws = sum ws'.
Proof. induction 1; simpl; lia. Qed.

(** An accepted vote, field by field. *)
Lemma apply_vote_ok state w thr :
  0 < w -> 0 <= ConsensusState.total_weight_accrued state ->
  ConsensusState.total_weight_accrued state + w <= u64_max ->
  apply_vote state w thr =
    (ConsensusState.mk (ConsensusState.total_weight_accrued state + w)
       (saturated (ConsensusState.votes state + 1))
       (ConsensusState.is_done state || (thr <=? ConsensusState.total_weight_accrued state + w)),
     inl tt).
Proof.
  intros Hw H0 Hmax. unfold apply_vote, u64_checked_add, u32_saturating_add, saturated.
  destruct (Z.eqb_spec w 0); [lia|]. rewrite decide_True by (unfold in_u64; lia).
  by destruct (thr <=? _), (ConsensusState.is_done state).
Qed.

Lemma saturated_add v n : 0 <= n -> saturated (saturated v + n) = saturated (v + n).
Proof. unfold saturated. lia. Qed.

Lemma saturated_id v : in_u32 v -> saturated v = v.
Proof. unfold saturated, in_u32. lia. Qed.

(** Reaching the threshold on the way is reaching it in the end. *)
Lemma threshold_prefix d thr a ws :
  Forall (fun w => 0 < w) ws ->
  (d || (thr <=? a)) || (negb (bool_decide (ws = [])) && (thr <=? a + sum ws)) =
  d || (thr <=? a + sum ws).
Proof.
  intros Hws. pose proof (sum_nonneg ws Hws). destruct d; [done|]. cbn [orb].
  destruct (bool_decide_reflect (ws = [])) as [->|_]; cbn [negb andb sum foldr].
  - by rewrite orb_false_r, Z.add_0_r.
  - destruct (Z.leb_spec thr a), (Z.leb_spec thr (a + sum ws)); try done; lia.
Qed.

Lemma apply_votes_ok state thr ws :
  state_ok state -> Forall (fun w => 0 < w) ws ->
  ConsensusState.total_weight_accrued state + sum ws <= u64_max ->
  apply_votes state thr ws =
    ConsensusState.mk (ConsensusState.total_weight_accrued state + sum ws)
      (saturated (ConsensusState.votes state + Z.of_nat (length ws)))
      (ConsensusState.is_done state ||
         (negb (bool_decide (ws = [])) && (thr <=? ConsensusState.total_weight_accrued state + sum ws))).
Proof.
  destruct state as [a v d]. unfold state_ok. cbn. intros [[H0 _] Hv%saturated_id] Hws. rewrite <- Hv. clear Hv.
  revert a v d H0. induction Hws as [|w ws Hw Hws IH]; intros a v d H0 Hmax; cbn in Hmax |- *.
  { rewrite saturated_add by done. by rewrite orb_false_r, !Z.add_0_r. }
  fold (sum ws) in Hmax |- *. pose proof (sum_nonneg ws Hws).
  rewrite apply_vote_ok by (cbn; lia). cbn. rewrite saturated_add by done.
  fold (apply_votes (ConsensusState.mk (a + w) (saturated (v + 1)) (d || (thr <=? a + w))) thr ws).
  rewrite IH by lia. rewrite threshold_prefix, !saturated_add by (done || lia).
  by rewrite Nat2Z.inj_succ, <- Z.add_1_l, !Z.add_assoc.
Qed.

(** ** Properties *)

(** Any two orders of the same votes, as long as their weights do not
    overflow, leave [apply_vote] in the same state: the same weight, the same
    count, and resolved in the one order exactly when in the other. *)
Theorem vote_order_irrelevant state thr ws ws' :
  state_ok state -> Forall (fun w => 0 < w) ws -> ws ≡ₚ ws' ->
  ConsensusState.total_weight_accrued state + sum ws <= u64_max ->
  apply_votes state thr ws = apply_votes state thr ws'.
Proof.
  intros Hok Hws Hp Hmax. pose proof (sum_perm ws ws' Hp) as Hs.
  assert (Forall (fun w => 0 < w) ws') by (by rewrite <- Hp).
  rewrite (apply_votes_ok state thr ws), (apply_votes_ok state thr ws') by (done || lia).
  rewrite (sum_perm ws ws'), (Permutation_length Hp) by done. do 2 f_equal. f_equal.
  assert (ws = [] <-> ws' = []) as Hnil.
  { split; intros ->; [by apply Permutation_nil|by apply Permutation_nil_r]. }
  f_equal. by apply bool_decide_ext.
Qed.

(** From the fresh state, after any non-empty sequence of positive votes
    that fits in 64 bits, the accrued weight is the sum of the weights and the
    task is resolved exactly when that sum reaches the threshold: neither too
    early on some prefix nor too late. *)
Theorem resolved_iff_threshold_met thr ws :
  ws <> [] -> Forall (fun w => 0 < w) ws -> sum ws <= u64_max ->
  let state := apply_votes ConsensusState.new thr ws in
  ConsensusState.total_weight_accrued state = sum ws /\
  (ConsensusState.is_done state = true <-> thr <= sum ws) /\
  resolution_invariant_holds state thr = true.
Proof.
  intros Hne Hws Hmax. simpl. rewrite apply_votes_ok; simpl; [|done|done|lia].
  rewrite bool_decide_false by done. simpl. split; [done|]. unfold resolution_invariant_holds. simpl.
  destruct (Z.leb_spec thr (0 + sum ws)); split; try done; split; intros; try done; lia.
Qed.

(** Whatever the state, the weight and the threshold, a rejected vote
    changes nothing, and an accepted one adds exactly its weight without
    wrapping, never lowers the count, never clears [is_done], and sets it only
    at the threshold. *)
Theorem apply_vote_safe state w thr :
  state_ok state -> in_u64 w ->
  let '(state', r) := apply_vote state w thr in
  state_ok state' /\
  match r with
  | inr ConsensusError.ZeroWeight => w = 0 /\ state' = state
  | inr ConsensusError.WeightOverflow =>
      u64_max < ConsensusState.total_weight_accrued state + w /\ state' = state
  | inl _ =>
      ConsensusState.total_weight_accrued state' = ConsensusState.total_weight_accrued state + w /\
      ConsensusState.votes state <= ConsensusState.votes state' <= ConsensusState.votes state + 1 /\
      (ConsensusState.is_done state' = true <->
         ConsensusState.is_done state = true \/ thr <= ConsensusState.total_weight_accrued state')
  end.
Proof.
  intros [H0 Hv] Hw. unfold apply_vote, u64_checked_add, state_ok, in_u64, in_u32 in *.
  destruct (Z.eqb_spec w 0); [done|]. case_decide; [|split; [done|]; split; [lia|done]].
  unfold u32_saturating_add. simpl. split; [unfold u32_max in *; lia|]. split; [done|].
  split; [unfold u32_max in *; lia|].
  destruct (Z.leb_spec thr (ConsensusState.total_weight_accrued state + w)); intuition (done || lia).
Qed.

(** ** Witnesses *)

Lemma vote_order_irrelevant_witness :
  apply_votes ConsensusState.new 300 [100; 150; 50] = apply_votes ConsensusState.new 300 [50; 100; 150] /\
  ConsensusState.is_done (apply_votes ConsensusState.new 300 [50; 100; 150]) = true.
Proof.
  split; [|reflexivity].
  apply (vote_order_irrelevant ConsensusState.new 300 [100; 150; 50] [50; 100; 150]).
  - by_eval.
  - by_eval.
  - exact (Permutation_app_comm [100; 150] [50]).
  - by_eval.
Defined.

Lemma resolved_iff_threshold_met_witness :
  let state := apply_votes ConsensusState.new 300 [200; 99] in
  ConsensusState.total_weight_accrued state = 299 /\
  (ConsensusState.is_done state = true <-> 300 <= 299) /\
  resolution_invariant_holds state 300 = true.
Proof.
  apply (resolved_iff_threshold_met 300 [200; 99]); [done|by_eval|by_eval].
Defined.

Lemma apply_vote_safe_witness :
  let state := ConsensusState.mk u64_max 7 true in
  state_ok state /\ apply_vote state 1 300 = (state, inr ConsensusError.WeightOverflow).
Proof.
  pose proof (apply_vote_safe (ConsensusState.mk u64_max 7 true) 1 300 ltac:(by_eval) ltac:(by_eval)) as [H _].
  split; [exact H | reflexivity].
Defined.
