(* ===== verification/Vault.v ===== *)
(** * The vault's interface ([src/src/vault.rs])

    [vault.rs] declares the trait [Vault] with the one operation
    [release_funds(env, task_id: u64)], and [contractclient] derives the client
    for it.  The contract uses the client's [try_] form, which turns a failed call
    of the vault into an error value instead of a trap: [true] is [Ok], [false] is
    [Err].  The vault itself is a parameter, [release_funds] of [World]. *)

From stdpp Require Import prelude gmap list strings.
From Stdlib Require Import ZArith Lia.
From S2P Require Import Prelude.
From S2P Require Import Types.
From S2P Require Import Host.
From S2P Require Import Logic.

(** [VaultClient::new(env, &vault).try_release_funds(&task_id).is_ok()] *)
Definition try_release_funds (vault : Address) (task_id : Z) : prog bool :=
  perform (TryReleaseFunds vault task_id).

Section behaviour.
Context {Sto Wld : Type} `{!InstanceStorage Sto} `{!World Wld}.
Implicit Types (st : state Sto Wld) (cx : context).

(** The call never fails: it reports whether the vault paid, and a vault that
    did not pay leaves no trace. *)
Lemma try_release_funds_run cx vault i st :
  run cx (try_release_funds vault i) st =
    match release_funds vault i (world st) with
    | Some w => Done true (with_world w st)
    | None => Done false st
    end.
Proof. apply run_release. Qed.

End behaviour.
