(* ===== verification/Contract.v ===== *)
(** * The contract's entry points ([src/src/lib.rs])

    One definition per public function of [impl VeroCore], in source order.
    The bodies follow the Rust text: the same host calls in the same order, the
    same early returns, with the mutex released where the code releases it. *)

From stdpp Require Import prelude gmap list strings.
From Stdlib Require Import ZArith Lia Strings.Byte.
From S2P Require Import Prelude.
From S2P Require Import Types.
From S2P Require Import Host.
From S2P Require Import Events.
From S2P Require Import Reentrancy.
From S2P Require Import Reputation.
From S2P Require Import Guardian.
From S2P Require Import CircuitBreaker.
From S2P Require Import Storage.
From S2P Require Import Tasks.
From S2P Require Import Drips.
From S2P Require Import Gas.
From S2P Require Import Vault.

Definition DEFAULT_WEIGHT_THRESHOLD : Z := 300.
Definition VERSION : Z := 1.
Definition MAX_SNAPSHOT_BATCH_SIZE : Z := 32.

(** ** Initialisation and pausing *)

Definition initialize (token : Address) (lock_threshold : Z) : prog unit :=
  init ← storage_get c_bool DataKey.Initialized;
  if default false init then Fail ContractError.AlreadyInitialized
  else
    storage_set c_bool DataKey.Initialized true;;
    storage_set c_Address DataKey.TokenAddress token;;
    storage_set c_i128 DataKey.LockThreshold lock_threshold;;
    storage_set c_bool DataKey.Paused false;;
    extend_ttl 100000 100000.

Definition get_admin : prog (option Address) :=
  storage_get c_Address DataKey.Admin.

Definition toggle_pause (admin : Address) : prog unit :=
  require_auth admin;;
  current ← storage_get c_bool DataKey.Paused;
  storage_set c_bool DataKey.Paused (negb (default false current)).

Definition pause (admin : Address) : prog unit :=
  require_auth admin;;
  storage_set c_bool DataKey.Paused true.

Definition unpause (admin : Address) : prog unit :=
  require_auth admin;;
  storage_set c_bool DataKey.Paused false.

Definition is_paused : prog bool :=
  paused ← storage_get c_bool DataKey.Paused;
  mret (default false paused).

(** ** Guardians and their tokens *)

Definition add_guardian (admin guardian : Address) : prog unit :=
  require_not_paused;;
  Guardian.add_guardian admin guardian.

Definition remove_guardian (admin guardian : Address) : prog unit :=
  require_not_paused;;
  Guardian.remove_guardian admin guardian.

Definition is_guardian (guardian : Address) : prog bool :=
  Guardian.is_guardian guardian.

Definition lock_tokens (guardian : Address) (amount : Z) : prog unit :=
  require_auth guardian;;
  let token_key := DataKey.TokenAddress in
  known ← storage_has token_key;
  if negb known then Fail ContractError.NotInitialized
  else
    token ← storage_get c_Address token_key;
    token_address ← unwrap token;
    this ← current_contract_address;
    perform (TokenTransfer token_address guardian this amount);;
    let balance_key := DataKey.LockedBalance guardian in
    current_balance ← storage_get c_i128 balance_key;
    total ← arith (i128_checked_add (default 0 current_balance) amount);
    storage_set c_i128 balance_key total.

(** The refund at the end of [resign_guardian] and of [unlock_tokens], the same
    lines in both. *)
Definition refund_locked (guardian : Address) : prog unit :=
  let balance_key := DataKey.LockedBalance guardian in
  locked ← storage_get c_i128 balance_key;
  let locked_balance := default 0 locked in
  if 0 <? locked_balance then
    token ← storage_get c_Address DataKey.TokenAddress;
    token_address ← unwrap token;
    this ← current_contract_address;
    perform (TokenTransfer token_address this guardian locked_balance);;
    storage_set c_i128 balance_key 0
  else mret ().

Definition resign_guardian (guardian : Address) : prog unit :=
  require_auth guardian;;
  known ← storage_has DataKey.TokenAddress;
  if negb known then Fail ContractError.NotInitialized
  else
    registered ← Guardian.is_guardian guardian;
    if negb registered then Fail ContractError.NotGuardian
    else
      storage_set c_bool (DataKey.Guardian guardian) false;;
      refund_locked guardian.

Definition unlock_tokens (guardian : Address) : prog unit :=
  require_auth guardian;;
  known ← storage_has DataKey.TokenAddress;
  if negb known then Fail ContractError.NotInitialized
  else
    registered ← Guardian.is_guardian guardian;
    if (registered : bool) then Fail ContractError.StillGuardian
    else refund_locked guardian.

(** ** Reputation and configuration *)

Definition set_reputation (admin guardian : Address) (score : Z) : prog unit :=
  require_not_paused;;
  Reputation.set_reputation admin guardian score.

Definition get_reputation (guardian : Address) : prog (option Z) :=
  Reputation.get_reputation guardian.

Definition calculate_voting_power (guardian : Address) : prog (option Z) :=
  Reputation.calculate_voting_power guardian.

Definition set_weight_threshold (admin : Address) (threshold : Z) : prog unit :=
  require_auth admin;;
  storage_set c_u64 DataKey.WeightThreshold threshold.

Definition get_weight_threshold : prog Z :=
  t ← storage_get c_u64 DataKey.WeightThreshold;
  mret (default DEFAULT_WEIGHT_THRESHOLD t).

Definition set_vault_address (admin vault : Address) : prog unit :=
  require_auth admin;;
  storage_set c_Address DataKey.VaultAddress vault.

(** ** Task lifecycle *)

Definition register_task (admin : Address) (task_id : Z) : prog unit :=
  require_not_paused;;
  Tasks.register_tasks admin [task_id].

Definition cancel_task (admin : Address) (task_id : Z) : prog unit :=
  require_not_paused;;
  Tasks.cancel_task admin task_id.

(** ** Voting *)

(** An error return of [vote]: the mutex is released first. *)
Definition bail {A} (e : ContractError) : prog A := unlock;; Fail e.

(** The threshold check of [vote], on the task with the vote already added:
    past the threshold the task is marked done at the ledger's time, the event
    is published and the vault, if there is one, is asked to pay. *)
Definition resolve_if_met (task_id weight_threshold : Z) (t : Task) : prog Task :=
  if weight_threshold <=? Task.total_weight_accrued t then
    now ← ledger_timestamp;
    let t := Task.mk (Task.id t) (Task.votes t) true now
               (Task.total_weight_accrued t) (Task.is_cancelled t) in
    emit_task_resolved task_id (Task.total_weight_accrued t);;
    vault ← storage_get c_Address DataKey.VaultAddress;
    match vault with
    | Some vault_addr =>
        released ← try_release_funds vault_addr task_id;
        if negb released then bail ContractError.EscrowUnavailable else mret t
    | None => mret t
    end
  else mret t.

(** The writes at the end of [vote]. *)
Definition record_vote (guardian : Address) (task_id weight : Z) (t : Task) : prog unit :=
  all_votes ← storage_get c_Vec_vote DataKey.AllVotes;
  storage_set c_Vec_vote DataKey.AllVotes (default [] all_votes ++ [(task_id, guardian)]);;
  storage_set c_bool (DataKey.Voted task_id guardian) true;;
  storage_set c_Task (DataKey.ActiveTask task_id) t;;
  emit_weighted_vote task_id guardian weight;;
  unlock.

(** The tail of [vote], once the weight and the task are known. *)
Definition cast_vote (guardian : Address) (task_id weight : Z) (t : Task) : prog unit :=
  if Task.is_cancelled t then bail ContractError.TaskCancelled
  else
    match u64_checked_add (Task.total_weight_accrued t) weight with
    | None => bail ContractError.WeightOverflow
    | Some total =>
        votes ← arith (u32_checked_add (Task.votes t) 1);
        wt ← storage_get c_u64 DataKey.WeightThreshold;
        let weight_threshold := default DEFAULT_WEIGHT_THRESHOLD wt in
        t' ← resolve_if_met task_id weight_threshold
               (Task.mk (Task.id t) votes (Task.is_done t) (Task.resolved_at t)
                  total (Task.is_cancelled t));
        record_vote guardian task_id weight t'
    end.

Definition vote (guardian : Address) (task_id : Z) : prog unit :=
  require_not_paused;;
  require_auth guardian;;
  lock;;
  registered ← Guardian.is_guardian guardian;
  if negb registered then bail ContractError.NotAuthorized
  else
    known ← storage_has DataKey.TokenAddress;
    if negb known then bail ContractError.NotInitialized
    else
      threshold ← storage_get c_i128 DataKey.LockThreshold;
      locked_balance ← storage_get c_i128 (DataKey.LockedBalance guardian);
      if default 0 locked_balance <=? default 0 threshold then
        bail ContractError.InsufficientLockedBalance
      else
        voted ← storage_has (DataKey.Voted task_id guardian);
        if (voted : bool) then bail ContractError.DuplicateVote
        else
          power ← Reputation.calculate_voting_power guardian;
          match power with
          | None => bail ContractError.NoReputationScore
          | Some weight =>
              if weight =? 0 then bail ContractError.ZeroWeightVote
              else
                found ← storage_get c_Task (DataKey.ActiveTask task_id);
                match found with
                | None => bail ContractError.NotAuthorized
                | Some t => cast_vote guardian task_id weight t
                end
          end.

(** ** Task queries and archiving *)

Definition get_task (task_id : Z) : prog (option Task) := Tasks.get_task task_id.

Definition archive_task (task_id : Z) : prog unit :=
  require_not_paused;;
  found ← Storage.get_active_task task_id;
  task ← ok_or found ContractError.TaskNotFound;
  Storage.archive_task task_id;;
  emit_task_archived task_id (Task.resolved_at task).

Definition get_archived_task (task_id : Z) : prog (option Task) :=
  require_not_paused;;
  Storage.get_archived_task task_id.

Definition get_version : prog Z := mret VERSION.

(** ** Reward streams *)

Definition start_reward_stream (admin drips_address contributor : Address) (task_id : Z) : prog unit :=
  require_not_paused;;
  require_auth admin;;
  result ← catch (Drips.start_drips_stream drips_address contributor task_id);
  match result with
  | inl _ => emit_reward_stream_started task_id contributor
  | inr _ => emit_reward_stream_failed task_id contributor
  end;;
  match result with
  | inl _ => mret ()
  | inr e => Fail e
  end.

Definition get_reward_stream (task_id : Z) : prog (option RewardStream) :=
  Drips.get_reward_stream task_id.

(** ** Circuit breaker, gas estimation, upgrade *)

Definition record_failure : prog unit := CircuitBreaker.record_failure.

Definition reset_circuit_breaker (admin : Address) : prog unit :=
  CircuitBreaker.reset admin.

Definition get_estimated_cost (op : Operation) : prog Z :=
  mret (Gas.get_estimated_cost op).

Definition upgrade_contract (admin : Address) (new_wasm_hash : list byte) : prog unit :=
  require_auth admin;;
  perform (UpdateCurrentContractWasm new_wasm_hash).

(** ** Snapshots *)

(** The page [offset .. offset + limit] of a list, as the [min]s of
    [get_snapshot] bound it.  The lengths are [u32]s. *)
Definition page {A} (offset limit : Z) (l : list A) : list A :=
  let len := Z.of_nat (length l) in
  let start := Z.min offset len in
  let end_ := Z.min (u32_saturating_add offset limit) len in
  take (Z.to_nat (end_ - start)) (drop (Z.to_nat start) l).

(** [for g in guardians_slice.iter()] *)
Fixpoint snapshot_guardians (l : list Address)
    (guardians : gmap Address bool) (reputations : gmap Address Z)
    : prog (gmap Address bool * gmap Address Z) :=
  match l with
  | [] => mret (guardians, reputations)
  | g :: rest =>
      b ← Guardian.is_guardian g;
      score ← Reputation.get_reputation g;
      snapshot_guardians rest (<[g:=b]> guardians)
        (match score with Some s => <[g:=s]> reputations | None => reputations end)
  end.

(** The task and stream loops: the entry is added when it is found. *)
Fixpoint snapshot_lookups {A} (get : Z -> prog (option A)) (l : list Z)
    (acc : gmap Z A) : prog (gmap Z A) :=
  match l with
  | [] => mret acc
  | i :: rest =>
      found ← get i;
      snapshot_lookups get rest
        (match found with Some x => <[i:=x]> acc | None => acc end)
  end.

Definition snapshot_votes (l : list (Z * Address)) : gmap (Z * Address) bool :=
  foldl (fun acc v => <[v:=true]> acc) ∅ l.

Definition get_snapshot (offset limit : Z) : prog Snapshot :=
  paused ← storage_get c_bool DataKey.Paused;
  failure_count ← storage_get c_u32 DataKey.FailureCount;
  weight_threshold ← storage_get c_u64 DataKey.WeightThreshold;
  admin ← storage_get c_Address DataKey.Admin;
  vault_address ← storage_get c_Address DataKey.VaultAddress;
  drips_address ← storage_get c_Address DataKey.DripsAddress;
  let limit := Z.min limit MAX_SNAPSHOT_BATCH_SIZE in
  all_guardians ← get_all_guardians;
  gr ← snapshot_guardians (page offset limit all_guardians) ∅ ∅;
  all_tasks ← get_all_tasks;
  tasks ← snapshot_lookups Tasks.get_task (page offset limit all_tasks) ∅;
  all_votes ← storage_get c_Vec_vote DataKey.AllVotes;
  let votes := snapshot_votes (page offset limit (default [] all_votes)) in
  all_streams ← get_all_reward_streams;
  reward_streams ← snapshot_lookups Drips.get_reward_stream (page offset limit all_streams) ∅;
  mret (Snapshot.mk (default false paused) (default 0 failure_count)
          (default DEFAULT_WEIGHT_THRESHOLD weight_threshold)
          admin vault_address drips_address
          gr.1 gr.2 tasks votes reward_streams).
