(* ===== verification/VoteSpec.v ===== *)
(** * What [vote] does

    [vote_spec] says what a vote does, without the mutex and without host
    calls: the checks in order, the vote's effect on the task, the resolution
    and the payment.  [vote_run] shows that the entry point does exactly that,
    on every branch. *)

From stdpp Require Import prelude gmap list strings.
From Stdlib Require Import ZArith Lia.
From S2P Require Import Prelude.
From S2P Require Import Types.
From S2P Require Import Host.
From S2P Require Import Logic.
From S2P Require Import Frame.
From S2P Require Import Typing.
From S2P Require Import Events.
From S2P Require Import Reentrancy.
From S2P Require Import Reputation.
From S2P Require Import Guardian.
From S2P Require Import CircuitBreaker.
From S2P Require Import Storage.
From S2P Require Import Tasks.
From S2P Require Import Vault.
From S2P Require Import Contract.

Section vote.
Context {Sto Wld : Type} `{!InstanceStorage Sto} `{!World Wld}.
Implicit Types (st : state Sto Wld) (cx : context).

(** ** Views of the state a vote reads *)

Definition lock_threshold st : Z := default 0 (look c_i128 DataKey.LockThreshold (storage st)).
Definition locked_balance st (g : Address) : Z :=
  default 0 (look c_i128 (DataKey.LockedBalance g) (storage st)).
Definition has_voted st (i : Z) (g : Address) : bool :=
  bool_decide (is_Some (sget (DataKey.Voted i g) (storage st))).
Definition reputation st (g : Address) : option Z :=
  look c_u64 (DataKey.Reputation g) (storage st).
Definition weight_threshold st : Z :=
  default DEFAULT_WEIGHT_THRESHOLD (look c_u64 DataKey.WeightThreshold (storage st)).
Definition vault st : option Address := look c_Address DataKey.VaultAddress (storage st).
Definition token_known st : bool := bool_decide (is_Some (sget DataKey.TokenAddress (storage st))).
Definition all_votes st : list (Z * Address) :=
  default [] (look c_Vec_vote DataKey.AllVotes (storage st)).

(** ** The specification *)

(** The checks of a vote, in order: the error of the first that fails, or the
    weight and the task of an admissible vote. *)
Definition vote_check (g : Address) (i : Z) st : ContractError + (Z * Task) :=
  if negb (registered st g) then inl ContractError.NotAuthorized
  else if negb (token_known st) then inl ContractError.NotInitialized
  else if locked_balance st g <=? lock_threshold st then inl ContractError.InsufficientLockedBalance
  else if has_voted st i g then inl ContractError.DuplicateVote
  else
    match reputation st g with
    | None => inl ContractError.NoReputationScore
    | Some w =>
        if w =? 0 then inl ContractError.ZeroWeightVote
        else
          match active_task st i with
          | None => inl ContractError.NotAuthorized
          | Some t =>
              if Task.is_cancelled t then inl ContractError.TaskCancelled
              else if decide (in_u64 (Task.total_weight_accrued t + w)) then inr (w, t)
              else inl ContractError.WeightOverflow
          end
    end.

(** The task after a vote of weight [w], before resolution, and resolved. *)
Definition voted_task (w : Z) (t : Task) : Task :=
  Task.mk (Task.id t) (Task.votes t + 1) (Task.is_done t) (Task.resolved_at t)
    (Task.total_weight_accrued t + w) (Task.is_cancelled t).

Definition resolved_task (now : Z) (t : Task) : Task :=
  Task.mk (Task.id t) (Task.votes t) true now (Task.total_weight_accrued t) (Task.is_cancelled t).

Definition resolved_event (i total : Z) : effect :=
  Published ["resolved"%string] (DTuple [VU64 i; VU64 total]).

Definition vote_event (i : Z) (g : Address) (w : Z) : effect :=
  Published ["wt_vote"%string] (DTuple [VU64 i; VAddress g; VU64 w]).

(** The vote is recorded and announced. *)
Definition vote_recorded (g : Address) (i w : Z) (t : Task) st : state Sto Wld :=
  log (vote_event i g w)
    (with_storage
       (fun s => sset (DataKey.ActiveTask i) (VTask t)
                   (sset (DataKey.Voted i g) (VBool true)
                      (sset DataKey.AllVotes (VVecVote (all_votes st ++ [(i, g)])) s))) st).

Definition vote_spec cx (g : Address) (i : Z) st : outcome Sto Wld unit :=
  if paused st then Failed ContractError.ContractPaused st
  else if negb (authorized cx g) then Trapped (AuthFailure g)
  else if locked st then Failed ContractError.Locked st
  else
    match vote_check g i st with
    | inl e => Failed e st
    | inr (w, t) =>
        if decide (in_u32 (Task.votes t + 1)) then
          let t1 := voted_task w t in
          if weight_threshold st <=? Task.total_weight_accrued t1 then
            let t2 := resolved_task (timestamp cx) t1 in
            let st1 := log (resolved_event i (Task.total_weight_accrued t1)) st in
            match vault st with
            | None => Done tt (vote_recorded g i w t2 st1)
            | Some v =>
                match release_funds v i (world st) with
                | Some wd => Done tt (vote_recorded g i w t2 (with_world wd st1))
                | None => Failed ContractError.EscrowUnavailable st1
                end
            end
          else Done tt (vote_recorded g i w t1 st)
        else Trapped Overflow
    end.

(** ** The entry point implements it *)

(** Releasing the mutex after writes to other keys. *)
Lemma unlocked_eq st (f : Sto -> Sto) (wd : Wld) l :
  sget DataKey.Lock (storage st) = None ->
  (forall s k, k <> DataKey.Lock -> sget k (f (sset DataKey.Lock (VBool true) s)) = sget k (f s)) ->
  sget DataKey.Lock (f (storage st)) = None ->
  state_eq
    (State (sremove DataKey.Lock (f (sset DataKey.Lock (VBool true) (storage st)))) wd l)
    (State (f (storage st)) wd l).
Proof.
  intros Hno Hf Hf0. split; [|done]. intros k. simpl.
  destruct (decide (k = DataKey.Lock)) as [->|Hk].
  - by rewrite sget_sremove.
  - rewrite sget_sremove_ne by congruence. by apply Hf.
Qed.

Lemma bail_run cx {A} e st :
  sget DataKey.Lock (storage st) = None ->
  outcome_eq (run cx (bail e : prog A) (locked_state st)) (Failed e st).
Proof.
  intros Hno. unfold bail. run_go. split; [done|]. destruct st as [s wd l].
  split; [|done]. by apply sremove_sset.
Qed.

Lemma record_vote_run cx g i w t st :
  well_typed st -> sget DataKey.Lock (storage st) = None ->
  outcome_eq (run cx (record_vote g i w t) (locked_state st)) (Done tt (vote_recorded g i w t st)).
Proof.
  intros Hwt Hno. assert (Hwt1 : well_typed (locked_state st)) by (by apply well_typed_set).
  unfold record_vote. run_go. split; [done|]. simpl. rewrite look_sset_ne by done.
  destruct st as [s wd l].
  apply (unlocked_eq (State s wd l) (fun s0 => sset (DataKey.ActiveTask i) (VTask t)
     (sset (DataKey.Voted i g) (VBool true)
        (sset DataKey.AllVotes (VVecVote (all_votes (State s wd l) ++ [(i, g)])) s0)))); [done| |].
  - intros s' k Hk.
    destruct (decide (k = DataKey.ActiveTask i)) as [->|]; [by store_simpl|].
    destruct (decide (k = DataKey.Voted i g)) as [->|]; [by store_simpl|].
    destruct (decide (k = DataKey.AllVotes)) as [->|]; by store_simpl.
  - by rewrite !sget_sset_ne by done.
Qed.

Lemma resolve_if_met_run cx i wt t st :
  well_typed st ->
  run cx (resolve_if_met i wt t) st =
    if wt <=? Task.total_weight_accrued t then
      let t' := resolved_task (timestamp cx) t in
      let st1 := log (resolved_event i (Task.total_weight_accrued t)) st in
      match vault st with
      | None => Done t' st1
      | Some v =>
          match release_funds v i (world st) with
          | Some wd => Done t' (with_world wd st1)
          | None => run cx (bail ContractError.EscrowUnavailable) st1
          end
      end
    else Done t st.
Proof.
  intros Hwt. unfold resolve_if_met, emit_task_resolved, try_release_funds. destruct (_ <=? _); [|done]. run_go.
  fold (resolved_event i (Task.total_weight_accrued t)). unfold vault. simpl.
  destruct (look c_Address _ _) as [v|]; [|done]. run_go. simpl.
  by destruct (release_funds v i (world st)).
Qed.

(** The run from the threshold check on. *)
Lemma resolve_run cx g i w wt t st :
  well_typed st -> sget DataKey.Lock (storage st) = None ->
  outcome_eq
    (run cx (t' ← resolve_if_met i wt t; record_vote g i w t') (locked_state st))
    (if wt <=? Task.total_weight_accrued t then
       let t' := resolved_task (timestamp cx) t in
       let st1 := log (resolved_event i (Task.total_weight_accrued t)) st in
       match vault st with
       | None => Done tt (vote_recorded g i w t' st1)
       | Some v =>
           match release_funds v i (world st) with
           | Some wd => Done tt (vote_recorded g i w t' (with_world wd st1))
           | None => Failed ContractError.EscrowUnavailable st1
           end
       end
     else Done tt (vote_recorded g i w t st)).
Proof.
  intros Hwt Hno. assert (Hwt1 : well_typed (locked_state st)) by (by apply well_typed_set).
  rewrite run_bind, resolve_if_met_run by done. destruct (_ <=? _); [|by apply record_vote_run].
  replace (vault (locked_state st)) with (vault st)
    by (unfold vault; simpl; by rewrite look_sset_ne).
  destruct (vault st) as [v|]; [|by apply (record_vote_run cx g i w _ (log _ st))].
  simpl. destruct (release_funds v i (world st)) as [wd|].
  - by apply (record_vote_run cx g i w _ (with_world wd (log _ st))).
  - pose proof (bail_run (A := Task) cx ContractError.EscrowUnavailable
      (log (resolved_event i (Task.total_weight_accrued t)) st) Hno) as Hb.
    by destruct (run cx (bail _ : prog Task) _).
Qed.

Lemma outcome_eq_refl {A} (o : outcome Sto Wld A) : outcome_eq o o.
Proof. by destruct o. Qed.

Lemma cast_vote_run cx g i w t st :
  well_typed st -> sget DataKey.Lock (storage st) = None ->
  outcome_eq (run cx (cast_vote g i w t) (locked_state st))
    (if Task.is_cancelled t then Failed ContractError.TaskCancelled st
     else if decide (in_u64 (Task.total_weight_accrued t + w)) then
       if decide (in_u32 (Task.votes t + 1)) then
         run cx (t' ← resolve_if_met i (weight_threshold st) (voted_task w t);
                 record_vote g i w t') (locked_state st)
       else Trapped Overflow
     else Failed ContractError.WeightOverflow st).
Proof.
  intros Hwt Hno. assert (Hwt1 : well_typed (locked_state st)) by (by apply well_typed_set).
  unfold cast_vote, u64_checked_add, u32_checked_add.
  destruct (Task.is_cancelled t) eqn:Hc; [by apply bail_run|].
  case_decide; [|by apply bail_run]. case_decide; [|by run_go].
  run_go. simpl. rewrite look_sset_ne by done. fold (weight_threshold st).
  unfold voted_task. rewrite Hc. apply outcome_eq_refl.
Qed.

Lemma outcome_eq_trans {A} (o1 o2 o3 : outcome Sto Wld A) :
  outcome_eq o1 o2 -> outcome_eq o2 o3 -> outcome_eq o1 o3.
Proof.
  destruct o1, o2, o3; simpl; try done; intros; destruct_and?; subst;
    try (split; [done|]; by etrans). done.
Qed.

(** The entry point does what is specified, on every branch. *)
Lemma vote_run cx g i st :
  well_typed st -> outcome_eq (run cx (vote g i) st) (vote_spec cx g i st).
Proof.
  intros Hwt. unfold vote, vote_spec. rewrite run_bind, require_not_paused_spec by done.
  destruct (paused st); [done|]. run_go. destruct (authorized cx g); [|done]. simpl.
  rewrite run_bind, lock_run. destruct (locked st) eqn:Hl; [done|].
  assert (Hno : sget DataKey.Lock (storage st) = None).
  { unfold locked in Hl. by apply bool_decide_eq_false, eq_None_not_Some in Hl. }
  fold (locked_state st). assert (Hwt1 : well_typed (locked_state st)) by (by apply well_typed_set).
  rewrite run_bind, is_guardian_run by done. unfold vote_check.
  replace (registered (locked_state st) g) with (registered st g)
    by (unfold registered; simpl; by rewrite look_sset_ne).
  destruct (registered st g); [|by apply bail_run]. simpl. run_go. simpl. rewrite sget_sset_ne by done.
  fold (token_known st). destruct (token_known st); [|by apply bail_run].
  simpl. run_go. simpl. rewrite !look_sset_ne by done. fold (lock_threshold st) (locked_balance st g).
  destruct (_ <=? _); [by apply bail_run|]. simpl. run_go. simpl. rewrite sget_sset_ne by done.
  fold (has_voted st i g). destruct (has_voted st i g); [by apply bail_run|].
  simpl. unfold Reputation.calculate_voting_power, Reputation.get_reputation.
  run_go. simpl. rewrite look_sset_ne by done.
  fold (reputation st g). destruct (reputation st g) as [w|]; [|by apply bail_run].
  destruct (w =? 0); [by apply bail_run|]. simpl. run_go. simpl. rewrite look_sset_ne by done.
  fold (active_task st i). destruct (active_task st i) as [t|]; [|by apply bail_run].
  eapply outcome_eq_trans; [by apply cast_vote_run|].
  destruct (Task.is_cancelled t); [done|]. case_decide; [|done]. case_decide; [|done].
  by apply (resolve_run cx g i w (weight_threshold st) (voted_task w t) st).
Qed.

End vote.
