(* ===== verification/System.v ===== *)
(** * The contract as a transition system

    [Call] lists the entry points that change state, [exec] dispatches them,
    and [step] is one transaction: it commits the state of a completed
    invocation and keeps the old state of a failed one (the host rolls back).
    Between transactions the world may change.  [reachable] closes [step] from
    a freshly deployed contract.

    [upgrade_contract] is not a [Call]: after it, other code runs (Upgrade.v). *)

From stdpp Require Import prelude gmap list strings relations.
From Stdlib Require Import ZArith Lia Strings.Byte.
From S2P Require Import Prelude.
From S2P Require Import Types.
From S2P Require Import Host.
From S2P Require Import Logic.
From S2P Require Import Frame.
From S2P Require Import Typing.
From S2P Require Import Events.
From S2P Require Import Reentrancy.
From S2P Require Import Reputation.
From S2P Require Import Guardian.
From S2P Require Import CircuitBreaker.
From S2P Require Import Storage.
From S2P Require Import Tasks.
From S2P Require Import Drips.
From S2P Require Import Contract.

(** ** Calls *)

Module Call.

Inductive Call :=
| Initialize (token : Address) (lock_threshold : Z)
| TogglePause (admin : Address)
| Pause (admin : Address)
| Unpause (admin : Address)
| AddGuardian (admin guardian : Address)
| RemoveGuardian (admin guardian : Address)
| LockTokens (guardian : Address) (amount : Z)
| ResignGuardian (guardian : Address)
| UnlockTokens (guardian : Address)
| SetReputation (admin guardian : Address) (score : Z)
| SetWeightThreshold (admin : Address) (threshold : Z)
| SetVaultAddress (admin vault : Address)
| RegisterTask (admin : Address) (task_id : Z)
| CancelTask (admin : Address) (task_id : Z)
| Vote (guardian : Address) (task_id : Z)
| ArchiveTask (task_id : Z)
| StartRewardStream (admin drips contributor : Address) (task_id : Z)
| RecordFailure
| ResetCircuitBreaker (admin : Address).

End Call.

Abbreviation Call := Call.Call.

Definition exec (c : Call) : prog unit :=
  match c with
  | Call.Initialize token thr => initialize token thr
  | Call.TogglePause a => toggle_pause a
  | Call.Pause a => pause a
  | Call.Unpause a => unpause a
  | Call.AddGuardian a g => add_guardian a g
  | Call.RemoveGuardian a g => remove_guardian a g
  | Call.LockTokens g n => lock_tokens g n
  | Call.ResignGuardian g => resign_guardian g
  | Call.UnlockTokens g => unlock_tokens g
  | Call.SetReputation a g s => set_reputation a g s
  | Call.SetWeightThreshold a t => set_weight_threshold a t
  | Call.SetVaultAddress a v => set_vault_address a v
  | Call.RegisterTask a i => register_task a i
  | Call.CancelTask a i => cancel_task a i
  | Call.Vote g i => vote g i
  | Call.ArchiveTask i => archive_task i
  | Call.StartRewardStream a d c i => start_reward_stream a d c i
  | Call.RecordFailure => record_failure
  | Call.ResetCircuitBreaker a => reset_circuit_breaker a
  end.

(** The arguments fit the Rust types of the parameters. *)
Definition call_wf (c : Call) : Prop :=
  match c with
  | Call.Initialize _ thr => in_i128 thr
  | Call.LockTokens _ n => in_i128 n
  | Call.SetReputation _ _ s => in_u64 s
  | Call.SetWeightThreshold _ t => in_u64 t
  | Call.RegisterTask _ i | Call.CancelTask _ i | Call.Vote _ i
  | Call.ArchiveTask i | Call.StartRewardStream _ _ _ i => in_u64 i
  | _ => True
  end.

Definition ctx_wf (cx : context) : Prop := in_u64 (timestamp cx).

#[global] Instance call_wf_dec c : Decision (call_wf c).
Proof. destruct c; simpl; apply _. Defined.

#[global] Instance ctx_wf_dec cx : Decision (ctx_wf cx).
Proof. unfold ctx_wf. apply _. Defined.

(** Who must sign; [None]: the call is permissionless. *)
Definition signer (c : Call) : option Address :=
  match c with
  | Call.Initialize _ _ | Call.ArchiveTask _ | Call.RecordFailure => None
  | Call.TogglePause a | Call.Pause a | Call.Unpause a
  | Call.AddGuardian a _ | Call.RemoveGuardian a _
  | Call.SetReputation a _ _ | Call.SetWeightThreshold a _ | Call.SetVaultAddress a _
  | Call.RegisterTask a _ | Call.CancelTask a _ | Call.StartRewardStream a _ _ _
  | Call.ResetCircuitBreaker a => Some a
  | Call.LockTokens g _ | Call.ResignGuardian g | Call.UnlockTokens g | Call.Vote g _ => Some g
  end.

(** The calls a pause stops. *)
Definition guarded (c : Call) : bool :=
  match c with
  | Call.AddGuardian _ _ | Call.RemoveGuardian _ _ | Call.SetReputation _ _ _
  | Call.RegisterTask _ _ | Call.CancelTask _ _ | Call.Vote _ _ | Call.ArchiveTask _
  | Call.StartRewardStream _ _ _ _ => true
  | _ => false
  end.

(** The keys a call may write. *)
Definition footprint (c : Call) : list DataKey :=
  match c with
  | Call.Initialize _ _ =>
      [DataKey.Initialized; DataKey.TokenAddress; DataKey.LockThreshold; DataKey.Paused]
  | Call.TogglePause _ | Call.Pause _ | Call.Unpause _ => [DataKey.Paused]
  | Call.AddGuardian _ g => [DataKey.AllGuardians; DataKey.Guardian g]
  | Call.RemoveGuardian _ g => [DataKey.Guardian g]
  | Call.LockTokens g _ => [DataKey.LockedBalance g]
  | Call.ResignGuardian g => [DataKey.Guardian g; DataKey.LockedBalance g]
  | Call.UnlockTokens g => [DataKey.LockedBalance g]
  | Call.SetReputation _ g _ => [DataKey.Reputation g]
  | Call.SetWeightThreshold _ _ => [DataKey.WeightThreshold]
  | Call.SetVaultAddress _ _ => [DataKey.VaultAddress]
  | Call.RegisterTask _ i => [DataKey.Lock; DataKey.ActiveTask i; DataKey.AllTasks]
  | Call.CancelTask _ i => [DataKey.Lock; DataKey.ActiveTask i]
  | Call.Vote g i => [DataKey.Lock; DataKey.AllVotes; DataKey.Voted i g; DataKey.ActiveTask i]
  | Call.ArchiveTask i => [DataKey.ArchivedTask i; DataKey.ActiveTask i]
  | Call.StartRewardStream _ _ _ i => [DataKey.AllRewardStreams; DataKey.RewardStream i]
  | Call.RecordFailure => [DataKey.FailureCount; DataKey.Paused]
  | Call.ResetCircuitBreaker _ => [DataKey.FailureCount; DataKey.Paused]
  end.

(** The event topics a call may publish under. *)
Definition topics (c : Call) : list string :=
  match c with
  | Call.CancelTask _ _ => ["cancelled"]
  | Call.Vote _ _ => ["resolved"; "wt_vote"]
  | Call.ArchiveTask _ => ["archived"]
  | Call.StartRewardStream _ _ _ _ => ["rw_start"; "rw_fail"]
  | Call.RecordFailure => ["cb_trip"]
  | _ => []
  end%string.

Definition has_topic (ts : list string) (e : effect) : Prop :=
  match e with
  | Published [t] _ => t ∈ ts
  | TtlExtended _ _ => True
  | _ => False
  end.

(** ** What the text of the handlers guarantees *)

Lemma exec_typed c : call_wf c -> typed (footprint c) (exec c).
Proof.
  destruct c; intros Hwf; unfold typed; simpl in Hwf; unfold exec; typed_solve.
  by destruct (Task.is_done a0); split_and!.
Qed.

Lemma exec_auth_first c a : signer c = Some a -> auth_first a (exec c).
Proof. destruct c; intros [= <-]; unfold exec; auth_solve. Qed.

Lemma exec_publishes c : publishes (has_topic (topics c)) (exec c).
Proof.
  destruct c; unfold publishes, exec; obey; try (by unfold any); simpl; try done; solve_elem.
Qed.

(** ** Transactions *)

Section transitions.
Context {Sto Wld : Type} `{!InstanceStorage Sto} `{!World Wld}.
Implicit Types (st : state Sto Wld) (cx : context).

(** A completed invocation of [c] with in-range arguments. *)
Definition commits cx c st st' : Prop :=
  ctx_wf cx /\ call_wf c /\ run cx (exec c) st = Done tt st'.

Inductive step : state Sto Wld -> state Sto Wld -> Prop :=
| step_commit cx c st st' : commits cx c st st' -> step st st'
| step_rollback cx c st :
    (forall st', run cx (exec c) st <> Done tt st') -> step st st
| step_world w st : step st (with_world w st).

Definition deployed (w : Wld) : state Sto Wld := State sempty w [].

Lemma sget_deployed k w : sget k (storage (deployed w)) = None.
Proof. apply sget_sempty. Qed.

Lemma look_deployed {T} (c : codec T) k w : look c k (storage (deployed w)) = None.
Proof. unfold look. by rewrite sget_deployed. Qed.

Definition reachable st : Prop := exists w, rtc step (deployed w) st.

(** The entry point as the host runs it: commit or roll back. *)
Definition invoke cx c st : state Sto Wld :=
  match run cx (exec c) st with
  | Done _ st' => st'
  | _ => st
  end.

Fixpoint invoke_all (l : list (context * Call)) st : state Sto Wld :=
  match l with
  | [] => st
  | (cx, c) :: rest => invoke_all rest (invoke cx c st)
  end.

Definition calls_wf (l : list (context * Call)) : Prop :=
  Forall (fun x => ctx_wf x.1 /\ call_wf x.2) l.

#[global] Instance calls_wf_dec l : Decision (calls_wf l) := ltac:(unfold calls_wf; apply _).

Lemma invoke_step cx c st : ctx_wf cx -> call_wf c -> step st (invoke cx c st).
Proof.
  intros Hcx Hc. unfold invoke. destruct (run cx (exec c) st) as [[] st'|e st'|r] eqn:E.
  - by eapply step_commit.
  - eapply step_rollback. intros st''. by erewrite E.
  - eapply step_rollback. intros st''. by erewrite E.
Qed.

Lemma reachable_deployed w : reachable (deployed w).
Proof. by exists w. Qed.

Lemma reachable_step st st' : reachable st -> step st st' -> reachable st'.
Proof. intros [w Hw] Hs. exists w. by eapply rtc_r. Qed.

Lemma reachable_rtc st st' : reachable st -> rtc step st st' -> reachable st'.
Proof. intros [w Hw] Hs. exists w. by etrans. Qed.

Lemma reachable_invoke_all l st : calls_wf l -> reachable st -> reachable (invoke_all l st).
Proof.
  revert st. induction l as [|[cx c] l IH]; intros st Hl Hst; [done|].
  apply Forall_cons in Hl as [[Hcx Hc] Hl]. apply IH; [done|].
  eapply reachable_step; [done|]. by apply invoke_step.
Qed.

Lemma invoke_all_rtc l st : calls_wf l -> rtc step st (invoke_all l st).
Proof.
  revert st. induction l as [|[cx c] l IH]; intros st Hl; [done|].
  apply Forall_cons in Hl as [[Hcx Hc] Hl]. eapply rtc_l; [by apply invoke_step|]. by apply IH.
Qed.

(** Invariants: shown of the deployed contract, of committed calls, and of
    changes of the world. *)
Lemma reachable_ind (Inv : state Sto Wld -> Prop) :
  (forall w, Inv (deployed w)) ->
  (forall cx c st st', reachable st -> Inv st -> commits cx c st st' -> Inv st') ->
  (forall w st, reachable st -> Inv st -> Inv (with_world w st)) ->
  forall st, reachable st -> Inv st.
Proof.
  intros Hd Hc Hw st [w Hst].
  enough (reachable st /\ Inv st) by naive_solver.
  refine (rtc_ind_r (fun st => reachable st /\ Inv st) _ _ _ _ Hst).
  - split; [apply reachable_deployed | done].
  - intros st1 st2 _ Hs [Hr HI]. split; [by eapply reachable_step|].
    destruct Hs as [cx c st1 st2 Hcm|cx c st1 Hno|w' st1]; eauto.
Qed.

(** Storage invariants that hold along one key: every reachable state is
    well typed, and a commit changes only the keys of its footprint. *)

Lemma commits_typed cx c st st' :
  well_typed st -> commits cx c st st' ->
  well_typed st' /\ forall k, k ∉ footprint c -> sget k (storage st') = sget k (storage st).
Proof.
  intros Hwt (Hcx & Hc & Hrun).
  pose proof (typed_run (footprint c) cx (exec c) st Hcx Hwt (exec_typed c Hc)) as H.
  by rewrite Hrun in H.
Qed.

Lemma reachable_well_typed st : reachable st -> well_typed st.
Proof.
  revert st. apply reachable_ind.
  - intros w. apply well_typed_empty.
  - intros cx c st st' _ Hwt Hcm. by eapply commits_typed.
  - intros w st _ Hwt k v. apply Hwt.
Qed.

Lemma commits_frame cx c st st' k :
  reachable st -> commits cx c st st' -> k ∉ footprint c ->
  sget k (storage st') = sget k (storage st).
Proof.
  intros Hr Hcm Hk. eapply commits_typed in Hcm as [_ Hf]; [by apply Hf|].
  by apply reachable_well_typed.
Qed.

Lemma commits_log cx c st st' :
  commits cx c st st' ->
  exists l, effects st' = effects st ++ l /\ Forall (has_topic (topics c)) l.
Proof.
  intros (_ & _ & Hrun). eapply publishes_log; [apply exec_publishes|]. by rewrite Hrun.
Qed.

End transitions.
