(* ===== verification/SampleRun.v ===== *)
(** * A sample history

    One concrete history of the contract on the sample host: two guardians, two
    tasks, votes, a payment.  The witnesses evaluate its states. *)

From stdpp Require Import prelude gmap list strings.
From Stdlib Require Import ZArith Lia.
From S2P Require Import Prelude.
From S2P Require Import Types.
From S2P Require Import Host.
From S2P Require Import Logic.
From S2P Require Import Typing.
From S2P Require Import SampleHost.
From S2P Require Import System.

Definition day : Z := 86400.

Definition vault1 : Address := Addr 70.
Definition drips1 : Address := Addr 80.
Definition worker : Address := Addr 90.

Definition script : list (context * Call) := [
  (at_time 1, Call.Initialize token 10);
  (at_time 2, Call.AddGuardian admin guardian1);
  (at_time 3, Call.AddGuardian admin guardian2);
  (at_time 4, Call.SetReputation admin guardian1 200);
  (at_time 5, Call.SetReputation admin guardian2 150);
  (at_time 6, Call.LockTokens guardian1 50);
  (at_time 7, Call.LockTokens guardian2 60);
  (at_time 8, Call.RegisterTask admin 1);
  (at_time 9, Call.RegisterTask admin 2);
  (at_time 10, Call.SetVaultAddress admin vault1);
  (at_time 11, Call.Vote guardian1 1);
  (at_time 12, Call.Vote guardian2 1);
  (at_time 13, Call.StartRewardStream admin drips1 worker 1);
  (at_time (40 * day), Call.ArchiveTask 1)
].

(** The state after the first [n] calls. *)
Definition scene (n : nat) : sample_state := invoke_all (take n script) (deployed w0).

Lemma script_wf n : calls_wf (take n script).
Proof.
  apply Forall_take. by apply (bool_decide_unpack (Forall _ script)); vm_compute.
Defined.

Lemma scene_reachable n : reachable (scene n).
Proof. apply reachable_invoke_all; [apply script_wf | apply reachable_deployed]. Qed.

Lemma scene_typed n : well_typed (scene n).
Proof. apply reachable_well_typed, scene_reachable. Qed.

(** How a run ended, without the state it ended in: the witnesses evaluate
    this. *)
Definition ending {A} (o : outcome (gmap DataKey Val) sample_world A) : option (unit + ContractError) :=
  match o with Done _ _ => Some (inl tt) | Failed e _ => Some (inr e) | Trapped _ => None end.

Lemma ending_failed {A} (o : outcome (gmap DataKey Val) sample_world A) e :
  ending o = Some (inr e) -> exists st, o = Failed e st.
Proof. destruct o; simpl; naive_solver. Qed.

Lemma ending_done (o : outcome (gmap DataKey Val) sample_world unit) :
  ending o = Some (inl tt) -> exists st, o = Done tt st.
Proof. destruct o as [[]| |]; simpl; naive_solver. Qed.

Lemma ending_invoke cx c (st : sample_state) :
  ctx_wf cx -> call_wf c -> ending (run cx (exec c) st) = Some (inl tt) ->
  commits cx c st (invoke cx c st).
Proof. intros Hcx Hc [st' Hd]%ending_done. unfold invoke, commits. by rewrite Hd. Qed.

Lemma ending_commits cx c (st : sample_state) :
  ctx_wf cx -> call_wf c -> ending (run cx (exec c) st) = Some (inl tt) ->
  exists st', commits cx c st st'.
Proof. intros Hcx Hc [st' Hd]%ending_done. by exists st'. Qed.

(** Every call of the script commits. *)
Definition script_step_ok (n : nat) : bool :=
  match script !! n with
  | Some (cx, c) => bool_decide (ending (run cx (exec c) (scene n)) = Some (inl tt))
  | None => true
  end.

Lemma script_commits : Forall script_step_ok (seq 0 14).
Proof. by_eval. Qed.

Lemma scene_commits n cx c :
  script !! n = Some (cx, c) -> commits cx c (scene n) (scene (S n)).
Proof.
  intros Hn. assert (n < 14)%nat by (by apply lookup_lt_Some in Hn).
  assert (ctx_wf cx /\ call_wf c) as [Hcx Hc].
  { pose proof (script_wf 14) as Hwf. unfold calls_wf in Hwf. rewrite Forall_lookup in Hwf. exact (Hwf n (cx, c) Hn). }
  split_and!; [done..|].
  pose proof script_commits as Hs. rewrite Forall_forall in Hs. specialize (Hs n ltac:(apply elem_of_seq; lia)).
  unfold script_step_ok in Hs. rewrite Hn in Hs. apply bool_decide_unpack, ending_done in Hs as [st' Hd]. rewrite Hd. f_equal.
  unfold scene. rewrite (take_S_r _ _ _ Hn).
  assert (Happ : forall l st, invoke_all (l ++ [(cx, c)]) st = invoke cx c (invoke_all l st)).
  { induction l as [|[]]; intros; simpl; [done|]. by rewrite IHl. }
  rewrite Happ. unfold invoke. unfold scene in Hd. by rewrite Hd.
Qed.

(** A history in which a guardian's reputation is withdrawn. *)
Definition zero_weight_calls : list (context * Call) :=
  take 10 script ++ [(at_time 11, Call.SetReputation admin guardian1 0)].

Definition zero_weight_scene : sample_state := invoke_all zero_weight_calls (deployed w0).

Lemma zero_weight_reachable : reachable zero_weight_scene.
Proof. apply reachable_invoke_all; [by_eval | apply reachable_deployed]. Qed.
