(* ===== verification/Spec.v ===== *)
(** * The specification of the contract

    [spec cx c st] says what every state-changing entry point does, as a plain
    function of the state: no host calls, no mutex, no order of writes.
    [exec_spec] shows that the program implements it.  Errors and traps are
    matched exactly, and a failed run has undone its own writes. *)

From stdpp Require Import prelude gmap list strings.
From Stdlib Require Import ZArith Lia.
From S2P Require Import Prelude.
From S2P Require Import Types.
From S2P Require Import Host.
From S2P Require Import Logic.
From S2P Require Import Frame.
From S2P Require Import Typing.
From S2P Require Import Events.
From S2P Require Import Reentrancy.
From S2P Require Import Reputation.
From S2P Require Import Guardian.
From S2P Require Import CircuitBreaker.
From S2P Require Import Storage.
From S2P Require Import Tasks.
From S2P Require Import Drips.
From S2P Require Import Contract.
From S2P Require Import VoteSpec.
From S2P Require Import System.

Section spec.
Context {Sto Wld : Type} `{!InstanceStorage Sto} `{!World Wld}.
Implicit Types (st : state Sto Wld) (cx : context).

Local Abbreviation result := (outcome Sto Wld unit).

(** ** Views of the state *)

Definition initialized st : bool :=
  default false (look c_bool DataKey.Initialized (storage st)).

Definition token_address st : option Address :=
  look c_Address DataKey.TokenAddress (storage st).

(** ** Combinators *)

Definition put (k : DataKey) (v : Val) st : state Sto Wld := with_storage (sset k v) st.

Definition unless_paused st (o : result) : result :=
  if paused st then Failed ContractError.ContractPaused st else o.

Definition signed cx (a : Address) (o : result) : result :=
  if authorized cx a then o else Trapped (AuthFailure a).

Definition with_token st (f : Address -> result) : result :=
  match token_address st with
  | Some tk => f tk
  | None => Failed ContractError.NotInitialized st
  end.

(** ** Operations *)

Definition initialize_spec (token : Address) (thr : Z) st : result :=
  if initialized st then Failed ContractError.AlreadyInitialized st
  else
    Done tt
      (log (TtlExtended 100000 100000)
         (put DataKey.Paused (VBool false)
            (put DataKey.LockThreshold (VI128 thr)
               (put DataKey.TokenAddress (VAddress token)
                  (put DataKey.Initialized (VBool true) st))))).

Definition lock_tokens_spec cx (g : Address) (n : Z) st : result :=
  with_token st (fun tk =>
    match token_transfer tk g (self_address cx) n (world st) with
    | None => Trapped (CallFailure tk)
    | Some w =>
        let total := locked_balance st g + n in
        if decide (in_i128 total) then
          Done tt (put (DataKey.LockedBalance g) (VI128 total) (with_world w st))
        else Trapped Overflow
    end).

(** A positive balance is paid back in full. *)
Definition refund_spec cx (tk g : Address) st : result :=
  if 0 <? locked_balance st g then
    match token_transfer tk (self_address cx) g (locked_balance st g) (world st) with
    | None => Trapped (CallFailure tk)
    | Some w => Done tt (put (DataKey.LockedBalance g) (VI128 0) (with_world w st))
    end
  else Done tt st.

Definition resign_spec cx (g : Address) st : result :=
  with_token st (fun tk =>
    if registered st g then refund_spec cx tk g (put (DataKey.Guardian g) (VBool false) st)
    else Failed ContractError.NotGuardian st).

Definition unlock_tokens_spec cx (g : Address) st : result :=
  with_token st (fun tk =>
    if registered st g then Failed ContractError.StillGuardian st
    else refund_spec cx tk g st).

Definition remove_guardian_spec (g : Address) st : result :=
  match sget (DataKey.Guardian g) (storage st) with
  | Some _ => Done tt (with_storage (sremove (DataKey.Guardian g)) st)
  | None => Trapped (PanicWith "Guardian not found")
  end.

Definition register_spec (i : Z) st : result :=
  if locked st then Failed ContractError.Locked st
  else if decide (id_free st i) then Done tt (tasks_registered [i] st)
  else Failed ContractError.NotAuthorized st.

(** The entry point looks for an active task before it archives: an archived
    one is not found. *)
Definition archive_spec cx (i : Z) st : result :=
  match active_task st i with
  | None => Failed ContractError.TaskNotFound st
  | Some t =>
      match archive_outcome cx i st with
      | Done _ st' =>
          Done tt (log (Published ["archived"%string]
                     (DTuple [VU64 i; VU64 (Task.resolved_at t)])) st')
      | o => o
      end
  end.

(** A stream that is refused is announced all the same. *)
Definition stream_failed_event (i : Z) (c : Address) : effect :=
  Published ["rw_fail"%string] (DTuple [VU64 i; VAddress c]).

Definition stream_spec (d c : Address) (i : Z) st : result :=
  match drips_outcome d c i st with
  | Done _ st' => Done tt (log (Published ["rw_start"%string] (DTuple [VU64 i; VAddress c])) st')
  | Failed e st' => Failed e (log (stream_failed_event i c) st')
  | Trapped r => Trapped r
  end.

Definition record_failure_spec st : result :=
  if decide (failure_count st < u32_max) then Done tt (after_failure st) else Trapped Overflow.

Definition reset_spec st : state Sto Wld :=
  with_storage (fun s => sremove DataKey.Paused (sset DataKey.FailureCount (VU32 0) s)) st.

Definition spec cx (c : Call) st : result :=
  match c with
  | Call.Initialize tk thr => initialize_spec tk thr st
  | Call.TogglePause a => signed cx a (Done tt (put DataKey.Paused (VBool (negb (paused st))) st))
  | Call.Pause a => signed cx a (Done tt (put DataKey.Paused (VBool true) st))
  | Call.Unpause a => signed cx a (Done tt (put DataKey.Paused (VBool false) st))
  | Call.AddGuardian a g => unless_paused st (signed cx a (Done tt (guardian_added g st)))
  | Call.RemoveGuardian a g => unless_paused st (signed cx a (remove_guardian_spec g st))
  | Call.LockTokens g n => signed cx g (lock_tokens_spec cx g n st)
  | Call.ResignGuardian g => signed cx g (resign_spec cx g st)
  | Call.UnlockTokens g => signed cx g (unlock_tokens_spec cx g st)
  | Call.SetReputation a g s =>
      unless_paused st (signed cx a (Done tt (put (DataKey.Reputation g) (VU64 s) st)))
  | Call.SetWeightThreshold a t => signed cx a (Done tt (put DataKey.WeightThreshold (VU64 t) st))
  | Call.SetVaultAddress a v => signed cx a (Done tt (put DataKey.VaultAddress (VAddress v) st))
  | Call.RegisterTask a i => unless_paused st (signed cx a (register_spec i st))
  | Call.CancelTask a i => unless_paused st (cancel_outcome cx a i st)
  | Call.Vote g i => vote_spec cx g i st
  | Call.ArchiveTask i => unless_paused st (archive_spec cx i st)
  | Call.StartRewardStream a d c i => unless_paused st (signed cx a (stream_spec d c i st))
  | Call.RecordFailure => record_failure_spec st
  | Call.ResetCircuitBreaker a => signed cx a (Done tt (reset_spec st))
  end.

(** ** Refinement *)

(** The run ends as the specification says, a failed one in the same state too,
    with the events it logged before it failed. *)
Definition implements {A} (o1 o2 : outcome Sto Wld A) : Prop :=
  match o1, o2 with
  | Done a1 st1, Done a2 st2 => a1 = a2 /\ state_eq st1 st2
  | Failed e1 st1, Failed e2 st2 =>
      e1 = e2 /\ state_eq st1 st2
  | Trapped r1, Trapped r2 => r1 = r2
  | _, _ => False
  end.

Lemma implements_refl {A} (o : outcome Sto Wld A) : implements o o.
Proof. by destruct o. Qed.

Lemma outcome_eq_implements {A} (o1 o2 : outcome Sto Wld A) : outcome_eq o1 o2 -> implements o1 o2.
Proof. done. Qed.

Lemma guarded_run cx (p : prog unit) st o :
  well_typed st -> implements (run cx p st) o ->
  implements (run cx (require_not_paused;; p) st) (unless_paused st o).
Proof.
  intros Hwt Hp. rewrite run_bind, require_not_paused_spec by done. unfold unless_paused.
  by destruct (paused st).
Qed.

(** A token address that is stored can be read. *)
Lemma token_known_address st :
  well_typed st -> token_known st = bool_decide (is_Some (token_address st)).
Proof.
  intros Hwt. unfold token_known, token_address, look.
  destruct (sget DataKey.TokenAddress (storage st)) as [v|] eqn:E; [|done].
  apply Hwt in E. by destruct v.
Qed.

Lemma with_token_run cx (p : prog unit) (q : prog unit) st f :
  well_typed st ->
  run cx q st = Failed ContractError.NotInitialized st ->
  (forall tk, token_address st = Some tk -> implements (run cx p st) (f tk)) ->
  implements
    (run cx (known ← storage_has DataKey.TokenAddress; if negb known then q else p) st)
    (with_token st f).
Proof.
  intros Hwt Hq Hp. rewrite run_bind, run_has. fold (token_known st).
  rewrite token_known_address by done. unfold with_token.
  destruct (token_address st); simpl; [by apply Hp | by rewrite Hq].
Qed.

Lemma lock_tokens_run cx g n st :
  well_typed st ->
  implements (run cx (lock_tokens g n) st) (signed cx g (lock_tokens_spec cx g n st)).
Proof.
  intros Hwt. unfold lock_tokens, signed. rewrite run_bind, run_auth.
  destruct (authorized cx g); [|done]. apply with_token_run; [done..|]. intros tk Htk.
  run_go. fold (token_address st). rewrite Htk.
  run_go. destruct (token_transfer _ _ _ _ _) as [w|]; [|done].
  assert (Hwt1 : well_typed (with_world w st)) by done.
  run_go. unfold i128_checked_add. simpl. fold (locked_balance st g). by case_decide.
Qed.

Lemma refund_run cx tk g st :
  well_typed st -> token_address st = Some tk ->
  implements (run cx (refund_locked g) st) (refund_spec cx tk g st).
Proof.
  intros Hwt Htk. unfold refund_locked, refund_spec. run_go. fold (locked_balance st g).
  destruct (0 <? _); [|done]. run_go. fold (token_address st). rewrite Htk.
  run_go. by destruct (token_transfer _ _ _ _ _).
Qed.

Lemma resign_run cx g st :
  well_typed st ->
  implements (run cx (resign_guardian g) st) (signed cx g (resign_spec cx g st)).
Proof.
  intros Hwt. unfold resign_guardian, signed. rewrite run_bind, run_auth.
  destruct (authorized cx g); [|done]. apply with_token_run; [done..|]. intros tk Htk.
  rewrite run_bind, is_guardian_run by done. destruct (registered st g); [|done]. simpl.
  rewrite run_bind, run_set. apply refund_run; [by apply well_typed_set|].
  unfold token_address. simpl. by rewrite look_sset_ne.
Qed.

Lemma unlock_tokens_run cx g st :
  well_typed st ->
  implements (run cx (unlock_tokens g) st) (signed cx g (unlock_tokens_spec cx g st)).
Proof.
  intros Hwt. unfold unlock_tokens, signed. rewrite run_bind, run_auth.
  destruct (authorized cx g); [|done]. apply with_token_run; [done..|]. intros tk Htk.
  rewrite run_bind, is_guardian_run by done. destruct (registered st g); [done|].
  by apply refund_run.
Qed.

Lemma register_run cx a i st :
  well_typed st -> in_u64 i ->
  implements (run cx (register_tasks a [i]) st) (signed cx a (register_spec i st)).
Proof.
  intros Hwt Hi. pose proof (register_tasks_run cx a [i] st Hwt ltac:(by constructor)) as H.
  assert (Hf : batch_free st [i] <-> id_free st i).
  { unfold batch_free. rewrite Forall_singleton. pose proof (NoDup_singleton i). tauto. }
  unfold signed, register_spec. destruct (authorized cx a) eqn:Ha.
  - destruct (run cx (register_tasks a [i]) st) as [[] st'|e st'|r].
    + destruct H as (_ & _ & -> & Hb & Heq). by rewrite decide_True by tauto.
    + unfold MAX_REGISTER_TASK_BATCH_SIZE in H. simpl in H.
      destruct H as [(_ & H & _)|[(-> & -> & ->)|(-> & -> & Hb & pre & j & post & Hj & Heq)]];
        [lia|done|].
      rewrite decide_False by tauto. destruct pre as [|? [|]]; simplify_eq. split; [done|exact Heq].
    + by destruct H.
  - unfold register_tasks. simpl. by rewrite run_bind, run_auth, Ha.
Qed.

Lemma archive_run cx i st :
  well_typed st -> implements (run cx (archive_task i) st) (unless_paused st (archive_spec cx i st)).
Proof.
  intros Hwt. apply guarded_run; [done|]. unfold get_active_task, active_task_key, archive_spec. run_go.
  fold (active_task st i). destruct (active_task st i) as [t|]; [|done].
  rewrite run_bind, archive_task_run by done. by destruct (archive_outcome cx i st) as [[]| |].
Qed.

Lemma stream_run cx a d c i st :
  well_typed st ->
  implements (run cx (start_reward_stream a d c i) st)
    (unless_paused st (signed cx a (stream_spec d c i st))).
Proof.
  intros Hwt. apply guarded_run; [done|]. unfold signed. rewrite run_bind, run_auth.
  destruct (authorized cx a); [|done]. unfold stream_spec.
  rewrite run_bind, run_catch, start_drips_stream_run by done.
  by destruct (drips_outcome d c i st) as [[]| |].
Qed.

Lemma record_failure_implements cx st :
  well_typed st -> implements (run cx record_failure st) (record_failure_spec st).
Proof. intros Hwt. unfold record_failure. rewrite record_failure_run by done. apply implements_refl. Qed.

Lemma simple_run cx a (p : prog unit) st st' :
  run cx p st = Done tt st' ->
  implements (run cx (require_auth a;; p) st) (signed cx a (Done tt st')).
Proof. intros Hp. rewrite run_bind, run_auth. unfold signed. destruct (authorized cx a); [|done]. by rewrite Hp. Qed.

Lemma initialize_run cx tk thr st :
  well_typed st -> implements (run cx (initialize tk thr) st) (initialize_spec tk thr st).
Proof.
  intros Hwt. unfold initialize, initialize_spec. run_go. fold (initialized st).
  by destruct (initialized st); run_go.
Qed.

Lemma toggle_run cx a st :
  well_typed st ->
  implements (run cx (toggle_pause a) st)
    (signed cx a (Done tt (put DataKey.Paused (VBool (negb (paused st))) st))).
Proof. intros Hwt. apply simple_run. by run_go. Qed.

Lemma exec_spec cx c st :
  well_typed st -> call_wf c -> implements (run cx (exec c) st) (spec cx c st).
Proof.
  intros Hwt Hc. destruct c; simpl in *.
  - by apply initialize_run.
  - by apply toggle_run.
  - by apply simple_run.
  - by apply simple_run.
  - apply guarded_run; [done|]. rewrite add_guardian_run by done. apply implements_refl.
  - apply guarded_run; [done|]. rewrite remove_guardian_run. apply implements_refl.
  - by apply lock_tokens_run.
  - by apply resign_run.
  - by apply unlock_tokens_run.
  - apply guarded_run; [done|]. by apply simple_run.
  - by apply simple_run.
  - by apply simple_run.
  - apply guarded_run; [done|]. by apply register_run.
  - apply guarded_run; [done|]. by apply outcome_eq_implements, cancel_task_run.
  - by apply outcome_eq_implements, vote_run.
  - by apply archive_run.
  - by apply stream_run.
  - by apply record_failure_implements.
  - by apply simple_run.
Qed.

End spec.

(** Opens the specification. *)
Ltac unfold_spec :=
  unfold spec, unless_paused, signed, initialize_spec, lock_tokens_spec, resign_spec,
    unlock_tokens_spec, refund_spec, with_token, remove_guardian_spec, register_spec, cancel_outcome,
    vote_spec, archive_spec, archive_outcome, stream_spec, drips_outcome, record_failure_spec.
