(* ===== verification/Commits.v ===== *)
(** * What a committed call did

    Each call that commits is inverted into the conditions it met and the state
    it left, from the specification; the views of the state are shown to depend
    on the store only up to [store_eq]. *)

From stdpp Require Import prelude gmap list strings.
From Stdlib Require Import ZArith Lia Morphisms.
From S2P Require Import Prelude.
From S2P Require Import Types.
From S2P Require Import Host.
From S2P Require Import Logic.
From S2P Require Import Frame.
From S2P Require Import Typing.
From S2P Require Import Reentrancy.
From S2P Require Import Guardian.
From S2P Require Import CircuitBreaker.
From S2P Require Import Storage.
From S2P Require Import Tasks.
From S2P Require Import Drips.
From S2P Require Import Contract.
From S2P Require Import VoteSpec.
From S2P Require Import System.
From S2P Require Import Spec.

Section commits.
Context {Sto Wld : Type} `{!InstanceStorage Sto} `{!World Wld}.
Implicit Types (st : state Sto Wld) (cx : context).

#[global] Instance look_proper {T} (c : codec T) :
  Proper (eq ==> store_eq ==> eq) (look (Sto := Sto) c).
Proof. intros k ? <- s1 s2 Hs. unfold look. by rewrite (Hs k). Qed.

#[global] Instance storage_proper : Proper (state_eq ==> store_eq) (@storage Sto Wld).
Proof. by intros st1 st2 [Hs _]. Qed.

#[global] Instance active_task_proper : Proper (state_eq ==> eq ==> eq) (@active_task Sto Wld _).
Proof. intros st1 st2 Hs i ? <-. unfold active_task. by rewrite Hs. Qed.

#[global] Instance archived_task_proper : Proper (state_eq ==> eq ==> eq) (@archived_task Sto Wld _).
Proof. intros st1 st2 Hs i ? <-. unfold archived_task. by rewrite Hs. Qed.

#[global] Instance all_votes_proper : Proper (state_eq ==> eq) (@all_votes Sto Wld _).
Proof. intros st1 st2 Hs. unfold all_votes. by rewrite Hs. Qed.

#[global] Instance all_tasks_proper : Proper (state_eq ==> eq) (@all_tasks Sto Wld _).
Proof. intros st1 st2 Hs. unfold all_tasks. by rewrite Hs. Qed.

(** ** From the code to the specification *)

Lemma commits_spec cx c st st' :
  well_typed st -> commits cx c st st' ->
  exists st1, spec cx c st = Done tt st1 /\ state_eq st' st1.
Proof.
  intros Hwt (_ & Hc & Hrun). pose proof (exec_spec cx c st Hwt Hc) as H.
  rewrite Hrun in H. destruct (spec cx c st) as [[] st1|e st1|r]; simpl in H; naive_solver.
Qed.

(** A specified success is a commit. *)
Lemma spec_commits cx c st st1 :
  well_typed st -> ctx_wf cx -> call_wf c -> spec cx c st = Done tt st1 ->
  exists st', commits cx c st st' /\ state_eq st' st1.
Proof.
  intros Hwt Hcx Hc Hs. pose proof (exec_spec cx c st Hwt Hc) as H. rewrite Hs in H.
  destruct (run cx (exec c) st) as [[] st'|e st'|r] eqn:E; simpl in H; [|done..].
  destruct H as [_ H]. by exists st'.
Qed.

(** ** Combinators *)

Lemma unless_paused_done st o (st1 : state Sto Wld) :
  unless_paused st o = Done tt st1 -> paused st = false /\ o = Done tt st1.
Proof. unfold unless_paused. by destruct (paused st). Qed.

Lemma signed_done cx a o (st1 : state Sto Wld) :
  signed cx a o = Done tt st1 -> authorized cx a = true /\ o = Done tt st1.
Proof. unfold signed. by destruct (authorized cx a). Qed.

Lemma with_token_done st f (st1 : state Sto Wld) :
  with_token st f = Done tt st1 -> exists tk, token_address st = Some tk /\ f tk = Done tt st1.
Proof. unfold with_token. destruct (token_address st); naive_solver. Qed.

(** ** Tasks *)

Lemma register_commit cx a i st st' :
  well_typed st -> commits cx (Call.RegisterTask a i) st st' ->
  paused st = false /\ authorized cx a = true /\ locked st = false /\ id_free st i /\
  state_eq st' (tasks_registered [i] st).
Proof.
  intros Hwt Hcm. eapply commits_spec in Hcm as (st1 & Hs & Heq); [|done].
  apply unless_paused_done in Hs as [Hp Hs]. apply signed_done in Hs as [Ha Hs].
  unfold register_spec in Hs. destruct (locked st); [done|]. case_decide; simplify_eq. by split_and!.
Qed.

Lemma cancel_commit cx a i st st' :
  well_typed st -> commits cx (Call.CancelTask a i) st st' ->
  paused st = false /\ authorized cx a = true /\ locked st = false /\
  exists t, active_task st i = Some t /\
    state_eq st'
      (log (Published ["cancelled"%string] (DValue (VU64 i)))
         (put (DataKey.ActiveTask i) (VTask (cancelled t)) st)).
Proof.
  intros Hwt Hcm. eapply commits_spec in Hcm as (st1 & Hs & Heq); [|done].
  apply unless_paused_done in Hs as [Hp Hs]. unfold cancel_outcome in Hs.
  destruct (authorized cx a), (locked st); simplify_eq/=.
  destruct (active_task st i) as [t|]; simplify_eq. naive_solver.
Qed.

Lemma archive_commit cx i st st' :
  well_typed st -> commits cx (Call.ArchiveTask i) st st' ->
  paused st = false /\ archived_task st i = None /\
  exists t, active_task st i = Some t /\ Task.is_done t = true /\ Task.resolved_at t <> 0 /\
    Task.resolved_at t + ARCHIVE_AFTER_SECONDS < timestamp cx /\
    state_eq st'
      (log (Published ["archived"%string] (DTuple [VU64 i; VU64 (Task.resolved_at t)]))
         (with_storage
            (fun s => sremove (DataKey.ActiveTask i) (sset (DataKey.ArchivedTask i) (VTask t) s)) st)).
Proof.
  intros Hwt Hcm. eapply commits_spec in Hcm as (st1 & Hs & Heq); [|done].
  apply unless_paused_done in Hs as [Hp Hs]. unfold archive_spec, archive_outcome in Hs.
  destruct (active_task st i) as [t|]; [|done]. destruct (archived_task st i); [done|].
  repeat case_decide; simplify_eq. naive_solver.
Qed.

(** The task a vote of weight [w] leaves behind. *)
Definition reaches st (w : Z) (t : Task) : bool :=
  weight_threshold st <=? Task.total_weight_accrued t + w.

Definition vote_result cx st (w : Z) (t : Task) : Task :=
  if reaches st w t then resolved_task (timestamp cx) (voted_task w t) else voted_task w t.

Lemma vote_check_inr g i st w t :
  vote_check g i st = inr (w, t) ->
  registered st g = true /\ token_known st = true /\ lock_threshold st < locked_balance st g /\
  has_voted st i g = false /\ reputation st g = Some w /\ w <> 0 /\
  active_task st i = Some t /\ Task.is_cancelled t = false /\
  in_u64 (Task.total_weight_accrued t + w).
Proof.
  unfold vote_check.
  destruct (registered st g), (token_known st); try done. simpl.
  destruct (Z.leb_spec (locked_balance st g) (lock_threshold st)); [done|].
  destruct (has_voted st i g); [done|]. destruct (reputation st g) as [w'|]; [|done].
  destruct (Z.eqb_spec w' 0); [done|]. destruct (active_task st i) as [t'|]; [|done].
  destruct (Task.is_cancelled t') eqn:?; [done|]. case_decide; [|done].
  intros [= <- <-]. by split_and!.
Qed.

Lemma vote_commit cx g i st st' :
  well_typed st -> commits cx (Call.Vote g i) st st' ->
  paused st = false /\ authorized cx g = true /\ locked st = false /\
  exists w t, vote_check g i st = inr (w, t) /\ in_u32 (Task.votes t + 1) /\
    store_eq (storage st')
      (sset (DataKey.ActiveTask i) (VTask (vote_result cx st w t))
         (sset (DataKey.Voted i g) (VBool true)
            (sset DataKey.AllVotes (VVecVote (all_votes st ++ [(i, g)])) (storage st)))) /\
    effects st' = effects st ++
      (if reaches st w t then [resolved_event i (Task.total_weight_accrued t + w)] else [])
      ++ [vote_event i g w] /\
    (if reaches st w t then
       match vault st with
       | Some v => release_funds v i (world st) = Some (world st')
       | None => world st' = world st
       end
     else world st' = world st).
Proof.
  intros Hwt Hcm. eapply commits_spec in Hcm as (st1 & Hs & Heq); [|done].
  simpl in Hs. unfold vote_spec in Hs.
  destruct (paused st), (authorized cx g), (locked st); try done. do 3 (split; [done|]). simpl in Hs.
  destruct (vote_check g i st) as [e|[w t]]; [done|]. exists w, t.
  case_decide; [|done]. do 2 (split; [done|]). unfold vote_result, reaches. cbn zeta in Hs.
  simpl Task.total_weight_accrued in Hs. destruct Heq as (Hst & Hw & He). rewrite Hst, Hw, He.
  destruct (_ <=? _); [destruct (vault st) as [v|]; [destruct (release_funds v i (world st)) eqn:E; [|done]|]|];
    simplify_eq; simpl; by rewrite <-?app_assoc.
Qed.

(** ** Reward streams *)

Lemma stream_commit cx a d c i st st' :
  well_typed st -> commits cx (Call.StartRewardStream a d c i) st st' ->
  paused st = false /\ authorized cx a = true /\
  exists t, active_task st i = Some t /\ Task.is_cancelled t = false /\ Task.is_done t = true /\
    sget (DataKey.RewardStream i) (storage st) = None /\
    invoke_contract d "start_stream" [VAddress c; VU64 i; VU32 1] (world st) = Some (world st') /\
    store_eq (storage st')
      (sset (DataKey.RewardStream i) (VRewardStream (RewardStream.mk i c d true))
         (sset DataKey.AllRewardStreams
            (VVecU64 (default [] (look c_Vec_u64 DataKey.AllRewardStreams (storage st)) ++ [i]))
            (storage st))) /\
    effects st' = effects st ++ [Published ["rw_start"%string] (DTuple [VU64 i; VAddress c])].
Proof.
  intros Hwt Hcm. eapply commits_spec in Hcm as (st1 & Hs & Heq); [|done].
  apply unless_paused_done in Hs as [Hp Hs]. apply signed_done in Hs as [Ha Hs].
  unfold stream_spec, drips_outcome in Hs. fold (active_task st i) in Hs.
  destruct (active_task st i) as [t|]; [|done].
  destruct (Task.is_cancelled t) eqn:?, (Task.is_done t) eqn:?; try done. simpl in Hs.
  case_bool_decide as Hn; [done|]. destruct (invoke_contract _ _ _ _) eqn:E; simplify_eq.
  destruct Heq as (Hst & Hw & He). apply eq_None_not_Some in Hn.
  do 2 (split; [done|]). exists t. do 4 (split; [done|]). by rewrite Hw, He.
Qed.

(** ** Guardians and tokens *)

Lemma refund_done cx tk g st st1 :
  refund_spec cx tk g st = Done tt st1 ->
  effects st1 = effects st /\
  ((locked_balance st g <= 0 /\ st1 = st) \/
   (0 < locked_balance st g /\
    token_transfer tk (self_address cx) g (locked_balance st g) (world st) = Some (world st1) /\
    storage st1 = sset (DataKey.LockedBalance g) (VI128 0) (storage st))).
Proof.
  unfold refund_spec. destruct (Z.ltb_spec 0 (locked_balance st g)).
  - destruct (token_transfer _ _ _ _ _) eqn:E; intros; simplify_eq. simpl. auto.
  - intros [= <-]. auto.
Qed.

Lemma lock_tokens_commit cx g n st st' :
  well_typed st -> commits cx (Call.LockTokens g n) st st' ->
  authorized cx g = true /\ in_i128 (locked_balance st g + n) /\
  exists tk, token_address st = Some tk /\
    token_transfer tk g (self_address cx) n (world st) = Some (world st') /\
    effects st' = effects st /\
    store_eq (storage st')
      (sset (DataKey.LockedBalance g) (VI128 (locked_balance st g + n)) (storage st)).
Proof.
  intros Hwt Hcm. eapply commits_spec in Hcm as (st1 & Hs & Heq); [|done].
  apply signed_done in Hs as [Ha Hs]. apply with_token_done in Hs as (tk & Htk & Hs).
  destruct (token_transfer _ _ _ _ _) eqn:E; [|done]. cbv zeta in Hs. case_decide; simplify_eq.
  destruct Heq as (Hst & Hw & He). do 2 (split; [done|]). exists tk. by rewrite Hw, He.
Qed.

(** [resign_guardian] and [unlock_tokens] pay back the whole balance. *)
Definition refunds (c : Call) : option Address :=
  match c with Call.ResignGuardian g | Call.UnlockTokens g => Some g | _ => None end.

Lemma refund_commit cx c g st st' :
  refunds c = Some g -> well_typed st -> commits cx c st st' ->
  authorized cx g = true /\ effects st' = effects st /\
  registered st g = (match c with Call.ResignGuardian _ => true | _ => false end) /\
  exists tk, token_address st = Some tk /\
    (locked_balance st g <= 0 /\ world st' = world st /\
     sget (DataKey.LockedBalance g) (storage st') = sget (DataKey.LockedBalance g) (storage st) \/
     0 < locked_balance st g /\
     token_transfer tk (self_address cx) g (locked_balance st g) (world st) = Some (world st') /\
     sget (DataKey.LockedBalance g) (storage st') = Some (VI128 0)).
Proof.
  intros Hc Hwt Hcm. eapply commits_spec in Hcm as (st1 & Hs & Hst & Hw & He); [|done].
  rewrite Hw, He. rewrite (Hst (DataKey.LockedBalance g)). clear Hw He Hst.
  destruct c; simplify_eq/=; apply signed_done in Hs as [Ha Hs];
    apply with_token_done in Hs as (tk & Htk & Hs); destruct (registered st g); simplify_eq;
    apply refund_done in Hs as [He Hs].
  - do 3 (split; [done|]). exists tk. split; [done|].
    unfold locked_balance in Hs. simpl in Hs. rewrite look_sset_ne in Hs by done.
    fold (locked_balance st g) in Hs. destruct Hs as [[? ->]|(? & ? & ->)]; [left|right].
    + simpl. by rewrite sget_sset_ne.
    + by rewrite sget_sset.
  - do 3 (split; [done|]). exists tk. split; [done|].
    destruct Hs as [[? ->]|(? & ? & ->)]; [by left|right]. by rewrite sget_sset.
Qed.

End commits.
