(* ===== verification/Lifecycle.v ===== *)
(** * The life of a task

    [phase] is where a task is in its life and [task_trans] the machine it
    follows; [phase_commit] shows that every committed call of the contract
    moves every task by that machine, and [phase_le] is the order the machine
    never goes back on. *)

From stdpp Require Import prelude gmap list strings relations.
From Stdlib Require Import ZArith Lia Morphisms.
From S2P Require Import Prelude.
From S2P Require Import Types.
From S2P Require Import Host.
From S2P Require Import Logic.
From S2P Require Import Frame.
From S2P Require Import Typing.
From S2P Require Import SampleHost.
From S2P Require Import Reentrancy.
From S2P Require Import CircuitBreaker.
From S2P Require Import Drips.
From S2P Require Import Storage.
From S2P Require Import Tasks.
From S2P Require Import Contract.
From S2P Require Import VoteSpec.
From S2P Require Import System.
From S2P Require Import SampleRun.
From S2P Require Import Spec.
From S2P Require Import Commits.

(** ** Phases *)

Inductive phase := Unknown | Active (t : Task) | Archived (t : Task).

#[global] Instance phase_eq_dec : EqDecision phase.
Proof. solve_decision. Defined.

Definition phase_task (ph : phase) : option Task :=
  match ph with Unknown => None | Active t | Archived t => Some t end.

(** The task a call works on. *)
Definition works_on (c : Call) : option Z :=
  match c with
  | Call.RegisterTask _ i | Call.CancelTask _ i | Call.Vote _ i | Call.ArchiveTask i => Some i
  | _ => None
  end.

(** The order of a task's life: flags are never cleared, tallies never shrink,
    a cancelled task gathers no more votes, an archived one never changes. *)
Definition task_le (t t' : Task) : Prop :=
  Task.id t' = Task.id t /\ Task.votes t <= Task.votes t' /\
  Task.total_weight_accrued t <= Task.total_weight_accrued t' /\
  (Task.is_done t = true -> Task.is_done t' = true) /\
  (Task.is_cancelled t = true ->
     Task.is_cancelled t' = true /\ Task.is_done t' = Task.is_done t /\
     Task.votes t' = Task.votes t /\ Task.resolved_at t' = Task.resolved_at t /\
     Task.total_weight_accrued t' = Task.total_weight_accrued t).

Definition phase_le (ph ph' : phase) : Prop :=
  match ph, ph' with
  | Unknown, _ => True
  | Active t, Active t' | Active t, Archived t' => task_le t t'
  | Archived t, Archived t' => t = t'
  | _, _ => False
  end.

#[global] Instance task_le_preorder : PreOrder task_le.
Proof.
  split; [by intros t; unfold task_le; split_and!|].
  intros t1 t2 t3 (H1 & H2 & H3 & H4 & H5) (K1 & K2 & K3 & K4 & K5). unfold task_le.
  split_and!; [congruence|lia..|auto|]. intros Hc. destruct (H5 Hc) as (Hc2 & H6 & H7 & H8 & H9).
  destruct (K5 Hc2) as (? & ? & ? & ? & ?). split_and!; congruence.
Qed.

#[global] Instance phase_le_preorder : PreOrder phase_le.
Proof.
  split; [by intros []; simpl|].
  intros [|t1|t1] [|t2|t2] [|t3|t3]; simpl; intros; subst; try done; by etrans.
Qed.

Section lifecycle.
Context {Sto Wld : Type} `{!InstanceStorage Sto} `{!World Wld}.
Implicit Types (st : state Sto Wld) (cx : context).

Definition phase_of st (i : Z) : phase :=
  match active_task st i with
  | Some t => Active t
  | None => match archived_task st i with Some t => Archived t | None => Unknown end
  end.

#[global] Instance phase_of_proper : Proper (state_eq ==> eq ==> eq) phase_of.
Proof. 
  intros st1 st2 Hs i ? <-. unfold phase_of.
  by rewrite (active_task_proper _ _ Hs i i eq_refl), (archived_task_proper _ _ Hs i i eq_refl).
 Qed.

(** ** The machine *)

Inductive task_trans cx st (i : Z) : Call -> phase -> phase -> Prop :=
| trans_other c ph :
    works_on c <> Some i -> task_trans cx st i c ph ph
| trans_register a :
    task_trans cx st i (Call.RegisterTask a i) Unknown (Active (new_task i))
| trans_cancel a t :
    task_trans cx st i (Call.CancelTask a i) (Active t) (Active (cancelled t))
| trans_count g w t :
    reputation st g = Some w -> 0 < w -> Task.is_cancelled t = false ->
    Task.total_weight_accrued t + w < weight_threshold st ->
    task_trans cx st i (Call.Vote g i) (Active t) (Active (voted_task w t))
| trans_resolve g w t :
    reputation st g = Some w -> 0 < w -> Task.is_cancelled t = false ->
    weight_threshold st <= Task.total_weight_accrued t + w ->
    task_trans cx st i (Call.Vote g i) (Active t)
      (Active (resolved_task (timestamp cx) (voted_task w t)))
| trans_archive t :
    Task.is_done t = true -> Task.resolved_at t <> 0 ->
    Task.resolved_at t + ARCHIVE_AFTER_SECONDS < timestamp cx ->
    task_trans cx st i (Call.ArchiveTask i) (Active t) (Archived t).

Lemma task_trans_le cx st i c ph ph' : task_trans cx st i c ph ph' -> phase_le ph ph'.
Proof.
  destruct 1; simpl; [done|done|unfold task_le; simpl; split_and!; try done; lia| | |done];
    unfold task_le; simpl; split_and!; try done; try lia; congruence.
Qed.

(** ** Reachable tasks *)

Lemma active_frame cx c st st' i :
  well_typed st -> commits cx c st st' -> works_on c <> Some i ->
  active_task st' i = active_task st i /\ archived_task st' i = archived_task st i.
Proof.
  intros Hwt Hcm Hi. apply commits_typed in Hcm as [_ Hf]; [|done].
  split; apply look_frame, Hf; destruct c; simpl in *; solve_not_elem.
Qed.

(** A free identifier has no task in either place. *)
Lemma id_free_phase st i : id_free st i -> phase_of st i = Unknown.
Proof. intros [Ha Hb]. unfold phase_of, active_task, archived_task, look. by rewrite Ha, Hb. Qed.

Lemma phase_free st i : well_typed st -> phase_of st i = Unknown -> id_free st i.
Proof.
  intros Hwt. unfold phase_of, id_free, active_task, archived_task, look. intros Hp.
  destruct (sget (DataKey.ActiveTask i) _) as [v|] eqn:E1; [apply Hwt in E1; by destruct v|].
  destruct (sget (DataKey.ArchivedTask i) _) as [v|] eqn:E2; [apply Hwt in E2; by destruct v|].
  done.
Qed.

Lemma active_task_id st i t : well_typed st -> active_task st i = Some t -> Task.id t = i.
Proof. intros Hwt Ht. apply look_Some, Hwt in Ht. by destruct Ht. Qed.

Lemma active_task_ok st i t : well_typed st -> active_task st i = Some t -> task_ok t.
Proof. intros Hwt Ht. apply look_Some, Hwt in Ht. by destruct Ht. Qed.

Lemma reputation_range st g w : well_typed st -> reputation st g = Some w -> 0 <= w.
Proof. intros Hwt Hw. apply look_Some, Hwt in Hw. simpl in Hw. unfold in_u64 in Hw. lia. Qed.

Ltac look_simpl :=
  unfold phase_of, active_task, archived_task; simpl;
  repeat first
    [ rewrite (look_sset c_Task)
    | rewrite look_sset_ne by congruence
    | rewrite look_sremove
    | rewrite look_sremove_ne by congruence ].

(** Every commit moves every task by the machine. *)
Lemma phase_commit cx c st st' i :
  well_typed st -> commits cx c st st' ->
  task_trans cx st i c (phase_of st i) (phase_of st' i).
Proof.
  intros Hwt Hcm. destruct (decide (works_on c = Some i)) as [Hi|Hi]; last first.
  { eapply active_frame in Hcm as [H1 H2]; [|done..]. unfold phase_of at 2.
    rewrite H1, H2. by apply trans_other. }
  destruct c; simplify_eq/=.
  - apply register_commit in Hcm as (_ & _ & _ & Hf & Heq); [|done].
    rewrite Heq, (id_free_phase _ _ Hf). unfold phase_of, active_task, tasks_registered. simpl.
    rewrite look_sset_ne, (look_sset c_Task) by done. apply trans_register.
  - apply cancel_commit in Hcm as (_ & _ & _ & t & Ht & Heq); [|done]. rewrite Heq.
    unfold phase_of at 1. rewrite Ht. unfold phase_of, active_task. simpl.
    rewrite (look_sset c_Task). apply trans_cancel.
  - apply vote_commit in Hcm as (_ & _ & _ & w & t & Hv & _ & Hs & _); [|done].
    apply vote_check_inr in Hv as (_ & _ & _ & _ & Hw & Hw0 & Ht & Hc & _).
    pose proof (reputation_range st _ w Hwt Hw).
    unfold phase_of at 1. rewrite Ht. unfold phase_of, active_task. rewrite Hs, (look_sset c_Task).
    unfold vote_result, reaches. destruct (Z.leb_spec (weight_threshold st) (Task.total_weight_accrued t + w)).
    + eapply trans_resolve; [done|lia|done..].
    + eapply trans_count; [done|lia|done..].
  - apply archive_commit in Hcm as (_ & _ & t & Ht & Hd & Hr & Hst & Heq); [|done]. rewrite Heq.
    unfold phase_of at 1. rewrite Ht. unfold phase_of, active_task, archived_task. simpl.
    rewrite look_sremove, look_sremove_ne, (look_sset c_Task) by done. by apply trans_archive.
Qed.

(** The order over whole histories. *)
Lemma phase_step_le st st' i : reachable st -> step st st' -> phase_le (phase_of st i) (phase_of st' i).
Proof.
  intros Hr Hs. destruct Hs as [cx c st st' Hcm|cx c st Hno|w st]; [|done..].
  eapply task_trans_le, phase_commit; [by apply reachable_well_typed | done].
Qed.

Lemma phase_rtc_le st st' i :
  reachable st -> rtc step st st' -> phase_le (phase_of st i) (phase_of st' i).
Proof.
  intros Hr Hs. induction Hs as [st|st st1 st' Hs Hss IH]; [done|].
  etrans; [by apply phase_step_le|]. by apply IH, reachable_step with st.
Qed.

(** An identifier is never both active and archived. *)
Lemma exclusive st i :
  reachable st -> active_task st i = None \/ archived_task st i = None.
Proof.
  revert st. refine (reachable_ind _ _ _ _); [|intros cx c st st' Hr Hex Hcm|done].
  { intros w. left. unfold active_task, look. simpl. by rewrite sget_sempty. }
  assert (Hwt := reachable_well_typed st Hr).
  destruct (decide (works_on c = Some i)) as [Hi|Hi]; last first.
  { eapply active_frame in Hcm as [-> ->]; done. }
  destruct c; simplify_eq/=.
  - apply register_commit in Hcm as (_ & _ & _ & [_ Hf] & Heq); [|done]. right.
    rewrite Heq. unfold archived_task, tasks_registered. simpl. rewrite !look_sset_ne by done.
    unfold look. by rewrite Hf.
  - apply cancel_commit in Hcm as (_ & _ & _ & t & Ht & Heq); [|done]. right.
    rewrite Heq. unfold archived_task. simpl. rewrite look_sset_ne by done.
    destruct Hex; [congruence|done].
  - apply vote_commit in Hcm as (_ & _ & _ & w & t & Hv & _ & Hs & _); [|done].
    apply vote_check_inr in Hv as (_ & _ & _ & _ & _ & _ & Ht & _). right.
    unfold archived_task. rewrite Hs, !look_sset_ne by done. destruct Hex; [congruence|done].
  - apply archive_commit in Hcm as (_ & _ & t & Ht & _ & _ & _ & Heq); [|done]. left.
    rewrite Heq. unfold active_task. simpl. by rewrite look_sremove.
Qed.

(** The mutex is free between transactions. *)
Lemma lock_free st : reachable st -> locked st = false.
Proof.
  intros Hr. unfold locked. apply bool_decide_eq_false, eq_None_not_Some. revert st Hr.
  refine (reachable_ind _ _ _ _); [|intros cx c st st' Hr Hno Hcm|done].
  { intros w. simpl. by rewrite sget_sempty. }
  assert (Hwt := reachable_well_typed st Hr).
  destruct (decide (DataKey.Lock ∈ footprint c)) as [Hk|Hk]; [|by rewrite (commits_frame cx c st st')].
  destruct c; simpl in Hk; try (by exfalso; rewrite ?elem_of_cons, elem_of_nil in Hk; naive_solver).
  - apply register_commit in Hcm as (_ & _ & _ & _ & [-> _]); [|done].
    unfold tasks_registered. simpl. by rewrite !sget_sset_ne.
  - apply cancel_commit in Hcm as (_ & _ & _ & t & _ & [-> _]); [|done]. simpl. by rewrite !sget_sset_ne.
  - apply vote_commit in Hcm as (_ & _ & _ & w & t & _ & _ & -> & _); [|done]. by rewrite !sget_sset_ne.
Qed.

(** A resolved task, active or archived. *)
Definition resolved st (i : Z) : Prop :=
  exists t, phase_task (phase_of st i) = Some t /\ Task.is_done t = true.

(** ** The threshold *)

Definition changes_threshold (c : Call) : bool :=
  match c with Call.SetWeightThreshold _ _ => true | _ => false end.

Definition resolved_exactly st : Prop :=
  0 < weight_threshold st /\
  forall i t, phase_task (phase_of st i) = Some t ->
    (Task.is_done t = true <-> weight_threshold st <= Task.total_weight_accrued t).

Lemma threshold_frame cx c st st' :
  well_typed st -> changes_threshold c = false -> commits cx c st st' ->
  weight_threshold st' = weight_threshold st.
Proof.
  intros Hwt Hc Hcm. apply commits_typed in Hcm as [_ Hf]; [|done].
  unfold weight_threshold. f_equal. apply look_frame, Hf. destruct c; try done; simpl; solve_not_elem.
Qed.

Lemma resolved_exactly_commit cx c st st' :
  well_typed st -> changes_threshold c = false -> commits cx c st st' ->
  resolved_exactly st -> resolved_exactly st'.
Proof.
  intros Hwt Hc Hcm [H0 Hex]. unfold resolved_exactly.
  rewrite (threshold_frame cx c st st') by done. split; [done|]. intros i t' Ht'.
  pose proof (phase_commit cx c st st' i Hwt Hcm) as Htr. specialize (Hex i).
  destruct Htr as [c ph _|a|a t|g w t _ Hw _ Hlt|g w t _ Hw _ Hge|t _ _ _]; simpl in *; simplify_eq; simpl; try by auto.
  - split; [done|]. lia.
  - specialize (Hex t eq_refl). split; [intros ?%Hex; lia|lia].
Qed.

(** Every vote weighs something, and a resolved task was voted for. *)
Definition tally_positive (ph : phase) : Prop :=
  match phase_task ph with
  | None => True
  | Some t =>
      0 <= Task.votes t <= Task.total_weight_accrued t /\ (Task.is_done t = true -> 1 <= Task.votes t)
  end.

Lemma tally_positive_trans cx st i c ph ph' :
  task_trans cx st i c ph ph' -> tally_positive ph -> tally_positive ph'.
Proof. unfold tally_positive. destruct 1; simpl; intuition (done || lia). Qed.

Lemma tally_positive_reachable st i : reachable st -> tally_positive (phase_of st i).
Proof.
  revert st. refine (reachable_ind _ _ _ _); [|intros cx c st st' Hr HI Hcm|done].
  - intros w. unfold phase_of, active_task, archived_task. by rewrite !look_deployed.
  - eapply tally_positive_trans; [|done]. apply phase_commit; [by apply reachable_well_typed|done].
Qed.

(** ** Properties *)

(** C3: every call that commits, on every task, is a move of the life-cycle
    machine: a task is registered once from nothing, cancelled by its flag
    alone, gains a positive weight and one vote at a time while it is active
    and not cancelled, is resolved at the ledger's time by the very vote that
    brings its weight to the threshold, and is archived only when resolved for
    longer than thirty days.  No other call touches it. *)
Theorem task_lifecycle cx c st st' i :
  reachable st -> commits cx c st st' ->
  task_trans cx st i c (phase_of st i) (phase_of st' i).
Proof. intros Hr. apply phase_commit. by apply reachable_well_typed. Qed.

(** C12: no history turns a task back: over any number of transactions a known
    task stays known, a resolved one resolved and a cancelled one cancelled and
    frozen, votes and weight never shrink, and an archived task never changes
    again. *)
Theorem history_never_turns_back st st' i :
  reachable st -> rtc step st st' -> phase_le (phase_of st i) (phase_of st' i).
Proof. apply phase_rtc_le. Qed.

(** A task is stored under one of its two keys at most, so the error
    [TaskAlreadyArchived] is never returned: an archived task is reported as
    not found. *)
Theorem already_archived_unreachable cx c st st1 :
  reachable st -> call_wf c ->
  run cx (exec c) st <> Failed ContractError.TaskAlreadyArchived st1 /\
  forall i, active_task st i = None \/ archived_task st i = None.
Proof.
  intros Hr Hc. pose proof (exec_spec cx c st (reachable_well_typed st Hr) Hc) as H.
  split; [|intros i; by apply exclusive]. intros Hrun. rewrite Hrun in H. clear Hrun.
  destruct (spec cx c st) as [|e st2|] eqn:E; [done| |done]. destruct H as [<- _]. revert E.
  unfold_spec; unfold vote_check; destruct c; intros H; repeat first [progress simplify_eq/= | case_match]; try done.
  match goal with Ht : active_task _ ?i = Some _ |- _ => destruct (exclusive _ i Hr) end; congruence.
Qed.

(** C10: while the weight threshold keeps its default, a task is resolved exactly
    when its accrued weight has reached it: no call sequence resolves a task
    below the threshold or leaves it open above. *)
Theorem resolved_iff_weight_reached l w i t :
  calls_wf l -> Forall (fun x => changes_threshold x.2 = false) l ->
  phase_task (phase_of (invoke_all l (deployed w)) i) = Some t ->
  (Task.is_done t = true <-> DEFAULT_WEIGHT_THRESHOLD <= Task.total_weight_accrued t).
Proof.
  assert (forall l st, reachable st -> calls_wf l -> Forall (fun x => changes_threshold x.2 = false) l ->
    weight_threshold (invoke_all l st) = weight_threshold st /\
    (resolved_exactly st -> resolved_exactly (invoke_all l st))) as Hgen.
  { clear. induction l as [|[cx c] l IH]; intros st Hr Hl Hc; [done|]. simpl.
    apply Forall_cons in Hl as [[Hcx Hcw] Hl]. apply Forall_cons in Hc as [Hc Hcs]. simpl in *.
    pose proof (reachable_step _ _ Hr (invoke_step cx c st Hcx Hcw)) as Hr'.
    destruct (IH _ Hr' Hl Hcs) as [IH1 IH2]. unfold invoke in *.
    destruct (run cx (exec c) st) as [[] st'|e st'|r] eqn:E; [|done..].
    assert (commits cx c st st') as Hcm by done. pose proof (reachable_well_typed st Hr).
    rewrite IH1, (threshold_frame cx c st st') by done. split; [done|]. intros Hex.
    by apply IH2, (resolved_exactly_commit cx c st st'). }
  intros Hl Hc Ht. destruct (Hgen l (deployed w) (reachable_deployed w) Hl Hc) as [Hthr Hex].
  assert (weight_threshold (deployed w) = DEFAULT_WEIGHT_THRESHOLD) as H0.
  { unfold weight_threshold. by rewrite look_deployed. }
  rewrite <- H0, <- Hthr. eapply Hex; [|done]. unfold resolved_exactly. rewrite H0. split; [done|].
  intros j u. unfold phase_of, active_task, archived_task. by rewrite !look_deployed.
Qed.

(** Whatever the threshold was set to, no task is resolved without a vote,
    and every vote it counts carried weight: the count never exceeds the accrued
    weight. *)
Theorem resolution_needs_votes st i t :
  reachable st -> phase_task (phase_of st i) = Some t ->
  0 <= Task.votes t <= Task.total_weight_accrued t /\ (Task.is_done t = true -> 1 <= Task.votes t).
Proof. intros Hr Ht. pose proof (tally_positive_reachable st i Hr) as H. unfold tally_positive in H. by rewrite Ht in H. Qed.

(** The mutex is free whenever a transaction starts: every path of every
    entry point that takes it releases it, errors included. *)
Theorem mutex_free_between_calls st : reachable st -> locked st = false.
Proof. apply lock_free. Qed.

(** While the mutex is held, the three entry points that take it cannot
    complete: a re-entrant vote, registration or cancellation fails and leaves
    store and world alone. *)
Theorem mutex_excludes cx c st :
  well_typed st -> call_wf c -> DataKey.Lock ∈ footprint c -> locked st = true ->
  match run cx (exec c) st with
  | Done _ _ => False
  | Failed e st1 =>
      (e = ContractError.Locked \/ paused st = true /\ e = ContractError.ContractPaused) /\
      store_eq (storage st1) (storage st) /\ world st1 = world st
  | Trapped r => exists a, signer c = Some a /\ r = AuthFailure a /\ authorized cx a = false
  end.
Proof.
  intros Hwt Hc Hk Hl. pose proof (exec_spec cx c st Hwt Hc) as H.
  assert ((exists a i, c = Call.RegisterTask a i) \/ (exists a i, c = Call.CancelTask a i) \/
          exists g i, c = Call.Vote g i) as [(a & i & ->)|[(a & i & ->)|(g & i & ->)]];
    [destruct c; simpl in Hk; rewrite ?elem_of_cons, ?elem_of_nil in Hk; try (by intuition congruence); eauto 10|..];
    simpl in *; revert H; unfold_spec; rewrite Hl; repeat case_match; unfold implements, state_eq; simpl; try done;
    intros; destruct_and?; subst;
    first [by split; [tauto|] | eexists; split_and!; [done|done|by (done || apply negb_true_iff)]].
Qed.

End lifecycle.

(** ** Witnesses *)

Lemma task_lifecycle_witness :
  task_trans (at_time 12) (scene 11) 1 (Call.Vote guardian2 1)
    (phase_of (scene 11) 1) (phase_of (scene 12) 1).
Proof.
  apply (task_lifecycle (at_time 12) (Call.Vote guardian2 1) (scene 11) (scene 12) 1);
    [apply scene_reachable | apply (scene_commits 11); reflexivity].
Defined.

(** Registering an archived task again is one more attempt that changes
    nothing. *)
Definition scene_after : sample_state :=
  invoke_all [(at_time (41 * day), Call.RegisterTask admin 1)] (scene 14).

Lemma history_never_turns_back_witness : phase_le (phase_of (scene 14) 1) (phase_of scene_after 1).
Proof.
  apply (history_never_turns_back (scene 14) scene_after 1);
    [apply scene_reachable | apply invoke_all_rtc; by_eval].
Defined.

Lemma already_archived_unreachable_witness :
  ~ exists st1, run (at_time (80 * day)) (exec (Call.ArchiveTask 1)) (scene 14) =
    Failed ContractError.TaskAlreadyArchived st1.
Proof.
  intros [st1 H]. revert H.
  apply (already_archived_unreachable (at_time (80 * day)) (Call.ArchiveTask 1) (scene 14) st1);
    [apply scene_reachable | by_eval].
Defined.

Lemma resolved_iff_weight_reached_witness :
  exists t, phase_task (phase_of (scene 12) 1) = Some t /\
    (Task.is_done t = true <-> DEFAULT_WEIGHT_THRESHOLD <= Task.total_weight_accrued t).
Proof.
  eexists. split; [vm_compute; reflexivity|].
  apply (resolved_iff_weight_reached (take 12 script) w0 1);
    [by_eval | by_eval | vm_compute; reflexivity].
Defined.

Lemma resolution_needs_votes_witness :
  exists t, phase_task (phase_of (scene 12) 1) = Some t /\
    0 <= Task.votes t <= Task.total_weight_accrued t /\ (Task.is_done t = true -> 1 <= Task.votes t).
Proof.
  eexists. split; [vm_compute; reflexivity|].
  apply (resolution_needs_votes (scene 12) 1); [apply scene_reachable | vm_compute; reflexivity].
Defined.

Lemma mutex_free_between_calls_witness : locked (scene 12) = false.
Proof. apply (mutex_free_between_calls (scene 12)), scene_reachable. Defined.

(** The state a call made from inside [vote] would find. *)
Definition held : sample_state := with_storage (sset DataKey.Lock (VBool true)) (scene 10).

Lemma held_typed : well_typed held.
Proof. by apply well_typed_set; [apply scene_typed|]. Qed.

Lemma mutex_excludes_witness :
  exists st1, run (at_time 20) (exec (Call.Vote guardian1 1)) held = Failed ContractError.Locked st1 /\
    store_eq (storage st1) (storage held) /\ world st1 = world held.
Proof.
  destruct (ending_failed (run (at_time 20) (exec (Call.Vote guardian1 1)) held)
    ContractError.Locked) as [st1 H]; [vm_compute; reflexivity|].
  pose proof (mutex_excludes (at_time 20) (Call.Vote guardian1 1) held held_typed
    ltac:(by_eval) ltac:(by_eval) ltac:(by_eval)) as K.
  rewrite H in K. exists st1. split; [exact H | exact (proj2 K)].
Defined.
