(* ===== verification/Tally.v ===== *)
(** * The tally against the audit trail

    Votes leave three traces: the tally in the task, the [Voted] markers with
    the [AllVotes] list, and the [wt_vote] events.  [tally_inv] says that in
    every reachable state the three agree; the events alone rebuild the
    tally. *)

From stdpp Require Import prelude gmap list strings.
From Stdlib Require Import ZArith Lia Morphisms.
From S2P Require Import Prelude.
From S2P Require Import Types.
From S2P Require Import Host.
From S2P Require Import Logic.
From S2P Require Import Frame.
From S2P Require Import Typing.
From S2P Require Import SampleHost.
From S2P Require Import Reentrancy.
From S2P Require Import Storage.
From S2P Require Import Tasks.
From S2P Require Import Contract.
From S2P Require Import VoteSpec.
From S2P Require Import System.
From S2P Require Import SampleRun.
From S2P Require Import Spec.
From S2P Require Import Commits.
From S2P Require Import Lifecycle.

(** ** Ballots *)

(** The vote a [wt_vote] event announces for task [i]: who, and what weight. *)
Definition ballot_of (i : Z) (e : effect) : option (Address * Z) :=
  match e with
  | Published [t] (DTuple [VU64 j; VAddress g; VU64 w]) =>
      if decide (t = "wt_vote"%string /\ j = i) then Some (g, w) else None
  | _ => None
  end.

(** The announcement that task [i] is resolved. *)
Definition resolves (i : Z) (e : effect) : bool :=
  match e with
  | Published [t] (DTuple [VU64 j; VU64 _]) => bool_decide (t = "resolved"%string /\ j = i)
  | _ => false
  end.

Definition weigh (l : list (Address * Z)) : Z := foldr (fun b n => b.2 + n) 0 l.

Definition voters (i : Z) (l : list (Z * Address)) : list Address :=
  (filter (fun v => v.1 = i) l).*2.

Lemma weigh_app l1 l2 : weigh (l1 ++ l2) = weigh l1 + weigh l2.
Proof. induction l1 as [|b l1 IH]; simpl; [done|]. lia. Qed.

Lemma voters_app i l1 l2 : voters i (l1 ++ l2) = voters i l1 ++ voters i l2.
Proof. unfold voters. by rewrite filter_app, fmap_app. Qed.

Lemma voters_elem i l g : g ∈ voters i l <-> (i, g) ∈ l.
Proof.
  unfold voters. rewrite list_elem_of_fmap. setoid_rewrite list_elem_of_filter. split.
  - intros ([j g'] & -> & Hj & Hin). by simpl in *; subst.
  - intros Hin. by exists (i, g).
Qed.

Lemma voters_NoDup i l : NoDup l -> NoDup (voters i l).
Proof.
  intros Hl. unfold voters. apply NoDup_fmap_2_strong; [|by apply NoDup_filter].
  intros [j1 g1] [j2 g2] [H1 _]%list_elem_of_filter [H2 _]%list_elem_of_filter ?. simpl in *. congruence.
Qed.

Lemma ballots_other i ts l :
  Forall (has_topic ts) l -> "wt_vote"%string ∉ ts -> omap (ballot_of i) l = [].
Proof.
  intros Hl Hts. induction Hl as [|e l He Hl IH]; [done|]. simpl.
  destruct (ballot_of i e) eqn:E; [exfalso|exact IH].
  destruct e as [[|t []] d|? ?|?]; try done. simpl in He. unfold ballot_of in E.
  repeat case_match; try done. destruct_and?. by subst.
Qed.

Section audit.
Context {Sto Wld : Type} `{!InstanceStorage Sto} `{!World Wld}.
Implicit Types (st : state Sto Wld) (cx : context).

Definition ballots st (i : Z) : list (Address * Z) := omap (ballot_of i) (effects st).

(** The task agrees with the ballots: an unknown task has none. *)
Definition tally_ok (ph : phase) (bs : list (Address * Z)) : Prop :=
  match phase_task ph with
  | None => bs = []
  | Some t =>
      Task.votes t = Z.of_nat (length bs) /\ Task.total_weight_accrued t = weigh bs
  end.

Record tally_inv st : Prop := {
  ti_nodup : NoDup (all_votes st);
  ti_voted i g : (i, g) ∈ all_votes st <-> has_voted st i g = true;
  ti_events i : (ballots st i).*1 = voters i (all_votes st);
  ti_tally i : tally_ok (phase_of st i) (ballots st i);
}.

Lemma has_voted_proper st1 st2 i g :
  store_eq (storage st1) (storage st2) -> has_voted st1 i g = has_voted st2 i g.
Proof. intros Hs. unfold has_voted. by rewrite (Hs _). Qed.

Lemma ballots_frame cx c st st' i :
  "wt_vote"%string ∉ topics c -> commits cx c st st' -> ballots st' i = ballots st i.
Proof.
  intros Ht Hcm. apply commits_log in Hcm as (l & Hl & HF). unfold ballots.
  by rewrite Hl, omap_app, (ballots_other i (topics c) l), app_nil_r.
Qed.

(** The markers and the list change only in a vote. *)
Definition is_vote (c : Call) : bool := match c with Call.Vote _ _ => true | _ => false end.

Lemma topics_no_vote c : is_vote c = false -> "wt_vote"%string ∉ topics c.
Proof. destruct c; intros; try done; simpl; solve_not_elem. Qed.

Lemma votes_frame cx c st st' :
  well_typed st -> is_vote c = false -> commits cx c st st' ->
  all_votes st' = all_votes st /\ forall i g, has_voted st' i g = has_voted st i g.
Proof.
  intros Hwt Hc Hcm. apply commits_typed in Hcm as [_ Hf]; [|done]. split.
  - unfold all_votes. f_equal. apply look_frame, Hf. destruct c; try done; simpl; solve_not_elem.
  - intros i g. unfold has_voted. rewrite Hf; [done|]. destruct c; try done; simpl; solve_not_elem.
Qed.

Lemma tally_other cx st i c ph ph' bs :
  task_trans cx st i c ph ph' -> is_vote c = false -> tally_ok ph bs -> tally_ok ph' bs.
Proof. destruct 1; try done. simpl. by intros _ ->. Qed.

(** A vote is one ballot more. *)
Lemma vote_ballots cx g i st st' w t :
  effects st' = effects st ++
    (if reaches st w t then [resolved_event i (Task.total_weight_accrued t + w)] else []) ++
    [vote_event i g w] ->
  forall j, ballots st' j = ballots st j ++ (if decide (i = j) then [(g, w)] else []).
Proof.
  intros He j. unfold ballots. rewrite He, !omap_app. f_equal.
  replace (omap (ballot_of j) (if reaches st w t then _ else _)) with (@nil (Address * Z))
    by (by destruct (reaches st w t)).
  simpl. repeat case_decide; naive_solver.
Qed.

(** One ballot more, wherever it comes from, keeps the accounts. *)
Lemma tally_add g i w t t' st st' :
  tally_inv st -> has_voted st i g = false ->
  all_votes st' = all_votes st ++ [(i, g)] ->
  (forall j h, has_voted st' j h = bool_decide ((j, h) = (i, g)) || has_voted st j h) ->
  (forall j, ballots st' j = ballots st j ++ (if decide (i = j) then [(g, w)] else [])) ->
  phase_task (phase_of st i) = Some t -> phase_task (phase_of st' i) = Some t' ->
  Task.votes t' = Task.votes t + 1 -> Task.total_weight_accrued t' = Task.total_weight_accrued t + w ->
  (forall j, j <> i -> phase_task (phase_of st' j) = phase_task (phase_of st j)) ->
  tally_inv st'.
Proof.
  intros [Hnd Hv He Ht] Hno Hav Hvd Hb Hp Hp' Hn Hw Ho.
  assert (Hfresh : (i, g) ∉ all_votes st) by (rewrite Hv; congruence).
  split.
  - rewrite Hav. apply NoDup_app. split_and!; [done| |apply NoDup_singleton].
    intros x Hx ->%list_elem_of_singleton. done.
  - intros j h. rewrite Hav, elem_of_app, list_elem_of_singleton, Hv, Hvd, orb_true_iff, bool_decide_eq_true. tauto.
  - intros j. rewrite Hav, Hb, fmap_app, He, voters_app. f_equal. unfold voters. simpl.
    rewrite filter_cons, filter_nil. simpl. by repeat case_decide.
  - intros j. rewrite Hb. specialize (Ht j). unfold tally_ok in *. case_decide as Hij; subst.
    + rewrite Hp'. rewrite Hp in Ht. destruct Ht as [H1 H2].
      rewrite length_app, weigh_app, Hn, Hw, H1, H2. simpl. lia.
    + by rewrite app_nil_r, Ho by congruence.
Qed.

Lemma tally_vote cx g i st st' :
  well_typed st -> tally_inv st -> commits cx (Call.Vote g i) st st' -> tally_inv st'.
Proof.
  intros Hwt HI Hcm. pose proof Hcm as Hcm0.
  apply vote_commit in Hcm as (_ & _ & _ & w & t & Hck & _ & Hs & Heff & _); [|done].
  apply vote_check_inr in Hck as (_ & _ & _ & Hnv & Hw & Hw0 & Hat & _ & _).
  assert (Hph : phase_of st i = Active t) by (unfold phase_of; by rewrite Hat).
  assert (Htr := fun j => phase_commit cx _ st st' j Hwt Hcm0).
  assert (exists t', phase_task (phase_of st' i) = Some t' /\ Task.votes t' = Task.votes t + 1 /\
    Task.total_weight_accrued t' = Task.total_weight_accrued t + w) as (t' & H1 & H2 & H3).
  { specialize (Htr i). rewrite Hph in Htr. inversion Htr; simplify_eq/=; eauto. }
  eapply (tally_add g i w t t' st st'); try done.
  - unfold all_votes at 1. rewrite Hs, !look_sset_ne by done. by rewrite (look_sset c_Vec_vote).
  - intros j h. unfold has_voted. rewrite (Hs _). rewrite sget_sset_ne by done.
    destruct (decide ((j, h) = (i, g))) as [[= -> ->]|Hne].
    + by rewrite sget_sset, (bool_decide_true ((i, g) = (i, g)) eq_refl).
    + rewrite (bool_decide_false _ Hne). by rewrite !sget_sset_ne by congruence.
  - exact (vote_ballots cx g i st st' w t Heff).
  - by rewrite Hph.
  - intros j Hj. specialize (Htr j). by inversion Htr; simplify_eq.
Qed.

Lemma tally_deployed w : tally_inv (deployed w).
Proof.
  split.
  - unfold all_votes, look. simpl. rewrite sget_sempty. constructor.
  - intros i g. unfold all_votes, has_voted, look. simpl. rewrite !sget_sempty. simpl.
    split; [by intros ?%elem_of_nil | done].
  - intros i. unfold all_votes, look. simpl. by rewrite sget_sempty.
  - intros i. unfold phase_of, active_task, archived_task, look. simpl. by rewrite !sget_sempty.
Qed.

Lemma tally_commit cx c st st' :
  well_typed st -> tally_inv st -> commits cx c st st' -> tally_inv st'.
Proof.
  intros Hwt HI Hcm. destruct (is_vote c) eqn:Hc; [destruct c; try done; by eapply tally_vote|].
  destruct HI as [Hnd Hv He Ht]. pose proof (votes_frame cx c st st' Hwt Hc Hcm) as [Hav Hvd].
  assert (Hb : forall i, ballots st' i = ballots st i)
    by (intros i; eapply ballots_frame; [by apply topics_no_vote | done]).
  split.
  - by rewrite Hav.
  - intros i g. by rewrite Hav, Hvd.
  - intros i. by rewrite Hav, Hb.
  - intros i. rewrite Hb. eapply tally_other; [by eapply phase_commit|done..].
Qed.

Lemma tally_reachable st : reachable st -> tally_inv st.
Proof.
  revert st. refine (reachable_ind _ tally_deployed _ _); [|intros w st _ []; by split].
  intros cx c st st' Hr HI Hcm. eapply tally_commit; [by apply reachable_well_typed|done..].
Qed.

(** A marker, once set, stays. *)
Lemma has_voted_mono st st' i g :
  reachable st -> rtc step st st' -> has_voted st i g = true -> has_voted st' i g = true.
Proof.
  intros Hr Hs Hv. induction Hs as [st|st st1 st' Hs Hss IH]; [done|].
  apply IH; [by eapply reachable_step|]. destruct Hs as [cx c st st1 Hcm|cx c st Hno|w st]; [|done..].
  pose proof (reachable_well_typed st Hr) as Hwt. destruct (is_vote c) eqn:Hc.
  - destruct c; try done. apply vote_commit in Hcm as (_ & _ & _ & w & t & _ & _ & Hst & _); [|done].
    unfold has_voted in *. rewrite (Hst _), sget_sset_ne by done. apply bool_decide_eq_true in Hv.
    apply bool_decide_eq_true. destruct (decide ((i, g) = (task_id, guardian))) as [[= -> ->]|Hne].
    + by rewrite sget_sset.
    + by rewrite !sget_sset_ne by congruence.
  - destruct (votes_frame cx c st st1 Hwt Hc Hcm) as [_ Hf]. by rewrite Hf.
Qed.

Lemma vote_marks cx g i st st' :
  well_typed st -> commits cx (Call.Vote g i) st st' -> has_voted st' i g = true.
Proof.
  intros Hwt Hcm. apply vote_commit in Hcm as (_ & _ & _ & w & t & _ & _ & Hst & _); [|done].
  unfold has_voted. by rewrite (Hst _), sget_sset_ne, sget_sset.
Qed.

(** A resolution is announced, in the call that does it. *)
Definition announced st (i : Z) : bool := existsb (resolves i) (effects st).

Definition announced_inv st : Prop := forall i, resolved st i <-> announced st i = true.

Lemma resolves_other ts l i :
  Forall (has_topic ts) l -> "resolved"%string ∉ ts -> existsb (resolves i) l = false.
Proof.
  intros Hl Hts. induction Hl as [|e l He Hl IH]; [done|]. simpl. rewrite IH, orb_false_r.
  destruct e as [[|t []] d|? ?|?]; try done. simpl in He. unfold resolves.
  repeat (case_match; try done). apply bool_decide_eq_false. by intros [-> _].
Qed.

Lemma announced_other cx st i c ph ph' :
  task_trans cx st i c ph ph' -> is_vote c = false ->
  (exists t, phase_task ph' = Some t /\ Task.is_done t = true) <->
  (exists t, phase_task ph = Some t /\ Task.is_done t = true).
Proof.
  destruct 1; simpl; try done; intros _; first
    [reflexivity | split; intros (u & Hu & Hd); simplify_eq/=; by eexists].
Qed.

Lemma announced_reachable st : reachable st -> announced_inv st.
Proof.
  revert st. refine (reachable_ind _ _ _ _); [|intros cx c st st' Hr HI Hcm|done].
  { intros w i. unfold resolved, phase_of, active_task, archived_task. rewrite !look_deployed. simpl.
    split; [by intros (? & ? & _)|done]. }
  assert (Hwt := reachable_well_typed st Hr). intros i. specialize (HI i). unfold announced, resolved in *.
  pose proof (phase_commit cx c st st' i Hwt Hcm) as Htr. destruct (is_vote c) eqn:Hc; last first.
  { rewrite (announced_other cx st i c _ _ Htr Hc), HI. apply commits_log in Hcm as (l & -> & Hl).
    rewrite existsb_app, (resolves_other (topics c) l), orb_false_r; [done|done|].
    destruct c; try done; simpl; solve_not_elem. }
  destruct c as [| | | | | | | | | | | | | |g j| | | |]; try done.
  pose proof Hcm as Hcm0.
  apply vote_commit in Hcm as (_ & _ & _ & w & t & Hck & _ & Hst & -> & _); [|done].
  apply vote_check_inr in Hck as (_ & _ & _ & _ & _ & _ & Hat & _).
  rewrite !existsb_app. replace (existsb (resolves i) [vote_event j g w]) with false by done.
  rewrite orb_false_r, orb_true_iff, <- HI. destruct (decide (i = j)) as [->|Hne].
  - assert (Hat' : active_task st' j = Some (vote_result cx st w t)).
    { unfold active_task. rewrite Hst. apply (look_sset c_Task). }
    unfold phase_of. rewrite Hat, Hat'. unfold vote_result. destruct (reaches st w t); simpl.
    + rewrite bool_decide_true by done. naive_solver.
    + naive_solver.
  - replace (phase_of st' i) with (phase_of st i).
    + destruct (reaches st w t); simpl; rewrite ?bool_decide_false by naive_solver; naive_solver.
    + apply active_frame with (i := i) in Hcm0 as [H1 H2]; [|done|simpl; congruence].
      unfold phase_of. by rewrite H1, H2.
Qed.

(** ** Properties *)

(** C4: the tally of every task is its audit trail: in every reachable state the
    vote count of a task is the number of [wt_vote] events published for it and
    its weight the sum of the weights they announce; the voters are pairwise
    different, they are the ones [AllVotes] lists, in order, and exactly those
    marked [Voted]. *)
Theorem tally_matches_events st i :
  reachable st ->
  tally_ok (phase_of st i) (ballots st i) /\
  (ballots st i).*1 = voters i (all_votes st) /\
  NoDup (ballots st i).*1 /\
  forall g, g ∈ (ballots st i).*1 <-> has_voted st i g = true.
Proof.
  intros Hr. destruct (tally_reachable st Hr) as [Hnd Hv He Ht].
  rewrite He. split_and!; [done|done|by apply voters_NoDup|].
  intros g. by rewrite voters_elem.
Qed.

(** C13: a guardian votes on a task at most once: after a committed vote, no
    history leads to a state where the same guardian's vote on the same task
    commits again, not even after removal and re-registration. *)
Theorem no_second_vote cx g i st st' st1 cx' st2 :
  reachable st -> commits cx (Call.Vote g i) st st' -> rtc step st' st1 ->
  ~ commits cx' (Call.Vote g i) st1 st2.
Proof.
  intros Hr Hcm Hs Hcm2.
  assert (Hr' : reachable st') by (by eapply reachable_step, step_commit).
  assert (Hr1 : reachable st1) by (by eapply reachable_rtc).
  pose proof (vote_marks cx g i st st' (reachable_well_typed st Hr) Hcm) as Hv.
  apply (has_voted_mono st' st1 i g Hr' Hs) in Hv.
  apply vote_commit in Hcm2 as (_ & _ & _ & w & t & Hck & _); [|by apply reachable_well_typed].
  apply vote_check_inr in Hck as (_ & _ & _ & Hn & _). congruence.
Qed.

(** A task is resolved exactly when a [resolved] event was published for it:
    indexers that follow the events see every resolution, and no resolution that
    was not committed. *)
Theorem resolutions_announced st i : reachable st -> resolved st i <-> announced st i = true.
Proof. intros Hr. by apply announced_reachable. Qed.

End audit.

(** ** Witnesses *)

Lemma tally_matches_events_witness :
  ballots (scene 12) 1 = [(guardian1, 200); (guardian2, 150)] /\
  tally_ok (phase_of (scene 12) 1) (ballots (scene 12) 1).
Proof.
  split; [vm_compute; reflexivity|]. exact (proj1 (tally_matches_events (scene 12) 1 (scene_reachable 12))).
Defined.

(** The guardian is removed and registered again before the second vote. *)
Definition reinstated : sample_state :=
  invoke_all [(at_time 20, Call.RemoveGuardian admin guardian1);
              (at_time 21, Call.AddGuardian admin guardian1)] (scene 11).

Lemma no_second_vote_witness :
  ~ exists st2, commits (at_time 22) (Call.Vote guardian1 1) reinstated st2.
Proof.
  intros [st2 H]. revert H.
  apply (no_second_vote (at_time 11) guardian1 1 (scene 10) (scene 11) reinstated (at_time 22) st2);
    [apply scene_reachable | apply (scene_commits 10); reflexivity | apply invoke_all_rtc; by_eval].
Defined.

Lemma resolutions_announced_witness :
  announced (scene 12) 1 = true /\ (resolved (scene 12) 1 <-> announced (scene 12) 1 = true).
Proof.
  split; [vm_compute; reflexivity|]. exact (resolutions_announced (scene 12) 1 (scene_reachable 12)).
Defined.
