(* ===== verification/Registry.v ===== *)
(** * The contract's indexes

    [AllTasks], [AllRewardStreams] and [AllGuardians] list what the keyed
    entries hold.  [registry_inv] relates each list to its keys in every
    reachable state: the first two are exact and free of duplicates, the third
    misses nobody. *)

From stdpp Require Import prelude gmap list strings relations.
From Stdlib Require Import ZArith Lia Morphisms.
From S2P Require Import Prelude.
From S2P Require Import Types.
From S2P Require Import Host.
From S2P Require Import Logic.
From S2P Require Import Frame.
From S2P Require Import Typing.
From S2P Require Import SampleHost.
From S2P Require Import Reentrancy.
From S2P Require Import Guardian.
From S2P Require Import Storage.
From S2P Require Import Tasks.
From S2P Require Import Drips.
From S2P Require Import Contract.
From S2P Require Import VoteSpec.
From S2P Require Import System.
From S2P Require Import SampleRun.
From S2P Require Import Spec.
From S2P Require Import Commits.
From S2P Require Import Lifecycle.

Section registry.
Context {Sto Wld : Type} `{!InstanceStorage Sto} `{!World Wld}.
Implicit Types (st : state Sto Wld) (cx : context).

Definition all_streams st : list Z :=
  default [] (look c_Vec_u64 DataKey.AllRewardStreams (storage st)).

Definition reward_stream st (i : Z) : option RewardStream :=
  look c_RewardStream (DataKey.RewardStream i) (storage st).

Lemma not_unknown ph ph' : phase_le ph ph' -> ph <> Unknown -> ph' <> Unknown.
Proof. by destruct ph, ph'. Qed.

Lemma resolved_mono st st' i :
  phase_le (phase_of st i) (phase_of st' i) -> resolved st i -> resolved st' i.
Proof.
  unfold resolved. intros Hle (t & Ht & Hd).
  destruct (phase_of st i) as [|u|u], (phase_of st' i) as [|u'|u']; simplify_eq/=; try done.
  - exists u'. destruct Hle as (_ & _ & _ & Hle & _). auto.
  - exists u'. destruct Hle as (_ & _ & _ & Hle & _). auto.
  - by exists t.
Qed.

(** ** Tasks *)

Definition tasks_exact st : Prop :=
  NoDup (all_tasks st) /\ forall i, i ∈ all_tasks st <-> phase_of st i <> Unknown.

Lemma all_tasks_frame cx c st st' :
  well_typed st -> (forall a i, c <> Call.RegisterTask a i) -> commits cx c st st' ->
  all_tasks st' = all_tasks st.
Proof.
  intros Hwt Hc Hcm. apply commits_typed in Hcm as [_ Hf]; [|done].
  unfold all_tasks. f_equal. apply look_frame, Hf.
  destruct c; simpl; try solve_not_elem. by edestruct Hc.
Qed.

Lemma trans_known cx st i c ph ph' :
  (forall a j, c <> Call.RegisterTask a j) -> task_trans cx st i c ph ph' ->
  ph' <> Unknown <-> ph <> Unknown.
Proof. intros Hc. destruct 1; try done. by destruct (Hc a i). Qed.

Lemma tasks_exact_deployed w : tasks_exact (deployed w).
Proof.
  unfold tasks_exact, all_tasks. rewrite look_deployed. split; [constructor|]. intros i.
  unfold phase_of, active_task, archived_task. rewrite !look_deployed.
  split; [by intros ?%elem_of_nil|done].
Qed.

Lemma tasks_exact_commit cx c st st' :
  well_typed st -> tasks_exact st -> commits cx c st st' -> tasks_exact st'.
Proof.
  intros Hwt [Hnd Hin] Hcm.
  assert (Htr := fun i => phase_commit cx c st st' i Hwt Hcm).
  assert (Hc : (exists a i, c = Call.RegisterTask a i) \/ forall a i, c <> Call.RegisterTask a i)
    by (destruct c; eauto; by right).
  destruct Hc as [(a & i & ->)|Hc]; last first.
  { unfold tasks_exact. rewrite (all_tasks_frame cx c st st') by done. split; [done|].
    intros i. rewrite Hin. symmetry. by eapply trans_known. }
  apply register_commit in Hcm as (_ & _ & _ & Hf & Heq); [|done].
  assert (Hat : all_tasks st' = all_tasks st ++ [i]).
  { rewrite Heq. unfold all_tasks at 1, tasks_registered. simpl. by rewrite (look_sset c_Vec_u64). }
  assert (Hnew : i ∉ all_tasks st) by (rewrite Hin; intros []; by apply id_free_phase).
  unfold tasks_exact. rewrite Hat. split.
  - apply NoDup_app. split_and!; [done| |apply NoDup_singleton]. by intros x Hx ->%list_elem_of_singleton.
  - intros j. rewrite elem_of_app, list_elem_of_singleton, Hin. specialize (Htr j).
    inversion Htr; simplify_eq; simpl in *; intuition congruence.
Qed.

Lemma tasks_exact_reachable st : reachable st -> tasks_exact st.
Proof.
  revert st. refine (reachable_ind _ tasks_exact_deployed _ _); [|done].
  intros cx c st st' Hr HI Hcm. eapply tasks_exact_commit; [by apply reachable_well_typed|done..].
Qed.

(** ** Reward streams *)

Record streams_exact st : Prop := {
  se_nodup : NoDup (all_streams st);
  se_keys i : i ∈ all_streams st <-> is_Some (reward_stream st i);
  se_resolved i : is_Some (reward_stream st i) -> resolved st i;
}.

Lemma streams_frame cx c st st' :
  well_typed st -> (forall a d b i, c <> Call.StartRewardStream a d b i) -> commits cx c st st' ->
  all_streams st' = all_streams st /\ forall i, reward_stream st' i = reward_stream st i.
Proof.
  intros Hwt Hc Hcm. apply commits_typed in Hcm as [_ Hf]; [|done].
  split; [unfold all_streams; f_equal|intros i]; apply look_frame, Hf;
    destruct c; simpl; try solve_not_elem; by edestruct Hc.
Qed.

Lemma phase_commit_le cx c st st' i :
  well_typed st -> commits cx c st st' -> phase_le (phase_of st i) (phase_of st' i).
Proof. intros Hwt Hcm. by eapply task_trans_le, phase_commit. Qed.

Lemma streams_exact_reachable st : reachable st -> streams_exact st.
Proof.
  revert st. refine (reachable_ind _ _ _ _);
    [|intros cx c st st' Hr HI Hcm|by intros w st _ []; split].
  { intros w. split; unfold all_streams, reward_stream; intros; rewrite ?look_deployed.
    - constructor.
    - split; [by intros ?%elem_of_nil|by intros []].
    - rewrite look_deployed in H. by destruct H. }
  assert (Hwt := reachable_well_typed st Hr).
  assert (Hle := fun i => phase_commit_le cx c st st' i Hwt Hcm).
  assert (Hc : (exists a d b i, c = Call.StartRewardStream a d b i) \/
               forall a d b i, c <> Call.StartRewardStream a d b i)
    by (destruct c; eauto 10; by right).
  destruct Hc as [(a & d & b & i & ->)|Hc]; destruct HI as [Hnd Hk Hres]; last first.
  { pose proof (streams_frame cx c st st' Hwt Hc Hcm) as [Ha Hs]. split.
    - by rewrite Ha.
    - intros i. by rewrite Ha, Hs.
    - intros i. rewrite Hs. intros Hi. apply (resolved_mono st st'); [done|by apply Hres]. }
  apply stream_commit in Hcm as (_ & _ & t & Ht & _ & Hd & Hno & _ & Hs & _); [|done].
  assert (Hal : all_streams st' = all_streams st ++ [i]).
  { unfold all_streams at 1. rewrite Hs, look_sset_ne by done. by rewrite (look_sset c_Vec_u64). }
  assert (Hst : forall j, is_Some (reward_stream st' j) <-> is_Some (reward_stream st j) \/ j = i).
  { intros j. unfold reward_stream at 1. rewrite Hs. destruct (decide (j = i)) as [->|Hne].
    - rewrite (look_sset c_RewardStream). split; eauto.
    - rewrite !look_sset_ne by congruence. fold (reward_stream st j). naive_solver. }
  assert (Hnew : i ∉ all_streams st).
  { rewrite Hk. unfold reward_stream, look. rewrite Hno. by intros []. }
  split.
  - rewrite Hal. apply NoDup_app. split_and!; [done| |apply NoDup_singleton].
    by intros x Hx ->%list_elem_of_singleton.
  - intros j. by rewrite Hal, elem_of_app, list_elem_of_singleton, Hst, Hk.
  - intros j [Hj| ->]%Hst.
    + apply (resolved_mono st st'); [done|by apply Hres].
    + apply (resolved_mono st st'); [done|]. exists t. unfold phase_of. by rewrite Ht.
Qed.

Lemma stream_kept st st' i s :
  reachable st -> step st st' -> reward_stream st i = Some s -> reward_stream st' i = Some s.
Proof.
  intros Hr Hs Hst. destruct Hs as [cx c st st' Hcm|cx c st Hno|w st]; [|done..].
  assert (Hwt := reachable_well_typed st Hr).
  assert (Hc : (exists a d b j, c = Call.StartRewardStream a d b j) \/
               forall a d b i, c <> Call.StartRewardStream a d b i)
    by (destruct c; eauto 10; by right).
  destruct Hc as [(a & d & b & j & ->)|Hc]; last first.
  { pose proof (streams_frame cx c st st' Hwt Hc Hcm) as [_ Hk]. by rewrite Hk. }
  apply stream_commit in Hcm as (_ & _ & t & _ & _ & _ & Hno & _ & Hk & _); [|done].
  unfold reward_stream in *. rewrite Hk. destruct (decide (i = j)) as [->|Hne].
  - unfold look in Hst. by rewrite Hno in Hst.
  - by rewrite !look_sset_ne by congruence.
Qed.

(** ** Guardians *)

Lemma registered_frame st st' g :
  sget (DataKey.Guardian g) (storage st) = sget (DataKey.Guardian g) (storage st') ->
  registered st g = registered st' g.
Proof. intros Hf. unfold registered. by rewrite (look_frame c_bool _ _ _ Hf). Qed.

Definition guardians_listed st : Prop :=
  forall g, is_Some (sget (DataKey.Guardian g) (storage st)) -> g ∈ all_guardians st.

Lemma guardians_listed_reachable st : reachable st -> guardians_listed st.
Proof.
  revert st. refine (reachable_ind _ _ _ _); [|intros cx c st st' Hr HI Hcm|done].
  { intros w g. simpl. rewrite sget_sempty. by intros []. }
  assert (Hwt := reachable_well_typed st Hr). intros g Hg.
  assert (Hadd : (exists a b, c = Call.AddGuardian a b) \/ DataKey.AllGuardians ∉ footprint c)
    by (destruct c; try (right; simpl; solve_not_elem); eauto).
  destruct Hadd as [(a & b & ->)|Hno].
  - eapply commits_spec in Hcm as (st1 & Hs & Hst & _); [|done].
    apply unless_paused_done in Hs as [_ Hs]. apply signed_done in Hs as [_ [= <-]].
    rewrite (Hst _) in Hg. unfold all_guardians. rewrite (look_frame c_Vec_Address _ _ _ (Hst _)).
    unfold guardian_added in *. simpl in *. rewrite look_sset_ne by done.
    destruct (decide (b = g)) as [->|Hne].
    + case_bool_decide as Hk; simpl in *; [by apply HI|]. rewrite (look_sset c_Vec_Address). simpl. set_solver.
    + rewrite sget_sset_ne in Hg by congruence. case_bool_decide; simpl in *; [by apply HI|].
      rewrite (look_sset c_Vec_Address). rewrite sget_sset_ne in Hg by done. simpl. apply elem_of_app. left. by apply HI.
  - pose proof (commits_frame cx c st st' _ Hr Hcm Hno) as Hl.
    unfold all_guardians. rewrite (look_frame c_Vec_Address _ _ _ Hl). apply HI.
    destruct (decide (DataKey.Guardian g ∈ footprint c)) as [Hk|Hk];
      [|by rewrite <- (commits_frame cx c st st' _ Hr Hcm Hk)].
    eapply commits_spec in Hcm as (st1 & Hs & Hst & _); [|done]. rewrite (Hst _) in Hg.
    destruct c; simpl in Hk; rewrite ?elem_of_cons, ?elem_of_nil in Hk; simplify_eq;
      try (by exfalso; intuition congruence).
    + by destruct Hno; left.
    + assert (guardian = g) as -> by intuition congruence.
      apply unless_paused_done in Hs as [_ Hs]. apply signed_done in Hs as [_ Hs].
      unfold remove_guardian_spec in Hs. case_match; simplify_eq. eauto.
    + assert (guardian = g) as -> by intuition congruence.
      apply signed_done in Hs as [_ Hs]. apply with_token_done in Hs as (tk & _ & Hs).
      destruct (registered st g) eqn:Hreg; [|done]. unfold registered in Hreg.
      destruct (look c_bool _ _) eqn:Hl'; [|done]. apply look_Some in Hl'. eauto.
Qed.

(** ** Properties *)

(** The task index is exact in every reachable state: [AllTasks] has no
    duplicates and lists the registered identifiers and no others, each of them
    active or archived.  An identifier that has been used cannot be registered
    again, in any later state. *)
Theorem task_index_exact st st' i cx a st2 :
  reachable st -> i ∈ all_tasks st -> rtc step st st' ->
  NoDup (all_tasks st') /\ phase_of st' i <> Unknown /\ i ∈ all_tasks st' /\
  ~ commits cx (Call.RegisterTask a i) st' st2.
Proof.
  intros Hr Hi Hs. assert (reachable st') as Hr' by (by eapply reachable_rtc).
  destruct (tasks_exact_reachable st Hr) as [_ Hk], (tasks_exact_reachable st' Hr') as [Hnd Hk'].
  assert (phase_of st' i <> Unknown) as Hp.
  { apply (not_unknown (phase_of st i)); [by apply phase_rtc_le|by apply Hk]. }
  split_and!; [done|done|by apply Hk'|]. intros Hcm.
  apply register_commit in Hcm as (_ & _ & _ & Hf & _); [|by apply reachable_well_typed].
  by apply Hp, id_free_phase.
Qed.

(** The stream index is exact in every reachable state, and a reward stream
    exists only for a task that was resolved. *)
Theorem stream_index_exact st i :
  reachable st ->
  NoDup (all_streams st) /\ (i ∈ all_streams st <-> is_Some (reward_stream st i)) /\
  (is_Some (reward_stream st i) -> resolved st i).
Proof. intros Hr. destruct (streams_exact_reachable st Hr) as [H1 H2 H3]. split; [done|]. split; [apply H2|apply H3]. Qed.

(** C32: a task's rewards are streamed at most once: after a committed start, no
    later start for the same task commits, whoever asks and to whatever
    contract; and the stream that is stored is the one that was started. *)
Theorem one_stream_per_task cx a d c i st st' st1 cx' a' d' c' st2 :
  reachable st -> commits cx (Call.StartRewardStream a d c i) st st' -> rtc step st' st1 ->
  reward_stream st1 i = Some (RewardStream.mk i c d true) /\
  ~ commits cx' (Call.StartRewardStream a' d' c' i) st1 st2.
Proof.
  intros Hr Hcm Hs. assert (reachable st') as Hr' by (by eapply reachable_step, step_commit).
  assert (reward_stream st' i = Some (RewardStream.mk i c d true)) as Hst.
  { apply stream_commit in Hcm as (_ & _ & t & _ & _ & _ & _ & _ & Hst & _); [|by apply reachable_well_typed].
    unfold reward_stream. rewrite Hst. apply (look_sset c_RewardStream). }
  assert (reachable st1 /\ reward_stream st1 i = Some (RewardStream.mk i c d true)) as [Hr1 Hst1].
  { clear Hcm. induction Hs as [st'|st' st'' st1 Hs Hss IH]; [done|].
    apply IH; [by eapply reachable_step|]. by eapply stream_kept. }
  split; [done|]. intros Hcm2.
  apply stream_commit in Hcm2 as (_ & _ & t & _ & _ & _ & Hno & _); [|by apply reachable_well_typed].
  unfold reward_stream, look in Hst1. by rewrite Hno in Hst1.
Qed.

(** C35: the guardian registry changes exactly as its calls say: an addition
    registers, a removal or a resignation strikes out, for the named guardian
    only, and nothing else does.  The list of guardians only grows: an addition
    appends an address whose key is not there, so that a guardian who is removed
    and added again is listed twice. *)
Theorem guardian_registry cx c st st' :
  reachable st -> commits cx c st st' ->
  (forall g, registered st' g =
     match c with
     | Call.AddGuardian _ g' => if decide (g' = g) then true else registered st g
     | Call.RemoveGuardian _ g' | Call.ResignGuardian g' =>
         if decide (g' = g) then false else registered st g
     | _ => registered st g
     end) /\
  all_guardians st' =
    match c with
    | Call.AddGuardian _ g =>
        all_guardians st ++
          (if decide (is_Some (sget (DataKey.Guardian g) (storage st))) then [] else [g])
    | _ => all_guardians st
    end.
Proof.
  intros Hr Hcm. pose proof (reachable_well_typed st Hr) as Hwt. split.
  - intros g. destruct (decide (DataKey.Guardian g ∈ footprint c)) as [Hk|Hk]; last first.
    { pose proof (commits_frame cx c st st' _ Hr Hcm Hk) as Hf.
      assert (registered st' g = registered st g) as -> by (unfold registered; by rewrite (look_frame c_bool _ _ _ Hf)).
      destruct c; try done; rewrite decide_False; try done; intros ->; apply Hk; simpl; set_solver. }
    eapply commits_spec in Hcm as (st1 & Hs & Hst & _); [|done].
    rewrite (registered_frame _ _ _ (Hst _)).
    destruct c; simpl in Hk; rewrite ?elem_of_cons, ?elem_of_nil in Hk; try (by exfalso; intuition congruence).
    + apply unless_paused_done in Hs as [_ Hs]. apply signed_done in Hs as [_ [= <-]]. apply registered_added.
    + apply unless_paused_done in Hs as [_ Hs]. apply signed_done in Hs as [_ Hs].
      assert (guardian = g) as -> by intuition congruence. rewrite decide_True by done.
      unfold remove_guardian_spec in Hs. case_match; simplify_eq. unfold registered. simpl. by rewrite look_sremove.
    + assert (guardian = g) as -> by intuition congruence. rewrite decide_True by done.
      apply signed_done in Hs as [_ Hs]. apply with_token_done in Hs as (tk & _ & Hs).
      destruct (registered st g); [|done]. apply refund_done in Hs as [_ Hs]. unfold registered.
      destruct Hs as [[_ ->]|(_ & _ & ->)]; simpl; [|rewrite look_sset_ne by done]; by rewrite (look_sset c_bool).
  - destruct (decide (DataKey.AllGuardians ∈ footprint c)) as [Hk|Hk]; last first.
    { pose proof (commits_frame cx c st st' _ Hr Hcm Hk) as Hf. unfold all_guardians.
      rewrite (look_frame c_Vec_Address _ _ _ Hf). destruct c; try done. by destruct Hk; left. }
    destruct c; simpl in Hk; rewrite ?elem_of_cons, ?elem_of_nil in Hk; try (by exfalso; intuition congruence).
    eapply commits_spec in Hcm as (st1 & Hs & Hst & _); [|done].
    apply unless_paused_done in Hs as [_ Hs]. apply signed_done in Hs as [_ [= <-]].
    unfold all_guardians at 1. rewrite (look_frame c_Vec_Address _ _ _ (Hst _)). unfold guardian_added. simpl.
    rewrite look_sset_ne by done. destruct (decide (is_Some _)) as [Hg|Hg].
    + rewrite bool_decide_true by done. by rewrite app_nil_r.
    + rewrite bool_decide_false by done. simpl. by rewrite (look_sset c_Vec_Address).
Qed.

End registry.

(** ** Witnesses *)

Lemma task_index_exact_witness :
  1 ∈ all_tasks (scene 14) /\
  ~ exists st2, commits (at_time (41 * day)) (Call.RegisterTask admin 1) (scene 14) st2.
Proof.
  assert (Hin : 1 ∈ all_tasks (scene 14)) by by_eval. split; [exact Hin|].
  intros [st2 H]. revert H.
  exact (proj2 (proj2 (proj2 (task_index_exact (scene 14) (scene 14) 1 (at_time (41 * day)) admin st2
    (scene_reachable 14) Hin (rtc_refl step (scene 14)))))).
Defined.

Lemma stream_index_exact_witness :
  1 ∈ all_streams (scene 13) /\ (is_Some (reward_stream (scene 13) 1) -> resolved (scene 13) 1).
Proof.
  split; [by_eval|]. exact (proj2 (proj2 (stream_index_exact (scene 13) 1 (scene_reachable 13)))).
Defined.

Lemma one_stream_per_task_witness :
  ~ exists st2, commits (at_time 20) (Call.StartRewardStream admin drips1 worker 1) (scene 13) st2.
Proof.
  intros [st2 H]. revert H.
  refine (proj2 (one_stream_per_task (at_time 13) admin drips1 worker 1 (scene 12) (scene 13) (scene 13)
    (at_time 20) admin drips1 worker st2 (scene_reachable 12) _ (rtc_refl step (scene 13)))).
  apply (scene_commits 12). reflexivity.
Defined.

Lemma guardian_registry_witness :
  registered (scene 3) guardian2 = true /\ all_guardians (scene 3) = [guardian1; guardian2].
Proof.
  destruct (guardian_registry (at_time 3) (Call.AddGuardian admin guardian2) (scene 2) (scene 3)
    (scene_reachable 2) ltac:(apply (scene_commits 2); reflexivity)) as [H1 H2].
  split; [exact (H1 guardian2)|]. rewrite H2. vm_compute. reflexivity.
Defined.
