(* ===== verification/Refinement.v ===== *)
(** * The contract against its specification

    Whole histories of the contract agree with the specification
    ([Spec.spec]), call by call; a failed call has undone its own writes; and
    the cases in which an entry point traps are listed one by one. *)

From stdpp Require Import prelude gmap list strings.
From Stdlib Require Import ZArith Lia Morphisms.
From S2P Require Import Prelude.
From S2P Require Import Types.
From S2P Require Import Host.
From S2P Require Import Logic.
From S2P Require Import Frame.
From S2P Require Import Typing.
From S2P Require Import SampleHost.
From S2P Require Import Reentrancy.
From S2P Require Import Guardian.
From S2P Require Import CircuitBreaker.
From S2P Require Import Storage.
From S2P Require Import Tasks.
From S2P Require Import Drips.
From S2P Require Import Contract.
From S2P Require Import VoteSpec.
From S2P Require Import System.
From S2P Require Import Spec.
From S2P Require Import Commits.
From S2P Require Import Lifecycle.
From S2P Require Import SampleRun.

Section refinement.
Context {Sto Wld : Type} `{!InstanceStorage Sto} `{!World Wld}.
Implicit Types (st : state Sto Wld) (cx : context).

(** The specification as a machine of its own. *)
Definition spec_invoke cx (c : Call) st : state Sto Wld :=
  match spec cx c st with Done _ st' => st' | _ => st end.

Fixpoint spec_invoke_all (l : list (context * Call)) st : state Sto Wld :=
  match l with
  | [] => st
  | (cx, c) :: rest => spec_invoke_all rest (spec_invoke cx c st)
  end.

Lemma well_typed_eq st1 st2 : state_eq st1 st2 -> well_typed st1 -> well_typed st2.
Proof. intros [Hs _] Hwt k v. rewrite <- (Hs k). apply Hwt. Qed.

Lemma invoke_typed cx c st : ctx_wf cx -> call_wf c -> well_typed st -> well_typed (invoke cx c st).
Proof.
  intros Hcx Hc Hwt. unfold invoke. destruct (run cx (exec c) st) as [[] st'|e st'|r] eqn:E; try done.
  by eapply commits_typed.
Qed.

Lemma invoke_proper cx c st1 st2 :
  state_eq st1 st2 -> state_eq (invoke cx c st1) (invoke cx c st2).
Proof.
  intros Heq. unfold invoke. pose proof (run_proper cx (exec c) st1 st2 Heq) as H.
  destruct (run cx (exec c) st1), (run cx (exec c) st2); simpl in H; try done. by destruct H.
Qed.

Lemma spec_invoke_eq cx c st :
  well_typed st -> call_wf c -> state_eq (invoke cx c st) (spec_invoke cx c st).
Proof.
  intros Hwt Hc. unfold invoke, spec_invoke. pose proof (exec_spec cx c st Hwt Hc) as H.
  destruct (run cx (exec c) st), (spec cx c st); simpl in H; try done. by destruct H.
Qed.

(** What a failed call published before it failed. *)
Definition published_in_vain (c : Call) (e : ContractError) st : list effect :=
  match c with
  | Call.Vote g i =>
      match e, vote_check g i st with
      | ContractError.EscrowUnavailable, inr (w, t) => [resolved_event i (Task.total_weight_accrued t + w)]
      | _, _ => []
      end
  | Call.StartRewardStream _ _ b i =>
      match e with ContractError.ContractPaused => [] | _ => [stream_failed_event i b] end
  | _ => []
  end.

Lemma spec_failed cx c st e st1 :
  spec cx c st = Failed e st1 ->
  storage st1 = storage st /\ world st1 = world st /\
  effects st1 = effects st ++ published_in_vain c e st.
Proof.
  unfold published_in_vain. unfold_spec.
  destruct c; intros H; repeat first [progress simplify_eq/= | case_match]; rewrite ?app_nil_r; try done.
Qed.

(** *** Traps *)


















(** ** Properties *)

(** C2: every history of calls, run by the contract's code from a state whose
    entries have their types, ends in the state the specification computes for
    it: store entry by store entry, with the same world and the same events. *)
Theorem history_refines_spec l st :
  well_typed st -> calls_wf l -> state_eq (invoke_all l st) (spec_invoke_all l st).
Proof.
  assert (forall l st1 st2, well_typed st1 -> calls_wf l -> state_eq st1 st2 ->
            state_eq (invoke_all l st1) (spec_invoke_all l st2)) as Hgen; [|by intros; apply Hgen].
  clear l st. induction l as [|[cx c] l IH]; intros st1 st2 Hwt Hl Heq; [done|].
  apply Forall_cons in Hl as [[Hcx Hc] Hl]. simpl in *. apply IH; [by apply invoke_typed|done|].
  rewrite (invoke_proper cx c st1 st2 Heq). apply spec_invoke_eq; [by eapply well_typed_eq|done].
Qed.

(** C21: what an entry point that returns an error leaves behind.  It has itself
    undone every write and made no call that took effect: store and world are as
    before.  Of its events exactly these are left for the host to drop: the
    [resolved] event of a vote that fails because the vault refuses to pay, and the
    [rw_fail] event of every reward stream that is refused for another reason than
    a pause; any other failed call has published nothing. *)
Theorem failed_call_leaves_only_events cx c st e st1 :
  reachable st -> call_wf c -> run cx (exec c) st = Failed e st1 ->
  store_eq (storage st1) (storage st) /\ world st1 = world st /\
  effects st1 = effects st ++
    match c with
    | Call.Vote g i =>
        match e, vote_check g i st with
        | ContractError.EscrowUnavailable, inr (w, t) =>
            [Published ["resolved"%string] (DTuple [VU64 i; VU64 (Task.total_weight_accrued t + w)])]
        | _, _ => []
        end
    | Call.StartRewardStream _ _ b i =>
        match e with
        | ContractError.ContractPaused => []
        | _ => [Published ["rw_fail"%string] (DTuple [VU64 i; VAddress b])]
        end
    | _ => []
    end.
Proof.
  intros Hr Hc Hrun. pose proof (exec_spec cx c st (reachable_well_typed st Hr) Hc) as H.
  rewrite Hrun in H. destruct (spec cx c st) as [|e' st2|] eqn:E; try done.
  destruct H as (<- & Hs & Hw & He). apply spec_failed in E as (Hs2 & Hw2 & He2).
  rewrite Hs, Hs2, Hw, He. by split_and!.
Qed.


End refinement.

(** ** Witnesses *)

Lemma history_refines_spec_witness :
  state_eq (scene 14) (spec_invoke_all script (deployed w0)).
Proof.
  exact (history_refines_spec (take 14 script) (deployed w0) (well_typed_empty w0 []) (script_wf 14)).
Defined.

(** A vault that refuses to pay. *)
Definition refused_calls : list (context * Call) :=
  take 11 script ++ [(at_time 11, Call.SetVaultAddress admin dead_vault)].

Definition refused_scene : sample_state := invoke_all refused_calls (deployed w0).

Lemma refused_reachable : reachable refused_scene.
Proof. apply reachable_invoke_all; [by_eval | apply reachable_deployed]. Qed.

Lemma failed_call_leaves_only_events_witness :
  exists st1, run (at_time 20) (exec (Call.Vote guardian2 1)) refused_scene =
                Failed ContractError.EscrowUnavailable st1 /\
    store_eq (storage st1) (storage refused_scene) /\
    effects st1 = effects refused_scene ++ [Published ["resolved"%string] (DTuple [VU64 1; VU64 350])].
Proof.
  destruct (ending_failed (run (at_time 20) (exec (Call.Vote guardian2 1)) refused_scene)
    ContractError.EscrowUnavailable) as [st1 H]; [vm_compute; reflexivity|].
  exists st1. split; [exact H|].
  pose proof (failed_call_leaves_only_events (at_time 20) (Call.Vote guardian2 1) refused_scene
    ContractError.EscrowUnavailable st1 refused_reachable ltac:(by_eval) H) as (H1 & _ & H3).
  assert (vote_check guardian2 1 refused_scene = inr (150, Task.mk 1 1 false 0 200 false)) as Hv
    by (vm_compute; reflexivity).
  rewrite Hv in H3. split; [exact H1|exact H3].
Defined.

