(* ===== verification/Kani.v ===== *)
(** * The Kani harnesses ([src/verification/src/lib.rs])

    Each bounded harness as a boolean function of its symbolic inputs
    ([kani::any]), with [kani::assume] and the assertions in order; the
    theorems prove it for every input in range.  The last part relates
    [apply_vote], which the harnesses check, to the contract's own [vote],
    which does not call it. *)

From stdpp Require Import prelude gmap list strings.
From Stdlib Require Import ZArith Lia.
From S2P Require Import Prelude.
From S2P Require Import Types.
From S2P Require Import Host.
From S2P Require Import Logic.
From S2P Require Import Frame.
From S2P Require Import Typing.
From S2P Require Import SampleHost.
From S2P Require Import Consensus.
From S2P Require Import Storage.
From S2P Require Import Tasks.
From S2P Require Import Contract.
From S2P Require Import VoteSpec.
From S2P Require Import System.
From S2P Require Import SampleRun.
From S2P Require Import Spec.
From S2P Require Import Commits.
From S2P Require Import Lifecycle.

(** [kani::assume] ends the path when it fails. *)
Definition assuming (b k : bool) : bool := negb b || k.

Definition is_ok {A B} (r : A + B) : bool := match r with inl _ => true | inr _ => false end.

Local Abbreviation total := ConsensusState.total_weight_accrued.
Local Abbreviation votes := ConsensusState.votes.
Local Abbreviation is_done := ConsensusState.is_done.

Definition proof_threshold_invariant (weight threshold : Z) : bool :=
  assuming (0 <? weight)
    (let '(state, result) := apply_vote ConsensusState.new weight threshold in
     is_ok result &&
     (if threshold <=? weight then is_done state else negb (is_done state)) &&
     (total state =? weight) && (votes state =? 1)).

Definition proof_no_below_threshold_resolution (weight threshold initial_weight votes0 : Z) : bool :=
  assuming (initial_weight <? u64_max) (assuming (0 <? weight)
    (let '(state, result) :=
       apply_vote (ConsensusState.mk initial_weight votes0 false) weight threshold in
     if is_done state then threshold <=? total state else true)).

Definition proof_monotone_done (weight threshold total0 votes0 : Z) : bool :=
  assuming (0 <? weight) (assuming (threshold <=? u64_max / 2)
    (assuming (threshold <=? total0) (assuming (total0 <=? u64_max - weight)
      (is_done (apply_vote (ConsensusState.mk total0 votes0 true) weight threshold).1)))).

Definition proof_weight_overflow_impossible (weight initial threshold votes0 : Z) : bool :=
  assuming (0 <? weight) (assuming (u64_max - weight <? initial)
    (let '(state, result) :=
       apply_vote (ConsensusState.mk initial votes0 false) weight threshold in
     bool_decide (result = inr ConsensusError.WeightOverflow) &&
     (total state =? initial) && negb (is_done state))).

Definition proof_votes_no_overflow (weight threshold initial_votes initial_weight : Z) : bool :=
  assuming (0 <? weight) (assuming (initial_weight <=? u64_max - weight)
    (let '(state, _) :=
       apply_vote (ConsensusState.mk initial_weight initial_votes false) weight threshold in
     (initial_votes <=? votes state) &&
     (votes state =? u32_saturating_add initial_votes 1))).

Definition proof_zero_threshold_safe (weight : Z) : bool :=
  assuming (0 <? weight)
    (let '(state, result) := apply_vote ConsensusState.new weight 0 in
     is_ok result && is_done state && (total state =? weight)).

Definition proof_max_weight_single_guardian (threshold : Z) : bool :=
  let '(state, result) := apply_vote ConsensusState.new u64_max threshold in
  is_ok result && (total state =? u64_max) && is_done state.

Definition proof_multi_vote_accumulation (w1 w2 threshold : Z) : bool :=
  assuming (0 <? w1) (assuming (0 <? w2)
    (assuming (w1 <=? u64_max / 2) (assuming (w2 <=? u64_max / 2)
      (let '(s1, r1) := apply_vote ConsensusState.new w1 threshold in
       let '(state, r2) := apply_vote s1 w2 threshold in
       let sum := w1 + w2 in
       is_ok r1 && is_ok r2 && (total state =? sum) && (votes state =? 2) &&
       (if threshold <=? sum then is_done state else negb (is_done state)))))).

Definition proof_resolution_invariant_helper (weight threshold : Z) : bool :=
  assuming (0 <? weight)
    (let '(state, result) := apply_vote ConsensusState.new weight threshold in
     if is_ok result then resolution_invariant_holds state threshold else true).

(** ** Proofs *)

Lemma assuming_intro b k : (b = true -> k = true) -> assuming b k = true.
Proof. unfold assuming. destruct b; simpl; auto. Qed.

(** Opens a harness: the assumptions as hypotheses. *)
Ltac harness :=
  repeat (apply assuming_intro; intros ?%Is_true_true);
  repeat match goal with H : Is_true (_ <? _) |- _ => apply Is_true_true, Z.ltb_lt in H
                       | H : Is_true (_ <=? _) |- _ => apply Is_true_true, Z.leb_le in H end.

(** Decides a conjunction of comparisons. *)
Ltac checks :=
  rewrite ?andb_true_iff, ?Z.eqb_eq, ?Z.leb_le, ?negb_true_iff; repeat split; try done; try lia.

(** The harnesses about a single vote on the fresh state (threshold
    invariant, zero threshold, maximal weight, the invariant helper) pass for
    every weight and threshold of 64 bits. *)
Lemma fresh_harnesses weight threshold :
  in_u64 weight -> in_u64 threshold ->
  proof_threshold_invariant weight threshold = true /\
  proof_zero_threshold_safe weight = true /\
  proof_max_weight_single_guardian threshold = true /\
  proof_resolution_invariant_helper weight threshold = true.
Proof.
  unfold in_u64. intros Hw Ht.
  unfold proof_threshold_invariant, proof_zero_threshold_safe, proof_max_weight_single_guardian,
    proof_resolution_invariant_helper, resolution_invariant_holds.
  split_and!; harness; rewrite apply_vote_ok by (cbn; unfold u64_max in *; lia); cbn [fst snd is_ok ConsensusState.total_weight_accrued ConsensusState.votes ConsensusState.is_done ConsensusState.new orb andb];
    rewrite ?Z.add_0_l.
  - checks. by destruct (threshold <=? weight).
  - checks.
  - checks.
  - by destruct (threshold <=? weight).
Qed.


(** The harnesses about an arbitrary earlier tally (no resolution below the
    threshold, no overflow, a counter that saturates, [is_done] never cleared)
    pass for every weight, threshold, count and accrued weight. *)
Lemma running_harnesses weight threshold initial votes0 :
  in_u64 weight -> in_u64 threshold -> in_u64 initial -> in_u32 votes0 ->
  proof_no_below_threshold_resolution weight threshold initial votes0 = true /\
  proof_monotone_done weight threshold initial votes0 = true /\
  proof_weight_overflow_impossible weight initial threshold votes0 = true /\
  proof_votes_no_overflow weight threshold votes0 initial = true.
Proof.
  unfold in_u64, in_u32. intros Hw Ht Hi Hv.
  unfold proof_no_below_threshold_resolution, proof_monotone_done, proof_weight_overflow_impossible,
    proof_votes_no_overflow.
  split_and!; harness.
  - unfold apply_vote, u64_checked_add. cbn. destruct (weight =? 0); [done|].
    case_decide; [|done]. cbn. by destruct (threshold <=? initial + weight) eqn:?.
  - rewrite apply_vote_ok by (cbn; lia). done.
  - unfold apply_vote, u64_checked_add. cbn. destruct (Z.eqb_spec weight 0); [lia|].
    rewrite decide_False by (unfold in_u64; lia). cbn. checks.
  - rewrite apply_vote_ok by (cbn; lia). cbn. unfold saturated, u32_saturating_add.
    checks.
Qed.

(** The two-vote harness passes: below half the range each, two weights add
    up exactly, and the task is resolved exactly when the sum reaches the
    threshold. *)
Lemma multi_vote_harness w1 w2 threshold :
  in_u64 w1 -> in_u64 w2 -> in_u64 threshold ->
  proof_multi_vote_accumulation w1 w2 threshold = true.
Proof.
  unfold in_u64. intros H1 H2 Ht. unfold proof_multi_vote_accumulation. harness.
  assert (w1 + w2 <= u64_max) by (pose proof (Z.mul_div_le u64_max 2); lia).
  rewrite apply_vote_ok by (cbn; lia). cbn -[u64_max Z.leb]. rewrite apply_vote_ok by (cbn; lia).
  cbn -[u64_max Z.leb Z.add]. rewrite !Z.add_0_l. checks.
  destruct (Z.leb_spec threshold w1), (Z.leb_spec threshold (w1 + w2)); try done; lia.
Qed.

(** C39: the nine harnesses hold: every assertion of the file passes for every
    value of its symbolic inputs in the range of their types, not only up to
    the checker's bounds. *)
Theorem kani_harnesses_pass weight w2 threshold initial votes0 :
  in_u64 weight -> in_u64 w2 -> in_u64 threshold -> in_u64 initial -> in_u32 votes0 ->
  proof_threshold_invariant weight threshold = true /\
  proof_no_below_threshold_resolution weight threshold initial votes0 = true /\
  proof_monotone_done weight threshold initial votes0 = true /\
  proof_weight_overflow_impossible weight initial threshold votes0 = true /\
  proof_votes_no_overflow weight threshold votes0 initial = true /\
  proof_zero_threshold_safe weight = true /\
  proof_max_weight_single_guardian threshold = true /\
  proof_multi_vote_accumulation weight w2 threshold = true /\
  proof_resolution_invariant_helper weight threshold = true.
Proof.
  intros Hw Hw2 Ht Hi Hv.
  destruct (fresh_harnesses weight threshold Hw Ht) as (? & ? & ? & ?).
  destruct (running_harnesses weight threshold initial votes0 Hw Ht Hi Hv) as (? & ? & ? & ?).
  split_and!; try done. by apply multi_vote_harness.
Qed.

(** ** The contract's own arithmetic *)

(** What [apply_vote] would see of a task. *)
Definition consensus_view (t : Task) : ConsensusState :=
  ConsensusState.mk (Task.total_weight_accrued t) (Task.votes t) (Task.is_done t).

Section agreement.
Context {Sto Wld : Type} `{!InstanceStorage Sto} `{!World Wld}.
Implicit Types (st : state Sto Wld) (cx : context).

(** C11: [vote] does its own arithmetic instead of calling [apply_vote], and
    agrees with it wherever it completes: a committed vote changes the task's
    weight, count and resolution exactly as [apply_vote] would with the
    guardian's reputation and the configured threshold. *)
Theorem vote_agrees_with_apply_vote cx g i st st' :
  reachable st -> commits cx (Call.Vote g i) st st' ->
  exists w t t',
    reputation st g = Some w /\ active_task st i = Some t /\ active_task st' i = Some t' /\
    apply_vote (consensus_view t) w (weight_threshold st) = (consensus_view t', inl tt).
Proof.
  intros Hr Hcm. pose proof (reachable_well_typed st Hr) as Hwt.
  apply vote_commit in Hcm as (_ & _ & _ & w & t & Hck & Hv & Hs & _); [|done].
  apply vote_check_inr in Hck as (_ & _ & _ & _ & Hw & Hw0 & Ht & _ & Htot).
  pose proof (reputation_range st g w Hwt Hw). destruct (active_task_ok st i t Hwt Ht) as (_ & Hvr & _ & Htr). unfold in_u64, in_u32 in *.
  exists w, t, (vote_result cx st w t). do 2 (split; [done|]). split.
  { unfold active_task. rewrite Hs. apply (look_sset c_Task). }
  rewrite apply_vote_ok by (cbn; lia). unfold consensus_view, vote_result, reaches. cbn.
  rewrite saturated_id by (unfold in_u32; lia).
  destruct (_ <=? _); cbn; [by rewrite orb_true_r | by rewrite orb_false_r].
Qed.

(** The errors agree as well: when [vote] reports an overflow or a zero
    weight, so does [apply_vote] on the same task. *)
Theorem vote_errors_agree cx g i st e st1 :
  reachable st -> in_u64 i -> run cx (vote g i) st = Failed e st1 ->
  match e with
  | ContractError.ZeroWeightVote => reputation st g = Some 0 /\
      forall s thr, apply_vote s 0 thr = (s, inr ConsensusError.ZeroWeight)
  | ContractError.WeightOverflow => exists w t,
      reputation st g = Some w /\ active_task st i = Some t /\
      apply_vote (consensus_view t) w (weight_threshold st) =
        (consensus_view t, inr ConsensusError.WeightOverflow)
  | _ => True
  end.
Proof.
  intros Hr Hi Hrun. pose proof (vote_run cx g i st (reachable_well_typed st Hr)) as H.
  rewrite Hrun in H. clear Hrun Hr Hi. destruct e; try done; revert H; unfold vote_spec, vote_check;
    repeat case_match; cbn; intros; try contradiction; destruct_and?; simplify_eq.
  - by match goal with H : (_ =? 0) = true |- _ => apply Z.eqb_eq in H as -> end.
  - do 2 eexists. do 2 (split; [done|]). unfold apply_vote, u64_checked_add. cbn.
    match goal with H : (_ =? 0) = false |- _ => rewrite H end. by rewrite decide_False.
Qed.

End agreement.

(** ** Witnesses *)

Lemma kani_harnesses_pass_witness :
  proof_threshold_invariant 200 300 = true /\
  proof_no_below_threshold_resolution 200 300 299 u32_max = true /\
  proof_monotone_done 200 300 299 u32_max = true /\
  proof_weight_overflow_impossible 200 299 300 u32_max = true /\
  proof_votes_no_overflow 200 300 u32_max 299 = true /\
  proof_zero_threshold_safe 200 = true /\
  proof_max_weight_single_guardian 300 = true /\
  proof_multi_vote_accumulation 200 150 300 = true /\
  proof_resolution_invariant_helper 200 300 = true.
Proof. apply (kani_harnesses_pass 200 150 300 299 u32_max); by_eval. Defined.

Lemma vote_agrees_with_apply_vote_witness :
  exists w t t',
    reputation (scene 11) guardian2 = Some w /\ active_task (scene 11) 1 = Some t /\
    active_task (scene 12) 1 = Some t' /\
    apply_vote (consensus_view t) w (weight_threshold (scene 11)) = (consensus_view t', inl tt).
Proof.
  apply (vote_agrees_with_apply_vote (at_time 12) guardian2 1 (scene 11) (scene 12));
    [apply scene_reachable | apply (scene_commits 11); reflexivity].
Defined.

(** A vote without any weight. *)
Lemma vote_errors_agree_witness :
  reputation zero_weight_scene guardian1 = Some 0 /\
  forall s thr, apply_vote s 0 thr = (s, inr ConsensusError.ZeroWeight).
Proof.
  destruct (ending_failed (run (at_time 20) (vote guardian1 1) zero_weight_scene)
    ContractError.ZeroWeightVote) as [st1 H]; [vm_compute; reflexivity|].
  exact (vote_errors_agree (at_time 20) guardian1 1 zero_weight_scene ContractError.ZeroWeightVote st1
    zero_weight_reachable ltac:(by_eval) H).
Defined.
