(* ===== verification/Control.v ===== *)
(** * Who may do what, and when

    Authorization, pausing, the circuit breaker and the configuration: which
    signature each entry point needs, what a pause stops and what it does not,
    when repeated failures stop the contract, and which settings are fixed. *)

From stdpp Require Import prelude gmap list strings relations.
From Stdlib Require Import ZArith Lia Morphisms.
From S2P Require Import Prelude.
From S2P Require Import Types.
From S2P Require Import Host.
From S2P Require Import Logic.
From S2P Require Import Frame.
From S2P Require Import Typing.
From S2P Require Import SampleHost.
From S2P Require Import Reentrancy.
From S2P Require Import Guardian.
From S2P Require Import CircuitBreaker.
From S2P Require Import Storage.
From S2P Require Import Tasks.
From S2P Require Import Contract.
From S2P Require Import VoteSpec.
From S2P Require Import System.
From S2P Require Import SampleRun.
From S2P Require Import Spec.
From S2P Require Import Commits.

(** ** Administrative calls *)

(** The address an administrative call is made as. *)
Definition admin_of (c : Call) : option Address :=
  match c with
  | Call.TogglePause a | Call.Pause a | Call.Unpause a
  | Call.AddGuardian a _ | Call.RemoveGuardian a _
  | Call.SetReputation a _ _ | Call.SetWeightThreshold a _ | Call.SetVaultAddress a _
  | Call.RegisterTask a _ | Call.CancelTask a _ | Call.StartRewardStream a _ _ _
  | Call.ResetCircuitBreaker a => Some a
  | _ => None
  end.

(** The same call made as [b]. *)
Definition as_admin (b : Address) (c : Call) : Call :=
  match c with
  | Call.TogglePause _ => Call.TogglePause b
  | Call.Pause _ => Call.Pause b
  | Call.Unpause _ => Call.Unpause b
  | Call.AddGuardian _ g => Call.AddGuardian b g
  | Call.RemoveGuardian _ g => Call.RemoveGuardian b g
  | Call.SetReputation _ g s => Call.SetReputation b g s
  | Call.SetWeightThreshold _ t => Call.SetWeightThreshold b t
  | Call.SetVaultAddress _ v => Call.SetVaultAddress b v
  | Call.RegisterTask _ i => Call.RegisterTask b i
  | Call.CancelTask _ i => Call.CancelTask b i
  | Call.StartRewardStream _ d c i => Call.StartRewardStream b d c i
  | Call.ResetCircuitBreaker _ => Call.ResetCircuitBreaker b
  | c => c
  end.

Section control.
Context {Sto Wld : Type} `{!InstanceStorage Sto} `{!World Wld}.
Implicit Types (st : state Sto Wld) (cx : context).

#[global] Instance failure_count_proper : Proper (state_eq ==> eq) (@failure_count Sto Wld _).
Proof. intros st1 st2 Hs. unfold failure_count. by rewrite Hs. Qed.

#[global] Instance paused_proper : Proper (state_eq ==> eq) (@paused Sto Wld _).
Proof. intros st1 st2 Hs. unfold paused. by rewrite Hs. Qed.

(** ** The failure counter over repeated reports *)

(** The state after [n] reports: what [record_failure] computes one by one. *)
Fixpoint after_failures (n : nat) st : state Sto Wld :=
  match n with O => st | S n => after_failures n (after_failure st) end.

Definition is_trip (e : effect) : bool :=
  match e with Published ts _ => bool_decide (ts = ["cb_trip"%string]) | _ => false end.

Definition trips st : nat := length (filter is_trip (effects st)).

Lemma after_failure_count st : failure_count (after_failure st) = failure_count st + 1.
Proof.
  unfold after_failure. case_match; unfold failure_count at 1; simpl;
    [rewrite look_sset_ne by done|]; by rewrite (look_sset c_u32).
Qed.

Lemma after_failure_paused st :
  paused (after_failure st) = paused st || (FAILURE_THRESHOLD <? failure_count st + 1).
Proof.
  unfold after_failure. destruct (FAILURE_THRESHOLD <? _), (paused st) eqn:Hp; simpl;
    unfold paused in *; simpl; rewrite ?(look_sset c_bool), ?look_sset_ne by done; done.
Qed.

Lemma after_failure_trips st :
  trips (after_failure st) = Nat.add (trips st)
    (if (FAILURE_THRESHOLD <? failure_count st + 1)%Z && negb (paused st) then 1 else 0).
Proof.
  unfold after_failure, trips. destruct (_ && _); simpl; [|lia].
  by rewrite filter_app, length_app.
Qed.

Lemma after_failures_spec n st :
  failure_count (after_failures n st) = failure_count st + Z.of_nat n /\
  paused (after_failures n st) =
    paused st || ((0 <? Z.of_nat n) && (FAILURE_THRESHOLD <? failure_count st + Z.of_nat n)) /\
  trips (after_failures n st) = Nat.add (trips st)
    (if negb (paused st) && ((0 <? Z.of_nat n)%Z &&
       (FAILURE_THRESHOLD <? failure_count st + Z.of_nat n)%Z) then 1 else 0).
Proof.
  revert st. induction n as [|n IH]; intros st; cbn [after_failures].
  { rewrite Z.add_0_r. simpl. rewrite orb_false_r, andb_false_r. split_and!; lia || done. }
  destruct (IH (after_failure st)) as (-> & -> & ->).
  rewrite after_failure_count, after_failure_paused, after_failure_trips. split; [lia|].
  rewrite (proj2 (Z.ltb_lt 0 (Z.of_nat (S n)))) by lia.
  replace (failure_count st + 1 + Z.of_nat n) with (failure_count st + Z.of_nat (S n)) by lia.
  destruct (paused st); cbn; [by rewrite andb_false_r|].
  destruct (Z.ltb_spec FAILURE_THRESHOLD (failure_count st + 1)),
    (Z.ltb_spec FAILURE_THRESHOLD (failure_count st + Z.of_nat (S n))),
    (Z.ltb_spec 0 (Z.of_nat n)); cbn; try done; lia.
Qed.

Lemma after_failures_eq n st1 st2 :
  state_eq st1 st2 -> state_eq (after_failures n st1) (after_failures n st2).
Proof.
  revert st1 st2. induction n as [|n IH]; intros st1 st2 Heq; simpl; [done|].
  apply IH. unfold after_failure. rewrite (failure_count_proper _ _ Heq), (paused_proper _ _ Heq).
  destruct Heq as (Hs & Hw & He).
  case_match; unfold state_eq; simpl; rewrite Hw, He; (split; [by rewrite Hs|done]).
Qed.

Lemma reports_run cx n st :
  well_typed st -> failure_count st + Z.of_nat n <= u32_max ->
  invoke_all (replicate n (cx, Call.RecordFailure)) st = after_failures n st /\
  well_typed (after_failures n st).
Proof.
  revert st. induction n as [|n IH]; intros st Hwt Hn; [done|]. cbn [replicate invoke_all after_failures].
  assert (invoke cx Call.RecordFailure st = after_failure st) as ->.
  { unfold invoke. cbn [exec]. unfold record_failure. rewrite record_failure_run by done.
    by rewrite decide_True by lia. }
  apply IH; [|rewrite after_failure_count; lia].
  assert (0 <= failure_count st) as H0.
  { unfold failure_count. destruct (look c_u32 _ _) as [z|] eqn:E; [|done]. apply look_Some, Hwt in E.
    simpl in E. unfold in_u32 in E. simpl. lia. }
  unfold after_failure. case_match; repeat apply well_typed_log; repeat apply well_typed_set; try done;
    simpl; unfold in_u32; lia.
Qed.

(** ** Configuration *)

Lemma config_frame cx c st st' :
  well_typed st -> (forall tk thr, c <> Call.Initialize tk thr) -> commits cx c st st' ->
  initialized st' = initialized st /\ token_address st' = token_address st /\
  lock_threshold st' = lock_threshold st.
Proof.
  intros Hwt Hc Hcm. apply commits_typed in Hcm as [_ Hf]; [|done].
  unfold initialized, token_address, lock_threshold.
  split_and!; try (f_equal; apply look_frame, Hf); try (apply look_frame, Hf);
    destruct c; simpl; try solve_not_elem; by edestruct Hc.
Qed.

Lemma initialize_blocked cx tk thr st st' :
  well_typed st -> initialized st = true -> ~ commits cx (Call.Initialize tk thr) st st'.
Proof.
  intros Hwt Hi Hcm. eapply commits_spec in Hcm as (st1 & Hs & _); [|done].
  simpl in Hs. unfold initialize_spec in Hs. by rewrite Hi in Hs.
Qed.

(** ** Signatures *)

Lemma signed_alike cx a b (p : prog unit) st :
  authorized cx a = true -> authorized cx b = true ->
  run cx (require_auth a;; p) st = run cx (require_auth b;; p) st.
Proof. intros Ha Hb. by rewrite !run_bind, !run_auth, Ha, Hb. Qed.

Lemma guarded_alike cx (p q : prog unit) st :
  (forall st, run cx p st = run cx q st) ->
  run cx (require_not_paused;; p) st = run cx (require_not_paused;; q) st.
Proof. intros Hpq. rewrite !run_bind. by destruct (run cx require_not_paused st). Qed.

(** ** Properties *)

(** Without the signature of its signer no entry point does anything: it
    traps, or returns an error before its first effect; only [initialize],
    [archive_task] and [record_failure] need nobody's. *)
Theorem unsigned_call_does_nothing cx c a st :
  signer c = Some a -> authorized cx a = false ->
  match run cx (exec c) st with
  | Done _ _ => False
  | Failed _ st' => st' = st
  | Trapped _ => True
  end.
Proof. intros Hs Ha. by apply (auth_first_run a), Ha; apply exec_auth_first. Qed.

(** C37: the administrator is whoever signs as one.  No code stores or compares
    an administrator's address: an administrative call made as [b] instead of
    [a] ends in the same way, whenever both have signed. *)
Theorem any_signer_is_admin cx c a b st :
  admin_of c = Some a -> authorized cx a = true -> authorized cx b = true ->
  run cx (exec (as_admin b c)) st = run cx (exec c) st.
Proof.
  intros Hc Ha Hb.
  destruct c; simplify_eq/=; unfold exec, as_admin; try (by apply signed_alike);
    apply guarded_alike; intros st0; try (by apply signed_alike).
Qed.

(** Nothing ever writes the [Admin] key: in every reachable state
    [get_admin] answers [None]. *)
Theorem admin_never_set cx st :
  reachable st -> run cx get_admin st = Done None st.
Proof.
  intros Hr. pose proof (reachable_well_typed st Hr) as Hwt. unfold get_admin.
  assert (sget DataKey.Admin (storage st) = None) as Hn.
  { destruct (sget DataKey.Admin (storage st)) as [v|] eqn:E; [|done]. apply Hwt in E. by destruct v. }
  rewrite run_get; [unfold look; by rewrite Hn|]. intros v Hv. congruence.
Qed.

(** C30: a paused contract refuses every guarded call with [ContractPaused],
    before anything else is looked at. *)
Theorem pause_stops_guarded_calls cx c st :
  reachable st -> paused st = true -> guarded c = true ->
  run cx (exec c) st = Failed ContractError.ContractPaused st.
Proof.
  intros Hr Hp Hg. pose proof (reachable_well_typed st Hr) as Hwt.
  destruct c; try done; unfold exec, add_guardian, remove_guardian, set_reputation, register_task,
    cancel_task, vote, archive_task, start_reward_stream;
    by rewrite run_bind, require_not_paused_spec, Hp.
Qed.

(** A pause stops nothing else.  For the remaining calls the specified
    outcome does not depend on the pause flag: in particular the weight
    threshold and the vault address of a paused contract can be changed, and
    tokens locked and withdrawn. *)
Theorem pause_leaves_the_rest cx c st :
  reachable st -> call_wf c ->
  match c with
  | Call.SetWeightThreshold a _ | Call.SetVaultAddress a _ | Call.Pause a | Call.Unpause a
  | Call.TogglePause a | Call.ResetCircuitBreaker a =>
      authorized cx a = true -> exists st', run cx (exec c) st = Done tt st'
  | Call.LockTokens _ _ | Call.ResignGuardian _ | Call.UnlockTokens _ =>
      forall st', run cx (exec c) st <> Failed ContractError.ContractPaused st'
  | _ => True
  end.
Proof.
  intros Hr Hc. pose proof (exec_spec cx c st (reachable_well_typed st Hr) Hc) as H.
  destruct c; try done; revert H; unfold_spec; simpl;
    try (intros H Ha; rewrite Ha in H; destruct (run _ _ _) as [[]| |]; simpl in H; naive_solver);
    intros H st' Hrun; simpl in Hrun; rewrite Hrun in H;
    repeat (case_match; try done); naive_solver.
Qed.

(** C31: [n] failure reports in a row, on a contract that runs, stop it exactly
    when they bring the count above 50; the count is exact, and one [cb_trip]
    event is published however many reports follow. *)
Theorem breaker_trips_past_fifty cx n st :
  reachable st -> paused st = false -> 0 < Z.of_nat n ->
  failure_count st + Z.of_nat n <= u32_max ->
  let st' := invoke_all (replicate n (cx, Call.RecordFailure)) st in
  failure_count st' = failure_count st + Z.of_nat n /\
  (paused st' = true <-> 50 < failure_count st + Z.of_nat n) /\
  trips st' = Nat.add (trips st) (if (50 <? failure_count st + Z.of_nat n)%Z then 1 else 0).
Proof.
  intros Hr Hp Hn Hmax. cbv zeta. pose proof (reachable_well_typed st Hr) as Hwt.
  destruct (reports_run cx n st Hwt Hmax) as [-> _].
  destruct (after_failures_spec n st) as (-> & -> & ->). rewrite Hp. unfold FAILURE_THRESHOLD.
  rewrite (proj2 (Z.ltb_lt _ _) Hn). cbn [negb andb orb]. split; [done|]. by rewrite Z.ltb_lt.
Qed.

(** The token and the stake a vote requires are fixed by the first
    [initialize]: no later state has others, and no later [initialize]
    commits. *)
Theorem configuration_fixed st st' cx tk thr st2 :
  reachable st -> initialized st = true -> rtc step st st' ->
  token_address st' = token_address st /\ lock_threshold st' = lock_threshold st /\
  ~ commits cx (Call.Initialize tk thr) st' st2.
Proof.
  intros Hr Hi Hs.
  assert (reachable st' /\ initialized st' = true /\ token_address st' = token_address st /\
          lock_threshold st' = lock_threshold st) as (Hr' & Hi' & Ht & Hl).
  { induction Hs as [st|st st1 st' Hs Hss IH]; [done|].
    assert (Hr1 : reachable st1) by (by eapply reachable_step).
    pose proof (reachable_well_typed st Hr) as Hwt.
    assert (initialized st1 = initialized st /\ token_address st1 = token_address st /\
            lock_threshold st1 = lock_threshold st) as (Hi1 & Ht1 & Hl1).
    { destruct Hs as [cx' c st st1 Hcm|cx' c st Hno|w st]; [|done..].
      apply (config_frame cx' c); [done| |done]. intros tk' thr' ->. by eapply initialize_blocked. }
    destruct (IH Hr1) as (? & ? & ? & ?); [congruence|]. split_and!; congruence. }
  split_and!; [done..|]. apply initialize_blocked; [by apply reachable_well_typed|done].
Qed.

(** A call writes only the keys of its footprint and publishes only under
    its topics: in any reachable state everything else in the store is as it
    was. *)
Theorem call_stays_in_its_footprint cx c st st' :
  reachable st -> commits cx c st st' ->
  (forall k, k ∉ footprint c -> sget k (storage st') = sget k (storage st)) /\
  exists l, effects st' = effects st ++ l /\ Forall (has_topic (topics c)) l.
Proof.
  intros Hr Hcm. split; [|by eapply commits_log].
  intros k Hk. by eapply commits_frame.
Qed.

(** C24: the store is typed.  In every reachable state each entry holds a value of
    the Rust type its key is read at, within the ranges and with the facts that
    type carries (a task under its own identifier, an archived one resolved).  An
    entry point, whether it succeeds or fails, keeps it so, writes only the keys
    of its footprint, publishes only under its topics, and never traps on
    converting what it reads. *)
Theorem storage_types_hold cx c st :
  reachable st -> ctx_wf cx -> call_wf c ->
  (forall k v, sget k (storage st) = Some v -> val_ok k v) /\
  match run cx (exec c) st with
  | Done _ st' | Failed _ st' =>
      (forall k v, sget k (storage st') = Some v -> val_ok k v) /\
      (forall k, k ∉ footprint c -> sget k (storage st') = sget k (storage st)) /\
      exists l, effects st' = effects st ++ l /\ Forall (has_topic (topics c)) l
  | Trapped r => r <> ConversionFailure
  end.
Proof.
  intros Hr Hcx Hc. pose proof (reachable_well_typed st Hr) as Hwt. split; [exact Hwt|].
  pose proof (typed_run (footprint c) cx (exec c) st Hcx Hwt (exec_typed c Hc)) as H.
  pose proof (fun st' => publishes_log _ cx (exec c) st st' (exec_publishes c)) as Hp.
  destruct (run cx (exec c) st) as [u st'|e st'|r]; [..|exact H];
    (destruct H as [H1 H2]; split; [exact H1|split; [exact H2|by apply Hp]]).
Qed.

End control.

(** ** Witnesses *)

Lemma storage_types_hold_witness : in_u64 13 /\ well_typed (scene 12).
Proof.
  assert (ctx_wf (at_time 13)) as Hcx by by_eval.
  assert (call_wf (Call.ArchiveTask 1)) as Hc by by_eval.
  pose proof (storage_types_hold (at_time 13) (Call.ArchiveTask 1) (scene 12) (scene_reachable 12) Hcx Hc) as [H _].
  split; [exact Hcx|exact H].
Defined.

Lemma unsigned_call_does_nothing_witness :
  match run (unsigned 20) (exec (Call.Vote guardian1 1)) (scene 10) with
  | Done _ _ => False
  | Failed _ st' => st' = scene 10
  | Trapped _ => True
  end.
Proof.
  pose proof (unsigned_call_does_nothing (unsigned 20) (Call.Vote guardian1 1) guardian1 (scene 10)
    eq_refl eq_refl) as H. exact H.
Defined.

(** A guardian's own signature raises his own weight. *)
Lemma any_signer_is_admin_witness :
  run (at_time 20) (exec (Call.SetReputation guardian1 guardian1 1000)) (scene 10) =
  run (at_time 20) (exec (Call.SetReputation admin guardian1 1000)) (scene 10).
Proof.
  pose proof (any_signer_is_admin (at_time 20) (Call.SetReputation admin guardian1 1000) admin guardian1
    (scene 10) eq_refl eq_refl eq_refl) as H.
  cbn [as_admin] in H. exact H.
Defined.

Lemma admin_never_set_witness : run (at_time 20) get_admin (scene 10) = Done None (scene 10).
Proof. exact (admin_never_set (at_time 20) (scene 10) (scene_reachable 10)). Defined.

Definition paused_calls : list (context * Call) := take 10 script ++ [(at_time 11, Call.Pause admin)].

Definition paused_scene : sample_state := invoke_all paused_calls (deployed w0).

Lemma paused_reachable : reachable paused_scene.
Proof. apply reachable_invoke_all; [by_eval | apply reachable_deployed]. Qed.

Lemma pause_stops_guarded_calls_witness :
  run (at_time 20) (exec (Call.Vote guardian1 1)) paused_scene =
    Failed ContractError.ContractPaused paused_scene.
Proof.
  apply (pause_stops_guarded_calls (at_time 20) (Call.Vote guardian1 1) paused_scene paused_reachable);
    [vm_compute; reflexivity | reflexivity].
Defined.

Lemma pause_leaves_the_rest_witness :
  paused paused_scene = true /\
  exists st', run (at_time 20) (exec (Call.SetWeightThreshold admin 1)) paused_scene = Done tt st'.
Proof.
  split; [vm_compute; reflexivity|].
  exact (pause_leaves_the_rest (at_time 20) (Call.SetWeightThreshold admin 1) paused_scene paused_reachable
    ltac:(by_eval) eq_refl).
Defined.

Lemma breaker_trips_past_fifty_witness :
  let st' := invoke_all (replicate 51 (at_time 20, Call.RecordFailure)) (scene 10) in
  failure_count st' = failure_count (scene 10) + 51 /\
  (paused st' = true <-> 50 < failure_count (scene 10) + 51) /\
  trips st' = Nat.add (trips (scene 10)) (if (50 <? failure_count (scene 10) + 51)%Z then 1 else 0).
Proof.
  apply (breaker_trips_past_fifty (at_time 20) 51 (scene 10) (scene_reachable 10));
    [vm_compute; reflexivity | by_eval | by_eval].
Defined.

Lemma configuration_fixed_witness :
  ~ exists st2, commits (at_time 20) (Call.Initialize guardian1 0) (scene 10) st2.
Proof.
  intros [st2 H]. revert H.
  exact (proj2 (proj2 (configuration_fixed (scene 10) (scene 10) (at_time 20) guardian1 0 st2
    (scene_reachable 10) ltac:(vm_compute; reflexivity) (rtc_refl step (scene 10))))).
Defined.

Lemma call_stays_in_its_footprint_witness :
  sget DataKey.WeightThreshold (storage (scene 12)) = sget DataKey.WeightThreshold (storage (scene 11)).
Proof.
  refine (proj1 (call_stays_in_its_footprint (at_time 12) (Call.Vote guardian2 1) (scene 11) (scene 12)
    (scene_reachable 11) _) DataKey.WeightThreshold _); [apply (scene_commits 11); reflexivity | by_eval].
Defined.
