(* ===== verification/Custody.v ===== *)
(** * Custody of tokens and calls to other contracts

    What each entry point asks of the token, the vault and the drips contract
    ([external_calls]); and, for any token that keeps its books
    ([TokenLedger]), that the contract's own balance covers everything it owes
    its guardians, so that nothing but the token itself stands between a guardian
    and a refund. *)

From stdpp Require Import prelude gmap list strings relations.
From Stdlib Require Import ZArith Lia Morphisms.
From S2P Require Import Prelude.
From S2P Require Import Types.
From S2P Require Import Host.
From S2P Require Import Logic.
From S2P Require Import Frame.
From S2P Require Import Typing.
From S2P Require Import SampleHost.
From S2P Require Import Reentrancy.
From S2P Require Import Guardian.
From S2P Require Import CircuitBreaker.
From S2P Require Import Storage.
From S2P Require Import Tasks.
From S2P Require Import Drips.
From S2P Require Import Contract.
From S2P Require Import VoteSpec.
From S2P Require Import System.
From S2P Require Import SampleRun.
From S2P Require Import Spec.
From S2P Require Import Commits.
From S2P Require Import Lifecycle.
From S2P Require Import Control.

(** ** Calls to other contracts *)

Section calls.
Context {Sto Wld : Type} `{!InstanceStorage Sto} `{!World Wld}.
Implicit Types (st : state Sto Wld) (cx : context).

Definition calls_out (c : Call) : bool :=
  match c with
  | Call.LockTokens _ _ | Call.ResignGuardian _ | Call.UnlockTokens _ | Call.Vote _ _
  | Call.StartRewardStream _ _ _ _ => true
  | _ => false
  end.

Lemma spec_world cx c st st1 :
  calls_out c = false -> spec cx c st = Done tt st1 -> world st1 = world st.
Proof.
  unfold_spec. destruct c; try done; intros _ H; repeat first [progress simplify_eq/= | case_match];
    try done; unfold guardian_added, after_failure; repeat case_match; done.
Qed.

(** The world after a committed call: the calls that were made to it. *)
Definition world_after cx (c : Call) st (w : Wld) : Prop :=
  match c with
  | Call.LockTokens g n =>
      exists tk, token_address st = Some tk /\
        token_transfer tk g (self_address cx) n (world st) = Some w
  | Call.ResignGuardian g | Call.UnlockTokens g =>
      exists tk, token_address st = Some tk /\
        (if 0 <? locked_balance st g
         then token_transfer tk (self_address cx) g (locked_balance st g) (world st) = Some w
         else w = world st)
  | Call.Vote g i =>
      exists wt t, reputation st g = Some wt /\ active_task st i = Some t /\
        (if reaches st wt t
         then match vault st with Some v => release_funds v i (world st) = Some w | None => w = world st end
         else w = world st)
  | Call.StartRewardStream _ d b i =>
      invoke_contract d "start_stream" [VAddress b; VU64 i; VU32 1] (world st) = Some w
  | _ => w = world st
  end.

Lemma commits_world cx c st st' :
  well_typed st -> commits cx c st st' -> world_after cx c st (world st').
Proof.
  intros Hwt Hcm. destruct (calls_out c) eqn:Hc; last first.
  { assert (world st' = world st) as Hw.
    { eapply commits_spec in Hcm as (st1 & Hs & _ & -> & _); [|done]. by eapply spec_world. }
    destruct c; done. }
  destruct c; try done; simpl.
  - apply lock_tokens_commit in Hcm as (_ & _ & tk & Htk & Ht & _); eauto.
  - eapply refund_commit in Hcm as (_ & _ & _ & tk & Htk & Hw); [|done..].
    exists tk. split; [done|]. destruct (Z.ltb_spec 0 (locked_balance st guardian)); [|intuition lia].
    destruct Hw as [[? _]|[_ [Hw _]]]; [lia|done].
  - eapply refund_commit in Hcm as (_ & _ & _ & tk & Htk & Hw); [|done..].
    exists tk. split; [done|]. destruct (Z.ltb_spec 0 (locked_balance st guardian)); [|intuition lia].
    destruct Hw as [[? _]|[_ [Hw _]]]; [lia|done].
  - apply vote_commit in Hcm as (_ & _ & _ & w & t & Hck & _ & _ & _ & Hw); [|done].
    apply vote_check_inr in Hck as (_ & _ & _ & _ & Hr & _ & Ht & _). by exists w, t.
  - by apply stream_commit in Hcm as (_ & _ & t & _ & _ & _ & _ & Hw & _).
Qed.

(** C27: the only calls that reach another contract are these: locking and
    refunding move the guardian's tokens, a vote asks the vault to pay exactly
    when it brings the task to its threshold, and starting a stream calls the
    drips contract; each at most once, and no other entry point calls
    anything. *)
Theorem external_calls cx c st st' :
  reachable st -> commits cx c st st' -> world_after cx c st (world st').
Proof. intros Hr. apply commits_world. by apply reachable_well_typed. Qed.

(** A vote that passes the checks is accepted, if the vault it may have to ask pays. *)
Lemma vote_accepted cx g i st w t :
  reachable st -> paused st = false -> authorized cx g = true -> vote_check g i st = inr (w, t) ->
  Task.votes t < u32_max ->
  (reaches st w t = true -> forall v, vault st = Some v -> release_funds v i (world st) <> None) ->
  exists st1, spec cx (Call.Vote g i) st = Done tt st1.
Proof.
  intros Hr Hp Ha Hck Hv Hrel. pose proof (reachable_well_typed st Hr) as Hwt.
  pose proof (vote_check_inr g i st w t Hck) as (_ & _ & _ & _ & _ & _ & Ht & _).
  destruct (active_task_ok st i t Hwt Ht) as (_ & Hvr & _).
  simpl. unfold vote_spec. rewrite Hp, Ha, (lock_free st Hr), Hck. simpl.
  rewrite decide_True by (unfold in_u32 in *; lia). unfold reaches in Hrel. simpl in *.
  destruct (_ <=? _); [|by eexists]. destruct (vault st) as [v|]; [|by eexists].
  specialize (Hrel eq_refl v eq_refl). destruct (release_funds v i (world st)); [by eexists|done].
Qed.

(** C29: an admissible vote goes through: a guardian who passes the checks, on a
    task whose counter is not full, votes successfully, unless the threshold is
    reached and a configured vault refuses to pay. *)
Theorem admissible_vote_commits cx g i st w t :
  reachable st -> ctx_wf cx -> in_u64 i ->
  paused st = false -> authorized cx g = true -> vote_check g i st = inr (w, t) ->
  Task.votes t < u32_max ->
  (reaches st w t = true -> forall v, vault st = Some v -> release_funds v i (world st) <> None) ->
  exists st', commits cx (Call.Vote g i) st st' /\
    active_task st' i = Some (vote_result cx st w t).
Proof.
  intros Hr Hcx Hi Hp Ha Hck Hv Hrel. pose proof (reachable_well_typed st Hr) as Hwt.
  destruct (vote_accepted cx g i st w t) as [st1 Hs]; [done..|].
  destruct (spec_commits cx (Call.Vote g i) st st1 Hwt Hcx Hi Hs) as (st' & Hcm & _). exists st'. split; [done|].
  apply vote_commit in Hcm as (_ & _ & _ & w' & t' & Hck' & _ & Hst & _); [|done].
  rewrite Hck in Hck'. simplify_eq. unfold active_task. rewrite Hst. apply (look_sset c_Task).
Qed.

(** C36: the payment is not tied to the resolution.  On a task that is resolved
    already, a vote that passes the checks asks the vault for the same task's funds
    once more, exactly when the accrued weight with this vote still reaches the
    threshold of the day.  If the vault pays again, the vote commits and the task is
    announced as resolved again, at the time of this vote; if it refuses, the vote
    fails with [EscrowUnavailable].  Below a threshold that was raised in the
    meantime, the vote commits and the vault is not asked. *)
Theorem resolved_task_pays_again cx g i st w t v :
  reachable st -> ctx_wf cx -> in_u64 i ->
  paused st = false -> authorized cx g = true -> vote_check g i st = inr (w, t) ->
  Task.votes t < u32_max -> Task.is_done t = true -> vault st = Some v ->
  if weight_threshold st <=? Task.total_weight_accrued t + w then
    match release_funds v i (world st) with
    | Some paid =>
        exists st' t', commits cx (Call.Vote g i) st st' /\ world st' = paid /\
          active_task st' i = Some t' /\ Task.is_done t' = true /\ Task.resolved_at t' = timestamp cx /\
          resolved_event i (Task.total_weight_accrued t') ∈ drop (length (effects st)) (effects st')
    | None => exists st', run cx (exec (Call.Vote g i)) st = Failed ContractError.EscrowUnavailable st'
    end
  else
    exists st' t', commits cx (Call.Vote g i) st st' /\ world st' = world st /\
      active_task st' i = Some t' /\ Task.is_done t' = true /\ Task.resolved_at t' = Task.resolved_at t.
Proof.
  intros Hr Hcx Hi Hp Ha Hck Hn Hd Hv. pose proof (reachable_well_typed st Hr) as Hwt.
  fold (reaches st w t).
  assert ((reaches st w t = true -> release_funds v i (world st) <> None) ->
    exists st', commits cx (Call.Vote g i) st st' /\ active_task st' i = Some (vote_result cx st w t) /\
      effects st' = effects st ++
        (if reaches st w t then [resolved_event i (Task.total_weight_accrued t + w)] else []) ++ [vote_event i g w] /\
      if reaches st w t then release_funds v i (world st) = Some (world st') else world st' = world st) as Hgo.
  { intros Hrel. destruct (vote_accepted cx g i st w t) as [st1 Hs]; [naive_solver..|].
    destruct (spec_commits cx (Call.Vote g i) st st1 Hwt Hcx Hi Hs) as (st' & Hcm & _). exists st'. split; [done|].
    apply vote_commit in Hcm as (_ & _ & _ & w' & t' & Hck' & _ & Hst & He & Hw); [|done].
    rewrite Hck in Hck'. simplify_eq. rewrite Hv in Hw. split_and!; [|done..].
    unfold active_task. rewrite Hst. apply (look_sset c_Task). }
  unfold vote_result in Hgo. destruct (reaches st w t) eqn:Hre.
  - destruct (release_funds v i (world st)) as [paid|] eqn:Hp2.
    + destruct Hgo as (st' & Hcm & Ht & He & [= ->]); [done|]. exists st', (resolved_task (timestamp cx) (voted_task w t)).
      rewrite He, drop_app_length. split_and!; [done..|]. set_solver.
    + pose proof (exec_spec cx (Call.Vote g i) st Hwt Hi) as H. simpl in H. unfold vote_spec in H.
      pose proof (vote_check_inr g i st w t Hck) as (_ & _ & _ & _ & _ & _ & Ht & _).
      destruct (active_task_ok st i t Hwt Ht) as (_ & Hvr & _).
      rewrite Hp, Ha, (lock_free st Hr), Hck, decide_True in H by (unfold in_u32 in *; lia).
      unfold reaches in Hre. simpl in H. rewrite Hre, Hv, Hp2 in H.
      destruct (run cx (vote g i) st) eqn:E; simpl in H; [done| |done]. destruct H as [-> _]. by eexists.
  - destruct Hgo as (st' & Hcm & Ht & _ & Hw); [done|]. by exists st', (voted_task w t).
Qed.

End calls.

(** ** Tokens that keep their books *)

(** What the contract relies on of the token, the vault and the drips contract:
    a transfer that succeeds moves a non-negative amount that the payer has, and
    moves it from and to the two parties only; the other contracts cannot spend
    this contract's tokens, which it never approves.  A token may refuse a
    transfer for reasons of its own. *)
Class TokenLedger (Wld : Type) `{!World Wld} (self : Address) := {
  balance : Address -> Address -> Wld -> Z;
  transfer_spec tk from to n w w' :
    token_transfer tk from to n w = Some w' ->
    0 <= n <= balance tk from w /\
    forall tk' a, balance tk' a w' =
      balance tk' a w - (if decide (tk' = tk /\ a = from) then n else 0)
                      + (if decide (tk' = tk /\ a = to) then n else 0);
  release_keeps v i w w' tk :
    release_funds v i w = Some w' -> balance tk self w <= balance tk self w';
  invoke_keeps c fn args w w' tk :
    invoke_contract c fn args w = Some w' -> balance tk self w <= balance tk self w';
}.

(** Sums of a function over a list of guardians. *)
Definition total_of (f : Address -> Z) (gs : list Address) : Z := foldr (fun g n => f g + n) 0 gs.

Lemma total_of_ext f f' gs : (forall g, g ∈ gs -> f g = f' g) -> total_of f gs = total_of f' gs.
Proof.
  intros H. induction gs as [|g gs IH]; [done|]. simpl. rewrite (H g) by set_solver.
  rewrite IH; [done|]. intros g' Hg'. apply H. set_solver.
Qed.

Lemma total_of_change f f' gs g :
  NoDup gs -> (forall g', g' <> g -> f' g' = f g') ->
  total_of f' gs = total_of f gs + (if decide (g ∈ gs) then f' g - f g else 0).
Proof.
  intros Hnd Hf. induction Hnd as [|x gs Hx Hnd IH]; simpl; [done|]. destruct (decide (x = g)) as [->|Hne].
  - rewrite decide_True by set_solver. rewrite (total_of_ext f' f); [lia|].
    intros g' Hg'. apply Hf. by intros ->.
  - rewrite Hf, IH by done. destruct (decide (g ∈ gs)); [rewrite decide_True by set_solver; lia|].
    rewrite decide_False by set_solver. lia.
Qed.

Lemma total_of_zero f gs : (forall g, f g = 0) -> total_of f gs = 0.
Proof. intros Hf. induction gs as [|g gs IH]; simpl; [done|]. rewrite Hf. lia. Qed.

Section custody.
Context {Sto Wld : Type} `{!InstanceStorage Sto} `{!World Wld} (self : Address) `{!TokenLedger Wld self}.
Implicit Types (st : state Sto Wld) (cx : context).

(** A transaction of the deployed contract: it runs at the contract's own
    address, which signs for no one, and between transactions nobody else spends
    the contract's tokens. *)
Inductive custody_step : state Sto Wld -> state Sto Wld -> Prop :=
| custody_commit cx c st st' :
    self_address cx = self -> authorized cx self = false ->
    commits cx c st st' -> custody_step st st'
| custody_world w st :
    (forall tk, balance tk self (world st) <= balance tk self w) ->
    custody_step st (with_world w st).

Definition in_custody st : Prop :=
  exists w, (forall tk, 0 <= balance tk self w) /\ rtc custody_step (deployed w) st.

Lemma custody_step_step st st' : custody_step st st' -> step st st'.
Proof. destruct 1; [by eapply step_commit|apply step_world]. Qed.

Lemma in_custody_reachable st : in_custody st -> reachable st.
Proof.
  intros (w & _ & Hs). exists w. induction Hs as [|st1 st2 st3 Hs Hss IH]; [done|].
  eapply rtc_l; [by apply custody_step_step|done].
Qed.

(** The contract's debts never exceed its balance of the token it holds. *)
Record solvent st : Prop := {
  sv_nonneg g : 0 <= locked_balance st g;
  sv_empty : token_address st = None -> forall g, locked_balance st g = 0;
  sv_init : is_Some (token_address st) -> initialized st = true;
  sv_covered tk gs :
    token_address st = Some tk \/ token_address st = None -> NoDup gs ->
    total_of (locked_balance st) gs <= balance tk self (world st);
}.

Lemma locked_frame cx c st st' g :
  well_typed st -> DataKey.LockedBalance g ∉ footprint c -> commits cx c st st' ->
  locked_balance st' g = locked_balance st g.
Proof.
  intros Hwt Hk Hcm. apply commits_typed in Hcm as [_ Hf]; [|done].
  unfold locked_balance. f_equal. by apply look_frame, Hf.
Qed.

Lemma token_frame cx c st st' :
  well_typed st -> (forall tk thr, c <> Call.Initialize tk thr) -> commits cx c st st' ->
  token_address st' = token_address st /\ initialized st' = initialized st.
Proof.
  intros Hwt Hc Hcm. apply commits_typed in Hcm as [_ Hf]; [|done].
  unfold initialized, token_address. split; [|f_equal]; apply look_frame, Hf;
    destruct c; simpl; try solve_not_elem; by edestruct Hc.
Qed.

(** Nobody's debt changes and the balance does not shrink. *)
Lemma solvent_same st st' :
  solvent st ->
  (forall g, locked_balance st' g = locked_balance st g) ->
  token_address st' = token_address st /\ initialized st' = initialized st ->
  (forall tk, balance tk self (world st) <= balance tk self (world st')) ->
  solvent st'.
Proof.
  intros [H1 H2 H3 H4] Hl [Ht Hi] Hb. split.
  - intros g. by rewrite Hl.
  - rewrite Ht. intros Hn g. rewrite Hl. by apply H2.
  - by rewrite Ht, Hi.
  - rewrite Ht. intros tk gs Htk Hnd. rewrite (total_of_ext _ (locked_balance st)) by (intros; apply Hl).
    etrans; [by apply H4|done].
Qed.

(** One guardian's debt changes along with the balance. *)
Lemma solvent_change st st' tk g d :
  solvent st -> token_address st = Some tk ->
  token_address st' = token_address st /\ initialized st' = initialized st ->
  locked_balance st' g = locked_balance st g + d ->
  (forall g', g' <> g -> locked_balance st' g' = locked_balance st g') ->
  balance tk self (world st') = balance tk self (world st) + d ->
  0 <= d \/ d = - locked_balance st g ->
  solvent st'.
Proof.
  intros [H1 H2 H3 H4] Htk [Ht Hi] Hg Ho Hb Hd. split.
  - intros g'. destruct (decide (g' = g)) as [->|Hne]; [|by rewrite Ho].
    pose proof (H1 g). lia.
  - rewrite Ht. congruence.
  - by rewrite Ht, Hi.
  - rewrite Ht. intros tk' gs [Htk'|Htk'] Hnd; [|congruence]. assert (tk' = tk) as -> by congruence.
    rewrite (total_of_change (locked_balance st) _ gs g Hnd Ho). rewrite Hb, Hg.
    case_decide as Hin.
    + pose proof (H4 tk gs (or_introl Htk) Hnd). lia.
    + pose proof (H4 tk gs (or_introl Htk) Hnd).
      pose proof (H4 tk (g :: gs) (or_introl Htk) ltac:(by constructor)) as Hc. simpl in Hc. lia.
Qed.

Lemma solvent_deployed w : (forall tk, 0 <= balance tk self w) -> solvent (deployed (Sto := Sto) w).
Proof.
  intros Hb. assert (forall g, locked_balance (deployed (Sto := Sto) w) g = 0) as H0.
  { intros g. unfold locked_balance. by rewrite look_deployed. }
  split.
  - intros g. by rewrite H0.
  - intros _ g. apply H0.
  - unfold token_address. rewrite look_deployed. by intros [].
  - intros tk gs _ _. rewrite total_of_zero; [apply Hb|apply H0].
Qed.

Lemma solvent_initialize cx tk thr st st' :
  well_typed st -> solvent st -> commits cx (Call.Initialize tk thr) st st' -> solvent st'.
Proof.
  intros Hwt Hsv Hcm.
  assert (initialized st = false) as Hi.
  { apply not_true_is_false. intros Hi. by eapply initialize_blocked. }
  destruct Hsv as [H1 H2 H3 H4].
  assert (token_address st = None) as Ht.
  { destruct (token_address st); [|done]. rewrite H3 in Hi by eauto. done. }
  assert (Hl : forall g, locked_balance st' g = 0).
  { intros g. rewrite (locked_frame cx (Call.Initialize tk thr) st st'); [by apply H2|done|simpl; solve_not_elem|done]. }
  pose proof (commits_world cx _ st st' Hwt Hcm) as Hw. simpl in Hw.
  assert (initialized st' = true) as Hi'.
  { eapply commits_spec in Hcm as (st1 & Hs & Heq); [|done]. simpl in Hs. unfold initialize_spec in Hs.
    rewrite Hi in Hs. simplify_eq. unfold initialized. rewrite Heq. unfold put. simpl.
    rewrite !look_sset_ne by done. by rewrite (look_sset c_bool). }
  split.
  - intros g. by rewrite Hl.
  - intros _ g. apply Hl.
  - done.
  - intros tk' gs _ Hnd. rewrite total_of_zero by done. rewrite Hw.
    pose proof (H4 tk' [] (or_intror Ht) ltac:(constructor)). done.
Qed.

Lemma solvent_lock cx g n st st' :
  well_typed st -> self_address cx = self -> authorized cx self = false ->
  solvent st -> commits cx (Call.LockTokens g n) st st' -> solvent st'.
Proof.
  intros Hwt Hself Ha Hsv Hcm. pose proof Hcm as Hcm0.
  apply lock_tokens_commit in Hcm as (Hg & _ & tk & Htk & Ht & _ & Hs); [|done].
  assert (g <> self) by congruence. rewrite Hself in Ht.
  apply transfer_spec in Ht as [Hn Hb].
  apply (solvent_change st st' tk g n); try done.
  - by apply (token_frame cx (Call.LockTokens g n)).
  - unfold locked_balance at 1. rewrite Hs. by rewrite (look_sset c_i128).
  - intros g' Hne. unfold locked_balance. rewrite Hs. by rewrite look_sset_ne by congruence.
  - rewrite Hb. rewrite decide_False by naive_solver. rewrite decide_True by done. lia.
  - lia.
Qed.

Lemma solvent_refund cx c g st st' :
  refunds c = Some g -> well_typed st -> self_address cx = self -> authorized cx self = false ->
  solvent st -> commits cx c st st' -> solvent st'.
Proof.
  intros Hc Hwt Hself Ha Hsv Hcm. pose proof Hcm as Hcm0.
  assert (Ho : forall g', g' <> g -> locked_balance st' g' = locked_balance st g').
  { intros g' Hne. apply (locked_frame cx c); [done| |done]. destruct c; simplify_eq/=; solve_not_elem. }
  assert (Htf : token_address st' = token_address st /\ initialized st' = initialized st).
  { apply (token_frame cx c); [done| |done]. by intros tk thr ->. }
  eapply refund_commit in Hcm as (Hg & _ & _ & tk & Htk & Hw); [|done..].
  destruct Hw as [(Hz & Hw & Hl)|(Hpos & Ht & Hl)].
  - apply (solvent_same st); try done; [|by rewrite Hw]. intros g'.
    destruct (decide (g' = g)) as [->|]; [|by apply Ho].
    unfold locked_balance. by rewrite (look_frame c_i128 _ _ _ Hl).
  - assert (g <> self) by congruence. rewrite Hself in Ht. apply transfer_spec in Ht as [Hn Hb].
    apply (solvent_change st st' tk g (- locked_balance st g)); try done.
    + unfold locked_balance at 1, look. rewrite Hl. simpl. lia.
    + rewrite Hb. rewrite decide_True by done. rewrite decide_False by naive_solver. lia.
    + by right.
Qed.

Lemma custody_step_solvent st st' :
  reachable st -> custody_step st st' -> solvent st -> solvent st'.
Proof.
  intros Hr Hs Hsv. destruct Hs as [cx c st st' Hself Ha Hcm|w st Hb]; [|by apply (solvent_same st)].
  pose proof (reachable_well_typed st Hr) as Hwt.
  pose proof (commits_world cx c st st' Hwt Hcm) as Hw.
  destruct c; simpl in Hw;
    try (eapply solvent_initialize; eassumption);
    try (by eapply solvent_lock; eassumption);
    try (eapply (solvent_refund cx); [|eassumption..]; reflexivity);
    (apply (solvent_same st);
      [done
      |intros g; eapply locked_frame; [done| |done]; simpl; solve_not_elem
      |eapply token_frame; [done| |done]; intros ? ?; congruence
      |intros tk]); try (by rewrite Hw).
  - destruct Hw as (wt & t & _ & _ & Hw). destruct (reaches st wt t), (vault st);
      try (by rewrite Hw). by eapply release_keeps.
  - by eapply invoke_keeps.
Qed.

Lemma in_custody_solvent st : in_custody st -> solvent st.
Proof.
  intros (w & Hb & Hs).
  assert (forall st1, reachable st1 -> solvent st1 -> rtc custody_step st1 st -> solvent st) as H;
    [|apply (H (deployed w)); [apply reachable_deployed|by apply solvent_deployed|done]].
  clear w Hb Hs. intros st1 Hr Hsv Hs. induction Hs as [|st1 st2 st3 Hs Hss IH]; [done|].
  apply IH; [by eapply reachable_step, custody_step_step|by eapply custody_step_solvent].
Qed.

(** Calls made at the contract's address, which signs none of them. *)
Definition outside_calls (l : list (context * Call)) : Prop :=
  Forall (fun x => self_address x.1 = self /\ authorized x.1 self = false) l.

Lemma in_custody_invoke_all l st :
  calls_wf l -> outside_calls l -> in_custody st -> in_custody (invoke_all l st).
Proof.
  revert st. induction l as [|[cx c] l IH]; intros st Hl Ho Hst; [done|].
  apply Forall_cons in Hl as [[Hcx Hc] Hl]. apply Forall_cons in Ho as [[Hs Ha] Ho]. simpl in *.
  apply IH; [done..|]. unfold invoke.
  destruct (run cx (exec c) st) as [[] st'|e st'|r] eqn:E; [|done..].
  destruct Hst as (w & Hb & Hr). exists w. split; [done|]. eapply rtc_r; [done|].
  by apply (custody_commit cx c).
Qed.

Lemma in_custody_deployed w :
  (forall tk, 0 <= balance tk self w) -> in_custody (deployed w).
Proof. intros Hb. by exists w. Qed.

(** The contract is solvent: whatever guardians lock, withdraw and resign
    with, in whatever order, the tokens it holds always cover all the locked
    balances together, and no locked balance is negative. *)
Theorem locked_balances_covered st tk gs :
  in_custody st -> token_address st = Some tk -> NoDup gs ->
  total_of (locked_balance st) gs <= balance tk self (world st) /\
  forall g, 0 <= locked_balance st g.
Proof.
  intros Hc Htk Hnd. destruct (in_custody_solvent st Hc) as [H1 _ _ H4].
  split; [apply H4; auto|done].
Qed.

(** The call that takes a guardian's deposit back. *)
Definition way_out st (g : Address) : Call :=
  if registered st g then Call.ResignGuardian g else Call.UnlockTokens g.

Lemma way_out_refunds st g : refunds (way_out st g) = Some g /\ call_wf (way_out st g).
Proof. unfold way_out. by destruct (registered st g). Qed.

(** It ends as the token's transfer does. *)
Lemma way_out_spec cx g st tk :
  token_address st = Some tk -> authorized cx g = true -> self_address cx = self ->
  if 0 <? locked_balance st g then
    match token_transfer tk self g (locked_balance st g) (world st) with
    | Some _ => exists st1, spec cx (way_out st g) st = Done tt st1
    | None => spec cx (way_out st g) st = Trapped (CallFailure tk)
    end
  else exists st1, spec cx (way_out st g) st = Done tt st1.
Proof.
  intros Htk Ha <-. unfold way_out.
  destruct (registered st g) eqn:Hg; simpl;
    unfold signed, resign_spec, unlock_tokens_spec, with_token, refund_spec; rewrite Ha, Htk, Hg.
  - assert (locked_balance (put (DataKey.Guardian g) (VBool false) st) g = locked_balance st g) as ->
      by (unfold locked_balance; simpl; by rewrite look_sset_ne).
    simpl. destruct (0 <? _); [|by eexists]. destruct (token_transfer _ _ _ _ _); [by eexists|done].
  - destruct (0 <? _); [|by eexists]. destruct (token_transfer _ _ _ _ _); [by eexists|done].
Qed.

(** What is left to the token for a refund to go through. *)
Definition token_pays tk g st : Prop :=
  locked_balance st g = 0 \/ is_Some (token_transfer tk self g (locked_balance st g) (world st)).

Lemma covered st g tk :
  in_custody st -> token_address st = Some tk -> 0 <= locked_balance st g <= balance tk self (world st).
Proof.
  intros Hc Htk. destruct (in_custody_solvent st Hc) as [H1 _ _ H4]. split; [done|].
  pose proof (H4 tk [g] (or_introl Htk) ltac:(apply NoDup_singleton)) as H. simpl in H. lia.
Qed.

(** A guardian's withdrawal. *)
Lemma refund_goes_through cx g st tk :
  in_custody st -> token_address st = Some tk ->
  ctx_wf cx -> self_address cx = self -> authorized cx g = true -> g <> self -> token_pays tk g st ->
  exists st', commits cx (way_out st g) st st' /\
    locked_balance st' g = 0 /\
    balance tk g (world st') = balance tk g (world st) + locked_balance st g.
Proof.
  intros Hc Htk Hcx Hself Ha Hne Hpay. pose proof (in_custody_reachable st Hc) as Hr.
  pose proof (reachable_well_typed st Hr) as Hwt. pose proof (covered st g tk Hc Htk) as [H1 _].
  destruct (way_out_refunds st g) as [Hrf Hcw].
  assert (exists st1, spec cx (way_out st g) st = Done tt st1) as [st1 Hs].
  { pose proof (way_out_spec cx g st tk Htk Ha Hself) as H. destruct (Z.ltb_spec 0 (locked_balance st g)); [|done].
    destruct Hpay as [?|[w Hw]]; [lia|]. by rewrite Hw in H. }
  destruct (spec_commits cx (way_out st g) st st1 Hwt Hcx Hcw Hs) as (st' & Hcm & _).
  exists st'. split; [done|].
  eapply refund_commit in Hcm as (_ & _ & _ & tk' & Htk' & Hw); [|done..].
  assert (tk' = tk) as -> by congruence.
  destruct Hw as [(Hz & -> & Hl)|(Hpos & Ht & Hl)].
  - unfold locked_balance at 1. rewrite (look_frame c_i128 _ _ _ Hl). fold (locked_balance st g). lia.
  - rewrite Hself in Ht. apply transfer_spec in Ht as [_ Hb]. rewrite Hb.
    rewrite decide_False by naive_solver. rewrite decide_True by done.
    unfold locked_balance at 1, look. rewrite Hl. simpl. lia.
Qed.

(** C18: nothing but the token stands between a guardian and the deposit.  The
    contract always holds at least what it owes.  A guardian's own call,
    [resign_guardian] while registered and [unlock_tokens] otherwise, takes the
    deposit out, paused or not and whatever the administrators do: it commits,
    pays the whole locked balance and leaves none, if there is nothing to pay or the
    token carries out the transfer of that balance; and if the token refuses the
    transfer, which it may for reasons of its own, the call traps in the token and
    nowhere else. *)
Theorem refund_needs_only_the_token cx g st tk :
  in_custody st -> token_address st = Some tk ->
  ctx_wf cx -> self_address cx = self -> authorized cx g = true -> g <> self ->
  let c := if registered st g then Call.ResignGuardian g else Call.UnlockTokens g in
  0 <= locked_balance st g <= balance tk self (world st) /\
  (locked_balance st g = 0 \/ is_Some (token_transfer tk self g (locked_balance st g) (world st)) ->
   exists st', commits cx c st st' /\ locked_balance st' g = 0 /\
     balance tk g (world st') = balance tk g (world st) + locked_balance st g) /\
  (0 < locked_balance st g -> token_transfer tk self g (locked_balance st g) (world st) = None ->
   run cx (exec c) st = Trapped (CallFailure tk)).
Proof.
  intros Hc Htk Hcx Hself Ha Hne c. split; [by apply covered|]. split; [by apply refund_goes_through|].
  intros Hpos Hno. pose proof (reachable_well_typed st (in_custody_reachable st Hc)) as Hwt.
  pose proof (way_out_spec cx g st tk Htk Ha Hself) as H. rewrite (proj2 (Z.ltb_lt _ _) Hpos), Hno in H.
  pose proof (exec_spec cx (way_out st g) st Hwt (proj2 (way_out_refunds st g))) as He. rewrite H in He.
  fold (way_out st g) in c. unfold c. destruct (run _ _ _); simpl in He; [done..|by subst].
Qed.

(** C40: locking and unlocking are inverse.  Where a guardian has nothing locked, let a
    [lock_tokens] and then an [unlock_tokens] of theirs commit, which the second does
    only for somebody who is not registered.  Then everybody, the guardian and the
    contract included, has the tokens they had before, nothing is locked, no other
    key of the storage has changed, and nothing was announced. *)
Theorem lock_unlock_roundtrip cx cx' g n st st1 st2 tk :
  reachable st -> token_address st = Some tk -> locked_balance st g = 0 ->
  self_address cx = self -> self_address cx' = self -> g <> self ->
  commits cx (Call.LockTokens g n) st st1 -> commits cx' (Call.UnlockTokens g) st1 st2 ->
  locked_balance st2 g = 0 /\
  (forall a, balance tk a (world st2) = balance tk a (world st)) /\
  (forall k, k <> DataKey.LockedBalance g -> sget k (storage st2) = sget k (storage st)) /\
  effects st2 = effects st.
Proof.
  intros Hr Htk H0 Hself Hself' Hne Hc1 Hc2. pose proof (reachable_well_typed st Hr) as Hwt.
  assert (Hwt1 : well_typed st1) by (eapply reachable_well_typed, reachable_step, step_commit; eassumption).
  assert (token_address st1 = Some tk) as Htk1.
  { rewrite <- Htk. by apply (token_frame cx (Call.LockTokens g n)). }
  pose proof (commits_typed cx' _ st1 st2 Hwt1 Hc2) as [_ Hf2].
  apply lock_tokens_commit in Hc1 as (_ & _ & tk1 & Htk1' & Ht1 & He1 & Hs1); [|done].
  assert (locked_balance st1 g = n) as Hl1.
  { unfold locked_balance at 1. rewrite Hs1. rewrite (look_sset c_i128). simpl. lia. }
  eapply refund_commit in Hc2 as (_ & He2 & _ & tk2 & Htk2 & Hw); [|done..].
  assert (tk1 = tk) as -> by congruence. assert (tk2 = tk) as -> by congruence.
  rewrite Hself in Ht1. apply transfer_spec in Ht1 as [Hn Hb1].
  assert (locked_balance st2 g = 0 /\ forall a, balance tk a (world st2) = balance tk a (world st)) as [Hz Hb].
  { destruct Hw as [(Hz & Hw & Hl)|(Hpos & Ht & Hl)].
    - assert (n = 0) as Hz1 by lia. split.
      + unfold locked_balance at 1. rewrite (look_frame c_i128 _ _ _ Hl). fold (locked_balance st1 g). lia.
      + intros a. rewrite Hw, Hb1. repeat case_decide; lia.
    - rewrite Hself' in Ht. apply transfer_spec in Ht as [_ Hb2]. split.
      + unfold locked_balance, look. by rewrite Hl.
      + intros a. rewrite Hb2, Hb1. repeat case_decide; lia. }
  split_and!; [done|done| |congruence].
  intros k Hk. rewrite Hf2 by (simpl; set_solver). rewrite Hs1. by apply sget_sset_ne.
Qed.

End custody.

(** ** Witnesses *)

Lemma external_calls_witness :
  world_after (at_time 12) (Call.Vote guardian2 1) (scene 11) (world (scene 12)).
Proof.
  apply (external_calls (at_time 12) (Call.Vote guardian2 1) (scene 11) (scene 12));
    [apply scene_reachable | apply (scene_commits 11); reflexivity].
Defined.

(** A third guardian votes on the task the vault has paid for. *)
Definition late_calls : list (context * Call) :=
  take 12 script ++
  [(at_time 14, Call.AddGuardian admin guardian3); (at_time 15, Call.SetReputation admin guardian3 5);
   (at_time 16, Call.LockTokens guardian3 50)].

Definition late_scene : sample_state := invoke_all late_calls (deployed w0).

Lemma late_reachable : reachable late_scene.
Proof. apply reachable_invoke_all; [by_eval | apply reachable_deployed]. Qed.

(** It is paid again, unless the threshold is raised first. *)
Lemma resolved_task_pays_again_witness :
  payments (world late_scene) = [(vault1, 1)] /\
  (exists st', commits (at_time 20) (Call.Vote guardian3 1) late_scene st' /\
    payments (world st') = [(vault1, 1); (vault1, 1)]) /\
  (let raised := invoke (at_time 18) (Call.SetWeightThreshold admin 1000) late_scene in
   exists st', commits (at_time 20) (Call.Vote guardian3 1) raised st' /\ payments (world st') = [(vault1, 1)]).
Proof.
  split; [vm_compute; reflexivity|]. split.
  - pose proof (resolved_task_pays_again (at_time 20) guardian3 1 late_scene 5 (Task.mk 1 2 true 12 350 false) vault1
      late_reachable ltac:(by_eval) ltac:(by_eval) ltac:(vm_compute; reflexivity) ltac:(by_eval)
      ltac:(vm_compute; reflexivity) ltac:(by_eval) eq_refl ltac:(vm_compute; reflexivity)) as H.
    assert (weight_threshold late_scene = 300) as Ht by (vm_compute; reflexivity).
    assert (release_funds vault1 1 (world late_scene) = Some (world (invoke (at_time 20) (Call.Vote guardian3 1) late_scene)))
      as Hp by (vm_compute; reflexivity).
    rewrite Ht, Hp in H. destruct H as (st' & t' & Hcm & Hw & _). exists st'. split; [exact Hcm|].
    rewrite Hw. vm_compute. reflexivity.
  - intros raised.
    assert (reachable raised) as Hr
      by (eapply reachable_step; [apply late_reachable | apply invoke_step; by_eval]).
    pose proof (resolved_task_pays_again (at_time 20) guardian3 1 raised 5 (Task.mk 1 2 true 12 350 false) vault1
      Hr ltac:(by_eval) ltac:(by_eval) ltac:(vm_compute; reflexivity) ltac:(by_eval)
      ltac:(vm_compute; reflexivity) ltac:(by_eval) eq_refl ltac:(vm_compute; reflexivity)) as H.
    assert (weight_threshold raised = 1000) as Ht by (vm_compute; reflexivity).
    rewrite Ht in H. destruct H as (st' & t' & Hcm & Hw & _). exists st'. split; [exact Hcm|].
    rewrite Hw. vm_compute. reflexivity.
Defined.

Lemma admissible_vote_commits_witness :
  exists st', commits (at_time 12) (Call.Vote guardian2 1) (scene 11) st' /\
    active_task st' 1 = Some (vote_result (at_time 12) (scene 11) 150 (Task.mk 1 1 false 0 200 false)).
Proof.
  apply (admissible_vote_commits (at_time 12) guardian2 1 (scene 11) 150 (Task.mk 1 1 false 0 200 false));
    [apply scene_reachable | by_eval | by_eval | vm_compute; reflexivity | reflexivity
    | vm_compute; reflexivity | by_eval |].
  intros _ v Hv. assert (Hvault : vault (scene 11) = Some vault1) by (vm_compute; reflexivity).
  rewrite Hvault in Hv. injection Hv as <-. discriminate.
Defined.

Lemma balance_of_insert a k v m p s :
  balance_of a (SampleWorld (<[k:=v]> m) p s) = if decide (k = a) then v else default 0 (m !! a).
Proof.
  unfold balance_of. simpl. case_decide; subst; by rewrite ?lookup_insert_eq, ?lookup_insert_ne.
Qed.

(** The sample token keeps its books. *)
#[global] Instance sample_ledger : TokenLedger sample_world self.
Proof.
  refine {| balance tk a w := if decide (tk = token) then balance_of a w else 0 |}.
  - intros tk from to n w w'. simpl. unfold sample_transfer. destruct (decide (tk = token)) as [->|Htk].
    + destruct (Z.ltb_spec n 0), (Z.ltb_spec (balance_of from w) n); try done. intros [= <-].
      split; [lia|]. intros tk' a. rewrite !balance_of_insert. unfold balance_of in *.
      destruct (decide (tk' = token)) as [->|]; [|rewrite !decide_False by tauto; lia].
      destruct (decide (to = a)) as [->|Hto], (decide (from = a)) as [->|Hfrom];
        rewrite ?lookup_insert_eq, ?lookup_insert_ne by done;
        repeat case_decide; simpl; first [lia | exfalso; naive_solver].
    + destruct (Z.eqb_spec n 0) as [->|]; [|done]. intros [= <-]. split; [lia|]. intros tk' a.
      repeat case_decide; lia.
  - intros v i w w' tk. simpl. unfold sample_release. destruct (decide _); [done|]. by intros [= <-].
  - intros c fn args w w' tk. simpl. by intros [= <-].
Defined.

Lemma scene_custody n : in_custody self (scene n).
Proof.
  apply in_custody_invoke_all; [apply script_wf| |].
  - unfold outside_calls. apply Forall_take. by_eval.
  - apply in_custody_deployed. intros tk. simpl. by destruct (decide _).
Qed.

Lemma locked_balances_covered_witness :
  total_of (locked_balance (scene 14)) [guardian1; guardian2; guardian3] <=
    balance (self := self) token self (world (scene 14)) /\
  forall g, 0 <= locked_balance (scene 14) g.
Proof.
  apply (locked_balances_covered self (scene 14) token [guardian1; guardian2; guardian3]);
    [apply scene_custody | vm_compute; reflexivity | by_eval].
Defined.

(** The guardian is removed by an administrator. *)
Definition removed_scene : sample_state :=
  invoke_all [(at_time 20, Call.RemoveGuardian admin guardian1)] (scene 12).

Lemma removed_custody : in_custody self removed_scene.
Proof. apply in_custody_invoke_all; [by_eval | by_eval | apply scene_custody]. Qed.

Lemma refund_needs_only_the_token_witness :
  locked_balance removed_scene guardian1 = 50 /\
  exists st', commits (at_time 21) (Call.UnlockTokens guardian1) removed_scene st' /\
    locked_balance st' guardian1 = 0 /\
    balance (self := self) token guardian1 (world st') =
      balance (self := self) token guardian1 (world removed_scene) + locked_balance removed_scene guardian1.
Proof.
  split; [vm_compute; reflexivity|].
  pose proof (refund_needs_only_the_token self (at_time 21) guardian1 removed_scene token
    removed_custody ltac:(vm_compute; reflexivity) ltac:(by_eval) eq_refl eq_refl ltac:(discriminate)) as H.
  assert (registered removed_scene guardian1 = false) as Hg by (vm_compute; reflexivity). rewrite Hg in H.
  apply H. right. by_eval.
Defined.

Lemma lock_unlock_roundtrip_witness :
  exists st1 st2, commits (at_time 20) (Call.LockTokens guardian3 70) (scene 14) st1 /\
    commits (at_time 21) (Call.UnlockTokens guardian3) st1 st2 /\
    locked_balance st2 guardian3 = 0 /\
    forall a, balance (self := self) token a (world st2) = balance (self := self) token a (world (scene 14)).
Proof.
  assert (H1 : exists st1 st2, commits (at_time 20) (Call.LockTokens guardian3 70) (scene 14) st1 /\
    commits (at_time 21) (Call.UnlockTokens guardian3) st1 st2).
  { exists (invoke (at_time 20) (Call.LockTokens guardian3 70) (scene 14)),
      (invoke (at_time 21) (Call.UnlockTokens guardian3)
         (invoke (at_time 20) (Call.LockTokens guardian3 70) (scene 14))).
    split; apply ending_invoke; [by_eval | by_eval | vm_compute; reflexivity | by_eval | by_eval
      | vm_compute; reflexivity]. }
  destruct H1 as (st1 & st2 & H1 & H2). exists st1, st2. split; [exact H1|]. split; [exact H2|].
  pose proof (lock_unlock_roundtrip self (at_time 20) (at_time 21) guardian3 70 (scene 14) st1 st2 token
    (scene_reachable 14) ltac:(vm_compute; reflexivity) ltac:(vm_compute; reflexivity) eq_refl eq_refl
    ltac:(discriminate) H1 H2) as (Hz & Hb & _).
  split; [exact Hz|exact Hb].
Defined.
