(* ===== verification/Snapshots.v ===== *)
(** * Snapshots

    [get_snapshot] reads one page of every index and looks its entries up.  It
    changes nothing, never fails, never returns more than 32 entries of a
    kind, and its pages put together are the whole state. *)

From stdpp Require Import prelude gmap list strings relations.
From Stdlib Require Import ZArith Lia.
From S2P Require Import Prelude.
From S2P Require Import Types.
From S2P Require Import Host.
From S2P Require Import Logic.
From S2P Require Import Frame.
From S2P Require Import Typing.
From S2P Require Import SampleHost.
From S2P Require Import Reentrancy.
From S2P Require Import Reputation.
From S2P Require Import Guardian.
From S2P Require Import CircuitBreaker.
From S2P Require Import Storage.
From S2P Require Import Tasks.
From S2P Require Import Drips.
From S2P Require Import Contract.
From S2P Require Import VoteSpec.
From S2P Require Import System.
From S2P Require Import SampleRun.
From S2P Require Import Lifecycle.
From S2P Require Import Tally.
From S2P Require Import Registry.

(** ** Pages *)

(** A list the host can hold: its length is a [u32]. *)
Definition fits {A} (l : list A) : Prop := Z.of_nat (length l) <= u32_max.

Lemma page_spec {A} offset limit (l : list A) :
  in_u32 offset -> in_u32 limit -> fits l ->
  page offset limit l = take (Z.to_nat limit) (drop (Z.to_nat offset) l).
Proof.
  unfold fits, in_u32, page, u32_saturating_add. intros Ho Hl Hf.
  destruct (Z.le_gt_cases offset (Z.of_nat (length l))) as [Hle|Hgt].
  - rewrite (Z.min_l offset) by done.
    destruct (Z.le_gt_cases (offset + limit) (Z.of_nat (length l))) as [Hle2|Hgt2].
    + f_equal. lia.
    + rewrite !take_ge; [done| |]; rewrite length_drop; lia.
  - rewrite (Z.min_r offset) by lia. rewrite Nat2Z.id, !(drop_ge l) by lia. by rewrite !take_nil.
Qed.

Lemma page_length {A} offset limit (l : list A) :
  in_u32 limit -> Z.of_nat (length (page offset limit l)) <= limit.
Proof.
  unfold page, u32_saturating_add, in_u32. intros Hl. rewrite length_take.
  destruct (Z.le_gt_cases offset (Z.of_nat (length l))); lia.
Qed.

(** What a snapshot reads of a list: its limit is capped. *)
Definition capped (limit : Z) : Z := Z.min limit MAX_SNAPSHOT_BATCH_SIZE.

Definition slice {A} (offset limit : Z) (l : list A) : list A :=
  take (Z.to_nat (capped limit)) (drop (Z.to_nat offset) l).

Lemma capped_u32 limit : in_u32 limit -> in_u32 (capped limit).
Proof. unfold capped, in_u32, MAX_SNAPSHOT_BATCH_SIZE. lia. Qed.

Lemma slice_length {A} offset limit (l : list A) : (length (slice offset limit l) <= 32)%nat.
Proof. unfold slice, capped, MAX_SNAPSHOT_BATCH_SIZE. rewrite length_take. lia. Qed.

(** The [n]-th entry is on page [n / k]. *)
Lemma slice_covers {A} (l : list A) (x : A) k :
  x ∈ l -> fits l -> 0 < k <= MAX_SNAPSHOT_BATCH_SIZE ->
  exists j, 0 <= j /\ in_u32 (j * k) /\ x ∈ slice (j * k) k l.
Proof.
  unfold fits, in_u32, slice, capped. intros [n Hn]%list_elem_of_lookup Hf Hk. rewrite Z.min_l by lia.
  apply lookup_lt_Some in Hn as Hlt.
  pose proof (Z.div_mod (Z.of_nat n) k ltac:(lia)) as Hdm.
  pose proof (Z.mod_pos_bound (Z.of_nat n) k ltac:(lia)).
  exists (Z.of_nat n / k). assert (0 <= Z.of_nat n / k) by (apply Z.div_pos; lia).
  split; [done|]. split; [nia|]. apply list_elem_of_lookup. exists (Z.to_nat (Z.of_nat n mod k)).
  rewrite lookup_take_lt by lia. rewrite lookup_drop. rewrite <- Hn. f_equal. nia.
Qed.

(** Consecutive pages join up. *)
Lemma take_slice {A} j k (l : list A) :
  0 <= j -> 0 < k <= MAX_SNAPSHOT_BATCH_SIZE ->
  take (Z.to_nat (j * k)) l ++ slice (j * k) k l = take (Z.to_nat ((j + 1) * k)) l.
Proof.
  intros Hj Hk. unfold slice, capped. rewrite Z.min_l, take_take_drop by lia. f_equal. nia.
Qed.

(** ** The loops *)

Section loops.
Context {Sto Wld : Type} `{!InstanceStorage Sto} `{!World Wld}.
Implicit Types (st : state Sto Wld) (cx : context).

Lemma snapshot_guardians_run cx l gs rs st :
  well_typed st ->
  exists gs' rs', run cx (snapshot_guardians l gs rs) st = Done (gs', rs') st /\
    (forall g, gs' !! g = if decide (g ∈ l) then Some (registered st g) else gs !! g) /\
    (forall g, rs' !! g =
       match (if decide (g ∈ l) then reputation st g else None) with Some w => Some w | None => rs !! g end).
Proof.
  intros Hwt. revert gs rs. induction l as [|a l IH]; intros gs rs; cbn [snapshot_guardians].
  { exists gs, rs. split; [done|]. split; intros g; by rewrite decide_False by (apply not_elem_of_nil). }
  rewrite run_bind, is_guardian_run, run_bind by done. unfold Reputation.get_reputation.
  rewrite run_get by solve_readable. fold (reputation st a).
  destruct (IH (<[a:=registered st a]> gs)
    (match reputation st a with Some s => <[a:=s]> rs | None => rs end)) as (gs' & rs' & Hrun & Hg & Hr).
  exists gs', rs'. split; [done|]. split; intros g.
  - rewrite Hg. destruct (decide (g ∈ l)); [by rewrite decide_True by set_solver|].
    destruct (decide (g = a)) as [->|Hne].
    + by rewrite lookup_insert_eq, decide_True by set_solver.
    + by rewrite lookup_insert_ne, decide_False by set_solver.
  - rewrite Hr. destruct (decide (g = a)) as [->|Hne].
    + rewrite (decide_True (P := a ∈ a :: l)) by set_solver.
      destruct (decide (a ∈ l)), (reputation st a); try done. by rewrite lookup_insert_eq.
    + destruct (decide (g ∈ l)).
      * rewrite (decide_True (P := g ∈ a :: l)) by set_solver. destruct (reputation st g); [done|].
        destruct (reputation st a); [by rewrite lookup_insert_ne|done].
      * rewrite (decide_False (P := g ∈ a :: l)) by set_solver.
        destruct (reputation st a); [by rewrite lookup_insert_ne|done].
Qed.

Lemma snapshot_lookups_run {A} cx (get : Z -> prog (option A)) (f : Z -> option A) l m st :
  (forall i, run cx (get i) st = Done (f i) st) ->
  exists m', run cx (snapshot_lookups get l m) st = Done m' st /\
    forall i, m' !! i =
      match (if decide (i ∈ l) then f i else None) with Some x => Some x | None => m !! i end.
Proof.
  intros Hget. revert m. induction l as [|a l IH]; intros m; cbn [snapshot_lookups].
  { exists m. split; [done|]. intros i. by rewrite decide_False by (apply not_elem_of_nil). }
  rewrite run_bind, Hget.
  destruct (IH (match f a with Some x => <[a:=x]> m | None => m end)) as (m' & Hrun & Hm).
  exists m'. split; [done|]. intros i. rewrite Hm. destruct (decide (i = a)) as [->|Hne].
  - rewrite (decide_True (P := a ∈ a :: l)) by set_solver.
    destruct (decide (a ∈ l)), (f a); try done. by rewrite lookup_insert_eq.
  - destruct (decide (i ∈ l)).
    + rewrite (decide_True (P := i ∈ a :: l)) by set_solver. destruct (f i); [done|].
      destruct (f a); [by rewrite lookup_insert_ne|done].
    + rewrite (decide_False (P := i ∈ a :: l)) by set_solver.
      destruct (f a); [by rewrite lookup_insert_ne|done].
Qed.

Lemma snapshot_votes_lookup l v :
  snapshot_votes l !! v = if decide (v ∈ l) then Some true else None.
Proof.
  unfold snapshot_votes.
  assert (forall m : gmap (Z * Address) bool,
    foldl (fun acc v => <[v:=true]> acc) m l !! v = if decide (v ∈ l) then Some true else m !! v) as H;
    [|by rewrite H].
  induction l as [|a l IH]; intros m; cbn [foldl].
  { by rewrite decide_False by (apply not_elem_of_nil). }
  rewrite IH. destruct (decide (v ∈ l)); [by rewrite decide_True by set_solver|].
  destruct (decide (v = a)) as [->|Hne].
  - by rewrite lookup_insert_eq, decide_True by set_solver.
  - by rewrite lookup_insert_ne, decide_False by set_solver.
Qed.

(** A snapshot that holds the settings and, of these guardians, tasks, votes and
    streams, the current values. *)
Record holds st (gs : list Address) (ts : list Z) (vs : list (Z * Address)) (ss : list Z)
    (s : Snapshot) : Prop := {
  sh_paused : Snapshot.paused s = paused st;
  sh_failures : Snapshot.failure_count s = failure_count st;
  sh_threshold : Snapshot.weight_threshold s = weight_threshold st;
  sh_admin : Snapshot.admin s = None;
  sh_vault : Snapshot.vault_address s = vault st;
  sh_drips : Snapshot.drips_address s = None;
  sh_guardians g : Snapshot.guardians s !! g = if decide (g ∈ gs) then Some (registered st g) else None;
  sh_reputations g : Snapshot.reputations s !! g = if decide (g ∈ gs) then reputation st g else None;
  sh_tasks i : Snapshot.tasks s !! i = if decide (i ∈ ts) then active_task st i else None;
  sh_votes v : Snapshot.votes s !! v = if decide (v ∈ vs) then Some true else None;
  sh_streams i : Snapshot.reward_streams s !! i = if decide (i ∈ ss) then reward_stream st i else None;
}.

(** What the page at [offset] should hold. *)
Definition shows st (offset limit : Z) : Snapshot -> Prop :=
  holds st (slice offset limit (all_guardians st)) (slice offset limit (all_tasks st))
    (slice offset limit (all_votes st)) (slice offset limit (all_streams st)).

(** The indexes are lists the host can hold. *)
Definition indexes_fit st : Prop :=
  fits (all_guardians st) /\ fits (all_tasks st) /\ fits (all_votes st) /\ fits (all_streams st).

Lemma get_never_set cx k st :
  well_typed st -> k = DataKey.Admin \/ k = DataKey.DripsAddress ->
  run cx (storage_get c_Address k) st = Done None st.
Proof.
  intros Hwt Hk.
  assert (sget k (storage st) = None) as Hn.
  { destruct (sget k (storage st)) as [v|] eqn:E; [|done]. apply Hwt in E. by destruct Hk; subst; destruct v. }
  rewrite run_get; [unfold look; by rewrite Hn|]. intros v Hv. congruence.
Qed.

Lemma match_some_id {A} (o : option A) : match o with Some x => Some x | None => None end = o.
Proof. by destruct o. Qed.

Lemma get_snapshot_run cx offset limit st :
  well_typed st -> in_u32 offset -> in_u32 limit -> indexes_fit st ->
  exists s, run cx (get_snapshot offset limit) st = Done s st /\ shows st offset limit s.
Proof.
  intros Hwt Ho Hl (Fg & Ft & Fv & Fs). unfold get_snapshot, get_all_guardians, get_all_tasks, get_all_reward_streams.
  rewrite run_bind, run_get by solve_readable. rewrite run_bind, run_get by solve_readable.
  rewrite run_bind, run_get by solve_readable. rewrite run_bind, get_never_set by auto.
  rewrite run_bind, run_get by solve_readable. rewrite run_bind, get_never_set by auto. cbv zeta.
  fold (capped limit). rewrite !run_bind, run_get, run_ret by solve_readable. fold (all_guardians st).
  rewrite page_spec by (done || by apply capped_u32). fold (slice offset limit (all_guardians st)).
  rewrite run_bind. destruct (snapshot_guardians_run cx (slice offset limit (all_guardians st)) ∅ ∅ st Hwt)
    as (gs & rs & -> & Hg & Hr).
  rewrite !run_bind, run_get, run_ret by solve_readable. fold (all_tasks st).
  rewrite page_spec by (done || by apply capped_u32). fold (slice offset limit (all_tasks st)).
  rewrite run_bind. destruct (snapshot_lookups_run cx Tasks.get_task (active_task st) (slice offset limit (all_tasks st)) ∅ st)
    as (ts & -> & Ht).
  { intros i. unfold Tasks.get_task, get_active_task, active_task_key. by rewrite run_get by solve_readable. }
  rewrite run_bind, run_get by solve_readable. fold (all_votes st).
  rewrite page_spec by (done || by apply capped_u32). fold (slice offset limit (all_votes st)).
  rewrite !run_bind, run_get, run_ret by solve_readable. fold (all_streams st).
  rewrite page_spec by (done || by apply capped_u32). fold (slice offset limit (all_streams st)).
  rewrite run_bind. destruct (snapshot_lookups_run cx Drips.get_reward_stream (reward_stream st)
    (slice offset limit (all_streams st)) ∅ st) as (ss & -> & Hs).
  { intros i. unfold Drips.get_reward_stream. by rewrite run_get by solve_readable. }
  eexists. split; [done|]. split; simpl; try done.
  - intros g. rewrite Hr, lookup_empty. apply match_some_id.
  - intros i. rewrite Ht, lookup_empty. apply match_some_id.
  - intros v. apply snapshot_votes_lookup.
  - intros i. rewrite Hs, lookup_empty. apply match_some_id.
Qed.

(** A map whose keys come from a list is no larger than the list. *)
Lemma map_within_list {K A} `{Countable K} (m : gmap K A) (l : list K) n :
  (forall k, k ∉ l -> m !! k = None) -> (length l <= n)%nat -> (size m <= n)%nat.
Proof.
  intros Hm Hn. etrans; [|exact Hn]. rewrite <- length_map_to_list, <- (length_fmap fst).
  apply submseteq_length, NoDup_submseteq; [apply NoDup_fst_map_to_list|].
  intros k ([k' x] & -> & Hkx%elem_of_map_to_list)%list_elem_of_fmap. simpl.
  destruct (decide (k' ∈ l)); [done|]. rewrite Hm in Hkx by done. done.
Qed.

(** The indexes list what is stored. *)
Lemma active_listed st i t : reachable st -> active_task st i = Some t -> i ∈ all_tasks st.
Proof. intros Hr Ht. apply (tasks_exact_reachable st Hr). unfold phase_of. by rewrite Ht. Qed.

Lemma stream_listed st i r : reachable st -> reward_stream st i = Some r -> i ∈ all_streams st.
Proof. intros Hr H. apply (se_keys _ (streams_exact_reachable st Hr)). eauto. Qed.

(** *** A client that joins the pages *)

Definition join (s1 s2 : Snapshot) : Snapshot :=
  Snapshot.mk (Snapshot.paused s2) (Snapshot.failure_count s2) (Snapshot.weight_threshold s2)
    (Snapshot.admin s2) (Snapshot.vault_address s2) (Snapshot.drips_address s2)
    (Snapshot.guardians s1 ∪ Snapshot.guardians s2) (Snapshot.reputations s1 ∪ Snapshot.reputations s2)
    (Snapshot.tasks s1 ∪ Snapshot.tasks s2) (Snapshot.votes s1 ∪ Snapshot.votes s2)
    (Snapshot.reward_streams s1 ∪ Snapshot.reward_streams s2).

(** Pages [j], ..., [j + n - 1], of [k] entries each. *)
Fixpoint walk (k : Z) (n : nat) (j : Z) (acc : Snapshot) : prog Snapshot :=
  match n with
  | O => mret acc
  | S n => s ← get_snapshot (j * k) k; walk k n (j + 1) (join acc s)
  end.

Lemma union_restricted {K A} `{Countable K} (f : K -> option A) (m1 m2 : gmap K A) (l1 l2 : list K) :
  (forall i, m1 !! i = if decide (i ∈ l1) then f i else None) ->
  (forall i, m2 !! i = if decide (i ∈ l2) then f i else None) ->
  forall i, (m1 ∪ m2) !! i = if decide (i ∈ l1 ++ l2) then f i else None.
Proof.
  intros H1 H2 i. rewrite lookup_union, H1, H2.
  destruct (decide (i ∈ l1 ++ l2)) as [Hi|Hi]; rewrite elem_of_app in Hi;
    repeat case_decide; try tauto; by destruct (f i).
Qed.

Lemma holds_join st gs1 ts1 vs1 ss1 gs2 ts2 vs2 ss2 s1 s2 :
  holds st gs1 ts1 vs1 ss1 s1 -> holds st gs2 ts2 vs2 ss2 s2 ->
  holds st (gs1 ++ gs2) (ts1 ++ ts2) (vs1 ++ vs2) (ss1 ++ ss2) (join s1 s2).
Proof.
  intros [_ _ _ _ _ _ A1 A2 A3 A4 A5] [B1 B2 B3 B4 B5 B6 B7 B8 B9 B10 B11].
  split; try done; intros x; simpl.
  - by apply (union_restricted (fun g => Some (registered st g))).
  - by apply (union_restricted (reputation st)).
  - by apply (union_restricted (active_task st)).
  - by apply (union_restricted (fun _ => Some true)).
  - by apply (union_restricted (reward_stream st)).
Qed.

(** The first [m] entries of every index. *)
Definition holds_first st (m : Z) : Snapshot -> Prop :=
  let first {A} (l : list A) := take (Z.to_nat m) l in
  holds st (first (all_guardians st)) (first (all_tasks st)) (first (all_votes st)) (first (all_streams st)).

Lemma walk_run cx k n j acc st :
  well_typed st -> indexes_fit st -> 0 < k <= MAX_SNAPSHOT_BATCH_SIZE -> 0 <= j -> (j + Z.of_nat n) * k <= u32_max ->
  holds_first st (j * k) acc ->
  exists s, run cx (walk k n j acc) st = Done s st /\ holds_first st ((j + Z.of_nat n) * k) s.
Proof.
  intros Hwt Hfit Hk. revert j acc. induction n as [|n IH]; intros j acc Hj Hmax Hacc.
  { exists acc. split; [done|]. by rewrite Z.add_0_r. }
  cbn [walk]. rewrite run_bind.
  destruct (get_snapshot_run cx (j * k) k st Hwt) as (s & -> & Hs); [unfold in_u32; nia| |done|].
  { unfold in_u32, MAX_SNAPSHOT_BATCH_SIZE, u32_max in *. lia. }
  destruct (IH (j + 1) (join acc s)) as (s' & Hrun & Hs'); [lia|nia| |].
  - pose proof (holds_join _ _ _ _ _ _ _ _ _ _ _ Hacc Hs) as Hh. by rewrite !take_slice in Hh by done.
  - exists s'. split; [done|]. by replace (j + Z.of_nat (S n)) with (j + 1 + Z.of_nat n) by lia.
Qed.

(** The first page and [n] more. *)
Definition fetch (k : Z) (n : nat) : prog Snapshot :=
  first ← get_snapshot 0 k; walk k n 1 first.

Lemma fetch_run cx k n st :
  well_typed st -> indexes_fit st -> 0 < k <= MAX_SNAPSHOT_BATCH_SIZE -> (1 + Z.of_nat n) * k <= u32_max ->
  exists s, run cx (fetch k n) st = Done s st /\ holds_first st ((1 + Z.of_nat n) * k) s.
Proof.
  intros Hwt Hfit Hk Hmax. unfold fetch. rewrite run_bind.
  assert (in_u32 k) as Hk32 by (unfold in_u32, MAX_SNAPSHOT_BATCH_SIZE, u32_max in *; lia).
  destruct (get_snapshot_run cx 0 k st Hwt) as (s & -> & Hs); [done..|].
  apply walk_run; try done. unfold holds_first. pose proof (fun A => @take_slice A 0 k) as Hts.
  change (0 + 1) with 1 in Hts. rewrite <- !Hts by lia. exact Hs.
Qed.

(** ** Properties *)

(** C33: a snapshot changes nothing and answers, as long as the four indexes are
    lists the host can hold (their lengths are [u32]s): from any reachable state it
    returns all six settings, the administrator and the drips address always
    [None] because nothing ever sets them, and of each index exactly the page asked
    for, at most 32 entries, every entry with its current value and no other. *)
Theorem snapshot_shows_its_page cx offset limit st :
  reachable st -> in_u32 offset -> in_u32 limit -> indexes_fit st ->
  exists s, run cx (get_snapshot offset limit) st = Done s st /\ shows st offset limit s.
Proof. intros Hr. apply get_snapshot_run. by apply reachable_well_typed. Qed.

(** A snapshot is bounded whatever the state and whatever limit is asked for:
    no map of it has more than 32 entries. *)
Theorem snapshot_bounded cx offset limit st s :
  reachable st -> in_u32 offset -> in_u32 limit -> indexes_fit st ->
  run cx (get_snapshot offset limit) st = Done s st ->
  (size (Snapshot.guardians s) <= 32)%nat /\ (size (Snapshot.reputations s) <= 32)%nat /\
  (size (Snapshot.tasks s) <= 32)%nat /\ (size (Snapshot.votes s) <= 32)%nat /\
  (size (Snapshot.reward_streams s) <= 32)%nat.
Proof.
  intros Hr Ho Hl Hfit Hrun.
  destruct (get_snapshot_run cx offset limit st (reachable_well_typed st Hr) Ho Hl Hfit) as (s' & Hrun' & Hsh).
  assert (s' = s) as -> by congruence. destruct Hsh as [_ _ _ _ _ _ Hg Hrep Ht Hv Hs].
  split_and!; (eapply map_within_list; [intros k Hk|apply (slice_length offset limit)]).
  - by rewrite Hg, decide_False.
  - by rewrite Hrep, decide_False.
  - by rewrite Ht, decide_False.
  - by rewrite Hv, decide_False.
  - by rewrite Hs, decide_False.
Qed.

(** Each entry is on some page: whoever walks the offsets in steps of a page
    size of at most 32 meets every active task, every registered guardian, every
    vote and every reward stream, each with its current value. *)
Theorem snapshots_cover_state cx k st :
  reachable st -> indexes_fit st -> 0 < k <= MAX_SNAPSHOT_BATCH_SIZE ->
  (forall i t, active_task st i = Some t -> exists j s,
     0 <= j /\ run cx (get_snapshot (j * k) k) st = Done s st /\ Snapshot.tasks s !! i = Some t) /\
  (forall g, registered st g = true -> exists j s,
     0 <= j /\ run cx (get_snapshot (j * k) k) st = Done s st /\ Snapshot.guardians s !! g = Some true) /\
  (forall v, v ∈ all_votes st -> exists j s,
     0 <= j /\ run cx (get_snapshot (j * k) k) st = Done s st /\ Snapshot.votes s !! v = Some true) /\
  (forall i r, reward_stream st i = Some r -> exists j s,
     0 <= j /\ run cx (get_snapshot (j * k) k) st = Done s st /\ Snapshot.reward_streams s !! i = Some r).
Proof.
  intros Hr Hfit Hk. pose proof (reachable_well_typed st Hr) as Hwt.
  assert (in_u32 k) as Hk32 by (unfold in_u32, MAX_SNAPSHOT_BATCH_SIZE, u32_max in *; lia).
  assert (Hpage : forall j, in_u32 (j * k) -> exists s,
    run cx (get_snapshot (j * k) k) st = Done s st /\ shows st (j * k) k s)
    by (intros; by apply get_snapshot_run).
  destruct Hfit as (Fg & Ft & Fv & Fs). split; [|split; [|split]].
  - intros i t Ht. assert (i ∈ all_tasks st) as Hin by (by eapply active_listed).
    destruct (slice_covers _ _ k Hin Ft Hk) as (j & Hj & Hj32 & Hs).
    destruct (Hpage j Hj32) as (s & Hrun & Hsh). exists j, s. split_and!; [done..|].
    by rewrite (sh_tasks _ _ _ _ _ _ Hsh), decide_True by done.
  - intros g Hg. assert (g ∈ all_guardians st) as Hin.
    { apply (guardians_listed_reachable st Hr). unfold registered in Hg.
      destruct (look c_bool _ _) eqn:E; [|done]. apply look_Some in E. eauto. }
    destruct (slice_covers _ _ k Hin Fg Hk) as (j & Hj & Hj32 & Hs).
    destruct (Hpage j Hj32) as (s & Hrun & Hsh). exists j, s. split_and!; [done..|].
    by rewrite (sh_guardians _ _ _ _ _ _ Hsh), decide_True, Hg by done.
  - intros v Hin. destruct (slice_covers _ _ k Hin Fv Hk) as (j & Hj & Hj32 & Hs).
    destruct (Hpage j Hj32) as (s & Hrun & Hsh). exists j, s. split_and!; [done..|].
    by rewrite (sh_votes _ _ _ _ _ _ Hsh), decide_True by done.
  - intros i r Hir. assert (i ∈ all_streams st) as Hin by (by eapply stream_listed).
    destruct (slice_covers _ _ k Hin Fs Hk) as (j & Hj & Hj32 & Hs).
    destruct (Hpage j Hj32) as (s & Hrun & Hsh). exists j, s. split_and!; [done..|].
    by rewrite (sh_streams _ _ _ _ _ _ Hsh), decide_True by done.
Qed.

(** C34: a client that walks the pages and joins them has the whole state.  With
    enough pages of at most 32 entries, the joined snapshot holds every active
    task, every reward stream and every vote cast, and no others; every guardian
    ever registered with whether it still is one; and the reputations of these
    guardians, and of nobody else. *)
Theorem snapshots_reassemble cx k n st :
  reachable st -> indexes_fit st -> 0 < k <= MAX_SNAPSHOT_BATCH_SIZE ->
  let total := (1 + Z.of_nat n) * k in
  total <= u32_max ->
  Z.of_nat (length (all_guardians st)) <= total -> Z.of_nat (length (all_tasks st)) <= total ->
  Z.of_nat (length (all_votes st)) <= total -> Z.of_nat (length (all_streams st)) <= total ->
  exists s, run cx (fetch k n) st = Done s st /\
    (forall i, Snapshot.tasks s !! i = active_task st i) /\
    (forall i, Snapshot.reward_streams s !! i = reward_stream st i) /\
    (forall i g, Snapshot.votes s !! (i, g) = if has_voted st i g then Some true else None) /\
    (forall g, Snapshot.guardians s !! g =
       if decide (g ∈ all_guardians st) then Some (registered st g) else None) /\
    (forall g, Snapshot.reputations s !! g =
       if decide (g ∈ all_guardians st) then reputation st g else None).
Proof.
  intros Hr Hfit Hk total Hmax Hg Ht Hv Hs. pose proof (reachable_well_typed st Hr) as Hwt.
  destruct (fetch_run cx k n st Hwt Hfit Hk Hmax) as (s & Hrun & Hh). exists s. split; [done|].
  unfold holds_first in Hh. rewrite !take_ge in Hh by lia. destruct Hh as [_ _ _ _ _ _ H1 H2 H3 H4 H5].
  split_and!; [intros i|intros i|intros i g|done|done].
  - rewrite H3. case_decide as Hin; [done|]. destruct (active_task st i) as [t|] eqn:E; [|done].
    destruct Hin. by eapply active_listed.
  - rewrite H5. case_decide as Hin; [done|]. destruct (reward_stream st i) as [r|] eqn:E; [|done].
    destruct Hin. by eapply stream_listed.
  - rewrite H4. pose proof (ti_voted _ (tally_reachable st Hr) i g) as Hin.
    case_decide; destruct (has_voted st i g); naive_solver.
Qed.

End loops.

(** ** Witnesses *)

Lemma snapshot_shows_its_page_witness :
  exists s, run (at_time 20) (get_snapshot 0 1) (scene 12) = Done s (scene 12) /\
    shows (scene 12) 0 1 s.
Proof.
  apply (snapshot_shows_its_page (at_time 20) 0 1 (scene 12) (scene_reachable 12)); [by_eval..|].
  unfold indexes_fit, fits. by_eval.
Defined.

Lemma snapshot_bounded_witness :
  exists s, run (at_time 20) (get_snapshot 0 u32_max) (scene 12) = Done s (scene 12) /\
    (size (Snapshot.guardians s) <= 32)%nat /\ (size (Snapshot.reputations s) <= 32)%nat /\
    (size (Snapshot.tasks s) <= 32)%nat /\ (size (Snapshot.votes s) <= 32)%nat /\
    (size (Snapshot.reward_streams s) <= 32)%nat.
Proof.
  assert (Hfit : indexes_fit (scene 12)) by (unfold indexes_fit, fits; by_eval).
  destruct (get_snapshot_run (at_time 20) 0 u32_max (scene 12) (scene_typed 12)
    ltac:(by_eval) ltac:(by_eval) Hfit) as (s & Hrun & _).
  exists s. split; [exact Hrun|].
  exact (snapshot_bounded (at_time 20) 0 u32_max (scene 12) s (scene_reachable 12)
    ltac:(by_eval) ltac:(by_eval) Hfit Hrun).
Defined.

Lemma snapshots_cover_state_witness :
  exists j s, 0 <= j /\ run (at_time 20) (get_snapshot (j * 1) 1) (scene 12) = Done s (scene 12) /\
    Snapshot.guardians s !! guardian2 = Some true.
Proof.
  refine (proj1 (proj2 (snapshots_cover_state (at_time 20) 1 (scene 12) (scene_reachable 12) _ _)) guardian2 _).
  - unfold indexes_fit, fits. by_eval.
  - by_eval.
  - vm_compute; reflexivity.
Defined.

(** One entry a page: the second page completes the sample. *)
Lemma snapshots_reassemble_witness :
  exists s, run (at_time 20) (fetch 1 1) (scene 12) = Done s (scene 12) /\
    Snapshot.tasks s !! 1 = Some (Task.mk 1 2 true 12 350 false) /\
    Snapshot.guardians s !! guardian2 = Some true.
Proof.
  assert (indexes_fit (scene 12)) as Hfit by (unfold indexes_fit, fits; by_eval).
  destruct (snapshots_reassemble (at_time 20) 1 1 (scene 12) (scene_reachable 12) Hfit
    ltac:(by_eval) ltac:(by_eval) ltac:(by_eval) ltac:(by_eval) ltac:(by_eval) ltac:(by_eval))
    as (s & Hrun & H1 & _ & _ & H2 & _).
  exists s. split; [exact Hrun|]. rewrite H1, H2. split; vm_compute; reflexivity.
Defined.
