(* ===== verification/Meter.v ===== *)
(** * Metering programs

    [meter w cx p st] adds up what the host calls of one run cost, for any
    price list [w]; [within w n p Q] is a rule-based upper bound on every path
    of a program, whatever the host answers, and [within_meter] its soundness.
    With the price 1 it counts host calls: every entry point ends after a fixed
    number of them.  With the price list that [gas.rs] documents it measures the
    contract's own gas estimates. *)

From stdpp Require Import prelude gmap list strings.
From Stdlib Require Import ZArith Lia Strings.Byte.
From S2P Require Import Prelude.
From S2P Require Import Types.
From S2P Require Import Host.
From S2P Require Import Logic.
From S2P Require Import Frame.
From S2P Require Import Typing.
From S2P Require Import SampleHost.
From S2P Require Import Events.
From S2P Require Import Reentrancy.
From S2P Require Import Reputation.
From S2P Require Import Guardian.
From S2P Require Import CircuitBreaker.
From S2P Require Import Storage.
From S2P Require Import Tasks.
From S2P Require Import Drips.
From S2P Require Import Gas.
From S2P Require Import Contract.
From S2P Require Import System.
From S2P Require Import SampleRun.
From S2P Require Import Snapshots.

(** A price for every host call. *)
Definition prices : Type := forall X, HostE X -> Z.

(** ** The cost of a run *)

Section meter.
Context {Sto Wld : Type} `{!InstanceStorage Sto} `{!World Wld}.

Fixpoint meter (w : prices) cx {A} (p : prog A) (st : state Sto Wld) : Z :=
  match p with
  | Ret _ | Fail _ | Panic _ => 0
  | @Vis _ X op k =>
      w X op +
      match handle cx op st with
      | inl (x, st') => meter w cx (k x) st'
      | inr _ => 0
      end
  end.

End meter.

Definition one_each : prices := fun X op => 1.

(** ** Bounds on every path

    [n] is the budget; [Q] and [E], for values and errors, are told what is left
    of it. *)
Fixpoint within (w : prices) (n : Z) {A} (p : prog A)
    (Q : A -> Z -> Prop) (E : ContractError -> Z -> Prop) : Prop :=
  match p with
  | Ret a => 0 <= n /\ Q a n
  | Fail e => 0 <= n /\ E e n
  | Panic _ => 0 <= n
  | @Vis _ X op k => w X op <= n /\ forall x, within w (n - w X op) (k x) Q E
  end.

#[global] Arguments within : simpl never.

Definition affordable (w : prices) (n : Z) {A} (p : prog A) : Prop := within w n p (fun _ _ => True) (fun _ _ => True).

Definition nonneg_prices (w : prices) : Prop := forall X (op : HostE X), 0 <= w X op.

Section rules.
Context (w : prices).
Implicit Types (E : ContractError -> Z -> Prop).

Lemma within_bind n {A B} (p : prog A) (f : A -> prog B) Q E :
  within w n p (fun a m => within w m (f a) Q E) E -> within w n (p ≫= f) Q E.
Proof.
  revert n. induction p as [a|e|r|X op k IH]; intros n; simpl; [by intros [_ H]|done|done|].
  intros [H1 H2]. split; [done|]. intros x. by apply IH, H2.
Qed.

Lemma within_ret n {A} (a : A) (Q : A -> Z -> Prop) E : 0 <= n -> Q a n -> within w n (mret a) Q E.
Proof. done. Qed.

Lemma within_fail n {A} e (Q : A -> Z -> Prop) E : 0 <= n -> E e n -> within w n (Fail e) Q E.
Proof. done. Qed.

Lemma within_panic n {A} r (Q : A -> Z -> Prop) E : 0 <= n -> within w n (Panic r) Q E.
Proof. done. Qed.

Lemma within_perform n {X} (op : HostE X) (Q : X -> Z -> Prop) E :
  w X op <= n -> (forall x, Q x (n - w X op)) -> within w n (perform op) Q E.
Proof. intros H1 H2. split; [done|]. intros x. split; [lia|done]. Qed.

Lemma within_get n {T} (c : codec T) k (Q : option T -> Z -> Prop) E :
  w _ (StorageGet k) <= n -> (forall o, Q o (n - w _ (StorageGet k))) ->
  within w n (storage_get c k) Q E.
Proof.
  intros H1 H2. split; [done|]. intros [v|]; [|by split; [lia|]].
  destruct (try_from_val c v); [by split; [lia|]|]. unfold within. lia.
Qed.

Lemma within_unwrap n {A} (o : option A) (Q : A -> Z -> Prop) E :
  0 <= n -> (forall a, o = Some a -> Q a n) -> within w n (unwrap o) Q E.
Proof. destruct o; intros H HQ; [by split; auto|done]. Qed.

Lemma within_ok_or n {A} (o : option A) e (Q : A -> Z -> Prop) E :
  0 <= n -> (forall a, o = Some a -> Q a n) -> E e n -> within w n (ok_or o e) Q E.
Proof. destruct o; intros H HQ HE; by split; auto. Qed.

Lemma within_arith n o (Q : Z -> Z -> Prop) E :
  0 <= n -> (forall z, o = Some z -> Q z n) -> within w n (arith o) Q E.
Proof. destruct o; intros H HQ; [by split; auto|done]. Qed.

Lemma within_catch n {A} (p : prog A) (Q : A + ContractError -> Z -> Prop) E :
  within w n p (fun a m => Q (inl a) m) (fun e m => Q (inr e) m) -> within w n (catch p) Q E.
Proof.
  revert n. induction p as [a|e|r|X op k IH]; intros n; [done..|].
  intros [H1 H2]. split; [done|]. intros x. by apply IH, H2.
Qed.

(** A bound holds of every run. *)
Lemma within_meter {Sto Wld} `{!InstanceStorage Sto} `{!World Wld} n {A} (p : prog A) Q E cx
    (st : state Sto Wld) :
  nonneg_prices w -> within w n p Q E -> 0 <= meter w cx p st <= n.
Proof.
  intros Hw. revert n st. induction p as [a|e|r|X op k IH]; intros n st Hp; simpl.
  - destruct Hp as [? _]. lia.
  - destruct Hp as [? _]. lia.
  - unfold within in Hp. lia.
  - destruct Hp as [H1 H2]. pose proof (Hw X op). destruct (handle cx op st) as [[x st']|r]; [|lia].
    specialize (IH x _ st' (H2 x)). lia.
Qed.

End rules.

(** Walks a program against its budget; the prices are evaluated on the way. *)
Ltac within_side := simpl; try (unfold one_each; lia).

Ltac within_step :=
  lazymatch goal with
  | |- within _ _ (_ ≫= _) _ _ => apply within_bind
  | |- within _ _ (mret _) _ _ => apply within_ret; [within_side|]
  | |- within _ _ (Fail _) _ _ => apply within_fail; [within_side|]
  | |- within _ _ (Panic _) _ _ => apply within_panic; within_side
  | |- within _ _ (if ?b then _ else _) _ _ => destruct b
  | |- within _ _ (match ?x with _ => _ end) _ _ => destruct x
  | |- within _ _ (perform _) _ _ => apply within_perform; [within_side|]
  | |- within _ _ (storage_get _ _) _ _ => apply within_get; [within_side|]
  | |- within _ _ (unwrap _) _ _ => apply within_unwrap; [within_side|]
  | |- within _ _ (ok_or _ _) _ _ => apply within_ok_or; [within_side| |]
  | |- within _ _ (arith _) _ _ => apply within_arith; [within_side|]
  | |- within _ _ (catch _) _ _ => apply within_catch
  | |- within _ _ ?p _ _ => let h := prog_head p in unfold h
  | |- forall _, _ => intro
  end; cbv beta zeta.

Ltac within_solve := unfold affordable; repeat within_step; try done.

(** ** Counting host calls *)

Lemma one_each_nonneg : nonneg_prices one_each.
Proof. intros X op. done. Qed.

(** The most host calls an entry point makes. *)
Definition call_bound (c : Call) : Z :=
  match c with
  | Call.Initialize _ _ => 6
  | Call.TogglePause _ => 3
  | Call.Pause _ | Call.Unpause _ => 2
  | Call.AddGuardian _ _ => 7
  | Call.RemoveGuardian _ _ => 4
  | Call.LockTokens _ _ => 7
  | Call.ResignGuardian _ => 9
  | Call.UnlockTokens _ => 8
  | Call.SetReputation _ _ _ => 3
  | Call.SetWeightThreshold _ _ | Call.SetVaultAddress _ _ => 2
  | Call.RegisterTask _ _ => 10
  | Call.CancelTask _ _ => 8
  | Call.Vote _ _ => 23
  | Call.ArchiveTask _ => 8
  | Call.StartRewardStream _ _ _ _ => 9
  | Call.RecordFailure => 5
  | Call.ResetCircuitBreaker _ => 3
  end.

Lemma exec_within c : affordable one_each (call_bound c) (exec c).
Proof. destruct c; unfold exec; within_solve.
Qed.

(** The loop of [register_tasks]: three calls a task. *)
Lemma register_each_within ids (Q : unit -> Z -> Prop) (E : ContractError -> Z -> Prop) n :
  (forall m, n <= m -> Q tt m) -> (forall e m, n <= m -> E e m) -> 0 <= n -> forall m,
  n + 3 * Z.of_nat (length ids) <= m -> within one_each m (register_each ids) Q E.
Proof.
  intros HQ HE Hn. induction ids as [|i ids IH]; intros m Hm; cbn [register_each length] in *.
  { apply within_ret; [lia|]. apply HQ. lia. }
  unfold has_active_task, get_archived_task, set_active_task, unlock.
  repeat first [apply IH | within_step]; unfold one_each in *; try lia; auto with lia.
Qed.

Lemma register_tasks_within a ids : affordable one_each 102 (register_tasks a ids).
Proof.
  unfold affordable, register_tasks, MAX_REGISTER_TASK_BATCH_SIZE.
  destruct (Z.ltb_spec 32 (Z.of_nat (length ids))); [by split|].
  unfold lock, unlock. 
  repeat first [eapply (register_each_within _ _ _ 2)| within_step]; unfold one_each; try lia; try done.
  all: intros m Hm; repeat within_step; unfold one_each; try lia; try done.
Qed.

Lemma snapshot_guardians_within l n (Q : _ -> Z -> Prop) E gs rs :
  0 <= n -> (forall r m, n <= m -> Q r m) ->
  forall m, n + 2 * Z.of_nat (length l) <= m -> within one_each m (snapshot_guardians l gs rs) Q E.
Proof.
  intros Hn HQ. revert gs rs. induction l as [|g l IH]; intros gs rs m Hm; cbn [snapshot_guardians length] in *.
  { apply within_ret; [lia|]. apply HQ. lia. }
  unfold Guardian.is_guardian, Reputation.get_reputation.
  repeat first [apply IH | within_step]; unfold one_each in *; try lia; auto with lia.
Qed.

Lemma snapshot_lookups_within {A} (get : Z -> prog (option A)) l n (Q : _ -> Z -> Prop) E acc :
  (forall i m (Q : _ -> Z -> Prop), 1 <= m -> (forall o, Q o (m - 1)) -> within one_each m (get i) Q E) ->
  0 <= n -> (forall r m, n <= m -> Q r m) ->
  forall m, n + Z.of_nat (length l) <= m -> within one_each m (snapshot_lookups get l acc) Q E.
Proof.
  intros Hget Hn HQ. revert acc. induction l as [|i l IH]; intros acc m Hm; cbn [snapshot_lookups length] in *.
  { apply within_ret; [lia|]. apply HQ. lia. }
  apply within_bind. apply Hget; [lia|]. intros o. apply IH. lia.
Qed.

Lemma page_short {A} offset limit (l : list A) :
  in_u32 limit -> Z.of_nat (length (page offset (Z.min limit MAX_SNAPSHOT_BATCH_SIZE) l)) <= 32.
Proof.
  intros [H1 H2]. etrans; [apply page_length|]; unfold in_u32, MAX_SNAPSHOT_BATCH_SIZE; lia.
Qed.

Lemma get_snapshot_within offset limit : in_u32 limit -> affordable one_each 138 (get_snapshot offset limit).
Proof.
  intros Hl. pose proof (fun A (l : list A) => page_short offset limit l Hl) as Hp.
  unfold affordable, get_snapshot.
  repeat first [ apply (snapshot_guardians_within _ 67)
               | apply (snapshot_lookups_within Tasks.get_task _ 34)
               | apply (snapshot_lookups_within Drips.get_reward_stream _ 0)
               | within_step ];
    unfold one_each; try done; try lia;
    try (match goal with |- context [page offset ?n ?l] => specialize (Hp _ l) end; lia).
  all: intros; unfold Tasks.get_task, get_active_task, get_reward_stream; repeat within_step; unfold one_each; auto with lia.
Qed.

(** C25: every call of the contract ends, after a number of host calls that
    depends on the entry point alone: at most 23 for the calls that change the
    state, at most 102 for a batch of registrations of any length (longer ones
    are refused before the loop) and at most 138 for a snapshot, whatever its
    arguments, the contents of the storage and the answers of the host. *)
Theorem entry_points_terminate {Sto Wld} `{!InstanceStorage Sto} `{!World Wld} cx (st : state Sto Wld)
    offset limit :
  in_u32 limit ->
  (forall c, 0 <= meter one_each cx (exec c) st <= call_bound c /\ call_bound c <= 23) /\
  (forall a ids, 0 <= meter one_each cx (register_tasks a ids) st <= 102) /\
  0 <= meter one_each cx (get_snapshot offset limit) st <= 138.
Proof.
  intros Hl. split_and!.
  - intros c. split; [|by destruct c]. eapply within_meter, exec_within. apply one_each_nonneg.
  - intros a ids. eapply within_meter, register_tasks_within. apply one_each_nonneg.
  - eapply within_meter, get_snapshot_within, Hl. apply one_each_nonneg.
  - eapply within_meter, get_snapshot_within, Hl. apply one_each_nonneg.
Qed.

Lemma entry_points_terminate_witness :
  in_u32 u32_max /\ meter one_each (at_time 12) (get_snapshot 0 u32_max) (scene 12) <= 138.
Proof.
  assert (in_u32 u32_max) as Hl by by_eval. split; [exact Hl|].
  exact (proj2 (proj2 (proj2 (entry_points_terminate (at_time 12) (scene 12) 0 u32_max Hl)))).
Defined.

(** ** The gas estimates against their own schedule

    The price list at the head of [gas.rs]: instructions for an instance read or
    write, a cross-contract call, the upgrade, and a topic or value of an event.
    A presence check ([has]) is priced as a read and a removal as a write; calls the
    list gives no price for (authorization, TTL extension, time, own address) cost
    nothing here. *)

Definition event_width (topics : list string) (d : event_data) : Z :=
  Z.of_nat (length topics) + match d with DTuple l => Z.of_nat (length l) | DValue _ => 1 end.

Definition BASE_INVOCATION : Z := 500000.

Definition schedule : prices := fun X op =>
  match op with
  | StorageGet _ | StorageHas _ => 50000
  | StorageSet _ _ | StorageRemove _ => 150000
  | TokenTransfer _ _ _ _ | TryReleaseFunds _ _ | InvokeContract _ _ _ => 500000
  | UpdateCurrentContractWasm _ => 2000000
  | EventsPublish topics d => 30000 * event_width topics d
  | ExtendTtl _ _ | RequireAuth _ | LedgerTimestamp | CurrentContractAddress => 0
  end.

(** The operation of the estimate table an entry point is. *)
Definition op_of (c : Call) : option Operation :=
  match c with
  | Call.RegisterTask _ _ => Some Operation.RegisterTask
  | Call.Vote _ _ => Some Operation.Vote
  | Call.AddGuardian _ _ => Some Operation.AddGuardian
  | Call.SetReputation _ _ _ => Some Operation.SetReputation
  | Call.LockTokens _ _ => Some Operation.LockTokens
  | Call.UnlockTokens _ => Some Operation.UnlockTokens
  | Call.ResignGuardian _ => Some Operation.ResignGuardian
  | Call.SetWeightThreshold _ _ => Some Operation.SetWeightThreshold
  | Call.StartRewardStream _ _ _ _ => Some Operation.StartRewardStream
  | Call.TogglePause _ | Call.Pause _ | Call.Unpause _ => Some Operation.TogglePause
  | Call.RecordFailure => Some Operation.RecordFailure
  | Call.ResetCircuitBreaker _ => Some Operation.ResetCircuitBreaker
  | _ => None
  end.

(** What the dearest run of each operation costs. *)
Definition metered_bound (op : Operation) : Z :=
  match op with
  | Operation.RegisterTask => 1350000
  | Operation.Vote => 2560000
  | Operation.AddGuardian => 950000
  | Operation.SetReputation => 700000
  | Operation.LockTokens => 1300000
  | Operation.UnlockTokens => 1350000
  | Operation.ResignGuardian => 1500000
  | Operation.SetWeightThreshold => 650000
  | Operation.StartRewardStream => 1590000
  | Operation.TogglePause => 700000
  | Operation.RecordFailure => 960000
  | Operation.ResetCircuitBreaker => 800000
  | Operation.UpgradeContract => 2500000
  end.

Lemma schedule_nonneg : nonneg_prices schedule.
Proof. intros X op. destruct op as [| | | | | | | | ? []| | | |]; simpl; unfold event_width; lia. Qed.

Lemma schedule_within c op :
  op_of c = Some op -> affordable schedule (metered_bound op - BASE_INVOCATION) (exec c).
Proof. destruct c; intros [= <-]; unfold exec, BASE_INVOCATION; within_solve. Qed.

(** The operations whose estimate covers every run. *)
Definition covered : list Operation :=
  [Operation.SetReputation; Operation.SetWeightThreshold; Operation.TogglePause;
   Operation.ResetCircuitBreaker; Operation.UpgradeContract].

(** A history and a call with a dearest run, for every operation but the
    upgrade, which no entry point of [exec] is. *)
Definition dear_run (op : Operation) : option (list (context * Call) * context * Call) :=
  match op with
  | Operation.RegisterTask => Some (take 7 script, at_time 8, Call.RegisterTask admin 1)
  | Operation.Vote => Some (take 11 script, at_time 12, Call.Vote guardian2 1)
  | Operation.AddGuardian => Some (take 1 script, at_time 2, Call.AddGuardian admin guardian1)
  | Operation.SetReputation => Some (take 3 script, at_time 4, Call.SetReputation admin guardian1 200)
  | Operation.LockTokens => Some (take 5 script, at_time 6, Call.LockTokens guardian1 50)
  | Operation.UnlockTokens =>
      Some (take 7 script ++ [(at_time 8, Call.RemoveGuardian admin guardian1)], at_time 9,
            Call.UnlockTokens guardian1)
  | Operation.ResignGuardian => Some (take 7 script, at_time 8, Call.ResignGuardian guardian1)
  | Operation.SetWeightThreshold => Some (take 3 script, at_time 4, Call.SetWeightThreshold admin 300)
  | Operation.StartRewardStream =>
      Some (take 12 script, at_time 13, Call.StartRewardStream admin drips1 worker 1)
  | Operation.TogglePause => Some (take 3 script, at_time 4, Call.TogglePause admin)
  | Operation.RecordFailure =>
      Some (take 3 script ++ replicate 50 (at_time 4, Call.RecordFailure), at_time 5, Call.RecordFailure)
  | Operation.ResetCircuitBreaker => Some (take 3 script, at_time 4, Call.ResetCircuitBreaker admin)
  | Operation.UpgradeContract => None
  end.

(** A run's price, the invocation included. *)
Definition metered {Sto Wld} `{!InstanceStorage Sto} `{!World Wld} cx (p : prog unit) (st : state Sto Wld) : Z :=
  BASE_INVOCATION + meter schedule cx p st.

Definition dear_run_ok (op : Operation) : bool :=
  match dear_run op with
  | Some (l, cx, c) =>
      let st := invoke_all l (deployed w0) in
      bool_decide (calls_wf l) && bool_decide (op_of c = Some op)
      && bool_decide (ctx_wf cx) && bool_decide (call_wf c)
      && bool_decide (ending (run cx (exec c) st) = Some (inl tt))
      && (metered cx (exec c) st =? metered_bound op)
  | None => bool_decide (op = Operation.UpgradeContract)
  end.

Lemma dear_runs_ok op : dear_run_ok op.
Proof. destruct op; vm_compute; exact I. Qed.

Lemma metered_within {Sto Wld} `{!InstanceStorage Sto} `{!World Wld} cx (p : prog unit) (st : state Sto Wld) n :
  affordable schedule (n - BASE_INVOCATION) p -> metered cx p st <= n.
Proof. intros Hp. pose proof (within_meter _ _ _ _ _ cx st schedule_nonneg Hp). unfold metered. lia. Qed.

(** C38: take the instruction prices [gas.rs] lists at its head, with a presence
    check priced as a read, a removal as a write, and what the list does not mention
    (authorization, TTL extensions, time) at nothing.  Then [metered_bound] is the
    exact worst case of each of the thirteen operations of the estimate table.  On no
    host, in no state and from no context does a run of its entry point cost more, and
    in a reachable state of the sample host a completed call costs as much.  The
    table's estimate covers this cost for five operations and falls short of it for
    the other eight. *)
Theorem gas_estimates_measured :
  (forall Sto Wld (HS : InstanceStorage Sto) (HW : World Wld) cx (st : state Sto Wld),
     (forall c op, op_of c = Some op -> metered cx (exec c) st <= metered_bound op) /\
     (forall a h, metered cx (upgrade_contract a h) st <= metered_bound Operation.UpgradeContract)) /\
  (forall op, op <> Operation.UpgradeContract ->
     exists (st : sample_state) cx c, reachable st /\ op_of c = Some op /\
       (exists st', commits cx c st st') /\ metered cx (exec c) st = metered_bound op) /\
  (exists (st : sample_state) cx a h, reachable st /\
     (exists st', run cx (upgrade_contract a h) st = Done tt st') /\
     metered cx (upgrade_contract a h) st = metered_bound Operation.UpgradeContract) /\
  (forall op, metered_bound op <= Gas.get_estimated_cost op <-> op ∈ covered).
Proof.
  split; [|split; [|split]].
  - intros Sto Wld HS HW cx st. split; intros.
    + by apply metered_within, schedule_within.
    + apply metered_within. within_solve.
  - intros op Hop. pose proof (dear_runs_ok op) as Hok. unfold dear_run_ok in Hok.
    destruct (dear_run op) as [[[l cx] c]|]; [|by apply bool_decide_unpack in Hok].
    rewrite !andb_True, !bool_decide_spec in Hok. destruct Hok as [[[[[H1 H2] H3] H4] H5] H6].
    exists (invoke_all l (deployed w0)), cx, c.
    split_and!; [by apply reachable_invoke_all, reachable_deployed|done| |by apply Z.eqb_eq, Is_true_true].
    by apply ending_commits.
  - exists (scene 3), (at_time 4), admin, []. split_and!; [apply scene_reachable| |vm_compute; reflexivity].
    apply ending_done. vm_compute. reflexivity.
  - intros op. rewrite <- (bool_decide_spec (op ∈ covered)), <- (bool_decide_spec (_ <= _)).
    by destruct op.
Qed.

(** The vote that resolves task 1 costs the bound, which is more than its estimate. *)
Lemma gas_estimates_measured_witness :
  metered (at_time 12) (exec (Call.Vote guardian2 1)) (scene 11) = 2560000 /\
  metered (at_time 12) (exec (Call.Vote guardian2 1)) (scene 11) <= metered_bound Operation.Vote /\
  ~ metered_bound Operation.Vote <= Gas.get_estimated_cost Operation.Vote.
Proof.
  split; [vm_compute; reflexivity|]. destruct gas_estimates_measured as (H & _ & _ & Hc). split.
  - exact (proj1 (H _ _ _ _ (at_time 12) (scene 11)) (Call.Vote guardian2 1) Operation.Vote eq_refl).
  - intros Hle. apply Hc in Hle. assert (Operation.Vote ∉ covered) as Hn by by_eval. exact (Hn Hle).
Defined.
