(* ===== verification/Reenter.v ===== *)
(** * Histories with re-entry

    The host forbids a contract to be called while it runs; [run] relies on it.
    Here it is not forbidden: [rrun R] lets [R] happen around every external call,
    [reenters d] are sequences of committed entry points nested [d] deep, and
    [rreachable] the states they lead to.  The first part shows what the mutex of
    [reentrancy.rs] guarantees by itself, the second what it leaves to the host. *)

From stdpp Require Import prelude gmap list strings.
From Stdlib Require Import ZArith Lia.
From S2P Require Import Prelude.
From S2P Require Import Types.
From S2P Require Import Host.
From S2P Require Import Logic.
From S2P Require Import Frame.
From S2P Require Import Typing.
From S2P Require Import SampleHost.
From S2P Require Import Events.
From S2P Require Import Reentrancy.
From S2P Require Import Reputation.
From S2P Require Import Guardian.
From S2P Require Import CircuitBreaker.
From S2P Require Import Storage.
From S2P Require Import Tasks.
From S2P Require Import Drips.
From S2P Require Import Contract.
From S2P Require Import VoteSpec.
From S2P Require Import System.
From S2P Require Import SampleRun.
From S2P Require Import Spec.
From S2P Require Import Commits.
From S2P Require Import Lifecycle.
From S2P Require Import Tally.
From S2P Require Import Registry.
From S2P Require Import Refinement.

(** ** Runs with re-entry *)

(** Whom a host call hands control to. *)
Inductive callee := TheToken | TheVault | AnyContract.

Definition callee_of {X} (op : HostE X) : option callee :=
  match op with
  | TokenTransfer _ _ _ _ => Some TheToken
  | TryReleaseFunds _ _ => Some TheVault
  | InvokeContract _ _ _ => Some AnyContract
  | _ => None
  end.

Definition external {X} (op : HostE X) : bool := bool_decide (is_Some (callee_of op)).

(** What a host lets happen: who may call back, from which contexts entry points
    are called, and how the world may change by itself. *)
Record host (Wld : Type) := Host {
  calls_in : callee -> bool;
  context_ok : context -> Prop;
  drifts : relation Wld;
}.
Arguments Host {Wld}.
Arguments calls_in {Wld}.
Arguments context_ok {Wld}.
Arguments drifts {Wld}.

(** The host that forbids nothing. *)
Definition open_host {Wld} : host Wld := Host (fun _ => true) ctx_wf (fun _ _ => True).

(** Whether the contract may be re-entered during a host call. *)
Definition exposed {Wld} (h : host Wld) {X} (op : HostE X) : bool :=
  match callee_of op with Some c => calls_in h c | None => false end.

Lemma exposed_open {Wld X} (op : HostE X) : exposed (open_host (Wld := Wld)) op = external op.
Proof. unfold exposed, external. by destruct (callee_of op). Qed.

Section runs.
Context {Sto Wld : Type} `{!InstanceStorage Sto} `{!World Wld}.
Implicit Types (st : state Sto Wld) (cx : context) (R : relation (state Sto Wld)) (h : host Wld).

(** What may happen to the state around a host call: [R] while a contract that
    calls back has control, nothing otherwise. *)
Definition around h R {X} (op : HostE X) : relation (state Sto Wld) := if exposed h op then R else eq.

(** A run in which [R] happens before and after the effect of every exposed
    call. *)
Fixpoint rrun_on h R cx {A} (p : prog A) st (o : outcome Sto Wld A) : Prop :=
  match p with
  | Ret a => o = Done a st
  | Fail e => o = Failed e st
  | Panic r => o = Trapped r
  | Vis op k =>
      exists st1, around h R op st st1 /\
        match handle cx op st1 with
        | inl (x, st2) => exists st3, around h R op st2 st3 /\ rrun_on h R cx (k x) st3 o
        | inr r => o = Trapped r
        end
  end.

#[global] Arguments rrun_on : simpl never.

(** Calls of other contracts that call back: committed entry points, each of
    them a run with re-entry itself, and changes of the world. *)
Definition calls_back h R : relation (state Sto Wld) := fun st st' =>
  (exists cx c, context_ok h cx /\ call_wf c /\ rrun_on h R cx (exec c) st (Done tt st')) \/
  (exists w, drifts h (world st) w /\ st' = with_world w st).

(** Any number of them, nested at most [d] deep. *)
Fixpoint reenters_on h (d : nat) : relation (state Sto Wld) :=
  match d with
  | O => eq
  | S d => rtc (calls_back h (reenters_on h d))
  end.

(** *** Laws *)

Lemma rrun_mono h h' R R' cx {A} (p : prog A) st o :
  (forall c, calls_in h c = true -> calls_in h' c = true) ->
  (forall s, R' s s) -> (forall s s', R s s' -> R' s s') -> rrun_on h R cx p st o -> rrun_on h' R' cx p st o.
Proof.
  intros Hh Hrefl HR. assert (forall X (op : HostE X) s s', around h R op s s' -> around h' R' op s s') as Ha.
  { intros X op s s'. unfold around, exposed. destruct (callee_of op) as [c|]; [|done].
    specialize (Hh c). destruct (calls_in h c); [by rewrite Hh; auto|intros ->; by destruct (calls_in h' c)]. }
  revert st. induction p as [a|e|r|X op k IH]; intros st; [done..|].
  unfold rrun_on; fold @rrun_on. intros (st1 & H1 & H2). exists st1. split; [auto|].
  destruct (handle cx op st1) as [[x st2]|r]; [|done]. destruct H2 as (st3 & H3 & H4).
  exists st3. split; [auto|]. by apply IH.
Qed.

Lemma rrun_bind_done h R cx {A B} (p : prog A) (f : A -> prog B) st b st' :
  rrun_on h R cx (p ≫= f) st (Done b st') <->
  exists a st1, rrun_on h R cx p st (Done a st1) /\ rrun_on h R cx (f a) st1 (Done b st').
Proof.
  unfold mbind, prog_mbind. revert st. induction p as [a|e|r|X op k IH]; intros st.
  - unfold prog_bind. unfold rrun_on at 2. split; [by eauto|]. by intros (? & ? & [= <- <-] & ?).
  - unfold prog_bind, rrun_on. split; [done|]. by intros (? & ? & ? & ?).
  - unfold prog_bind, rrun_on. split; [done|]. by intros (? & ? & ? & ?).
  - unfold prog_bind; fold @prog_bind. unfold rrun_on at 1 2; fold @rrun_on. split.
    + intros (st1 & H1 & H2). destruct (handle cx op st1) as [[x st2]|r] eqn:E; [|done].
      destruct H2 as (st3 & H3 & (a & st4 & H4 & H5)%IH). exists a, st4. split; [|done].
      exists st1. rewrite E. eauto.
    + intros (a & st4 & (st1 & H1 & H2) & H5). exists st1. split; [done|].
      destruct (handle cx op st1) as [[x st2]|r] eqn:E; [|done].
      destruct H2 as (st3 & H3 & H4). exists st3. split; [done|]. apply IH. eauto.
Qed.

(** A program none of whose calls is exposed runs as it does alone. *)
Definition quiet_protocol h : protocol := {|
  guar X op := exposed h op = false; rely X op x := True; may_fail := any; may_trap := any |}.

Definition quiet h {A} (p : prog A) : Prop := obeys (quiet_protocol h) p any.

Lemma rrun_quiet h R cx {A} (p : prog A) st o : quiet h p -> rrun_on h R cx p st o <-> run cx p st = o.
Proof.
  revert st. induction p as [a|e|r|X op k IH]; intros st Hq; [by split; intros Ho; symmetry; apply Ho..|].
  destruct Hq as [Hop Hk]. simpl in Hop. unfold rrun_on, around; fold @rrun_on. rewrite Hop, run_vis.
  assert (forall x st3, rrun_on h R cx (k x) st3 o <-> run cx (k x) st3 = o) as HIH by (intros; by apply IH, Hk).
  split.
  - intros (st1 & <- & H2). destruct (handle cx op st) as [[x st2]|r]; [|done].
    destruct H2 as (st3 & <- & H4). by apply HIH.
  - intros Ho. exists st. split; [done|]. destruct (handle cx op st) as [[x st2]|r]; [|done].
    exists st2. split; [done|]. by apply HIH.
Qed.

(** A program that calls no other contract is quiet on every host. *)
Definition internal_protocol : protocol := {|
  guar X op := external op = false; rely X op x := True; may_fail := any; may_trap := any |}.

Definition internal {A} (p : prog A) : Prop := obeys internal_protocol p any.

Lemma internal_quiet h {A} (p : prog A) : internal p -> quiet h p.
Proof.
  induction p as [a|e|r|X op k IH]; intros Hi; [done..|]. destruct Hi as [Hop Hk]. split.
  - simpl in *. unfold external, exposed in *. by destruct (callee_of op).
  - intros x Hx. by apply IH, Hk.
Qed.

Lemma rrun_internal h R cx {A} (p : prog A) st o :
  internal p -> rrun_on h R cx p st o <-> run cx p st = o.
Proof. intros Hi. by apply rrun_quiet, internal_quiet. Qed.

(** Without interference nothing is exposed. *)
Lemma rrun_eq h cx {A} (p : prog A) st o : rrun_on h eq cx p st o <-> run cx p st = o.
Proof.
  rewrite <- (rrun_quiet (Host (fun _ => false) (context_ok h) (drifts h)) eq).
  2: { unfold quiet. clear st o. induction p as [a|e|r|X op k IH]; [done..|]. split; [|intros x _; apply IH].
       simpl. unfold exposed. by destruct (callee_of op). }
  split; intros H; [|by eapply rrun_mono, H].
  revert st H. induction p as [a|e|r|X op k IH]; intros st; [done..|].
  assert (forall h' s s', around h' eq op s s' <-> s = s') as Ha
    by (intros h' s s'; unfold around; by destruct (exposed h' op)).
  unfold rrun_on; fold @rrun_on. intros (st1 & H1%Ha & H2). exists st1. rewrite Ha. split; [done|].
  destruct (handle cx op st1) as [[x st2]|r]; [|done]. destruct H2 as (st3 & H3%Ha & H4).
  exists st3. rewrite Ha. split; [done|]. by apply IH.
Qed.

(** Protocols hold of these runs too, if the interference keeps the invariant. *)
Lemma obeys_rrun pr h R cx Inv {A} (p : prog A) Q st a st' :
  upholds pr cx Inv -> (forall s s', R s s' -> Inv s -> Inv s') ->
  Inv st -> obeys pr p Q -> rrun_on h R cx p st (Done a st') -> Inv st' /\ Q a.
Proof.
  intros Hup HR. assert (forall X (op : HostE X) s s', around h R op s s' -> Inv s -> Inv s') as Ha.
  { intros X op s s'. unfold around. destruct (exposed h op); [by apply HR|by intros ->]. }
  revert st. induction p as [b|e|r|X op k IH]; intros st HI Hob Hrun; [|done..|].
  { injection Hrun as -> ->. done. }
  destruct Hob as [Hg Hk]. destruct Hrun as (st1 & H1 & H2).
  assert (Inv st1) as HI1 by (by eapply Ha).
  specialize (Hup X op st1 HI1 Hg). destruct (handle cx op st1) as [[x st2]|r]; [|done].
  destruct Hup as [Hr HI2]. destruct H2 as (st3 & H3 & H4). eapply IH; [by eapply Ha|by apply Hk|exact H4].
Qed.

(** A host that allows more reaches more, and so does deeper nesting. *)
Lemma reenters_mono h h' d d' st st' :
  (forall c, calls_in h c = true -> calls_in h' c = true) ->
  (forall cx, context_ok h cx -> context_ok h' cx) -> (forall w w', drifts h w w' -> drifts h' w w') ->
  (d <= d')%nat -> reenters_on h d st st' -> reenters_on h' d' st st'.
Proof.
  intros H1 H2 H3. revert d' st st'. induction d as [|d IH]; intros d' st st' Hd.
  { intros ->. destruct d'; [done|apply rtc_refl]. }
  destruct d' as [|d']; [lia|].
  change (rtc (calls_back h (reenters_on h d)) st st' -> rtc (calls_back h' (reenters_on h' d')) st st').
  apply rtc_subrel. intros s s' [(cx & c & K1 & K2 & K3)|(w & K1 & K2)]; [left|right; by exists w; auto].
  exists cx, c. split_and!; [auto|done|]. eapply rrun_mono, K3; [done| |intros; apply IH; [lia|done]].
  intros s0. destruct d'; [done|apply rtc_refl].
Qed.

(** Invariants of re-entrant histories: kept by every entry point, provided the
    calls nested in it keep them. *)
Lemma reenters_ind h (P : relation (state Sto Wld)) :
  PreOrder P ->
  (forall w st, drifts h (world st) w -> P st (with_world w st)) ->
  (forall R cx c st st', (forall s s', R s s' -> P s s') -> context_ok h cx -> call_wf c ->
     rrun_on h R cx (exec c) st (Done tt st') -> P st st') ->
  forall d st st', reenters_on h d st st' -> P st st'.
Proof.
  intros HP Hw Hc. induction d as [|d IH]; intros st st'; [by intros ->|].
  change (rtc (calls_back h (reenters_on h d)) st st' -> P st st').
  induction 1 as [st|st st1 st' [(cx & c & H1 & H2 & H3)|(w & H1 & ->)] _ IHr]; [done|..].
  - etrans; [|done]. by eapply Hc.
  - etrans; [|done]. by apply Hw.
Qed.

End runs.

(** On the open host. *)
Abbreviation rrun := (rrun_on open_host).
Abbreviation reenters := (reenters_on open_host).

(** The states a host that forbids nothing can bring the contract to. *)
Definition rreachable `{!InstanceStorage Sto} `{!World Wld} (st : state Sto Wld) : Prop :=
  exists w d, reenters d (deployed w) st.

(** What any host does next is reachable too. *)
Lemma rreachable_on `{!InstanceStorage Sto} `{!World Wld} (h : host Wld) d (st st' : state Sto Wld) :
  (forall cx, context_ok h cx -> ctx_wf cx) -> rreachable st -> reenters_on h d st st' -> rreachable st'.
Proof.
  intros Hh (w & d0 & H0) H. exists w, (S (d0 + d)).
  apply (reenters_mono _ open_host _ (S (d0 + d))) in H; [|done|done|done|lia].
  apply (reenters_mono _ open_host _ (S (d0 + d))) in H0; [|done|done|done|lia].
  change (rtc (calls_back open_host (reenters (d0 + d))) (deployed w) st').
  etrans; [exact H0|exact H].
Qed.

Lemma reachable_rreachable `{!InstanceStorage Sto} `{!World Wld} (st : state Sto Wld) :
  reachable st -> rreachable st.
Proof.
  intros [w Hs]. exists w, 1%nat. change (rtc (calls_back open_host eq) (deployed w) st).
  induction Hs as [st|st st1 st2 Hst _ IH]; [apply rtc_refl|].
  destruct Hst as [cx c st st' (H1 & H2 & H3)|cx c st _|w' st].
  - eapply rtc_l; [|done]. left. exists cx, c. by rewrite rrun_eq.
  - done.
  - eapply rtc_l; [|done]. right. by exists w'.
Qed.

(** Inverts a completed run with re-entry into its host calls: [run_inv] up to the
    external ones, which stay. *)
Ltac rrun_internal_prim H := apply rrun_internal in H; [|unfold internal; obey; done].

Ltac rrun_step :=
  match goal with
  | H : rrun_on _ _ _ (Fail _) _ (Done _ _) |- _ => discriminate H
  | H : rrun_on _ _ _ (Panic _) _ (Done _ _) |- _ => discriminate H
  | H : rrun_on _ _ _ (_ ≫= _) _ (Done _ _) |- _ =>
      apply rrun_bind_done in H; destruct H as (? & ? & ? & H); cbv beta zeta in H
  | H : rrun_on _ _ _ (if ?b then _ else _) _ _ |- _ => destruct b eqn:?
  | H : rrun_on _ _ _ (match ?x with _ => _ end) _ _ |- _ => destruct x eqn:?
  | H : rrun_on _ _ _ ?p _ (Done _ _) |- _ =>
      lazymatch p with
      | perform (TokenTransfer _ _ _ _) => fail
      | perform (TryReleaseFunds _ _) => fail
      | perform (InvokeContract _ _ _) => fail
      | resolve_if_met _ _ _ => fail
      | record_vote _ _ _ _ => fail
      | mret _ => rrun_internal_prim H
      | storage_get _ _ => rrun_internal_prim H
      | storage_has _ => rrun_internal_prim H
      | storage_set _ _ _ => rrun_internal_prim H
      | storage_remove _ => rrun_internal_prim H
      | require_auth _ => rrun_internal_prim H
      | extend_ttl _ _ => rrun_internal_prim H
      | events_publish _ _ => rrun_internal_prim H
      | ledger_timestamp => rrun_internal_prim H
      | current_contract_address => rrun_internal_prim H
      | unwrap _ => rrun_internal_prim H
      | ok_or _ _ => rrun_internal_prim H
      | arith _ => rrun_internal_prim H
      | _ => let h := prog_head p in unfold h in H; cbv beta zeta in H
      end
  end; run_inv.

Ltac rrun_inv := repeat rrun_step.

Section mutex.
Context {Sto Wld : Type} `{!InstanceStorage Sto} `{!World Wld}.
Implicit Types (st : state Sto Wld) (cx : context) (R : relation (state Sto Wld)).

(** *** The mutex

    What only the entry points that take the mutex write. *)
Definition mutex_key (k : DataKey) : bool :=
  match k with
  | DataKey.Lock | DataKey.AllVotes | DataKey.Voted _ _ | DataKey.AllTasks => true
  | _ => false
  end.

Definition task_key (k : DataKey) : bool :=
  match k with DataKey.ActiveTask _ | DataKey.ArchivedTask _ => true | _ => false end.

(** What a held mutex protects: its keys, every task's record, which may at most
    be archived, and the ballots announced. *)
Record still st st' : Prop := {
  still_keys k : mutex_key k = true -> sget k (storage st') = sget k (storage st);
  still_tasks i : phase_task (phase_of st' i) = phase_task (phase_of st i);
  still_ballots i : ballots st' i = ballots st i;
}.

(** What a call or a callback does at least: it keeps the state well typed, and
    leaves alone what a held mutex protects. *)
Definition steady st st' : Prop :=
  well_typed st -> well_typed st' /\ (locked st = true -> still st st').

Definition takes_mutex (c : Call) : bool :=
  match c with Call.RegisterTask _ _ | Call.CancelTask _ _ | Call.Vote _ _ => true | _ => false end.

Lemma still_locked st st' : still st st' -> locked st' = locked st.
Proof. intros H. unfold locked. by rewrite (still_keys _ _ H). Qed.

Lemma still_frame st st' :
  (forall k, mutex_key k || task_key k = true -> sget k (storage st') = sget k (storage st)) ->
  (forall i, ballots st' i = ballots st i) -> still st st'.
Proof.
  intros Hk Hb. split; [|intros i|done]; [by intros k Hm; apply Hk; rewrite Hm|].
  unfold phase_of, active_task, archived_task.
  by rewrite (look_frame _ _ _ _ (Hk (DataKey.ActiveTask i) eq_refl)),
    (look_frame _ _ _ _ (Hk (DataKey.ArchivedTask i) eq_refl)).
Qed.

Lemma still_refl st : still st st.
Proof. done. Qed.

Lemma still_trans st1 st2 st3 : still st1 st2 -> still st2 st3 -> still st1 st3.
Proof.
  intros [H1 H2 H3] [K1 K2 K3]. split; intros; [rewrite K1|rewrite K2|rewrite K3]; auto.
Qed.

Lemma steady_trans st1 st2 st3 : steady st1 st2 -> steady st2 st3 -> steady st1 st3.
Proof.
  intros H12 H23 Hwt. destruct (H12 Hwt) as [Hwt2 Hs12]. destruct (H23 Hwt2) as [Hwt3 Hs23].
  split; [done|]. intros Hl. specialize (Hs12 Hl).
  eapply still_trans, Hs23; [done|]. by rewrite (still_locked st1 st2).
Qed.

#[local] Instance steady_preorder : PreOrder steady.
Proof. split; [by intros st Hwt|]. intros s1 s2 s3. apply steady_trans. Qed.

(** A change that the store does not see and that announces no ballot. *)
Lemma steady_silent st st' :
  storage st' = storage st -> (forall i, ballots st' i = ballots st i) -> steady st st'.
Proof.
  intros Hs Hb Hwt. split; [by unfold well_typed; rewrite Hs|]. intros _.
  apply still_frame; [|done]. intros k _. by rewrite Hs.
Qed.

Lemma log_steady e st : (forall i, ballot_of i e = None) -> steady st (log e st).
Proof.
  intros He. apply steady_silent; [done|]. intros i. unfold ballots, log. cbn [effects].
  rewrite omap_app. cbn [omap list_omap]. by rewrite He, app_nil_r.
Qed.

(** Who takes the mutex does not complete while it is held. *)
Lemma held_excludes R cx c st st' :
  takes_mutex c = true -> locked st = true -> ~ rrun R cx (exec c) st (Done tt st').
Proof.
  unfold locked. intros Hc Hl Hrun.
  destruct c; simpl in Hc; try done; unfold exec in Hrun; rrun_inv; congruence.
Qed.

Definition archives (c : Call) : bool := match c with Call.ArchiveTask _ => true | _ => false end.

(** Entry points that call no other contract commit as they do alone. *)
Lemma internal_commit R cx c st st' :
  internal (exec c) -> ctx_wf cx -> call_wf c -> rrun R cx (exec c) st (Done tt st') -> commits cx c st st'.
Proof. intros Hi Hcx Hc Hrun. apply rrun_internal in Hrun; [|done]. by split_and!. Qed.

Lemma archive_internal i : internal (exec (Call.ArchiveTask i)).
Proof. unfold internal, exec. obey; try done; by unfold any. Qed.

Lemma register_internal a i : internal (exec (Call.RegisterTask a i)).
Proof. unfold internal, exec. obey; try done; by unfold any. Qed.

Lemma cancel_internal a i : internal (exec (Call.CancelTask a i)).
Proof. unfold internal, exec. obey; try done; by unfold any. Qed.

Lemma archive_still cx i st st' : well_typed st -> commits cx (Call.ArchiveTask i) st st' -> still st st'.
Proof.
  intros Hwt Hcm. pose proof (commits_typed cx _ st st' Hwt Hcm) as [_ Hf]. split.
  - intros k Hk. apply Hf. destruct k; try done; simpl; solve_not_elem.
  - intros j. pose proof (phase_commit cx _ st st' j Hwt Hcm) as Ht. by inversion Ht.
  - intros j. apply (ballots_frame cx (Call.ArchiveTask i)); [by apply topics_no_vote|done].
Qed.

(** Nothing else writes what the mutex protects. *)
Lemma footprint_no_mutex c k :
  takes_mutex c = false -> archives c = false -> mutex_key k || task_key k = true -> k ∉ footprint c.
Proof. destruct c, k; try done; intros _ _ _; simpl; solve_not_elem. Qed.

(** The text of an entry point: its types and its topics. *)
Definition text (c : Call) : protocol := both (typed_protocol (footprint c)) (logs_protocol (has_topic (topics c))).

Lemma exec_text c : call_wf c -> obeys (text c) (exec c) any.
Proof.
  intros Hc. eapply obeys_mono; [apply obeys_both; [by apply exec_typed|apply exec_publishes]|done].
Qed.

(** One host call of a program that does not touch what the mutex protects. *)
Lemma op_still c cx st0 :
  takes_mutex c = false -> archives c = false -> ctx_wf cx ->
  upholds (text c) cx (fun s => well_typed s /\ still st0 s).
Proof.
  intros Hc Ha Hcx X op s [Hwt Hs] [Hg Hlog].
  pose proof (typed_upholds (footprint c) cx s Hcx X op s (conj Hwt (fun _ _ => eq_refl)) Hg) as H.
  destruct (handle cx op s) as [[x s']|r] eqn:E; [|by split]. destruct H as (Hr & Hwt' & Hfr).
  split; [done|]. split; [done|]. eapply still_trans; [done|]. apply still_frame.
  - intros k Hk. apply Hfr. by apply footprint_no_mutex.
  - intros i. apply handle_inl in E as [_ He]. unfold ballots. rewrite He, omap_app.
    rewrite (ballots_other i (topics c) (op_log op)), app_nil_r; [done| |by apply topics_no_vote; destruct c].
    destruct op; repeat constructor; done.
Qed.

Lemma rcommit_steady R cx c st st' :
  (forall s s', R s s' -> steady s s') -> ctx_wf cx -> call_wf c ->
  rrun R cx (exec c) st (Done tt st') -> steady st st'.
Proof.
  intros HR Hcx Hc Hrun Hwt. split.
  - refine (proj1 (obeys_rrun (typed_protocol (footprint c)) open_host R cx well_typed (exec c) any st tt st' _ _ Hwt (exec_typed c Hc) Hrun)).
    + intros X op s Hs Hg.
      pose proof (typed_upholds (footprint c) cx s Hcx X op s (conj Hs (fun _ _ => eq_refl)) Hg) as H.
      destruct (handle cx op s) as [[x s']|r]; [|done]. tauto.
    + intros s s' H Hs. exact (proj1 (HR s s' H Hs)).
  - intros Hl. destruct (takes_mutex c) eqn:Ht; [by destruct (held_excludes R cx c st st' Ht Hl)|].
    destruct (archives c) eqn:Ha.
    { destruct c; try done. eapply archive_still, internal_commit; [done|apply archive_internal|done..]. }
    refine (proj2 (proj1 (obeys_rrun _ open_host R cx _ (exec c) any st tt st' (op_still c cx st Ht Ha Hcx) _
              (conj Hwt (still_refl st)) (exec_text c Hc) Hrun))).
    intros s s' H [Hwt1 Hs1]. destruct (HR s s' H Hwt1) as [Hwt2 Hs2]. split; [done|].
    eapply still_trans, Hs2; [done|]. by rewrite (still_locked st s Hs1).
Qed.

Lemma reenters_steady d st st' : reenters d st st' -> steady st st'.
Proof.
  revert d st st'. apply reenters_ind; [apply steady_preorder| |].
  - intros w st _. by apply steady_silent.
  - apply rcommit_steady.
Qed.

(** *** Voting under re-entry *)

Lemma external_steady R cx {X} (op : HostE X) st x st' :
  (forall s s', R s s' -> steady s s') -> external op = true ->
  rrun R cx (perform op) st (Done x st') -> steady st st'.
Proof.
  intros HR Hop (s1 & H1 & H2). unfold around in *. rewrite !exposed_open, Hop in *.
  etrans; [by apply HR|]. destruct (handle cx op s1) as [[y s2]|r] eqn:E; [|done].
  destruct H2 as (s3 & H3 & [= -> ->]). etrans; [|by apply HR].
  apply handle_inl in E as [Hs He]. apply steady_silent; [by rewrite Hs; destruct op|].
  intros i. unfold ballots. rewrite He, omap_app. destruct op; try done; by rewrite app_nil_r.
Qed.

(** The vault is asked with the mutex held: whatever it calls back, what the
    mutex protects stays; and the tally handed on is the one handed in. *)
Lemma resolve_steady R cx i w t t' st st' :
  (forall s s', R s s' -> steady s s') ->
  rrun R cx (resolve_if_met i w t) st (Done t' st') ->
  steady st st' /\ Task.votes t' = Task.votes t /\
  Task.total_weight_accrued t' = Task.total_weight_accrued t.
Proof.
  intros HR Hrun. unfold resolve_if_met in Hrun. rrun_inv; split_and!; try done;
    [|by apply log_steady].
  match goal with H : rrun _ _ (perform _) (log ?e _) _ |- _ =>
    apply external_steady in H; [|done..]; etrans; [by apply (log_steady e)|done] end.
Qed.

(** What [record_vote] leaves. *)
Lemma record_vote_done R cx g i w t st st' :
  rrun R cx (record_vote g i w t) st (Done tt st') ->
  locked st' = false /\ all_votes st' = all_votes st ++ [(i, g)] /\ all_tasks st' = all_tasks st /\
  (forall j h, has_voted st' j h = bool_decide ((j, h) = (i, g)) || has_voted st j h) /\
  (forall j, ballots st' j = ballots st j ++ (if decide (i = j) then [(g, w)] else [])) /\
  phase_of st' i = Active t /\ (forall j, j <> i -> phase_of st' j = phase_of st j).
Proof.
  intros Hrun. apply rrun_internal in Hrun; [|unfold internal; obey; done]. run_inv. split_and!.
  - unfold locked. simpl. by rewrite sget_sremove.
  - unfold all_votes. simpl. rewrite look_sremove_ne, !look_sset_ne, look_sset by congruence.
    simpl. by erewrite (look_into c_Vec_vote) by done.
  - unfold all_tasks. simpl. by rewrite look_sremove_ne, !look_sset_ne by congruence.
  - intros j h. unfold has_voted. simpl. rewrite sget_sremove_ne, sget_sset_ne by done.
    destruct (decide ((j, h) = (i, g))) as [[= -> ->]|Hne].
    + by rewrite sget_sset, (bool_decide_true ((i, g) = (i, g)) eq_refl).
    + rewrite (bool_decide_false _ Hne). by rewrite !sget_sset_ne by congruence.
  - intros j. unfold ballots. simpl. rewrite omap_app. f_equal. simpl. repeat case_decide; naive_solver.
  - unfold phase_of, active_task. simpl. by rewrite look_sremove_ne, (look_sset c_Task) by done.
  - intros j Hj. unfold phase_of, active_task, archived_task. simpl.
    by rewrite !look_sremove_ne, !look_sset_ne by congruence.
Qed.

(** A vote casts one ballot, whatever the calls nested in it do: [steady] is all
    that is needed of them. *)
Lemma rvote_commit R cx g i st st' :
  (forall s s', R s s' -> steady s s') -> well_typed st ->
  rrun R cx (vote g i) st (Done tt st') ->
  has_voted st i g = false /\ locked st' = false /\
  all_votes st' = all_votes st ++ [(i, g)] /\ all_tasks st' = all_tasks st /\
  (forall j h, has_voted st' j h = bool_decide ((j, h) = (i, g)) || has_voted st j h) /\
  exists w t t', (forall j, ballots st' j = ballots st j ++ (if decide (i = j) then [(g, w)] else [])) /\
    phase_task (phase_of st i) = Some t /\ phase_task (phase_of st' i) = Some t' /\
    Task.votes t' = Task.votes t + 1 /\ Task.total_weight_accrued t' = Task.total_weight_accrued t + w /\
    (forall j, j <> i -> phase_task (phase_of st' j) = phase_task (phase_of st j)).
Proof.
  intros HR Hwt Hrun. rrun_inv.
  match goal with H : rrun _ _ (resolve_if_met _ _ _) _ _ |- _ =>
    apply resolve_steady in H as (Hs & Hn & Hw); [|done] end.
  destruct Hs as [_ Hs]; [by apply well_typed_set|].
  destruct Hs as [Hk Ht Hb]; [by unfold locked; simpl; rewrite sget_sset|].
  apply record_vote_done in Hrun as (Hl & Hall & Htasks & Hvd & Hbal & Hph & Hoth).
  assert (forall k, mutex_key k = true -> k <> DataKey.Lock -> sget k (storage x24) = sget k (storage st)) as Hst.
  { intros k H ?. rewrite Hk by done. by apply sget_sset_ne. }
  assert (has_voted st i g = false) as Hno by (unfold has_voted; store_simpl; congruence).
  split_and!; [done|done| | | |].
  - rewrite Hall. unfold all_votes. by rewrite (look_frame c_Vec_vote _ _ _ (Hst DataKey.AllVotes eq_refl ltac:(done))).
  - rewrite Htasks. unfold all_tasks. by rewrite (look_frame c_Vec_u64 _ _ _ (Hst DataKey.AllTasks eq_refl ltac:(done))).
  - intros j h. rewrite Hvd. f_equal. unfold has_voted. by rewrite Hst.
  - exists z, t, x23. checked_adds. simpl in Hn, Hw. split_and!; [|..|congruence|congruence|].
    + intros j. by rewrite Hbal, Hb.
    + unfold phase_of, active_task. store_simpl. by rewrite (look_into c_Task _ _ (Some t)) by done.
    + by rewrite Hph.
    + intros j Hj. rewrite Hoth, Ht by done. unfold phase_of, active_task, archived_task. simpl. by rewrite !look_sset_ne by done.
Qed.

(** *** The invariant of re-entrant histories *)

Record safe st : Prop := {
  safe_typed : well_typed st;
  safe_free : locked st = false;
  safe_tally : tally_inv st;
  safe_index : tasks_exact st;
}.

Lemma known_task st i : phase_of st i <> Unknown <-> is_Some (phase_task (phase_of st i)).
Proof. destruct (phase_of st i); simpl; [|by split; eauto..]. split; [done|by intros []]. Qed.

Lemma index_kept st st' :
  all_tasks st' = all_tasks st ->
  (forall i, is_Some (phase_task (phase_of st' i)) <-> is_Some (phase_task (phase_of st i))) ->
  tasks_exact st -> tasks_exact st'.
Proof.
  intros Ha Hp [Hnd Hin]. unfold tasks_exact. rewrite Ha. split; [done|].
  intros i. by rewrite Hin, !known_task, Hp.
Qed.

(** What is still is safe. *)
Lemma safe_still st st' : well_typed st' -> still st st' -> safe st -> safe st'.
Proof.
  intros Hwt' Hs [Hwt Hl [Hnd Hv He Ht] Hx]. pose proof (still_locked _ _ Hs) as Hl'.
  destruct Hs as [Hk Hp Hb].
  assert (all_votes st' = all_votes st) as Ha
    by (unfold all_votes; by rewrite (look_frame c_Vec_vote _ _ _ (Hk DataKey.AllVotes eq_refl))).
  split; [done|congruence| |].
  - split.
    + by rewrite Ha.
    + intros i g. rewrite Ha, Hv. unfold has_voted. by rewrite Hk.
    + intros i. by rewrite Ha, Hb.
    + intros i. specialize (Ht i). unfold tally_ok in *. by rewrite Hb, Hp.
  - eapply index_kept; [|by intros i; rewrite Hp|done].
    unfold all_tasks. by rewrite (look_frame c_Vec_u64 _ _ _ (Hk DataKey.AllTasks eq_refl)).
Qed.

(** A registration or a cancellation gives the mutex back. *)
Lemma rmutex_unlocks R cx c st st' :
  takes_mutex c = true -> is_vote c = false -> rrun R cx (exec c) st (Done tt st') -> locked st' = false.
Proof.
  intros Ht Hv Hrun. destruct c; try done;
    unfold exec in Hrun; rrun_inv; by unfold locked; simpl; rewrite sget_sremove.
Qed.

(** Calls that are on their own: the lemmas on commits apply. *)
Lemma commit_safe cx c st st' : locked st' = false -> commits cx c st st' -> safe st -> safe st'.
Proof.
  intros Hl Hcm [Hwt _ Ht Hx]. split; [|done|by eapply tally_commit|by eapply tasks_exact_commit].
  by eapply commits_typed.
Qed.

Lemma rvote_safe R cx g i st st' :
  (forall s s', R s s' -> steady s s') -> well_typed st' ->
  rrun R cx (vote g i) st (Done tt st') -> safe st -> safe st'.
Proof.
  intros HR Hwt' Hrun [Hwt _ Ht Hx].
  apply rvote_commit in Hrun as (Hno & Hl & Ha & Hat & Hvd & w & t & t' & Hb & Hp & Hp' & Hn & Hw & Ho); [|done..].
  split; [done|done|by eapply (tally_add g i w t t')|].
  eapply index_kept; [done| |done]. intros j. destruct (decide (j = i)) as [->|Hj].
  - rewrite Hp, Hp'. split; eauto.
  - by rewrite Ho.
Qed.

Lemma rcommit_safe R cx c st st' :
  (forall s s', R s s' -> steady s s' /\ (safe s -> safe s')) -> ctx_wf cx -> call_wf c ->
  rrun R cx (exec c) st (Done tt st') -> safe st -> safe st'.
Proof.
  intros HR Hcx Hc Hrun Hsafe. pose proof Hsafe as [Hwt Hl _ _].
  assert (forall s s', R s s' -> steady s s') as HRs by (intros s s' H; by apply HR).
  assert (well_typed st') as Hwt' by (by eapply rcommit_steady).
  destruct (is_vote c) eqn:Hv.
  { destruct c; try done. by eapply rvote_safe. }
  destruct (takes_mutex c) eqn:Ht.
  { eapply commit_safe, Hsafe; [by eapply rmutex_unlocks|]. eapply internal_commit, Hrun; try done.
    destruct c; try done; [apply register_internal|apply cancel_internal]. }
  destruct (archives c) eqn:Har.
  { destruct c; try done. assert (commits cx (Call.ArchiveTask task_id) st st') as Hcm
      by (eapply internal_commit, Hrun; try done; apply archive_internal).
    apply (safe_still st); [done|by eapply archive_still|done]. }
  refine (proj1 (obeys_rrun (text c) open_host R cx safe (exec c) any st tt st' _ _ Hsafe (exec_text c Hc) Hrun)).
  - intros X op s Hss Hg. pose proof Hss as [Hws _ _ _].
    pose proof (op_still c cx s Ht Har Hcx X op s (conj Hws (still_refl s)) Hg) as H.
    destruct (handle cx op s) as [[x s']|r]; [|done]. destruct H as (Hr & Hws' & Hst).
    split; [done|]. by apply (safe_still s).
  - intros s s' H. by apply HR.
Qed.

Lemma reenters_safe d st st' : reenters d st st' -> safe st -> safe st'.
Proof.
  intros H. enough (steady st st' /\ (safe st -> safe st')) by naive_solver.
  revert d st st' H. apply (reenters_ind open_host (fun s s' => steady s s' /\ (safe s -> safe s'))).
  - split; [by intros s|]. intros s1 s2 s3 [H1 H2] [H3 H4]. split; [by etrans|]. auto.
  - intros w st _. split; [by apply steady_silent|]. intros Hs. apply (safe_still st); [by destruct Hs| |done].
    by apply still_frame.
  - intros R cx c st st' HR Hcx Hc Hrun. split.
    + eapply rcommit_steady; [|done..]. intros s s' H. by apply HR.
    + by eapply rcommit_safe.
Qed.

Lemma rreachable_safe st : rreachable st -> safe st.
Proof.
  intros (w & d & H). eapply reenters_safe; [done|].
  split; [apply well_typed_empty| |apply tally_deployed|apply tasks_exact_deployed].
  unfold locked. by rewrite sget_deployed.
Qed.

End mutex.

(** ** Properties *)

Section properties.
Context {Sto Wld : Type} `{!InstanceStorage Sto} `{!World Wld}.
Implicit Types (st : state Sto Wld) (cx : context).

(** C14: the mutex does its work even on a host that would allow re-entry: let
    the token, the vault and the streaming contract call back any entry points,
    nested to any depth, before and after their own effect.  In every state such
    a history reaches, the mutex is free; every task's stored count and weight
    are those of the ballots announced for it; nobody's vote on a task is listed
    twice, and the votes listed are the ones marked; the task index lists every
    task once.  And a vote that completes appends its own ballot and nothing
    else, although the vault had control while it ran. *)
Theorem votes_survive_reentry st :
  rreachable st ->
  locked st = false /\ NoDup (all_votes st) /\
  (forall i g, (i, g) ∈ all_votes st <-> has_voted st i g = true) /\
  (forall i, (ballots st i).*1 = voters i (all_votes st) /\ tally_ok (phase_of st i) (ballots st i)) /\
  NoDup (all_tasks st) /\ (forall i, i ∈ all_tasks st <-> phase_of st i <> Unknown) /\
  forall d cx g i st', rrun (reenters d) cx (vote g i) st (Done tt st') ->
    has_voted st i g = false /\ all_votes st' = all_votes st ++ [(i, g)].
Proof.
  intros Hr. destruct (rreachable_safe st Hr) as [Hwt Hl [Hnd Hv He Ht] [Hnt Hin]]. split_and!; try done.
  intros d cx g i st' Hrun. apply rvote_commit in Hrun; [tauto|apply reenters_steady|done].
Qed.

End properties.

(** ** What the mutex does not cover

    [run_nested h l] runs a program on a host that, at its first exposed call,
    runs the entry points [l] first. *)

Section nested.
Context {Sto Wld : Type} `{!InstanceStorage Sto} `{!World Wld}.
Implicit Types (st : state Sto Wld) (cx : context) (l : list (context * Call)) (h : host Wld).

Fixpoint run_nested h l cx {A} (p : prog A) st : outcome Sto Wld A :=
  match p with
  | Ret a => Done a st
  | Fail e => Failed e st
  | Panic r => Trapped r
  | Vis op k =>
      let st1 := if exposed h op then invoke_all l st else st in
      match handle cx op st1 with
      | inl (x, st') => run_nested h (if exposed h op then [] else l) cx (k x) st'
      | inr r => Trapped r
      end
  end.

(** Calls such a host accepts; on the open host, [calls_wf]. *)
Definition calls_ok h l : Prop := Forall (fun x => context_ok h x.1 /\ call_wf x.2) l.

Lemma invoke_all_reenters h l st : calls_ok h l -> reenters_on h 1 st (invoke_all l st).
Proof.
  intros Hl. change (rtc (calls_back h eq) st (invoke_all l st)). revert st.
  induction Hl as [|[cx c] l [Hcx Hc] _ IH]; intros st; [done|]. simpl in *. unfold invoke.
  destruct (run cx (exec c) st) as [[] st'|e st'|r] eqn:E; [|apply IH..].
  eapply rtc_l, IH. left. exists cx, c. by rewrite rrun_eq.
Qed.

Lemma run_nested_sound h l cx {A} (p : prog A) st :
  calls_ok h l -> rrun_on h (reenters_on h 1) cx p st (run_nested h l cx p st).
Proof.
  intros Hl. revert l Hl st. induction p as [a|e|r|X op k IH]; intros l Hl st; [done..|].
  exists (if exposed h op then invoke_all l st else st). unfold around.
  split; [destruct (exposed h op); [by apply invoke_all_reenters|done]|]. simpl.
  destruct (handle cx op _) as [[x st']|r]; [|done].
  exists st'. split; [destruct (exposed h op); [apply rtc_refl|done]|].
  apply IH. destruct (exposed h op); [apply Forall_nil_2|done].
Qed.

End nested.

(** *** One call back

    Lemmas that lead a run on the open host to an end, past one external call. *)

Section one_call_back.
Context {Sto Wld : Type} `{!InstanceStorage Sto} `{!World Wld}.
Implicit Types (st : state Sto Wld) (cx : context).





End one_call_back.


Section unguarded.
Context {Sto Wld : Type} `{!InstanceStorage Sto} `{!World Wld}.
Implicit Types (st : state Sto Wld) (cx : context).





End unguarded.

(** ** Witnesses *)

(** A third guardian, and a task resolved long ago. *)
Definition late_calls : list (context * Call) :=
  take 13 script ++
  [(at_time 14, Call.AddGuardian admin guardian3);
   (at_time 15, Call.SetReputation admin guardian3 100);
   (at_time 16, Call.LockTokens guardian3 30)].



Lemma late_rreachable : rreachable (invoke_all late_calls (deployed w0) : sample_state).
Proof. apply reachable_rreachable, reachable_invoke_all; [by_eval|apply reachable_deployed]. Qed.

(** The vote of the third case of [unguarded_calls_need_the_host]: archiving the
    task under it does not disturb the list of votes. *)
Lemma votes_survive_reentry_witness :
  exists st' : sample_state,
    rrun (reenters 1) (at_time (40 * day)) (vote guardian3 1) (invoke_all late_calls (deployed w0)) (Done tt st') /\
    all_votes st' = all_votes (invoke_all late_calls (deployed w0)) ++ [(1, guardian3)].
Proof.
  pose proof (run_nested_sound open_host [(at_time (40 * day), Call.ArchiveTask 1)] (at_time (40 * day))
    (vote guardian3 1) (invoke_all late_calls (deployed w0)) ltac:(by_eval)) as Hrun.
  pose proof (eq_refl : bool_decide (ending (run_nested open_host [(at_time (40 * day), Call.ArchiveTask 1)]
    (at_time (40 * day)) (vote guardian3 1) (invoke_all late_calls (deployed w0))) = Some (inl tt)) = true) as He.
  apply bool_decide_eq_true, ending_done in He as [st' He]. rewrite He in Hrun. exists st'.
  split; [exact Hrun|].
  destruct (votes_survive_reentry _ late_rreachable) as (_ & _ & _ & _ & _ & _ & Hvote).
  exact (proj2 (Hvote 1%nat _ _ _ _ Hrun)).
Defined.
