(* ===== verification/Safekeeping.v ===== *)
(** * Custody on a host that allows re-entry

    Custody.v shows that the locked balances are covered when no contract is
    re-entered.  Here the vault and the streaming contract may call back any entry
    points, nested to any depth, while a vote or a stream start runs; only the
    token does not call back.  The locked balances are covered all the same.  With
    [unguarded_calls_need_the_host], where a token that calls back is paid twice,
    this draws the line: of the three contracts this one calls, the token is the
    only one that has to be trusted not to re-enter. *)

From stdpp Require Import prelude gmap list strings.
From Stdlib Require Import ZArith Lia.
From S2P Require Import Prelude.
From S2P Require Import Types.
From S2P Require Import Host.
From S2P Require Import Logic.
From S2P Require Import Frame.
From S2P Require Import Typing.
From S2P Require Import SampleHost.
From S2P Require Import Events.
From S2P Require Import Reentrancy.
From S2P Require Import Reputation.
From S2P Require Import Guardian.
From S2P Require Import CircuitBreaker.
From S2P Require Import Storage.
From S2P Require Import Tasks.
From S2P Require Import Drips.
From S2P Require Import Contract.
From S2P Require Import VoteSpec.
From S2P Require Import System.
From S2P Require Import SampleRun.
From S2P Require Import Spec.
From S2P Require Import Commits.
From S2P Require Import Custody.
From S2P Require Import Reenter.

(** The entry points that move or book tokens. *)
Definition moves_money (c : Call) : bool :=
  match c with
  | Call.Initialize _ _ | Call.LockTokens _ _ | Call.ResignGuardian _ | Call.UnlockTokens _ => true
  | _ => false
  end.

Definition money_key (k : DataKey) : bool :=
  match k with
  | DataKey.LockedBalance _ | DataKey.TokenAddress | DataKey.Initialized => true
  | _ => false
  end.

(** Programs that transfer no tokens. *)
Definition no_transfer : protocol := {|
  guar X op := match op with TokenTransfer _ _ _ _ => False | _ => True end;
  rely X op x := True; may_fail := any; may_trap := any |}.

Lemma exec_no_transfer c : moves_money c = false -> obeys no_transfer (exec c) any.
Proof. destruct c; try done; intros _; unfold exec; obey; try done; by unfold any. Qed.

Lemma footprint_no_money c k : moves_money c = false -> money_key k = true -> k ∉ footprint c.
Proof. destruct c, k; try done; intros _ _; simpl; solve_not_elem. Qed.

Section safekeeping.
Context {Sto Wld : Type} `{!InstanceStorage Sto} `{!World Wld} (self : Address) `{!TokenLedger Wld self}.
Implicit Types (st : state Sto Wld) (cx : context) (R : relation (state Sto Wld)).

(** Every contract but the token may call back; the calls run at the contract's
    address, which signs none of them, and nobody else spends its tokens. *)
Definition custody_host : host Wld := Host
  (fun c => match c with TheToken => false | _ => true end)
  (fun cx => ctx_wf cx /\ self_address cx = self /\ authorized cx self = false)
  (fun w w' => forall tk, balance tk self w <= balance tk self w').

(** The states such a host can bring the contract to. *)
Definition safe_kept st : Prop :=
  exists w d, (forall tk, 0 <= balance tk self w) /\ reenters_on custody_host d (deployed w) st.

Definition sound st : Prop := well_typed st /\ solvent self st.

(** The calls that move money run undisturbed. *)
Lemma money_quiet c : moves_money c = true -> quiet custody_host (exec c).
Proof. unfold quiet. destruct c; try done; intros _; unfold exec; obey; try done; by unfold any. Qed.

Lemma money_commit cx c st st' :
  moves_money c = true -> self_address cx = self -> authorized cx self = false ->
  commits cx c st st' -> sound st -> sound st'.
Proof.
  intros Hc Hself Ha Hcm [Hwt Hs]. split; [by eapply commits_typed|]. destruct c; try done.
  - by eapply solvent_initialize.
  - by eapply solvent_lock.
  - by eapply (solvent_refund self cx (Call.ResignGuardian guardian) guardian).
  - by eapply (solvent_refund self cx (Call.UnlockTokens guardian) guardian).
Qed.

(** One host call of any other entry point: no money is booked, and what is
    called leaves the contract's tokens alone. *)
Lemma op_sound c cx :
  moves_money c = false -> ctx_wf cx ->
  upholds (both (typed_protocol (footprint c)) no_transfer) cx sound.
Proof.
  intros Hc Hcx X op s [Hwt Hs] [Hg Hno].
  pose proof (typed_upholds (footprint c) cx s Hcx X op s (conj Hwt (fun _ _ => eq_refl)) Hg) as H.
  destruct (handle cx op s) as [[x s']|r] eqn:E; [|by split]. destruct H as (Hr & Hwt' & Hfr).
  assert (forall k, money_key k = true -> sget k (storage s') = sget k (storage s)) as Hk
    by (intros k Hk; apply Hfr; by apply footprint_no_money).
  split; [done|]. split; [done|]. apply (solvent_same self s); [done| | |].
  - intros g. unfold locked_balance. f_equal. by apply look_frame, Hk.
  - unfold initialized, token_address. split; [|f_equal]; by apply look_frame, Hk.
  - intros tk. destruct op; simpl in E; repeat case_match; simplify_eq/=; try done.
    + by eapply release_keeps.
    + by eapply invoke_keeps.
Qed.

Lemma rcommit_sound R cx c st st' :
  (forall s s', R s s' -> sound s -> sound s') -> context_ok custody_host cx -> call_wf c ->
  rrun_on custody_host R cx (exec c) st (Done tt st') -> sound st -> sound st'.
Proof.
  intros HR (Hcx & Hself & Ha) Hc Hrun Hs. destruct (moves_money c) eqn:Hm.
  - apply rrun_quiet in Hrun; [|by apply money_quiet]. by eapply (money_commit cx c).
  - pose proof (obeys_both _ _ _ _ _ (exec_typed c Hc) (exec_no_transfer c Hm)) as Hob.
    exact (proj1 (obeys_rrun _ custody_host R cx sound (exec c) _ st tt st' (op_sound c cx Hm Hcx) HR Hs Hob Hrun)).
Qed.

Lemma safe_kept_sound st : safe_kept st -> sound st.
Proof.
  intros (w & d & Hb & Hs). enough (sound (deployed w) -> sound st) as H.
  { apply H. split; [apply well_typed_empty|by apply solvent_deployed]. }
  revert d st Hs. generalize (deployed w : state Sto Wld). intros s d st.
  apply (reenters_ind custody_host (fun s s' => sound s -> sound s')).
  - split; [by intros ?|]. intros s1 s2 s3. tauto.
  - intros w' s1 Hd [Hwt Hs]. split; [done|]. by apply (solvent_same self s1).
  - intros R cx c s1 s2 HR Hcx Hc Hrun. by eapply rcommit_sound.
Qed.

(** C5: deposits are safe from everybody the contract calls but the token.  Let
    the vault and the streaming contract call back any entry points, nested to any
    depth: the tokens the contract holds still cover all the locked balances
    together, and no locked balance is negative. *)
Theorem custody_survives_reentry st tk gs :
  safe_kept st -> token_address st = Some tk -> NoDup gs ->
  total_of (locked_balance st) gs <= balance tk self (world st) /\
  forall g, 0 <= locked_balance st g.
Proof.
  intros Hs Htk Hnd. destruct (safe_kept_sound st Hs) as [_ [H1 _ _ H4]].
  split; [apply H4; auto|done].
Qed.

(** Such a host accepts what an ordinary history does, and one call more,
    during which others run. *)
Lemma safe_kept_call l l' cx c w st' :
  (forall tk, 0 <= balance tk self w) -> calls_ok custody_host l -> calls_ok custody_host l' ->
  context_ok custody_host cx -> call_wf c ->
  run_nested custody_host l' cx (exec c) (invoke_all l (deployed w)) = Done tt st' -> safe_kept st'.
Proof.
  intros Hw Hl Hl' Hcx Hc Hrun. exists w, 2%nat. split; [done|].
  change (rtc (calls_back custody_host (reenters_on custody_host 1)) (deployed w) st').
  eapply (rtc_r _ (invoke_all l (deployed w))).
  - apply (reenters_mono custody_host custody_host 1 2); [done..|lia|by apply invoke_all_reenters].
  - left. exists cx, c. split_and!; [done..|]. rewrite <- Hrun. by apply run_nested_sound.
Qed.

Lemma custody_calls_ok l : calls_wf l -> outside_calls self l -> calls_ok custody_host l.
Proof.
  unfold calls_wf, outside_calls, calls_ok. rewrite !Forall_forall. intros H1 H2 x Hx.
  specialize (H1 x Hx). specialize (H2 x Hx). unfold custody_host. simpl. tauto.
Qed.

End safekeeping.

(** ** Witness *)

(** While the vault is asked to pay for task 1, it has guardian1 removed and
    refunded, and locks tokens for another guardian. *)
Definition meddling : list (context * Call) :=
  [(at_time 12, Call.RemoveGuardian admin guardian1); (at_time 12, Call.UnlockTokens guardian1);
   (at_time 12, Call.LockTokens guardian3 20)].

Abbreviation meddled :=
  (run_nested (custody_host self) meddling (at_time 12) (exec (Call.Vote guardian2 1))
     (invoke_all (take 11 script) (deployed w0))).

Lemma meddled_kept (st' : sample_state) : meddled = Done tt st' -> safe_kept self st'.
Proof.
  intros E. refine (safe_kept_call self (take 11 script) meddling _ _ w0 st' _ _ _ _ _ E).
  - intros tk. simpl. by destruct (decide _).
  - apply custody_calls_ok; [apply script_wf|apply Forall_take; by_eval].
  - apply custody_calls_ok; by_eval.
  - split_and!; [by_eval|reflexivity|reflexivity].
  - by_eval.
Qed.

Lemma custody_survives_reentry_witness :
  exists st' : sample_state, meddled = Done tt st' /\
    locked_balance st' guardian1 = 0 /\ locked_balance st' guardian3 = 20 /\
    total_of (locked_balance st') [guardian1; guardian2; guardian3] <= balance (self := self) token self (world st').
Proof.
  assert (match meddled with
    | Done _ st' => bool_decide (locked_balance st' guardian1 = 0 /\ locked_balance st' guardian3 = 20 /\
                      token_address st' = Some token)
    | _ => false end = true) as H by (vm_compute; reflexivity).
  pose proof meddled_kept as Hk. destruct meddled as [[] st'|e st'|r]; [|discriminate H..].
  apply bool_decide_eq_true in H as (H1 & H2 & H3). exists st'. split_and!; [reflexivity|exact H1|exact H2|].
  exact (proj1 (custody_survives_reentry self st' token [guardian1; guardian2; guardian3] (Hk st' eq_refl) H3
    ltac:(by_eval))).
Defined.
