(* ===== verification/Consent.v ===== *)
(** * What nobody can do for another

    [anyone_can_resolve] shows how much one signature is worth.  Here is what it is
    not: without a guardian's own signature nobody can vote in the guardian's name
    or touch the guardian's deposit, not even the contracts that are called back
    while the contract runs. *)

From stdpp Require Import prelude gmap list strings.
From Stdlib Require Import ZArith Lia.
From S2P Require Import Prelude.
From S2P Require Import Types.
From S2P Require Import Host.
From S2P Require Import Logic.
From S2P Require Import Frame.
From S2P Require Import Typing.
From S2P Require Import SampleHost.
From S2P Require Import Contract.
From S2P Require Import VoteSpec.
From S2P Require Import System.
From S2P Require Import SampleRun.
From S2P Require Import Tally.
From S2P Require Import Reenter.

(** What belongs to a guardian: the deposit and the votes. *)
Definition own_key (g : Address) (k : DataKey) : bool :=
  match k with
  | DataKey.LockedBalance h | DataKey.Voted _ h => bool_decide (h = g)
  | _ => false
  end.

(** Who writes it signs for it. *)
Lemma own_signed c g k : k ∈ footprint c -> own_key g k = true -> signer c = Some g.
Proof.
  intros Hk Hg. destruct k; try done; apply bool_decide_eq_true in Hg as ->;
    destruct c; simpl in Hk; rewrite ?elem_of_cons, elem_of_nil in Hk; naive_solver.
Qed.

Section consent.
Context {Sto Wld : Type} `{!InstanceStorage Sto} `{!World Wld}.
Implicit Types (st : state Sto Wld) (cx : context) (R : relation (state Sto Wld)) (h : host Wld).

(** No run completes without the signature it begins with. *)
Lemma auth_first_rrun a h R cx {A} (p : prog A) st x st' :
  auth_first a p -> authorized cx a = false -> ~ rrun_on h R cx p st (Done x st').
Proof.
  intros Hp Ha. revert st. induction p as [b|e|r|X op k IH]; intros st; [done..|].
  intros (st1 & _ & H). destruct Hp as [Hp|[Hro Hk]].
  - destruct op; try done. subst. cbn in H. by rewrite Ha in H.
  - destruct (handle cx op st1) as [[y st2]|r]; [|done]. destruct H as (st3 & _ & H). by eapply IH.
Qed.

(** The guardian's keys, in well-typed states. *)
Definition untouched (g : Address) st st' : Prop :=
  well_typed st -> well_typed st' /\
  forall k, own_key g k = true -> sget k (storage st') = sget k (storage st).

#[local] Instance untouched_preorder g : PreOrder (untouched g).
Proof.
  split; [by intros st Hwt|]. intros s1 s2 s3 H12 H23 Hwt. destruct (H12 Hwt) as [Hwt2 H1].
  destruct (H23 Hwt2) as [Hwt3 H2]. split; [done|]. intros k Hk. by rewrite H2, H1.
Qed.

Lemma rcommit_untouched g h R cx c st st' :
  (forall s s', R s s' -> untouched g s s') -> authorized cx g = false -> ctx_wf cx -> call_wf c ->
  rrun_on h R cx (exec c) st (Done tt st') -> untouched g st st'.
Proof.
  intros HR Ha Hcx Hc Hrun Hwt. destruct (decide (signer c = Some g)) as [Hs|Hs].
  { by destruct (auth_first_rrun g h R cx (exec c) st tt st' (exec_auth_first c g Hs) Ha). }
  set (Inv := fun s : state Sto Wld => well_typed s /\ forall k, own_key g k = true -> sget k (storage s) = sget k (storage st)).
  assert (forall s s', R s s' -> Inv s -> Inv s') as HRI.
  { intros s s' H [Hws Hk]. destruct (HR s s' H Hws) as [Hws' Hk']. split; [done|]. intros k Hk2. by rewrite Hk', Hk. }
  assert (upholds (typed_protocol (footprint c)) cx Inv) as Hup.
  { intros X op s [Hws Hk] Hg.
    pose proof (typed_upholds (footprint c) cx s Hcx X op s (conj Hws (fun _ _ => eq_refl)) Hg) as H.
    destruct (handle cx op s) as [[x s']|r]; [|done]. destruct H as (Hr & Hws' & Hf). split; [done|]. split; [done|].
    intros k Hk'. rewrite Hf; [by apply Hk|]. intros Hin. by destruct Hs; eapply own_signed. }
  exact (proj1 (obeys_rrun _ h R cx Inv (exec c) any st tt st' Hup HRI (conj Hwt (fun _ _ => eq_refl)) (exec_typed c Hc) Hrun)).
Qed.

Lemma reenters_untouched g h d st st' :
  (forall cx, context_ok h cx -> ctx_wf cx /\ authorized cx g = false) ->
  reenters_on h d st st' -> untouched g st st'.
Proof.
  intros Hh. revert d st st'. apply reenters_ind; [apply untouched_preorder|by intros w st _ Hwt|].
  intros R cx c st st' HR Hcx Hc Hrun. destruct (Hh cx Hcx). by eapply rcommit_untouched.
Qed.

(** C15: a guardian's vote and deposit are the guardian's.  Let others, the
    contracts that are called among them, call any entry points in any order,
    nested to any depth, as long as the guardian signs for none of them: the
    guardian's locked balance is what it was, and the guardian has voted on the
    tasks voted on before and no others. *)
Theorem only_the_owner_acts g h d st st' :
  (forall cx, context_ok h cx -> ctx_wf cx /\ authorized cx g = false) ->
  rreachable st -> reenters_on h d st st' ->
  locked_balance st' g = locked_balance st g /\
  forall i, has_voted st' i g = has_voted st i g /\ ((i, g) ∈ all_votes st' <-> (i, g) ∈ all_votes st).
Proof.
  intros Hh Hr Hs. destruct (rreachable_safe st Hr) as [Hwt _ [_ Hv _ _] _].
  assert (rreachable st') as Hr'.
  { eapply rreachable_on; [|done..]. intros cx Hcx. by apply Hh. }
  destruct (rreachable_safe st' Hr') as [_ _ [_ Hv' _ _] _].
  destruct (reenters_untouched g h d st st' Hh Hs Hwt) as [_ Hk].
  assert (forall i, has_voted st' i g = has_voted st i g) as Hvd.
  { intros i. unfold has_voted. rewrite Hk; [done|]. by apply bool_decide_eq_true. }
  split.
  - unfold locked_balance. f_equal. apply look_frame, Hk. by apply bool_decide_eq_true.
  - intros i. split; [done|]. by rewrite Hv, Hv', Hvd.
Qed.

End consent.

(** ** Witness *)

(** The script goes on without guardian2, whom an administrator removes. *)
Definition others : host sample_world :=
  Host (fun _ => true) (fun cx => ctx_wf cx /\ authorized cx guardian2 = false) (fun _ _ => True).

Definition by_others (now : Z) : context := Context (fun a => bool_decide (a <> guardian2)) now self.

Definition behind_the_back : list (context * Call) :=
  [(by_others 20, Call.Vote guardian2 2); (by_others 20, Call.UnlockTokens guardian2);
   (by_others 20, Call.RemoveGuardian admin guardian2); (by_others 21, Call.Vote guardian1 2)].

Lemma only_the_owner_acts_witness :
  locked_balance (invoke_all behind_the_back (scene 12)) guardian2 = locked_balance (scene 12) guardian2 /\
  has_voted (invoke_all behind_the_back (scene 12)) 2 guardian2 = false /\
  has_voted (invoke_all behind_the_back (scene 12)) 2 guardian1 = true.
Proof.
  assert (calls_ok others behind_the_back) as Hok.
  { repeat (apply Forall_cons_2; [split; [split; [by_eval|reflexivity]|by_eval]|]). apply Forall_nil_2. }
  destruct (only_the_owner_acts guardian2 others 1 (scene 12) (invoke_all behind_the_back (scene 12))) as [H1 H2].
  - intros cx Hcx. exact Hcx.
  - apply reachable_rreachable, scene_reachable.
  - by apply invoke_all_reenters.
  - split; [exact H1|]. split; [|vm_compute; reflexivity].
    rewrite (proj1 (H2 2)). vm_compute. reflexivity.
Defined.
