(* ===== verification/UnitTests.v ===== *)
(** * The repository's own tests

    The unit tests of [consensus.rs] and the suites of [src/tests/], each as a
    program of the model that passes or fails like the Rust test: [setup] deploys
    and initialises the contract on the sample host, [call] is a client call that
    must succeed, [try_call] one whose result the test inspects, [view] a query.
    [unit_tests_pass] evaluates them all: what the authors check of the code holds
    of the model. *)

From stdpp Require Import prelude gmap list strings.
From Stdlib Require Import ZArith Lia.
From S2P Require Import Prelude.
From S2P Require Import Types.
From S2P Require Import Host.
From S2P Require Import Logic.
From S2P Require Import SampleHost.
From S2P Require Import Reentrancy.
From S2P Require Import Reputation.
From S2P Require Import Guardian.
From S2P Require Import CircuitBreaker.
From S2P Require Import Storage.
From S2P Require Import Tasks.
From S2P Require Import Drips.
From S2P Require Import Gas.
From S2P Require Import Consensus.
From S2P Require Import Contract.
From S2P Require Import System.

(** ** Unit tests of the consensus module *)

Module ConsensusTests.

(** A failed [assert!], [unwrap] or [unwrap_err] is [None]. *)
Definition assert (b : bool) : option unit := if b then Some tt else None.

Definition unwrap_ok (r : ConsensusState * (unit + ConsensusError)) : option ConsensusState :=
  match r with (state, inl _) => Some state | _ => None end.

Definition unwrap_err (r : ConsensusState * (unit + ConsensusError))
    : option (ConsensusError * ConsensusState) :=
  match r with (state, inr e) => Some (e, state) | _ => None end.

Local Abbreviation total := ConsensusState.total_weight_accrued.
Local Abbreviation is_done := ConsensusState.is_done.
Local Abbreviation new := ConsensusState.new.

Definition test_apply_vote_resolves_at_threshold : option unit :=
  state ← unwrap_ok (apply_vote new 300 300);
  assert (is_done state);; assert (total state =? 300);; assert (ConsensusState.votes state =? 1).

Definition test_apply_vote_does_not_resolve_below_threshold : option unit :=
  state ← unwrap_ok (apply_vote new 299 300);
  assert (negb (is_done state));; assert (total state =? 299).

Definition test_apply_vote_resolves_above_threshold : option unit :=
  state ← unwrap_ok (apply_vote new 500 300);
  assert (is_done state);; assert (total state =? 500).

Definition test_apply_vote_accumulates_across_multiple_votes : option unit :=
  state ← unwrap_ok (apply_vote new 100 300);
  assert (negb (is_done state));;
  state ← unwrap_ok (apply_vote state 100 300);
  assert (negb (is_done state));;
  state ← unwrap_ok (apply_vote state 100 300);
  assert (is_done state);; assert (total state =? 300);; assert (ConsensusState.votes state =? 3).

Definition test_apply_vote_rejects_zero_weight : option unit :=
  '(err, state) ← unwrap_err (apply_vote new 0 300);
  assert (bool_decide (err = ConsensusError.ZeroWeight));;
  assert (negb (is_done state));; assert (total state =? 0).

Definition test_apply_vote_overflow_protection : option unit :=
  '(err, state) ← unwrap_err (apply_vote (ConsensusState.mk u64_max 0 false) 1 300);
  assert (bool_decide (err = ConsensusError.WeightOverflow));;
  assert (total state =? u64_max);; assert (negb (is_done state)).

Definition test_votes_counter_saturates : option unit :=
  state ← unwrap_ok (apply_vote (ConsensusState.mk 0 u32_max false) 1 u64_max);
  assert (ConsensusState.votes state =? u32_max).

Definition test_is_done_monotone_once_set : option unit :=
  state ← unwrap_ok (apply_vote new 300 300);
  assert (is_done state);;
  state ← unwrap_ok (apply_vote state 100 300);
  assert (is_done state).

Definition test_zero_threshold_first_vote_resolves : option unit :=
  state ← unwrap_ok (apply_vote new 1 0);
  assert (is_done state).

Definition test_resolution_invariant_holds_after_vote : option unit :=
  state ← unwrap_ok (apply_vote new 400 300);
  assert (resolution_invariant_holds state 300).

Definition test_resolution_invariant_holds_before_threshold : option unit :=
  state ← unwrap_ok (apply_vote new 200 300);
  assert (resolution_invariant_holds state 300);; assert (negb (is_done state)).


Definition all : list (option unit) := [
  test_apply_vote_resolves_at_threshold;
  test_apply_vote_does_not_resolve_below_threshold;
  test_apply_vote_resolves_above_threshold;
  test_apply_vote_accumulates_across_multiple_votes;
  test_apply_vote_rejects_zero_weight;
  test_apply_vote_overflow_protection;
  test_votes_counter_saturates;
  test_is_done_monotone_once_set;
  test_zero_threshold_first_vote_resolves;
  test_resolution_invariant_holds_after_vote;
  test_resolution_invariant_holds_before_threshold
].

End ConsensusTests.

(** ** Tests of the contract

    *** The environment

    [Env::default] with [mock_all_auths]: everybody signs, the ledger's time is
    0.  [Address::generate] counts up from an address no other part uses. *)

Module ContractTests.

Record env := Env { chain : sample_state; next : N }.

Definition test (A : Type) : Type := env -> option (A * env).

#[global] Instance test_ret : MRet test := fun A a e => Some (a, e).
#[global] Instance test_bind : MBind test := fun A B f t e =>
  match t e with Some (a, e') => f a e' | None => None end.

Definition test_context : context := Context (fun _ => true) 0 self.

Definition assert (b : bool) : test unit := fun e => if b then Some (tt, e) else None.
Definition assert_eq {A} `{!EqDecision A} (x y : A) : test unit := assert (bool_decide (x = y)).
Definition unwrap {A} (o : option A) : test A := fun e => a ← o; Some (a, e).

Definition generate : test Address := fun e => Some (Addr (next e), Env (chain e) (next e + 1)).

(** [client.f(..)]: panics unless the call succeeds. *)
Definition call (c : Call) : test unit := fun e =>
  match run test_context (exec c) (chain e) with
  | Done _ st => Some (tt, Env st (next e))
  | _ => None
  end.

(** [client.try_f(..).is_err()], and the state after it. *)
Definition try_call (c : Call) : test bool := fun e =>
  Some (match run test_context (exec c) (chain e) with Done _ _ => false | _ => true end,
        Env (invoke test_context c (chain e)) (next e)).

Definition view {A} (p : prog A) : test A := fun e =>
  match run test_context p (chain e) with Done a _ => Some (a, e) | _ => None end.

(** [asset_client.mint] and [token_client.balance]. *)
Definition mint (to : Address) (amount : Z) : test unit := fun e =>
  let w := world (chain e) in
  Some (tt, Env (with_world (SampleWorld (<[to := balance_of to w + amount]> (balances w))
                               (payments w) (streams w)) (chain e)) (next e)).

Definition balance (a : Address) : test Z := fun e => Some (balance_of a (world (chain e)), e).

Fixpoint repeated (n : nat) (t : test unit) : test unit :=
  match n with O => mret tt | S n => t;; repeated n t end.

Fixpoint for_each {A} (l : list A) (f : A -> test unit) : test unit :=
  match l with [] => mret tt | x :: l => f x;; for_each l f end.

Definition is_some {A} (o : option A) : bool := match o with Some _ => true | None => false end.

(** *** Helpers of [test.rs] *)

Definition LOCK_THRESHOLD : Z := 100.

(** The deployed contract before [initialize]. *)
Definition fresh : env := Env (deployed (SampleWorld ∅ [] [])) 1000.

Definition setup : test Address :=
  admin ← generate;
  call (Call.Initialize token 100);;
  mret admin.

Definition lock_for_guardian (guardian : Address) (amount : Z) : test unit :=
  mint guardian amount;;
  call (Call.LockTokens guardian amount).

Definition mint_and_lock (guardian : Address) (amount : Z) : test unit :=
  lock_for_guardian guardian amount.

Definition add_guardian_with_rep (admin : Address) (score : Z) : test Address :=
  g ← generate;
  call (Call.AddGuardian admin g);;
  call (Call.SetReputation admin g score);;
  lock_for_guardian g 101;;
  mret g.

(** [assert!(client.try_f(..).is_err())] and [.is_ok()]. *)
Definition is_err (c : Call) : test unit := e ← try_call c; assert e.
Definition is_ok (c : Call) : test unit := e ← try_call c; assert (negb e).

Definition the_task (i : Z) : test Task := o ← view (get_task i); unwrap o.

Definition paused_is (b : bool) : test unit := p ← view is_paused; assert_eq p b.

(** *** [init.rs] *)

Definition test_registry_starts_clean : test unit :=
  t ← view (get_task 1); assert (negb (is_some t));;
  s ← view (get_reward_stream 1); assert (negb (is_some s));;
  w ← view get_weight_threshold; assert_eq w 300;;
  stranger ← generate;
  p ← view (calculate_voting_power stranger); assert_eq p None;;
  r ← view (get_reputation stranger); assert_eq r None.

Definition test_reinitialize_reverts : test unit :=
  call (Call.Initialize token 100);;
  is_err (Call.Initialize token 100).

(** *** Registration and reputation *)

Definition test_add_guardian_and_register_task : test unit :=
  admin ← setup; guardian ← generate;
  call (Call.AddGuardian admin guardian);;
  call (Call.RegisterTask admin 1);;
  task ← the_task 1;
  assert_eq (Task.id task) 1;;
  assert_eq (Task.votes task) 0;;
  assert_eq (Task.total_weight_accrued task) 0;;
  assert_eq (Task.resolved_at task) 0;;
  assert (negb (Task.is_done task)).

Definition test_set_and_get_reputation : test unit :=
  admin ← setup; guardian ← generate;
  call (Call.AddGuardian admin guardian);;
  call (Call.SetReputation admin guardian 500);;
  r ← view (get_reputation guardian); assert_eq r (Some 500);;
  p ← view (calculate_voting_power guardian); assert_eq p (Some 500).

Definition test_calculate_voting_power_returns_score : test unit :=
  admin ← setup; guardian ← generate;
  call (Call.AddGuardian admin guardian);;
  call (Call.SetReputation admin guardian 150);;
  p ← view (calculate_voting_power guardian); assert_eq p (Some 150).

Definition test_calculate_voting_power_none_for_unset : test unit :=
  setup;; stranger ← generate;
  p ← view (calculate_voting_power stranger); assert_eq p None.

Definition test_reputation_can_be_updated : test unit :=
  admin ← setup; g ← generate;
  call (Call.AddGuardian admin g);;
  call (Call.SetReputation admin g 100);;
  r ← view (get_reputation g); assert_eq r (Some 100);;
  call (Call.SetReputation admin g 500);;
  r ← view (get_reputation g); assert_eq r (Some 500);;
  p ← view (calculate_voting_power g); assert_eq p (Some 500).

(** *** Weighted consensus *)

Definition test_single_high_rep_guardian_resolves_task : test unit :=
  admin ← setup;
  call (Call.SetWeightThreshold admin 300);;
  g ← add_guardian_with_rep admin 300;
  call (Call.RegisterTask admin 1);;
  lock_for_guardian g 101;;
  call (Call.Vote g 1);;
  task ← the_task 1;
  assert_eq (Task.votes task) 1;;
  assert_eq (Task.total_weight_accrued task) 300;;
  assert (Task.is_done task).

Definition test_multiple_low_rep_guardians_accumulate_weight : test unit :=
  admin ← setup;
  call (Call.SetWeightThreshold admin 300);;
  g1 ← add_guardian_with_rep admin 100;
  g2 ← add_guardian_with_rep admin 100;
  g3 ← add_guardian_with_rep admin 100;
  call (Call.RegisterTask admin 42);;
  call (Call.Vote g1 42);; call (Call.Vote g2 42);; call (Call.Vote g3 42);;
  task ← the_task 42;
  assert_eq (Task.votes task) 3;;
  assert (Task.is_done task).

Definition test_weight_vs_count_logic : test unit :=
  admin ← setup;
  call (Call.SetWeightThreshold admin 300);;
  g1 ← add_guardian_with_rep admin 200;
  g2 ← add_guardian_with_rep admin 150;
  call (Call.RegisterTask admin 20);;
  lock_for_guardian g1 101;; lock_for_guardian g2 101;;
  call (Call.Vote g1 20);; call (Call.Vote g2 20);;
  task ← the_task 20;
  assert_eq (Task.votes task) 2;;
  assert_eq (Task.total_weight_accrued task) 350;;
  assert (Task.is_done task).

Definition test_many_low_rep_guardians_cannot_resolve_without_enough_weight : test unit :=
  admin ← setup;
  call (Call.SetWeightThreshold admin 300);;
  g1 ← add_guardian_with_rep admin 50; g2 ← add_guardian_with_rep admin 50;
  g3 ← add_guardian_with_rep admin 50; g4 ← add_guardian_with_rep admin 50;
  g5 ← add_guardian_with_rep admin 50;
  call (Call.RegisterTask admin 10);;
  for_each [g1; g2; g3; g4; g5] (fun g => lock_for_guardian g 101;; call (Call.Vote g 10));;
  task ← the_task 10;
  assert_eq (Task.votes task) 5;;
  assert_eq (Task.total_weight_accrued task) 250;;
  assert (negb (Task.is_done task)).

Definition test_task_resolved_includes_final_weight : test unit :=
  admin ← setup;
  call (Call.SetWeightThreshold admin 100);;
  g1 ← add_guardian_with_rep admin 42;
  g2 ← add_guardian_with_rep admin 73;
  call (Call.RegisterTask admin 40);;
  lock_for_guardian g1 101;; lock_for_guardian g2 101;;
  call (Call.Vote g1 40);; call (Call.Vote g2 40);;
  task ← the_task 40;
  assert_eq (Task.total_weight_accrued task) 115;;
  assert (Task.is_done task).

Definition test_vote_rejects_missing_or_zero_reputation : test unit :=
  admin ← setup; no_rep ← generate; zero_rep ← generate;
  call (Call.AddGuardian admin no_rep);;
  mint_and_lock no_rep (LOCK_THRESHOLD + 1);;
  call (Call.AddGuardian admin zero_rep);;
  call (Call.SetReputation admin zero_rep 0);;
  mint_and_lock zero_rep (LOCK_THRESHOLD + 1);;
  call (Call.RegisterTask admin 11);;
  is_err (Call.Vote no_rep 11);;
  is_err (Call.Vote zero_rep 11).

Definition test_custom_weight_threshold : test unit :=
  admin ← setup;
  w ← view get_weight_threshold; assert_eq w 300;;
  call (Call.SetWeightThreshold admin 1000);;
  w ← view get_weight_threshold; assert_eq w 1000.

Definition test_vote_rejected_without_reputation : test unit :=
  admin ← setup; g ← generate;
  call (Call.AddGuardian admin g);;
  call (Call.RegisterTask admin 7);;
  lock_for_guardian g (LOCK_THRESHOLD + 1);;
  is_err (Call.Vote g 7).

Definition test_token_locking_rules : test unit :=
  admin ← setup; guardian ← generate; stranger ← generate;
  call (Call.AddGuardian admin guardian);;
  call (Call.SetReputation admin guardian 100);;
  call (Call.RegisterTask admin 12);;
  call (Call.RegisterTask admin 99);;
  is_err (Call.Vote guardian 12);;
  mint_and_lock guardian LOCK_THRESHOLD;;
  is_err (Call.Vote guardian 12);;
  is_err (Call.Vote stranger 99).

Definition test_vote_on_nonexistent_task_rejected : test unit :=
  admin ← setup;
  g ← add_guardian_with_rep admin 100;
  is_err (Call.Vote g 999).

(** *** Reward streams *)

(** [MockDripsContract] accepts silently, as every contract but the token and
    the vaults does on the sample host. *)
Definition test_reward_stream_rejected_for_unverified_task : test unit :=
  admin ← setup; contributor ← generate; drips ← generate;
  call (Call.RegisterTask admin 10);;
  is_err (Call.StartRewardStream admin drips contributor 10).

Definition test_reward_stream_rejected_until_task_verified : test unit :=
  admin ← setup; contributor ← generate; drips ← generate;
  is_err (Call.StartRewardStream admin drips contributor 999).

Definition test_reward_stream_duplicate_rejected : test unit :=
  admin ← setup; contributor ← generate;
  g1 ← add_guardian_with_rep admin 100;
  g2 ← add_guardian_with_rep admin 100;
  g3 ← add_guardian_with_rep admin 100;
  call (Call.RegisterTask admin 50);;
  call (Call.Vote g1 50);; call (Call.Vote g2 50);; call (Call.Vote g3 50);;
  drips ← generate;
  call (Call.StartRewardStream admin drips contributor 50);;
  is_err (Call.StartRewardStream admin drips contributor 50).

Definition test_reward_stream_stored_after_success : test unit :=
  admin ← setup; contributor ← generate;
  add_guardian_with_rep admin 300;;
  g1 ← add_guardian_with_rep admin 100;
  g2 ← add_guardian_with_rep admin 100;
  g3 ← add_guardian_with_rep admin 100;
  call (Call.RegisterTask admin 77);;
  call (Call.Vote g1 77);; call (Call.Vote g2 77);; call (Call.Vote g3 77);;
  drips ← generate;
  call (Call.StartRewardStream admin drips contributor 77);;
  o ← view (get_reward_stream 77); stream ← unwrap o;
  assert_eq (RewardStream.task_id stream) 77;;
  assert_eq (RewardStream.contributor stream) contributor;;
  assert (RewardStream.active stream).

(** *** Token locking *)

Definition test_voting_fails_if_tokens_not_locked : test unit :=
  admin ← setup; g ← generate;
  call (Call.AddGuardian admin g);;
  call (Call.SetReputation admin g 100);;
  call (Call.RegisterTask admin 100);;
  is_err (Call.Vote g 100).

Definition test_admin_pause_and_circuit_breaker : test unit :=
  admin ← setup; g ← generate;
  call (Call.AddGuardian admin g);;
  call (Call.SetReputation admin g 100);;
  call (Call.RegisterTask admin 100);;
  lock_for_guardian g 100;;
  is_err (Call.Vote g 100);;
  lock_for_guardian g 1;;
  call (Call.Vote g 100);;
  task ← the_task 100; assert_eq (Task.votes task) 1.

Definition test_resign_guardian_refunds_tokens : test unit :=
  admin ← setup; g ← generate;
  call (Call.AddGuardian admin g);;
  lock_for_guardian g 200;;
  call (Call.ResignGuardian g);;
  b ← view (is_guardian g); assert (negb b);;
  n ← balance g; assert_eq n 200.

Definition test_unlock_fails_while_guardian : test unit :=
  admin ← setup; g ← generate;
  call (Call.AddGuardian admin g);;
  lock_for_guardian g 200;;
  is_err (Call.UnlockTokens g).

Definition test_unlock_succeeds_for_non_guardian : test unit :=
  setup;; non_guardian ← generate;
  lock_for_guardian non_guardian 150;;
  call (Call.UnlockTokens non_guardian);;
  n ← balance non_guardian; assert_eq n 150.

(** *** The mutex *)

Definition test_lock_released_after_successful_vote : test unit :=
  admin ← setup;
  g1 ← add_guardian_with_rep admin 100;
  g2 ← add_guardian_with_rep admin 100;
  call (Call.RegisterTask admin 202);;
  lock_for_guardian g1 101;; lock_for_guardian g2 101;;
  call (Call.Vote g1 202);; call (Call.Vote g2 202);;
  task ← the_task 202; assert_eq (Task.votes task) 2.

Definition test_lock_released_after_successful_register_task : test unit :=
  admin ← setup;
  call (Call.RegisterTask admin 300);;
  call (Call.RegisterTask admin 301);;
  a ← view (get_task 300); assert (is_some a);;
  b ← view (get_task 301); assert (is_some b).

Definition test_lock_released_after_failed_vote : test unit :=
  admin ← setup;
  g ← add_guardian_with_rep admin 100;
  stranger ← generate;
  call (Call.RegisterTask admin 303);;
  try_call (Call.Vote stranger 303);;
  lock_for_guardian g 101;;
  call (Call.Vote g 303);;
  task ← the_task 303; assert_eq (Task.votes task) 1.

(** *** Pausing *)

Definition test_admin_can_toggle_pause : test unit :=
  admin ← setup;
  paused_is false;; paused_is false;;
  call (Call.TogglePause admin);; paused_is true;;
  call (Call.TogglePause admin);; paused_is false.

Definition test_admin_can_pause_and_unpause : test unit :=
  admin ← setup;
  call (Call.Pause admin);; paused_is true;;
  call (Call.Unpause admin);; paused_is false.

Definition test_contract_paused_error_on_register_task : test unit :=
  admin ← setup;
  repeated 51 (call Call.RecordFailure);; paused_is true;;
  is_err (Call.RegisterTask admin 1).

Definition test_circuit_breaker_paused_contract_rejects_register_task : test unit :=
  admin ← setup;
  repeated 51 (call Call.RecordFailure);; paused_is true;;
  is_err (Call.RegisterTask admin 2).

Definition test_contract_paused_error_on_vote : test unit :=
  admin ← setup;
  g ← add_guardian_with_rep admin 300;
  call (Call.RegisterTask admin 1);;
  lock_for_guardian g 101;;
  call (Call.TogglePause admin);;
  is_err (Call.Vote g 1).

Definition test_contract_paused_error_on_add_guardian : test unit :=
  admin ← setup; guardian ← generate;
  call (Call.TogglePause admin);;
  is_err (Call.AddGuardian admin guardian).

Definition test_contract_paused_error_on_set_reputation : test unit :=
  admin ← setup; guardian ← generate;
  call (Call.AddGuardian admin guardian);;
  call (Call.TogglePause admin);;
  is_err (Call.SetReputation admin guardian 100).

Definition test_operations_resume_after_unpause : test unit :=
  admin ← setup;
  g ← add_guardian_with_rep admin 300;
  call (Call.TogglePause admin);;
  is_err (Call.RegisterTask admin 1);;
  call (Call.TogglePause admin);;
  call (Call.RegisterTask admin 1);;
  lock_for_guardian g 101;;
  call (Call.Vote g 1);;
  task ← the_task 1; assert (Task.is_done task).

Definition test_paused_contract_rejects_register_task : test unit :=
  admin ← setup;
  call (Call.Pause admin);; paused_is true;;
  is_err (Call.RegisterTask admin 2);;
  call (Call.Unpause admin);; paused_is false;;
  call (Call.RegisterTask admin 2);;
  t ← view (get_task 2); assert (is_some t).

Definition test_paused_contract_rejects_vote : test unit :=
  admin ← setup;
  call (Call.RegisterTask admin 1);;
  g ← add_guardian_with_rep admin 100;
  lock_for_guardian g 101;;
  call (Call.Pause admin);; paused_is true;;
  is_err (Call.Vote g 1).

(** *** Circuit breaker *)

Definition test_circuit_breaker_trips_after_threshold : test unit :=
  setup;;
  repeated 51 (call Call.RecordFailure);; paused_is true.

Definition test_paused_contract_rejects_vote_via_circuit_breaker : test unit :=
  admin ← setup;
  call (Call.RegisterTask admin 1);;
  g ← add_guardian_with_rep admin 100;
  lock_for_guardian g 101;;
  repeated 51 (call Call.RecordFailure);; paused_is true;;
  is_err (Call.Vote g 1).

Definition test_admin_can_reset_circuit_breaker : test unit :=
  admin ← setup;
  call (Call.RegisterTask admin 1);;
  g ← add_guardian_with_rep admin 100;
  lock_for_guardian g 101;;
  repeated 51 (call Call.RecordFailure);; paused_is true;;
  call (Call.ResetCircuitBreaker admin);; paused_is false;;
  is_ok (Call.Vote g 1).

Definition debug_circuit_breaker_count : test unit :=
  setup;;
  repeated 50 (call Call.RecordFailure);; paused_is false;;
  call Call.RecordFailure;; paused_is true.

(** *** Gas estimates *)

Definition cost (op : Operation) : test Z := view (get_estimated_cost op).

Definition write_ops : list Operation :=
  [Operation.RegisterTask; Operation.AddGuardian; Operation.SetReputation; Operation.LockTokens;
   Operation.UnlockTokens; Operation.ResignGuardian; Operation.SetWeightThreshold;
   Operation.StartRewardStream; Operation.TogglePause; Operation.RecordFailure;
   Operation.ResetCircuitBreaker].

Definition all_ops : list Operation := Operation.Vote :: Operation.UpgradeContract :: write_ops.

Definition test_all_operations_return_nonzero_cost : test unit :=
  setup;; for_each all_ops (fun op => c ← cost op; assert (0 <? c)).

Definition test_vote_is_most_expensive_write_operation : test unit :=
  setup;; vote_cost ← cost Operation.Vote;
  for_each write_ops (fun op => c ← cost op; assert (c <=? vote_cost)).

Definition test_upgrade_contract_is_overall_maximum : test unit :=
  setup;; upgrade_cost ← cost Operation.UpgradeContract;
  for_each (Operation.Vote :: write_ops) (fun op => c ← cost op; assert (c <=? upgrade_cost)).

Definition test_cost_spot_checks : test unit :=
  setup;;
  for_each
    [(Operation.SetWeightThreshold, 650000); (Operation.SetReputation, 700000);
     (Operation.AddGuardian, 700000); (Operation.TogglePause, 730000);
     (Operation.ResetCircuitBreaker, 800000); (Operation.RecordFailure, 880000);
     (Operation.RegisterTask, 1000000); (Operation.LockTokens, 1250000);
     (Operation.StartRewardStream, 1330000); (Operation.UnlockTokens, 1300000);
     (Operation.ResignGuardian, 1400000); (Operation.Vote, 1960000);
     (Operation.UpgradeContract, 2500000)]
    (fun '(op, n) => c ← cost op; assert_eq c n).

(** On a contract nobody initialised, signed by nobody. *)
Definition test_estimated_cost_requires_no_auth : test unit := fun e =>
  match run (unsigned 0) (get_estimated_cost Operation.Vote) (chain e) with
  | Done c _ => assert (0 <? c) e
  | _ => None
  end.

Definition test_all_costs_above_base_invocation_overhead : test unit :=
  setup;; for_each all_ops (fun op => c ← cost op; assert (500000 <? c)).

(** *** Version and snapshots *)

Definition test_logic_version : test unit := setup;; v ← view get_version; assert_eq v 1.

Definition test_get_snapshot_pagination : test unit :=
  admin ← setup;
  add_guardian_with_rep admin 100;;
  add_guardian_with_rep admin 200;;
  call (Call.RegisterTask admin 1);;
  call (Call.RegisterTask admin 2);;
  snap1 ← view (get_snapshot 0 1);
  assert_eq (size (Snapshot.guardians snap1)) 1%nat;; assert_eq (size (Snapshot.tasks snap1)) 1%nat;;
  snap2 ← view (get_snapshot 1 1);
  assert_eq (size (Snapshot.guardians snap2)) 1%nat;; assert_eq (size (Snapshot.tasks snap2)) 1%nat;;
  g1 ← unwrap (head (map_to_list (Snapshot.guardians snap1)).*1);
  g2 ← unwrap (head (map_to_list (Snapshot.guardians snap2)).*1);
  assert (bool_decide (g1 <> g2));;
  t1 ← unwrap (head (map_to_list (Snapshot.tasks snap1)).*1);
  t2 ← unwrap (head (map_to_list (Snapshot.tasks snap2)).*1);
  assert (bool_decide (t1 <> t2)).

Definition all : list (test unit) := [
  test_registry_starts_clean;
  test_reinitialize_reverts;
  test_add_guardian_and_register_task;
  test_set_and_get_reputation;
  test_calculate_voting_power_returns_score;
  test_calculate_voting_power_none_for_unset;
  test_reputation_can_be_updated;
  test_single_high_rep_guardian_resolves_task;
  test_multiple_low_rep_guardians_accumulate_weight;
  test_weight_vs_count_logic;
  test_many_low_rep_guardians_cannot_resolve_without_enough_weight;
  test_task_resolved_includes_final_weight;
  test_vote_rejects_missing_or_zero_reputation;
  test_custom_weight_threshold;
  test_vote_rejected_without_reputation;
  test_token_locking_rules;
  test_vote_on_nonexistent_task_rejected;
  test_reward_stream_rejected_for_unverified_task;
  test_reward_stream_rejected_until_task_verified;
  test_reward_stream_duplicate_rejected;
  test_reward_stream_stored_after_success;
  test_voting_fails_if_tokens_not_locked;
  test_admin_pause_and_circuit_breaker;
  test_resign_guardian_refunds_tokens;
  test_unlock_fails_while_guardian;
  test_unlock_succeeds_for_non_guardian;
  test_lock_released_after_successful_vote;
  test_lock_released_after_successful_register_task;
  test_lock_released_after_failed_vote;
  test_admin_can_toggle_pause;
  test_admin_can_pause_and_unpause;
  test_contract_paused_error_on_register_task;
  test_circuit_breaker_paused_contract_rejects_register_task;
  test_contract_paused_error_on_vote;
  test_contract_paused_error_on_add_guardian;
  test_contract_paused_error_on_set_reputation;
  test_operations_resume_after_unpause;
  test_paused_contract_rejects_register_task;
  test_paused_contract_rejects_vote;
  test_circuit_breaker_trips_after_threshold;
  test_paused_contract_rejects_vote_via_circuit_breaker;
  test_admin_can_reset_circuit_breaker;
  debug_circuit_breaker_count;
  test_all_operations_return_nonzero_cost;
  test_vote_is_most_expensive_write_operation;
  test_upgrade_contract_is_overall_maximum;
  test_cost_spot_checks;
  test_estimated_cost_requires_no_auth;
  test_all_costs_above_base_invocation_overhead;
  test_logic_version;
  test_get_snapshot_pagination
].

Definition passes (t : test unit) : bool := is_some (t fresh).

End ContractTests.

(** The 62 tests the repository carries pass in the model: the eleven unit
    tests of [consensus.rs] and the 51 of [init.rs] and [test.rs], each run on a
    freshly deployed contract with every call, assertion and expected error of
    the Rust text. *)
Theorem unit_tests_pass :
  Forall (fun r => r = Some tt) ConsensusTests.all /\
  Forall (fun t => ContractTests.passes t = true) ContractTests.all /\
  length ConsensusTests.all = 11%nat /\ length ContractTests.all = 51%nat.
Proof.
  split_and!; [by_eval| |done..]. apply Forall_forall. intros t Ht%list_elem_of_In. revert t Ht.
  apply forallb_forall. vm_compute. reflexivity.
Qed.
