(* ===== verification/Ledger.v ===== *)
(** * The contract as a ledger

    What the contract is about, without its storage: a record of who is a
    guardian, what they locked, which ballots were cast and what became of the
    tasks.  There is no mutex, no [Voted] flag, no key and no stored tally: a
    task's votes and weight are counted from the ballots.  [transact] is the
    contract's behaviour on it, and [encode] the storage that a ledger stands for.
    [ledger_refinement] shows that the contract and the ledger are one machine:
    the store of every reachable state is exactly the encoding of the ledger the
    same calls lead to, answers, errors, traps, events and payments included. *)

From stdpp Require Import prelude gmap list strings.
From Stdlib Require Import ZArith Lia.
From S2P Require Import Prelude.
From S2P Require Import Types.
From S2P Require Import Host.
From S2P Require Import Logic.
From S2P Require Import Frame.
From S2P Require Import Typing.
From S2P Require Import SampleHost.
From S2P Require Import Reentrancy.
From S2P Require Import Guardian.
From S2P Require Import CircuitBreaker.
From S2P Require Import Storage.
From S2P Require Import Tasks.
From S2P Require Import Drips.
From S2P Require Import Contract.
From S2P Require Import VoteSpec.
From S2P Require Import System.
From S2P Require Import SampleRun.
From S2P Require Import Spec.
From S2P Require Import Commits.
From S2P Require Import Registry.
From S2P Require Import Refinement.

(** ** The ledger *)

(** What is known of a task besides its ballots. *)
Record entry := Entry {
  settled : option Z;     (* when it was last resolved *)
  withdrawn : bool;
  filed : bool;           (* archived *)
}.

Record ledger := Ledger {
  asset : option (Address * Z);          (* the token and the amount to exceed *)
  halted : option bool;
  failures : option Z;
  bar : option Z;                        (* the weight threshold *)
  payer : option Address;
  members : gmap Address bool;
  roll : list Address;                   (* registrations, in order *)
  scores : gmap Address Z;
  deposits : gmap Address Z;
  entries : gmap Z entry;
  order : list Z;
  ballots : list (Z * Address * Z);      (* task, guardian, weight *)
  grants : gmap Z (Address * Address);   (* contributor and streaming contract *)
  grant_order : list Z;
}.

Definition blank : ledger := Ledger None None None None None ∅ [] ∅ ∅ ∅ [] [] ∅ [].

(** *** What is counted from the ballots *)

Definition votes_on (i : Z) (bs : list (Z * Address * Z)) : list (Z * Address * Z) :=
  filter (fun b => b.1.1 = i) bs.

Definition tally (i : Z) (bs : list (Z * Address * Z)) : Z := Z.of_nat (length (votes_on i bs)).

Definition weight (i : Z) (bs : list (Z * Address * Z)) : Z :=
  foldr (fun b n => b.2 + n) 0 (votes_on i bs).

Definition cast (L : ledger) (i : Z) (g : Address) : bool := bool_decide ((i, g) ∈ (ballots L).*1).

(** The task the contract would store. *)
Definition task_of (bs : list (Z * Address * Z)) (i : Z) (e : entry) : Task :=
  Task.mk i (tally i bs) (bool_decide (is_Some (settled e))) (default 0 (settled e))
    (weight i bs) (withdrawn e).

(** ** Transactions *)

Inductive verdict (Wld : Type) :=
| Accept (L : ledger) (w : Wld) (es : list effect)
| Refuse (e : ContractError)
| Crash (r : trap).
Arguments Accept {Wld}.
Arguments Refuse {Wld}.
Arguments Crash {Wld}.

(** *** Updates *)

Definition set_asset x L := Ledger x (halted L) (failures L) (bar L) (payer L) (members L) (roll L)
  (scores L) (deposits L) (entries L) (order L) (ballots L) (grants L) (grant_order L).
Definition set_halted x L := Ledger (asset L) x (failures L) (bar L) (payer L) (members L) (roll L)
  (scores L) (deposits L) (entries L) (order L) (ballots L) (grants L) (grant_order L).
Definition set_failures x L := Ledger (asset L) (halted L) x (bar L) (payer L) (members L) (roll L)
  (scores L) (deposits L) (entries L) (order L) (ballots L) (grants L) (grant_order L).
Definition set_bar x L := Ledger (asset L) (halted L) (failures L) x (payer L) (members L) (roll L)
  (scores L) (deposits L) (entries L) (order L) (ballots L) (grants L) (grant_order L).
Definition set_payer x L := Ledger (asset L) (halted L) (failures L) (bar L) x (members L) (roll L)
  (scores L) (deposits L) (entries L) (order L) (ballots L) (grants L) (grant_order L).
Definition set_members x r L := Ledger (asset L) (halted L) (failures L) (bar L) (payer L) x r
  (scores L) (deposits L) (entries L) (order L) (ballots L) (grants L) (grant_order L).
Definition set_scores x L := Ledger (asset L) (halted L) (failures L) (bar L) (payer L) (members L) (roll L)
  x (deposits L) (entries L) (order L) (ballots L) (grants L) (grant_order L).
Definition set_deposits x L := Ledger (asset L) (halted L) (failures L) (bar L) (payer L) (members L) (roll L)
  (scores L) x (entries L) (order L) (ballots L) (grants L) (grant_order L).
Definition set_entries x o L := Ledger (asset L) (halted L) (failures L) (bar L) (payer L) (members L) (roll L)
  (scores L) (deposits L) x o (ballots L) (grants L) (grant_order L).
Definition set_ballots x L := Ledger (asset L) (halted L) (failures L) (bar L) (payer L) (members L) (roll L)
  (scores L) (deposits L) (entries L) (order L) x (grants L) (grant_order L).
Definition set_grants x o L := Ledger (asset L) (halted L) (failures L) (bar L) (payer L) (members L) (roll L)
  (scores L) (deposits L) (entries L) (order L) (ballots L) x o.

Definition deposit (L : ledger) (g : Address) : Z := default 0 (deposits L !! g).

(** A task that is neither unknown nor archived. *)
Definition open_entry (L : ledger) (i : Z) : option entry :=
  match entries L !! i with Some e => if filed e then None else Some e | None => None end.

Section transact.
Context {Wld : Type} `{!World Wld}.
Implicit Types (cx : context) (L : ledger) (w : Wld).

Definition running L (v : verdict Wld) : verdict Wld :=
  if default false (halted L) then Refuse ContractError.ContractPaused else v.

Definition by_signer cx (a : Address) (v : verdict Wld) : verdict Wld :=
  if authorized cx a then v else Crash (AuthFailure a).

Definition pay_out cx (tk g : Address) L w : verdict Wld :=
  if 0 <? deposit L g then
    match token_transfer tk (self_address cx) g (deposit L g) w with
    | Some w' => Accept (set_deposits (<[g := 0]> (deposits L)) L) w' []
    | None => Crash (CallFailure tk)
    end
  else Accept L w [].

Definition pay_in cx (g : Address) (n : Z) L w : verdict Wld :=
  match asset L with
  | None => Refuse ContractError.NotInitialized
  | Some (tk, _) =>
      match token_transfer tk g (self_address cx) n w with
      | None => Crash (CallFailure tk)
      | Some w' =>
          if decide (in_i128 (deposit L g + n)) then
            Accept (set_deposits (<[g := deposit L g + n]> (deposits L)) L) w' []
          else Crash Overflow
      end
  end.

(** The checks of a ballot: its weight and the task's entry. *)
Definition admission (g : Address) (i : Z) L : ContractError + (Z * entry) :=
  if negb (default false (members L !! g)) then inl ContractError.NotAuthorized
  else
    match asset L with
    | None => inl ContractError.NotInitialized
    | Some (_, least) =>
        if deposit L g <=? least then inl ContractError.InsufficientLockedBalance
        else if cast L i g then inl ContractError.DuplicateVote
        else
          match scores L !! g with
          | None => inl ContractError.NoReputationScore
          | Some n =>
              if n =? 0 then inl ContractError.ZeroWeightVote
              else
                match open_entry L i with
                | None => inl ContractError.NotAuthorized
                | Some e =>
                    if withdrawn e then inl ContractError.TaskCancelled
                    else if decide (in_u64 (weight i (ballots L) + n)) then inr (n, e)
                    else inl ContractError.WeightOverflow
                end
          end
    end.

(** A ballot joins the list and, past the bar, settles the task. *)
Definition book (g : Address) (i n : Z) (s : option Z) (e : entry) L : ledger :=
  set_entries (<[i := Entry s (withdrawn e) (filed e)]> (entries L)) (order L)
    (set_ballots (ballots L ++ [(i, g, n)]) L).

Definition ballot cx (g : Address) (i : Z) L w : verdict Wld :=
  match admission g i L with
  | inl e => Refuse e
  | inr (n, e) =>
      if decide (in_u32 (tally i (ballots L) + 1)) then
        let total := weight i (ballots L) + n in
        if default DEFAULT_WEIGHT_THRESHOLD (bar L) <=? total then
          let L' := book g i n (Some (timestamp cx)) e L in
          match payer L with
          | None => Accept L' w [resolved_event i total; vote_event i g n]
          | Some v =>
              match release_funds v i w with
              | Some w' => Accept L' w' [resolved_event i total; vote_event i g n]
              | None => Refuse ContractError.EscrowUnavailable
              end
          end
        else Accept (book g i n (settled e) e L) w [vote_event i g n]
      else Crash Overflow
  end.

Definition file_away cx (i : Z) L w : verdict Wld :=
  match open_entry L i with
  | None => Refuse ContractError.TaskNotFound
  | Some e =>
      match settled e with
      | Some at_ =>
          if at_ =? 0 then Refuse ContractError.TaskNotVerified
          else if at_ + ARCHIVE_AFTER_SECONDS <? timestamp cx then
            Accept (set_entries (<[i := Entry (settled e) (withdrawn e) true]> (entries L)) (order L) L) w
              [Published ["archived"%string] (DTuple [VU64 i; VU64 at_])]
          else Refuse ContractError.TaskNotStale
      | None => Refuse ContractError.TaskNotVerified
      end
  end.

Definition grant (d c : Address) (i : Z) L w : verdict Wld :=
  match open_entry L i with
  | None => Refuse ContractError.NotAuthorized
  | Some e =>
      if withdrawn e then Refuse ContractError.TaskCancelled
      else if negb (bool_decide (is_Some (settled e))) then Refuse ContractError.TaskNotVerified
      else if bool_decide (is_Some (grants L !! i)) then Refuse ContractError.StreamAlreadyActive
      else
        match invoke_contract d "start_stream" [VAddress c; VU64 i; VU32 1] w with
        | None => Crash (CallFailure d)
        | Some w' =>
            Accept (set_grants (<[i := (c, d)]> (grants L)) (grant_order L ++ [i]) L) w'
              [Published ["rw_start"%string] (DTuple [VU64 i; VAddress c])]
        end
  end.

Definition report L w : verdict Wld :=
  let n := default 0 (failures L) + 1 in
  if decide (default 0 (failures L) < u32_max) then
    if (FAILURE_THRESHOLD <? n) && negb (default false (halted L)) then
      Accept (set_halted (Some true) (set_failures (Some n) L)) w
        [Published ["cb_trip"%string] (DTuple [VU32 n])]
    else Accept (set_failures (Some n) L) w []
  else Crash Overflow.

Definition transact cx (c : Call) L w : verdict Wld :=
  match c with
  | Call.Initialize tk thr =>
      if bool_decide (is_Some (asset L)) then Refuse ContractError.AlreadyInitialized
      else Accept (set_halted (Some false) (set_asset (Some (tk, thr)) L)) w [TtlExtended 100000 100000]
  | Call.TogglePause a =>
      by_signer cx a (Accept (set_halted (Some (negb (default false (halted L)))) L) w [])
  | Call.Pause a => by_signer cx a (Accept (set_halted (Some true) L) w [])
  | Call.Unpause a => by_signer cx a (Accept (set_halted (Some false) L) w [])
  | Call.AddGuardian a g =>
      running L (by_signer cx a
        (Accept (set_members (<[g := true]> (members L))
                   (if bool_decide (is_Some (members L !! g)) then roll L else roll L ++ [g]) L) w
           [TtlExtended LEDGER_TTL LEDGER_TTL]))
  | Call.RemoveGuardian a g =>
      running L (by_signer cx a
        (if bool_decide (is_Some (members L !! g)) then
           Accept (set_members (delete g (members L)) (roll L) L) w []
         else Crash (PanicWith "Guardian not found")))
  | Call.LockTokens g n => by_signer cx g (pay_in cx g n L w)
  | Call.ResignGuardian g =>
      by_signer cx g
        match asset L with
        | None => Refuse ContractError.NotInitialized
        | Some (tk, _) =>
            if default false (members L !! g) then
              pay_out cx tk g (set_members (<[g := false]> (members L)) (roll L) L) w
            else Refuse ContractError.NotGuardian
        end
  | Call.UnlockTokens g =>
      by_signer cx g
        match asset L with
        | None => Refuse ContractError.NotInitialized
        | Some (tk, _) =>
            if default false (members L !! g) then Refuse ContractError.StillGuardian
            else pay_out cx tk g L w
        end
  | Call.SetReputation a g s =>
      running L (by_signer cx a (Accept (set_scores (<[g := s]> (scores L)) L) w []))
  | Call.SetWeightThreshold a t => by_signer cx a (Accept (set_bar (Some t) L) w [])
  | Call.SetVaultAddress a v => by_signer cx a (Accept (set_payer (Some v) L) w [])
  | Call.RegisterTask a i =>
      running L (by_signer cx a
        (if bool_decide (is_Some (entries L !! i)) then Refuse ContractError.NotAuthorized
         else Accept (set_entries (<[i := Entry None false false]> (entries L)) (order L ++ [i]) L) w []))
  | Call.CancelTask a i =>
      running L (by_signer cx a
        match open_entry L i with
        | None => Refuse ContractError.NotAuthorized
        | Some e =>
            Accept (set_entries (<[i := Entry (settled e) true (filed e)]> (entries L)) (order L) L) w
              [Published ["cancelled"%string] (DValue (VU64 i))]
        end)
  | Call.Vote g i => running L (by_signer cx g (ballot cx g i L w))
  | Call.ArchiveTask i => running L (file_away cx i L w)
  | Call.StartRewardStream a d c i => running L (by_signer cx a (grant d c i L w))
  | Call.RecordFailure => report L w
  | Call.ResetCircuitBreaker a => by_signer cx a (Accept (set_halted None (set_failures (Some 0) L)) w [])
  end.

End transact.

(** *** Accepted transactions *)

Lemma running_accept {Wld} L (v : verdict Wld) L' w es :
  running L v = Accept L' w es -> default false (halted L) = false /\ v = Accept L' w es.
Proof. unfold running. by destruct (default false (halted L)). Qed.

Lemma by_signer_accept {Wld} cx a (v : verdict Wld) L' w es :
  by_signer cx a v = Accept L' w es -> authorized cx a = true /\ v = Accept L' w es.
Proof. unfold by_signer. by destruct (authorized cx a). Qed.

(** Inverts [H : transact cx c L w = Accept L' w' es] for a given call other than a
    vote, along every path that accepts. *)
Ltac transact_inv H :=
  repeat match type of H with
  | running _ _ = _ => apply running_accept in H as [? H]
  | by_signer _ _ _ = _ => apply by_signer_accept in H as [? H]
  end;
  unfold pay_in, pay_out, file_away, grant, report in H; cbv zeta in H;
  repeat match type of H with
  | Accept _ _ _ = Accept _ _ _ => injection H as <- <- <-
  | context [match ?x with _ => _ end] => destruct x eqn:?; try discriminate H
  end.

(** ** The storage a ledger stands for *)

Definition listed {A} (v : list A -> Val) (l : list A) : option Val :=
  match l with [] => None | _ => Some (v l) end.

Definition encode (L : ledger) (k : DataKey) : option Val :=
  match k with
  | DataKey.Initialized => (fun _ => VBool true) <$> asset L
  | DataKey.TokenAddress => (fun a => VAddress a.1) <$> asset L
  | DataKey.LockThreshold => (fun a => VI128 a.2) <$> asset L
  | DataKey.Paused => VBool <$> halted L
  | DataKey.FailureCount => VU32 <$> failures L
  | DataKey.WeightThreshold => VU64 <$> bar L
  | DataKey.VaultAddress => VAddress <$> payer L
  | DataKey.Guardian g => VBool <$> members L !! g
  | DataKey.AllGuardians => listed VVecAddress (roll L)
  | DataKey.Reputation g => VU64 <$> scores L !! g
  | DataKey.LockedBalance g => VI128 <$> deposits L !! g
  | DataKey.ActiveTask i =>
      match entries L !! i with
      | Some e => if filed e then None else Some (VTask (task_of (ballots L) i e))
      | None => None
      end
  | DataKey.ArchivedTask i =>
      match entries L !! i with
      | Some e => if filed e then Some (VTask (task_of (ballots L) i e)) else None
      | None => None
      end
  | DataKey.AllTasks => listed VVecU64 (order L)
  | DataKey.AllVotes => listed VVecVote (ballots L).*1
  | DataKey.Voted i g => if cast L i g then Some (VBool true) else None
  | DataKey.RewardStream i =>
      (fun cd => VRewardStream (RewardStream.mk i cd.1 cd.2 true)) <$> grants L !! i
  | DataKey.AllRewardStreams => listed VVecU64 (grant_order L)
  | DataKey.Lock | DataKey.Admin | DataKey.DripsAddress => None
  end.

(** *** Counting *)

Lemma votes_on_snoc i j g n bs :
  votes_on i (bs ++ [(j, g, n)]) = votes_on i bs ++ (if decide (j = i) then [(j, g, n)] else []).
Proof. unfold votes_on. by rewrite filter_app, filter_cons, filter_nil. Qed.

Lemma tally_snoc i j g n bs : tally i (bs ++ [(j, g, n)]) = tally i bs + (if decide (j = i) then 1 else 0).
Proof. unfold tally. rewrite votes_on_snoc, length_app, Nat2Z.inj_add. by case_decide. Qed.

Lemma foldr_total (l : list (Z * Address * Z)) m :
  foldr (fun b k => b.2 + k) m l = foldr (fun b k => b.2 + k) 0 l + m.
Proof. induction l as [|b l IH]; cbn [foldr]; [lia|]. rewrite IH. lia. Qed.

Lemma weight_snoc i j g n bs : weight i (bs ++ [(j, g, n)]) = weight i bs + (if decide (j = i) then n else 0).
Proof.
  unfold weight. rewrite votes_on_snoc, foldr_app, foldr_total. f_equal.
  case_decide; cbn [foldr snd]; lia.
Qed.

Lemma votes_on_none i bs :
  Forall (fun b => b.1.1 <> i) bs -> tally i bs = 0 /\ weight i bs = 0.
Proof.
  unfold tally, weight. intros H. assert (votes_on i bs = []) as ->; [|done].
  unfold votes_on. induction H as [|b bs Hb _ IH]; [done|]. by rewrite filter_cons_False.
Qed.

(** ** The simulation *)

Section simulation.
Context {Sto Wld : Type} `{!InstanceStorage Sto} `{!World Wld}.
Implicit Types (st : state Sto Wld) (cx : context) (L : ledger).

Definition represents L st : Prop := forall k, sget k (storage st) = encode L k.

(** Only known tasks have ballots. *)
Definition ledger_ok L : Prop := Forall (fun b => is_Some (entries L !! b.1.1)) (ballots L).

(** Nothing is counted for an unknown task. *)
Lemma uncounted L i : ledger_ok L -> entries L !! i = None -> tally i (ballots L) = 0 /\ weight i (ballots L) = 0.
Proof.
  intros Hok He. apply votes_on_none. apply (Forall_impl _ _ _ Hok). intros b Hb Hi. rewrite Hi, He in Hb. by destruct Hb.
Qed.

Definition agrees st (o : outcome Sto Wld unit) (v : verdict Wld) : Prop :=
  match o, v with
  | Done _ st', Accept L w es =>
      represents L st' /\ ledger_ok L /\ world st' = w /\ effects st' = effects st ++ es
  | Failed e _, Refuse e' => e = e'
  | Trapped r, Crash r' => r = r'
  | _, _ => False
  end.

#[global] Arguments agrees : simpl never.

Lemma agrees_implements st o1 o2 v : implements o1 o2 -> agrees st o2 v -> agrees st o1 v.
Proof.
  destruct o1 as [u1 s1|e1 s1|r1], o2 as [u2 s2|e2 s2|r2], v as [L w es|e|r]; unfold agrees; simpl; try done.
  - intros (_ & Hs & Hw & He) (H1 & H2 & H3 & H4). split_and!; [|done|congruence|congruence].
    intros k. by rewrite Hs.
  - by intros (-> & _ & _).
  - by intros ->.
Qed.

(** *** Reading a represented store *)

Section views.
Context (L : ledger) st (HR : represents L st).

Lemma look_encode {T} (c : codec T) k o : encode L k = into_val c <$> o -> look c k (storage st) = o.
Proof. intros H. apply look_into. by rewrite HR. Qed.

Lemma view_paused : paused st = default false (halted L).
Proof. unfold paused. by rewrite (look_encode _ _ (halted L)). Qed.
Lemma view_failures : failure_count st = default 0 (failures L).
Proof. unfold failure_count. by rewrite (look_encode _ _ (failures L)). Qed.
Lemma view_initialized : initialized st = bool_decide (is_Some (asset L)).
Proof.
  unfold initialized. rewrite (look_encode _ _ ((fun _ => true) <$> asset L)); [|by simpl; destruct (asset L)].
  by destruct (asset L).
Qed.
Lemma view_token : token_address st = fst <$> asset L.
Proof. apply look_encode. simpl. by destruct (asset L). Qed.
Lemma view_token_known : token_known st = bool_decide (is_Some (asset L)).
Proof. unfold token_known. rewrite HR. simpl. by destruct (asset L). Qed.
Lemma view_least : lock_threshold st = default 0 (snd <$> asset L).
Proof. unfold lock_threshold. rewrite (look_encode _ _ (snd <$> asset L)); [done|]. simpl. by destruct (asset L). Qed.
Lemma view_bar : weight_threshold st = default DEFAULT_WEIGHT_THRESHOLD (bar L).
Proof. unfold weight_threshold. by rewrite (look_encode _ _ (bar L)). Qed.
Lemma view_payer : vault st = payer L.
Proof. by apply look_encode. Qed.
Lemma view_registered g : registered st g = default false (members L !! g).
Proof. unfold registered. by rewrite (look_encode _ _ (members L !! g)). Qed.
Lemma view_roll : all_guardians st = roll L.
Proof.
  unfold all_guardians. destruct (roll L) as [|a l] eqn:E.
  - by rewrite (look_encode _ _ None); [|unfold encode; rewrite E].
  - by rewrite (look_encode _ _ (Some (a :: l))); [|unfold encode; rewrite E].
Qed.
Lemma view_reputation g : reputation st g = scores L !! g.
Proof. by apply look_encode. Qed.
Lemma view_deposit g : locked_balance st g = deposit L g.
Proof. unfold locked_balance. by rewrite (look_encode _ _ (deposits L !! g)). Qed.
Lemma view_active i : active_task st i = task_of (ballots L) i <$> open_entry L i.
Proof.
  apply look_encode. unfold open_entry. simpl. destruct (entries L !! i) as [e|]; [|done]. simpl. by destruct (filed e).
Qed.
Lemma view_archived i e : open_entry L i = Some e -> archived_task st i = None.
Proof.
  intros He. apply look_encode. unfold open_entry in He. simpl. destruct (entries L !! i) as [e'|]; [|done].
  simpl in *. by destruct (filed e').
Qed.
Lemma view_free i : id_free st i <-> entries L !! i = None.
Proof.
  unfold id_free. rewrite !HR. simpl. destruct (entries L !! i) as [e|]; [|done]. destruct (filed e); naive_solver.
Qed.
Lemma view_tasks : all_tasks st = order L.
Proof.
  unfold all_tasks. destruct (order L) as [|a l] eqn:E.
  - by rewrite (look_encode _ _ None); [|unfold encode; rewrite E].
  - by rewrite (look_encode _ _ (Some (a :: l))); [|unfold encode; rewrite E].
Qed.
Lemma view_votes : all_votes st = (ballots L).*1.
Proof.
  unfold all_votes. destruct (ballots L).*1 as [|a l] eqn:E.
  - by rewrite (look_encode _ _ None); [|unfold encode; rewrite E].
  - by rewrite (look_encode _ _ (Some (a :: l))); [|unfold encode; rewrite E].
Qed.
Lemma view_voted i g : has_voted st i g = cast L i g.
Proof. unfold has_voted. rewrite HR. simpl. by destruct (cast L i g). Qed.
Lemma view_streams : all_streams st = grant_order L.
Proof.
  unfold all_streams. destruct (grant_order L) as [|a l] eqn:E.
  - by rewrite (look_encode _ _ None); [|unfold encode; rewrite E].
  - by rewrite (look_encode _ _ (Some (a :: l))); [|unfold encode; rewrite E].
Qed.
Lemma view_locked : locked st = false.
Proof. unfold locked. by rewrite HR. Qed.

End views.
(** *** Writing a represented store *)

Lemma sget_sset_dec k k' v (s : Sto) : sget k (sset k' v s) = if decide (k' = k) then Some v else sget k s.
Proof. case_decide; [subst; apply sget_sset|by apply sget_sset_ne]. Qed.

Lemma sget_sremove_dec k k' (s : Sto) : sget k (sremove k' s) = if decide (k' = k) then None else sget k s.
Proof. case_decide; [subst; apply sget_sremove|by apply sget_sremove_ne]. Qed.

Lemma listed_snoc {A} (v : list A -> Val) l x : listed v (l ++ [x]) = Some (v (l ++ [x])).
Proof. by destruct l. Qed.

End simulation.

(** Compares the store after some writes with the encoding of the new ledger, key
    by key. *)
Ltac by_keys HR :=
  let k := fresh "k" in
  intros k; unfold put; simpl; repeat first [rewrite sget_sset_dec | rewrite sget_sremove_dec]; rewrite ?HR;
  destruct k; repeat (case_decide; simplify_eq); try done; simpl;
  rewrite ?lookup_insert_eq, ?lookup_delete_eq; try done;
  rewrite ?lookup_insert_ne, ?lookup_delete_ne by congruence; try done;
  rewrite ?listed_snoc; try done.

Section steps.
Context {Sto Wld : Type} `{!InstanceStorage Sto} `{!World Wld}.
Implicit Types (st : state Sto Wld) (cx : context) (L : ledger).

Lemma running_agrees st L (o : outcome Sto Wld unit) v :
  represents L st -> agrees st o v -> agrees st (unless_paused st o) (running L v).
Proof. intros HR Ha. unfold unless_paused, running. rewrite (view_paused L st HR). by destruct (default _ _). Qed.

Lemma signer_agrees cx a st (o : outcome Sto Wld unit) v :
  agrees st o v -> agrees st (signed cx a o) (by_signer cx a v).
Proof. intros Ha. unfold signed, by_signer. by destruct (authorized cx a). Qed.

Lemma accept_agrees st st' L' w es :
  represents L' st' -> ledger_ok L' -> world st' = w -> effects st' = effects st ++ es ->
  agrees st (Done tt st') (Accept L' w es).
Proof. done. Qed.

(** A change of the store alone. *)
Lemma quiet_agrees st L' f :
  represents L' (with_storage f st) -> ledger_ok L' ->
  agrees st (Done tt (with_storage f st)) (Accept L' (world st) []).
Proof. intros H1 H2. apply accept_agrees; [done..|]. by rewrite app_nil_r. Qed.

Lemma initialize_agrees tk thr st L :
  represents L st -> ledger_ok L ->
  agrees st (initialize_spec tk thr st)
    (if bool_decide (is_Some (asset L)) then Refuse ContractError.AlreadyInitialized
     else Accept (set_halted (Some false) (set_asset (Some (tk, thr)) L)) (world st) [TtlExtended 100000 100000]).
Proof.
  intros HR Hok. unfold initialize_spec. rewrite (view_initialized L st HR). case_bool_decide; [done|].
  apply accept_agrees; try done. by_keys HR.
Qed.

Lemma pay_out_agrees cx tk g st L :
  represents L st -> ledger_ok L -> agrees st (refund_spec cx tk g st) (pay_out cx tk g L (world st)).
Proof.
  intros HR Hok. unfold refund_spec, pay_out. rewrite (view_deposit L st HR). destruct (0 <? deposit L g).
  - destruct (token_transfer _ _ _ _ _) as [w|]; [|done]. apply accept_agrees; try done; [by_keys HR|by rewrite app_nil_r].
  - apply accept_agrees; try done. by rewrite app_nil_r.
Qed.

Lemma pay_in_agrees cx g n st L :
  represents L st -> ledger_ok L -> agrees st (lock_tokens_spec cx g n st) (pay_in cx g n L (world st)).
Proof.
  intros HR Hok. unfold lock_tokens_spec, with_token, pay_in.
  rewrite (view_token L st HR), (view_deposit L st HR). destruct (asset L) as [[tk least]|]; [|done]. simpl.
  destruct (token_transfer _ _ _ _ _) as [w|]; [|done]. case_decide; [|done].
  apply accept_agrees; try done; [by_keys HR|by rewrite app_nil_r].
Qed.

Lemma add_agrees g st L :
  represents L st -> ledger_ok L ->
  agrees st (Done tt (guardian_added g st))
    (Accept (set_members (<[g := true]> (members L))
               (if bool_decide (is_Some (members L !! g)) then roll L else roll L ++ [g]) L) (world st)
       [TtlExtended LEDGER_TTL LEDGER_TTL]).
Proof.
  intros HR Hok. unfold guardian_added. rewrite HR, (view_roll L st HR). simpl.
  destruct (members L !! g) as [b|] eqn:Hg; simpl; apply accept_agrees; try done; by_keys HR.
Qed.

Lemma remove_agrees g st L :
  represents L st -> ledger_ok L ->
  agrees st (remove_guardian_spec g st)
    (if bool_decide (is_Some (members L !! g)) then
       Accept (set_members (delete g (members L)) (roll L) L) (world st) []
     else Crash (PanicWith "Guardian not found")).
Proof.
  intros HR Hok. unfold remove_guardian_spec. rewrite HR. simpl.
  destruct (members L !! g) as [b|] eqn:Hg; simpl; [|done]. apply quiet_agrees; [|done]. by_keys HR.
Qed.

Lemma resign_agrees cx g st L :
  represents L st -> ledger_ok L ->
  agrees st (resign_spec cx g st)
    match asset L with
    | None => Refuse ContractError.NotInitialized
    | Some (tk, _) =>
        if default false (members L !! g) then
          pay_out cx tk g (set_members (<[g := false]> (members L)) (roll L) L) (world st)
        else Refuse ContractError.NotGuardian
    end.
Proof.
  intros HR Hok. unfold resign_spec, with_token.
  rewrite (view_token L st HR), (view_registered L st HR). destruct (asset L) as [[tk least]|]; [|done]. simpl.
  destruct (default _ _); [|done].
  apply (pay_out_agrees cx tk g (put (DataKey.Guardian g) (VBool false) st)); [by_keys HR|done].
Qed.

Lemma unlock_agrees cx g st L :
  represents L st -> ledger_ok L ->
  agrees st (unlock_tokens_spec cx g st)
    match asset L with
    | None => Refuse ContractError.NotInitialized
    | Some (tk, _) =>
        if default false (members L !! g) then Refuse ContractError.StillGuardian
        else pay_out cx tk g L (world st)
    end.
Proof.
  intros HR Hok. unfold unlock_tokens_spec, with_token.
  rewrite (view_token L st HR), (view_registered L st HR). destruct (asset L) as [[tk least]|]; [|done]. simpl.
  destruct (default _ _); [done|]. by apply pay_out_agrees.
Qed.

Lemma report_agrees st L :
  represents L st -> ledger_ok L -> agrees st (record_failure_spec st) (report L (world st)).
Proof.
  intros HR Hok. unfold record_failure_spec, report, after_failure.
  rewrite (view_failures L st HR), (view_paused L st HR). case_decide; [|done].
  destruct (_ && _); apply accept_agrees; try done; try by_keys HR. by rewrite app_nil_r.
Qed.

(** *** Tasks *)

(** Splits on whether a looked-up task is the one whose entry changed. *)
Local Ltac by_task :=
  match goal with
  | |- context [<[?i := _]> (entries _) !! ?j] =>
      destruct (decide (i = j)) as [<-|];
        [rewrite ?lookup_insert_eq|rewrite ?lookup_insert_ne by done; done]
  | _ => idtac
  end; simpl.

(** A task's entry changes; its ballots do not. *)
Lemma entry_known L i e o :
  ledger_ok L -> ledger_ok (set_entries (<[i := e]> (entries L)) o L).
Proof.
  unfold ledger_ok. simpl. intros H. apply (Forall_impl _ _ _ H). intros b Hb. destruct (decide (b.1.1 = i)) as [->|].
  - by rewrite lookup_insert_eq.
  - by rewrite lookup_insert_ne.
Qed.

Lemma register_agrees i st L :
  represents L st -> ledger_ok L ->
  agrees st (register_spec i st)
    (if bool_decide (is_Some (entries L !! i)) then Refuse ContractError.NotAuthorized
     else Accept (set_entries (<[i := Entry None false false]> (entries L)) (order L ++ [i]) L) (world st) []).
Proof.
  intros HR Hok. unfold register_spec. rewrite (view_locked L st HR).
  pose proof (view_free L st HR i) as Hf. destruct (entries L !! i) as [e|] eqn:He; simpl.
  { case_decide as Hd; [|done]. by apply Hf in Hd. }
  rewrite decide_True by (by apply Hf).
  apply accept_agrees; [|by apply entry_known|done|by rewrite app_nil_r].
  destruct (uncounted L i Hok He) as [Ht Hw].
  unfold tasks_registered. rewrite (view_tasks L st HR). by_keys HR.
  - unfold task_of. by rewrite Ht, Hw.
  - by_task. by rewrite He.
Qed.

Lemma open_lookup L i e : open_entry L i = Some e -> entries L !! i = Some e /\ filed e = false.
Proof. unfold open_entry. destruct (entries L !! i) as [e'|]; [|done]. destruct (filed e') eqn:E; naive_solver. Qed.

Lemma open_known L i e : entries L !! i = Some e /\ filed e = false -> open_entry L i = Some e.
Proof. unfold open_entry. by intros [-> ->]. Qed.

Lemma cancel_agrees cx a i st L :
  represents L st -> ledger_ok L ->
  agrees st (cancel_outcome cx a i st)
    (by_signer cx a
      match open_entry L i with
      | None => Refuse ContractError.NotAuthorized
      | Some e =>
          Accept (set_entries (<[i := Entry (settled e) true (filed e)]> (entries L)) (order L) L) (world st)
            [Published ["cancelled"%string] (DValue (VU64 i))]
      end).
Proof.
  intros HR Hok. unfold cancel_outcome, by_signer. rewrite (view_locked L st HR), (view_active L st HR).
  destruct (authorized cx a); [|done]. simpl. destruct (open_entry L i) as [e|] eqn:He; [|done]. simpl.
  apply open_lookup in He as [He Hf].
  apply accept_agrees; [|by apply entry_known|done..]. by_keys HR; by_task; by rewrite ?He, ?Hf.
Qed.

Lemma archive_agrees cx i st L :
  represents L st -> ledger_ok L -> agrees st (archive_spec cx i st) (file_away cx i L (world st)).
Proof.
  intros HR Hok. unfold archive_spec, file_away, archive_outcome.
  destruct (open_entry L i) as [e|] eqn:He.
  2: { by rewrite (view_active L st HR), He. }
  rewrite (view_archived L st HR i e He), (view_active L st HR), He. simpl.
  apply open_lookup in He as [He Hf]. destruct (settled e) as [t|] eqn:Hs; simpl; [|done].
  destruct (Z.eqb_spec t 0) as [->|Ht].
  { by rewrite decide_False by tauto. }
  rewrite decide_True by done. destruct (Z.ltb_spec (t + ARCHIVE_AFTER_SECONDS) (timestamp cx)).
  - rewrite decide_True by done. apply accept_agrees; [|by apply entry_known|done..].
    by_keys HR; by_task; by rewrite ?He, ?Hf; unfold task_of; simpl; rewrite ?Hs.
  - by rewrite decide_False by lia.
Qed.

Lemma grant_agrees d c i st L :
  represents L st -> ledger_ok L -> agrees st (stream_spec d c i st) (grant d c i L (world st)).
Proof.
  intros HR Hok. unfold stream_spec, grant, drips_outcome. fold (active_task st i) (all_streams st).
  rewrite (view_active L st HR), (view_streams L st HR), HR.
  destruct (open_entry L i) as [e|] eqn:He; [|done]. simpl. destruct (withdrawn e); [done|].
  destruct (bool_decide (is_Some (settled e))); [|done]. simpl.
  destruct (grants L !! i) as [cd|] eqn:Hg; [done|]. simpl.
  destruct (invoke_contract _ _ _ _) as [w|]; [|done]. apply accept_agrees; try done. by_keys HR.
Qed.

(** *** Ballots *)

Lemma vote_check_admission g i st L :
  represents L st -> ledger_ok L ->
  vote_check g i st = match admission g i L with inl e => inl e | inr (n, e) => inr (n, task_of (ballots L) i e) end.
Proof.
  intros HR Hok. unfold vote_check, admission.
  rewrite (view_registered L st HR), (view_token_known L st HR), (view_least L st HR),
    (view_deposit L st HR), (view_voted L st HR), (view_reputation L st HR), (view_active L st HR).
  destruct (default false _); [|done]. destruct (asset L) as [[tk least]|]; [|done]. simpl.
  destruct (deposit L g <=? least); [done|]. destruct (cast L i g); [done|].
  destruct (scores L !! g) as [n|]; [|done]. destruct (n =? 0); [done|].
  destruct (open_entry L i) as [e|]; [|done]. simpl. destruct (withdrawn e); [done|]. by case_decide.
Qed.

Lemma admission_open g i L n e :
  admission g i L = inr (n, e) -> entries L !! i = Some e /\ filed e = false /\ withdrawn e = false.
Proof.
  unfold admission. intros H. repeat (case_match; simplify_eq/=). split_and!; try done; by eapply open_lookup.
Qed.

(** The task a ballot leaves is the one the contract writes. *)
Lemma task_booked g i n e s bs t :
  t = voted_task n (task_of bs i e) ->
  task_of (bs ++ [(i, g, n)]) i (Entry s (withdrawn e) (filed e)) =
    match s with
    | Some now => resolved_task now t
    | None => Task.mk (Task.id t) (Task.votes t) false 0 (Task.total_weight_accrued t) (Task.is_cancelled t)
    end.
Proof.
  intros ->. unfold task_of. simpl. rewrite tally_snoc, weight_snoc, !decide_True by done. by destruct s.
Qed.

Lemma cast_booked L g i n s e j h :
  cast (book g i n s e L) j h = bool_decide ((j, h) = (i, g)) || cast L j h.
Proof.
  unfold cast, book. simpl. rewrite fmap_app. simpl. rewrite <- bool_decide_or. apply bool_decide_ext.
  rewrite elem_of_app, list_elem_of_singleton. tauto.
Qed.

(** The keys a ballot does not set. *)
Lemma book_frame g i n s e L k :
  open_entry L i = Some e ->
  k <> DataKey.ActiveTask i -> k <> DataKey.Voted i g -> k <> DataKey.AllVotes ->
  encode (book g i n s e L) k = encode L k.
Proof.
  intros [He Hf]%open_lookup Hk1 Hk2 Hk3. destruct k; try done; unfold encode.
  - simpl entries. rewrite lookup_insert_ne by congruence. destruct (entries L !! id) as [e'|]; [|done].
    unfold task_of. simpl ballots. rewrite tally_snoc, weight_snoc, !decide_False by congruence. by rewrite !Z.add_0_r.
  - simpl entries. destruct (decide (i = id)) as [<-|].
    + rewrite lookup_insert_eq, He. simpl. by rewrite Hf.
    + rewrite lookup_insert_ne by congruence. destruct (entries L !! id) as [e'|]; [|done].
      unfold task_of. simpl ballots. rewrite tally_snoc, weight_snoc, !decide_False by congruence. by rewrite !Z.add_0_r.
  - rewrite cast_booked, bool_decide_false; [done|]. congruence.
Qed.

Lemma booked_represents g i n s e t st st' L :
  represents L st -> storage st' = storage st -> entries L !! i = Some e -> filed e = false ->
  task_of (ballots L ++ [(i, g, n)]) i (Entry s (withdrawn e) (filed e)) = t ->
  represents (book g i n s e L) (vote_recorded g i n t st').
Proof.
  intros HR Hst He Hf Ht k. unfold vote_recorded, all_votes. simpl. rewrite !sget_sset_dec, Hst, HR.
  fold (all_votes st). rewrite (view_votes L st HR).
  destruct (decide (DataKey.ActiveTask i = k)) as [<-|Ha].
  { simpl. rewrite lookup_insert_eq. simpl. by rewrite Hf, <- Ht, Hf. }
  destruct (decide (DataKey.Voted i g = k)) as [<-|Hv].
  { simpl. rewrite cast_booked. by rewrite bool_decide_true by done. }
  destruct (decide (DataKey.AllVotes = k)) as [<-|Hl].
  { unfold encode. simpl ballots. rewrite fmap_app. simpl. by rewrite listed_snoc. }
  symmetry. apply book_frame; [by apply open_known|congruence..].
Qed.

Lemma booked_ok g i n s e L : entries L !! i = Some e -> ledger_ok L -> ledger_ok (book g i n s e L).
Proof.
  intros He Hok. unfold ledger_ok, book. simpl. apply Forall_app. split.
  - by apply (entry_known L i (Entry s (withdrawn e) (filed e)) (order L)) in Hok.
  - apply Forall_singleton. simpl. by rewrite lookup_insert_eq.
Qed.

Lemma ballot_agrees cx g i st L :
  represents L st -> ledger_ok L ->
  agrees st (vote_spec cx g i st) (running L (by_signer cx g (ballot cx g i L (world st)))).
Proof.
  intros HR Hok. unfold vote_spec, running, by_signer, ballot.
  rewrite (view_paused L st HR), (view_locked L st HR), (vote_check_admission g i st L HR Hok),
    (view_bar L st HR), (view_payer L st HR).
  destruct (default false (halted L)); [done|]. destruct (authorized cx g); [|done]. simpl.
  destruct (admission g i L) as [err|[n e]] eqn:Had; [done|].
  apply admission_open in Had as (He & Hf & Hw). simpl. case_decide; [|done].
  destruct (_ <=? _).
  - destruct (payer L) as [v|].
    + destruct (release_funds v i (world st)) as [w|]; [|done].
      apply accept_agrees; [|by apply booked_ok|done|simpl; by rewrite <- app_assoc].
      apply (booked_represents _ _ _ _ _ _ st); [done..|]. by rewrite (task_booked _ _ _ _ _ _ _ eq_refl).
    + apply accept_agrees; [|by apply booked_ok|done|simpl; by rewrite <- app_assoc].
      apply (booked_represents _ _ _ _ _ _ st); [done..|]. by rewrite (task_booked _ _ _ _ _ _ _ eq_refl).
  - apply accept_agrees; [|by apply booked_ok|done|done].
    apply (booked_represents _ _ _ _ _ _ st); [done..|].
    rewrite (task_booked _ _ _ _ _ _ _ eq_refl). unfold voted_task, resolved_task, task_of. simpl.
    by destruct (settled e).
Qed.

(** *** Every call *)

Lemma exec_agrees cx c st L :
  well_typed st -> call_wf c -> represents L st -> ledger_ok L ->
  agrees st (run cx (exec c) st) (transact cx c L (world st)).
Proof.
  intros Hwt Hc HR Hok. eapply agrees_implements; [by apply exec_spec|].
  destruct c; unfold spec, transact; try (by apply ballot_agrees);
    try (apply running_agrees; [done|]); try (by apply cancel_agrees); try apply signer_agrees;
    auto using initialize_agrees, add_agrees, remove_agrees, pay_in_agrees, resign_agrees,
      unlock_agrees, register_agrees, archive_agrees, grant_agrees, report_agrees;
    rewrite ?(view_paused L st HR); apply quiet_agrees; try done; by_keys HR.
Qed.

End steps.

(** *** Histories *)

Section histories.
Context {Sto Wld : Type} `{!InstanceStorage Sto} `{!World Wld}.
Implicit Types (st : state Sto Wld) (cx : context) (L : ledger).

(** The ledger after a history; a call that is refused or crashes leaves it. *)
Fixpoint transact_all (l : list (context * Call)) L (w : Wld) (es : list effect) : ledger * Wld * list effect :=
  match l with
  | [] => (L, w, es)
  | (cx, c) :: rest =>
      match transact cx c L w with
      | Accept L' w' es' => transact_all rest L' w' (es ++ es')
      | _ => transact_all rest L w es
      end
  end.

Lemma blank_represents w : represents blank (deployed w : state Sto Wld) /\ ledger_ok blank.
Proof.
  split; [|apply Forall_nil_2]. intros k. rewrite sget_deployed. by destruct k.
Qed.

Lemma history_agrees l st L :
  calls_wf l -> well_typed st -> represents L st -> ledger_ok L ->
  let '(L', w', es') := transact_all l L (world st) (effects st) in
  represents L' (invoke_all l st) /\ ledger_ok L' /\
  world (invoke_all l st) = w' /\ effects (invoke_all l st) = es'.
Proof.
  revert st L. induction l as [|[cx c] l IH]; intros st L Hl Hwt HR Hok; [done|].
  apply Forall_cons in Hl as [[Hcx Hc] Hl]. simpl.
  pose proof (exec_agrees cx c st L Hwt Hc HR Hok) as Ha.
  pose proof (invoke_typed cx c st Hcx Hc Hwt) as Hwt'. unfold invoke in *.
  destruct (run cx (exec c) st) as [[] st'|e st'|r], (transact cx c L (world st)) as [L' w' es'|e'|r'];
    try done; [|by apply IH..].
  destruct Ha as (HR' & Hok' & <- & <-). by apply IH.
Qed.

(** Every reachable store encodes a ledger. *)
Lemma reachable_ledger st : reachable st -> exists L, represents L st /\ ledger_ok L.
Proof.
  revert st. apply reachable_ind.
  - intros w. exists blank. apply blank_represents.
  - intros cx c st st' Hr (L & HR & Hok) (_ & Hc & Hrun).
    pose proof (exec_agrees cx c st L (reachable_well_typed st Hr) Hc HR Hok) as Ha. rewrite Hrun in Ha.
    destruct (transact cx c L (world st)) as [L' w es| |]; try done. exists L'. by destruct Ha as (? & ? & _).
  - intros w st _ (L & HR & Hok). exists L. by split.
Qed.

(** C1: the contract is the ledger.  From deployment, let any history of calls
    with any signers and times be run by the code and, in parallel, on the
    ledger.  The store then holds, key by key, exactly what the ledger encodes:
    the stored tallies are the counted ballots, the [Voted] flags the ballots
    cast, the mutex absent, and nothing else is stored; world and events agree.
    And the next call is answered alike: it succeeds, fails or traps, with the
    same error or trap, exactly when the ledger's transaction does. *)
Theorem ledger_refinement w l cx c :
  calls_wf l -> call_wf c ->
  let st : state Sto Wld := invoke_all l (deployed w) in
  let '(L, w', es) := transact_all l blank w [] in
  (forall k, sget k (storage st) = encode L k) /\ world st = w' /\ effects st = es /\
  match run cx (exec c) st, transact cx c L w' with
  | Done _ st', Accept L' w2 es2 =>
      (forall k, sget k (storage st') = encode L' k) /\ world st' = w2 /\ effects st' = es ++ es2
  | Failed e _, Refuse e' => e = e'
  | Trapped r, Crash r' => r = r'
  | _, _ => False
  end.
Proof.
  intros Hl Hc. destruct (blank_represents w) as [HR Hok].
  pose proof (history_agrees l (deployed w) blank Hl (well_typed_empty w []) HR Hok) as H.
  assert (well_typed (invoke_all l (deployed w))) as Hwt
    by (by apply reachable_well_typed, reachable_invoke_all, reachable_deployed).
  simpl in H. destruct (transact_all l blank w []) as [[L w'] es]. destruct H as (H1 & H2 & <- & <-).
  split; [exact H1|]. split_and!; [done..|].
  pose proof (exec_agrees cx c _ L Hwt Hc H1 H2) as Ha. unfold agrees in Ha.
  destruct (run cx (exec c) _), (transact cx c L _); try done. tauto.
Qed.

End histories.

(** ** Witness *)

Definition sample_ledger : ledger := (transact_all (take 12 script) blank w0 []).1.1.

Lemma sample_ledger_ballots :
  ballots sample_ledger = [(1, guardian1, 200); (1, guardian2, 150)] /\
  encode sample_ledger (DataKey.ActiveTask 1) = Some (VTask (Task.mk 1 2 true 12 350 false)).
Proof. split; vm_compute; reflexivity. Qed.

Lemma ledger_refinement_witness :
  sget (DataKey.ActiveTask 1) (storage (scene 12)) = Some (VTask (Task.mk 1 2 true 12 350 false)) /\
  represents sample_ledger (scene 12).
Proof.
  rewrite <- (proj2 sample_ledger_ballots). enough (represents sample_ledger (scene 12)) as Hr by (split; [apply Hr|exact Hr]).
  pose proof (ledger_refinement w0 (take 12 script) (at_time 13)
    (Call.StartRewardStream admin drips1 worker 1) (script_wf 12) ltac:(by_eval)) as H.
  unfold sample_ledger, scene. revert H.
  destruct (transact_all (take 12 script) blank w0 []) as [[L w'] es]. intros H. exact (proj1 H).
Defined.
