(* ===== verification/Queries.v ===== *)
(** * Queries

    The entry points that only read ([get_*], [is_*], [calculate_voting_power]).
    [ledger_refinement] says what the calls do to the ledger; [queries_agree]
    completes it: what the contract answers when it is asked is what the ledger
    says. *)

From stdpp Require Import prelude gmap list strings.
From Stdlib Require Import ZArith Lia.
From S2P Require Import Prelude.
From S2P Require Import Types.
From S2P Require Import Host.
From S2P Require Import Logic.
From S2P Require Import Typing.
From S2P Require Import SampleHost.
From S2P Require Import Reputation.
From S2P Require Import Guardian.
From S2P Require Import CircuitBreaker.
From S2P Require Import Storage.
From S2P Require Import Tasks.
From S2P Require Import Drips.
From S2P Require Import Contract.
From S2P Require Import VoteSpec.
From S2P Require Import System.
From S2P Require Import SampleRun.
From S2P Require Import Spec.
From S2P Require Import Registry.
From S2P Require Import Ledger.

(** ** Questions and answers *)

Module Query.

Inductive Query : Type -> Type :=
| GetAdmin : Query (option Address)
| IsPaused : Query bool
| IsGuardian (g : Address) : Query bool
| GetReputation (g : Address) : Query (option Z)
| VotingPower (g : Address) : Query (option Z)
| GetWeightThreshold : Query Z
| GetTask (i : Z) : Query (option Task)
| GetArchivedTask (i : Z) : Query (option Task)
| GetRewardStream (i : Z) : Query (option RewardStream)
| GetVersion : Query Z.

End Query.

Abbreviation Query := Query.Query.

Definition ask {A} (q : Query A) : prog A :=
  match q with
  | Query.GetAdmin => get_admin
  | Query.IsPaused => is_paused
  | Query.IsGuardian g => is_guardian g
  | Query.GetReputation g => get_reputation g
  | Query.VotingPower g => calculate_voting_power g
  | Query.GetWeightThreshold => get_weight_threshold
  | Query.GetTask i => get_task i
  | Query.GetArchivedTask i => get_archived_task i
  | Query.GetRewardStream i => get_reward_stream i
  | Query.GetVersion => get_version
  end.

(** An archived task. *)
Definition filed_entry (L : ledger) (i : Z) : option entry :=
  match entries L !! i with Some e => if filed e then Some e else None | None => None end.

Definition ledger_answer {A} (q : Query A) (L : ledger) : A + ContractError :=
  match q with
  | Query.GetAdmin => inl None
  | Query.IsPaused => inl (default false (halted L))
  | Query.IsGuardian g => inl (default false (members L !! g))
  | Query.GetReputation g | Query.VotingPower g => inl (scores L !! g)
  | Query.GetWeightThreshold => inl (default 300 (bar L))
  | Query.GetTask i => inl (task_of (ballots L) i <$> open_entry L i)
  | Query.GetArchivedTask i =>
      if default false (halted L) then inr ContractError.ContractPaused
      else inl (task_of (ballots L) i <$> filed_entry L i)
  | Query.GetRewardStream i => inl ((fun cd => RewardStream.mk i cd.1 cd.2 true) <$> grants L !! i)
  | Query.GetVersion => inl 1
  end.

Section queries.
Context {Sto Wld : Type} `{!InstanceStorage Sto} `{!World Wld}.
Implicit Types (st : state Sto Wld) (cx : context) (L : ledger).

(** A question answered without a trace. *)
Definition answered {A} st (a : A + ContractError) : outcome Sto Wld A :=
  match a with inl x => Done x st | inr e => Failed e st end.

(** Reading a key of a represented store. *)
Lemma get_represented {T} (c : codec T) cx k o L st :
  represents L st -> encode L k = into_val c <$> o -> run cx (storage_get c k) st = Done o st.
Proof.
  intros HR Hk. rewrite <- (look_encode L st HR c k o Hk). apply run_get. unfold readable.
  intros v. rewrite HR, Hk. destruct o as [x|]; [|done]. intros [= <-]. rewrite try_from_into. done.
Qed.

Lemma ask_agrees {A} cx (q : Query A) st L :
  represents L st -> run cx (ask q) st = answered st (ledger_answer q L).
Proof.
  intros HR. destruct q; unfold ask, answered, ledger_answer;
    unfold get_admin, is_paused, is_guardian, Guardian.is_guardian, get_reputation, calculate_voting_power,
      Reputation.calculate_voting_power, Reputation.get_reputation, get_weight_threshold, get_task,
      Tasks.get_task, get_active_task, active_task_key, get_archived_task, Storage.get_archived_task,
      archived_task_key, get_reward_stream, Drips.get_reward_stream, require_not_paused.
  - by apply (get_represented c_Address _ _ None L).
  - by rewrite run_bind, (get_represented c_bool _ _ (halted L) L).
  - by rewrite run_bind, (get_represented c_bool _ _ (members L !! g) L).
  - by apply (get_represented c_u64 _ _ _ L).
  - by apply (get_represented c_u64 _ _ _ L).
  - by rewrite run_bind, (get_represented c_u64 _ _ (bar L) L).
  - apply (get_represented c_Task _ _ _ L); [done|]. unfold open_entry. simpl.
    destruct (entries L !! i) as [e|]; [|done]. simpl. by destruct (filed e).
  - rewrite !run_bind, (get_represented c_bool _ _ (halted L) L) by done. destruct (default false (halted L)); [done|].
    apply (get_represented c_Task _ _ _ L); [done|]. unfold filed_entry. simpl.
    destruct (entries L !! i) as [e|]; [|done]. simpl. by destruct (filed e).
  - apply (get_represented c_RewardStream _ _ _ L); [done|]. simpl. by destruct (grants L !! i).
  - done.
Qed.

(** C23: the contract answers as its ledger would.  After any history of calls,
    every query answers what the ledger of the same history says, and changes
    nothing: whether the contract is paused, who is a guardian, with which
    reputation and voting power, the threshold, every task with its counted
    votes, every archived task (unless the contract is paused, when the query is
    refused), every reward stream; and that there is no administrator. *)
Theorem queries_agree w l cx A (q : Query A) :
  calls_wf l ->
  let st : state Sto Wld := invoke_all l (deployed w) in
  let '(L, _, _) := transact_all l blank w [] in
  run cx (ask q) st = answered st (ledger_answer q L).
Proof.
  intros Hl. destruct (blank_represents (Sto := Sto) w) as [HR Hok].
  pose proof (history_agrees l (deployed w) blank Hl (well_typed_empty w []) HR Hok) as H.
  simpl in H. destruct (transact_all l blank w []) as [[L w'] es]. destruct H as (H1 & _).
  by apply ask_agrees.
Qed.

End queries.

(** ** Witness *)

Lemma queries_agree_witness :
  ledger_answer (Query.GetTask 1) sample_ledger = inl (Some (Task.mk 1 2 true 12 350 false)) /\
  run (at_time 20) (ask (Query.GetTask 1)) (scene 12) =
    answered (scene 12) (ledger_answer (Query.GetTask 1) sample_ledger).
Proof.
  split; [vm_compute; reflexivity|].
  pose proof (queries_agree w0 (take 12 script) (at_time 20) _ (Query.GetTask 1) (script_wf 12)) as H.
  unfold sample_ledger, scene. revert H.
  destruct (transact_all (take 12 script) blank w0 []) as [[L w'] es]. intros H. exact H.
Defined.
