(* ===== verification/Indexer.v ===== *)
(** * An indexer that follows the events

    Off-chain software sees the contract through its events.  [index] is such a
    reader: it folds the event log, task by task, into a [card].  [events_rebuild]
    shows that the card is right in every reachable state: what the storage says
    of a task, its votes, voters, weight, flags, archive date and reward stream,
    is a function of the events alone.

    Two things are not announced: a task's registration (its card is blank, like
    that of an unknown task) and the time of a resolution (until it is archived). *)

From stdpp Require Import prelude gmap list strings.
From Stdlib Require Import ZArith Lia.
From S2P Require Import Prelude.
From S2P Require Import Types.
From S2P Require Import Host.
From S2P Require Import Logic.
From S2P Require Import Typing.
From S2P Require Import SampleHost.
From S2P Require Import Storage.
From S2P Require Import Tasks.
From S2P Require Import Drips.
From S2P Require Import Contract.
From S2P Require Import VoteSpec.
From S2P Require Import System.
From S2P Require Import SampleRun.
From S2P Require Import Spec.
From S2P Require Import Commits.
From S2P Require Import Lifecycle.
From S2P Require Import Tally.
From S2P Require Import Registry.
From S2P Require Import Ledger.

(** ** Cards *)

(** What an indexer keeps of a task. *)
Record card := Card {
  c_voters : list Address;
  c_votes : Z;
  c_weight : Z;
  c_done : bool;
  c_cancelled : bool;
  c_archived : option Z;            (* with the time of its resolution *)
  c_contributor : option Address;   (* of its reward stream *)
}.

#[global] Instance card_eq_dec : EqDecision card.
Proof. solve_decision. Defined.

Definition no_card : card := Card [] 0 0 false false None None.

(** One event, read for task [i]. *)
Definition read_event (i : Z) (c : card) (e : effect) : card :=
  match e with
  | Published [t] (DTuple [VU64 j; VAddress g; VU64 w]) =>
      if decide (t = "wt_vote"%string /\ j = i) then
        Card (c_voters c ++ [g]) (c_votes c + 1) (c_weight c + w) (c_done c) (c_cancelled c)
          (c_archived c) (c_contributor c)
      else c
  | Published [t] (DTuple [VU64 j; VU64 x]) =>
      if decide (t = "resolved"%string /\ j = i) then
        Card (c_voters c) (c_votes c) (c_weight c) true (c_cancelled c) (c_archived c) (c_contributor c)
      else if decide (t = "archived"%string /\ j = i) then
        Card (c_voters c) (c_votes c) (c_weight c) (c_done c) (c_cancelled c) (Some x) (c_contributor c)
      else c
  | Published [t] (DTuple [VU64 j; VAddress a]) =>
      if decide (t = "rw_start"%string /\ j = i) then
        Card (c_voters c) (c_votes c) (c_weight c) (c_done c) (c_cancelled c) (c_archived c) (Some a)
      else c
  | Published [t] (DValue (VU64 j)) =>
      if decide (t = "cancelled"%string /\ j = i) then
        Card (c_voters c) (c_votes c) (c_weight c) (c_done c) true (c_archived c) (c_contributor c)
      else c
  | _ => c
  end.

Definition index (i : Z) (es : list effect) : card := foldl (read_event i) no_card es.

(** The card of a ledger. *)
Definition ledger_card (L : ledger) (i : Z) : card :=
  let e := default (Entry None false false) (entries L !! i) in
  Card (votes_on i (ballots L)).*1.*2 (tally i (ballots L)) (weight i (ballots L))
    (bool_decide (is_Some (settled e))) (withdrawn e)
    (if filed e then Some (default 0 (settled e)) else None)
    (fst <$> grants L !! i).

Section indexer.
Context {Sto Wld : Type} `{!InstanceStorage Sto} `{!World Wld}.
Implicit Types (st : state Sto Wld) (cx : context) (L : ledger).

(** What the storage says. *)
Definition stored_card st (i : Z) : card :=
  let t := default (new_task i) (phase_task (phase_of st i)) in
  Card (voters i (all_votes st)) (Task.votes t) (Task.total_weight_accrued t) (Task.is_done t)
    (Task.is_cancelled t)
    (match phase_of st i with Archived t => Some (Task.resolved_at t) | _ => None end)
    (RewardStream.contributor <$> reward_stream st i).

(** ** The events of a transaction *)

Lemma index_app i es1 es2 : index i (es1 ++ es2) = foldl (read_event i) (index i es1) es2.
Proof. apply foldl_app. Qed.

(** A change of the ledger that no card shows. *)
Lemma card_same L L' i :
  entries L' = entries L -> ballots L' = ballots L -> grants L' = grants L ->
  ledger_card L' i = ledger_card L i.
Proof. unfold ledger_card. by intros -> -> ->. Qed.

Lemma card_entry L i e o j :
  ledger_card (set_entries (<[i := e]> (entries L)) o L) j =
    if decide (i = j) then
      Card (c_voters (ledger_card L j)) (c_votes (ledger_card L j)) (c_weight (ledger_card L j))
        (bool_decide (is_Some (settled e))) (withdrawn e)
        (if filed e then Some (default 0 (settled e)) else None) (c_contributor (ledger_card L j))
    else ledger_card L j.
Proof.
  unfold ledger_card. cbn -[tally weight votes_on]. case_decide; subst.
  - by rewrite lookup_insert_eq.
  - by rewrite lookup_insert_ne.
Qed.

(** The card of an open task. *)
Lemma card_open L i e :
  entries L !! i = Some e -> filed e = false ->
  ledger_card L i = Card (votes_on i (ballots L)).*1.*2 (tally i (ballots L)) (weight i (ballots L))
    (bool_decide (is_Some (settled e))) (withdrawn e) None (fst <$> grants L !! i).
Proof. unfold ledger_card. intros -> Hf. simpl. by rewrite Hf. Qed.

(** A ballot, with or without its resolution. *)
Lemma card_booked L g i n s e j :
  entries L !! i = Some e ->
  ledger_card (book g i n s e L) j =
    if decide (i = j) then
      Card (c_voters (ledger_card L j) ++ [g]) (c_votes (ledger_card L j) + 1)
        (c_weight (ledger_card L j) + n) (bool_decide (is_Some s)) (withdrawn e)
        (if filed e then Some (default 0 s) else None) (c_contributor (ledger_card L j))
    else ledger_card L j.
Proof.
  intros He. unfold ledger_card, book. cbn -[tally weight votes_on].
  rewrite votes_on_snoc, tally_snoc, weight_snoc. case_decide; subst.
  - by rewrite lookup_insert_eq, !fmap_app.
  - by rewrite lookup_insert_ne, app_nil_r, !Z.add_0_r.
Qed.

Lemma read_vote i j g n c :
  read_event j c (vote_event i g n) =
    if decide (i = j) then
      Card (c_voters c ++ [g]) (c_votes c + 1) (c_weight c + n) (c_done c) (c_cancelled c)
        (c_archived c) (c_contributor c)
    else c.
Proof. cbn. case_decide; [rewrite decide_True by tauto|rewrite decide_False by tauto]; done. Qed.

Lemma read_resolved i j x c :
  read_event j c (resolved_event i x) =
    if decide (i = j) then
      Card (c_voters c) (c_votes c) (c_weight c) true (c_cancelled c) (c_archived c) (c_contributor c)
    else c.
Proof.
  cbn. case_decide; [by rewrite decide_True by tauto|by rewrite !decide_False by naive_solver].
Qed.

Lemma card_ballot cx g i L w L' w' es j :
  ballot cx g i L w = Accept L' w' es ->
  ledger_card L' j = foldl (read_event j) (ledger_card L j) es.
Proof.
  unfold ballot. destruct (admission g i L) as [|[n e]] eqn:Had; [done|].
  apply admission_open in Had as (He & Hf & Hw). case_decide; [|done]. cbv zeta.
  pose proof (card_open L i e He Hf) as Hi.
  destruct (_ <=? _); [destruct (payer L) as [v|]; [destruct (release_funds v i w) as [w2|]|]|];
    intros H'; simplify_eq; rewrite (card_booked _ _ _ _ _ e) by done; cbn [foldl];
    rewrite ?read_resolved, read_vote;
    (destruct (decide (i = j)) as [<-|]; [by rewrite Hi, Hf|done]).
Qed.

(** The other calls that change a card. *)
Lemma card_register L i j :
  entries L !! i = None ->
  ledger_card (set_entries (<[i := Entry None false false]> (entries L)) (order L ++ [i]) L) j = ledger_card L j.
Proof.
  intros He. rewrite card_entry. case_decide; [subst j|done]. unfold ledger_card. by rewrite He.
Qed.

Lemma card_cancel L i e j :
  open_entry L i = Some e ->
  ledger_card (set_entries (<[i := Entry (settled e) true (filed e)]> (entries L)) (order L) L) j =
    read_event j (ledger_card L j) (Published ["cancelled"%string] (DValue (VU64 i))).
Proof.
  intros [He Hf]%open_lookup. rewrite card_entry. cbn -[ledger_card]. case_decide as Hij.
  - subst j. by rewrite decide_True, (card_open L i e), Hf.
  - by rewrite decide_False by tauto.
Qed.

Lemma card_archive L i e t j :
  open_entry L i = Some e -> settled e = Some t ->
  ledger_card (set_entries (<[i := Entry (Some t) (withdrawn e) true]> (entries L)) (order L) L) j =
    read_event j (ledger_card L j) (Published ["archived"%string] (DTuple [VU64 i; VU64 t])).
Proof.
  intros [He Hf]%open_lookup Ht. rewrite card_entry. cbn -[ledger_card]. case_decide as Hij.
  - subst j. rewrite decide_False, decide_True, (card_open L i e), Ht by naive_solver. done.
  - by rewrite !decide_False by naive_solver.
Qed.

Lemma card_grant L i c d o j :
  ledger_card (set_grants (<[i := (c, d)]> (grants L)) o L) j =
    read_event j (ledger_card L j) (Published ["rw_start"%string] (DTuple [VU64 i; VAddress c])).
Proof.
  cbn -[ledger_card]. unfold ledger_card. cbn -[tally weight votes_on]. case_decide as Hij.
  - destruct Hij as [_ <-]. by rewrite lookup_insert_eq.
  - rewrite lookup_insert_ne by naive_solver. done.
Qed.

(** Every accepted transaction changes the cards as its events say. *)
Lemma transact_card cx c L w L' w' es j :
  transact cx c L w = Accept L' w' es ->
  ledger_card L' j = foldl (read_event j) (ledger_card L j) es.
Proof.
  destruct c; unfold transact; intros H; try (apply running_accept in H as [_ [_ H]%by_signer_accept]; by eapply card_ballot);
    transact_inv H; cbn [foldl]; try (by apply card_same).
  - apply card_register, eq_None_not_Some. by eapply bool_decide_eq_false_1.
  - by apply card_cancel.
  - by apply card_archive.
  - apply card_grant.
Qed.

(** ** Every reachable state *)

Lemma ledger_card_stored L st i : represents L st -> ledger_ok L -> ledger_card L i = stored_card st i.
Proof.
  intros HR Hok. unfold stored_card, ledger_card, phase_of.
  assert (reward_stream st i = (fun cd => RewardStream.mk i cd.1 cd.2 true) <$> grants L !! i) as ->
    by (apply (look_encode L st HR); simpl; by destruct (grants L !! i)).
  assert (archived_task st i = match entries L !! i with
      Some e => if filed e then Some (task_of (ballots L) i e) else None | None => None end) as ->
    by (apply (look_encode L st HR); simpl; destruct (entries L !! i) as [e|]; [by destruct (filed e)|done]).
  rewrite (view_active L st HR), (view_votes L st HR). unfold open_entry.
  assert (voters i (ballots L).*1 = (votes_on i (ballots L)).*1.*2) as ->.
  { unfold voters, votes_on. induction (ballots L) as [|b bs IH]; [done|]. rewrite fmap_cons, !filter_cons.
    simpl in *. case_decide; csimpl; [by f_equal|done]. }
  destruct (entries L !! i) as [e|] eqn:He; simpl.
  - destruct (filed e); simpl; f_equal; by destruct (grants L !! i).
  - destruct (votes_on_none i (ballots L)) as [Ht Hw].
    { apply (Forall_impl _ _ _ Hok). intros b Hb Hi. rewrite Hi, He in Hb. by destruct Hb. }
    rewrite Ht, Hw. f_equal; by destruct (grants L !! i).
Qed.

Lemma indexed_reachable st :
  reachable st -> exists L, represents L st /\ ledger_ok L /\ forall i, index i (effects st) = ledger_card L i.
Proof.
  revert st. apply reachable_ind.
  - intros w. destruct (blank_represents (Sto := Sto) w). by exists blank.
  - intros cx c st st' Hr (L & HR & Hok & Hi) (_ & Hc & Hrun).
    pose proof (exec_agrees cx c st L (reachable_well_typed st Hr) Hc HR Hok) as Ha. rewrite Hrun in Ha.
    destruct (transact cx c L (world st)) as [L' w es| |] eqn:Ht; try done.
    destruct Ha as (HR' & Hok' & _ & He). exists L'. split_and!; [done..|]. intros i.
    rewrite He, index_app, Hi. symmetry. by eapply transact_card.
  - intros w st _ (L & HR & Hok & Hi). by exists L.
Qed.

(** C6: the events tell the state: in every reachable state, folding the event
    log gives, for each task, exactly what the storage holds of it: who voted and
    in which order, how many votes, their weight, whether the task is resolved,
    cancelled or archived and with which date, and to whom its reward stream
    runs.  Nothing that happens to a registered task goes unannounced, and
    nothing is announced that did not commit. *)
Theorem events_rebuild_tasks st i : reachable st -> index i (effects st) = stored_card st i.
Proof.
  intros Hr. destruct (indexed_reachable st Hr) as (L & HR & Hok & ->). by apply ledger_card_stored.
Qed.

End indexer.

(** ** Witness *)

Lemma events_rebuild_tasks_witness :
  index 1 (effects (scene 14)) =
    Card [guardian1; guardian2] 2 350 true false (Some 12) (Some worker) /\
  index 1 (effects (scene 14)) = stored_card (scene 14) 1.
Proof.
  split; [vm_compute; reflexivity|]. exact (events_rebuild_tasks (scene 14) 1 (scene_reachable 14)).
Defined.
