(* ===== verification/Commute.v ===== *)
(** * The order of the votes

    Nothing orders the guardians' votes: the network decides who comes first.
    Ledgers that differ only in the order of their ballots ([same_ledger]) behave
    alike ([transact_proper]); votes cast at one ledger time may change places
    ([poll_swap]), so that whatever order they arrive in, all of them go through
    and the contract ends in the same state ([votes_in_any_order]).  Only the
    calls to the vault tell the orders apart ([vote_order_changes_payments]). *)

From stdpp Require Import prelude gmap list strings.
From Stdlib Require Import ZArith Lia Permutation Morphisms.
From S2P Require Import Prelude.
From S2P Require Import Types.
From S2P Require Import Host.
From S2P Require Import Logic.
From S2P Require Import Typing.
From S2P Require Import SampleHost.
From S2P Require Import CircuitBreaker.
From S2P Require Import Storage.
From S2P Require Import Tasks.
From S2P Require Import Contract.
From S2P Require Import VoteSpec.
From S2P Require Import System.
From S2P Require Import SampleRun.
From S2P Require Import Spec.
From S2P Require Import Commits.
From S2P Require Import Ledger.

(** ** Ledgers up to the order of their ballots *)

Definition same_ledger (L1 L2 : ledger) : Prop :=
  set_ballots (ballots L2) L1 = L2 /\ ballots L1 ≡ₚ ballots L2.

#[global] Instance same_ledger_equivalence : Equivalence same_ledger.
Proof.
  split.
  - by intros [].
  - intros [] L2 [<- Hp]. by split.
  - intros [] L2 L3 [<- H1] [<- H2]. split; [done|]. by etrans.
Qed.

#[global] Instance votes_on_proper : Proper (eq ==> (≡ₚ) ==> (≡ₚ)) votes_on.
Proof. intros i ? <- bs1 bs2 H. unfold votes_on. by rewrite H. Qed.

#[global] Instance tally_proper : Proper (eq ==> (≡ₚ) ==> eq) tally.
Proof. intros i ? <- bs1 bs2 H. unfold tally. by rewrite H. Qed.

#[global] Instance weight_proper : Proper (eq ==> (≡ₚ) ==> eq) weight.
Proof.
  intros i ? <- bs1 bs2 H. unfold weight. apply (votes_on_proper i i eq_refl) in H. revert H.
  generalize (votes_on i bs1), (votes_on i bs2). induction 1; simpl; lia.
Qed.

#[global] Instance task_of_proper : Proper ((≡ₚ) ==> eq ==> eq ==> eq) task_of.
Proof. intros bs1 bs2 H i ? <- e ? <-. unfold task_of. by rewrite H. Qed.

#[global] Instance cast_proper : Proper (same_ledger ==> eq ==> eq ==> eq) cast.
Proof. intros L1 L2 [_ H] i ? <- g ? <-. unfold cast. apply bool_decide_ext. by rewrite H. Qed.

#[global] Instance admission_proper : Proper (eq ==> eq ==> same_ledger ==> eq) admission.
Proof.
  intros g ? <- i ? <- L1 L2 H. unfold admission. rewrite (cast_proper _ _ H i i eq_refl g g eq_refl).
  destruct H as [<- H]. simpl in *. by rewrite (weight_proper i i eq_refl _ _ H).
Qed.

(** The stores of such ledgers differ in the list of votes, and there only in its
    order. *)
Lemma same_encode L1 L2 k : same_ledger L1 L2 -> k <> DataKey.AllVotes -> encode L1 k = encode L2 k.
Proof.
  intros H Hk. pose proof (fun i g => cast_proper _ _ H i i eq_refl g g eq_refl) as Hc.
  destruct H as [<- H]. destruct k; try done; simpl in *; rewrite ?Hc; try done;
    destruct (entries L1 !! id) as [e|]; try done; by rewrite (task_of_proper _ _ H id id eq_refl e e eq_refl).
Qed.

Section verdicts.
Context {Wld : Type} `{!World Wld}.

Definition same_verdict (v1 v2 : verdict Wld) : Prop :=
  match v1, v2 with
  | Accept L1 w1 es1, Accept L2 w2 es2 => same_ledger L1 L2 /\ w1 = w2 /\ es1 = es2
  | _, _ => v1 = v2
  end.

#[local] Instance same_verdict_reflexive : Reflexive same_verdict.
Proof. by intros []. Qed.

Lemma same_book g i n s e L1 L2 :
  same_ledger L1 L2 -> same_ledger (book g i n s e L1) (book g i n s e L2).
Proof. intros [<- H]. split; [done|]. simpl in *. by rewrite H. Qed.

Lemma ballot_proper cx g i L1 L2 (w : Wld) :
  same_ledger L1 L2 -> same_verdict (ballot cx g i L1 w) (ballot cx g i L2 w).
Proof.
  intros H. unfold ballot. rewrite (admission_proper g g eq_refl i i eq_refl L1 L2 H).
  destruct (admission g i L2) as [|[n e]]; [done|].
  pose proof (same_book g i n (Some (timestamp cx)) e _ _ H) as H1.
  pose proof (same_book g i n (settled e) e _ _ H) as H2.
  destruct H as [HL H]. rewrite (tally_proper i i eq_refl _ _ H), (weight_proper i i eq_refl _ _ H).
  replace (bar L2) with (bar L1) by (by rewrite <- HL).
  replace (payer L2) with (payer L1) by (by rewrite <- HL). cbv zeta.
  repeat case_match; try done; by split_and!.
Qed.

(** The same calls have the same effect on such ledgers. *)
#[global] Instance transact_proper :
  Proper (eq ==> eq ==> same_ledger ==> eq ==> same_verdict) (transact (Wld := Wld)).
Proof.
  intros cx ? <- c ? <- L1 L2 HL w ? <-. pose proof (fun g i => ballot_proper cx g i L1 L2 w HL) as Hb.
  destruct HL as [HL H]. 
  assert (forall v1 v2, same_verdict v1 v2 -> same_verdict (running L1 v1) (running L2 v2)) as Hr.
  { intros v1 v2. unfold running. rewrite <- HL. simpl. by case_match. }
  assert (forall a v1 v2, same_verdict v1 v2 -> same_verdict (by_signer cx a v1) (by_signer cx a v2)) as Hs.
  { intros a v1 v2. unfold by_signer. by case_match. }
  destruct c; unfold transact; try apply Hr; try apply Hs; try (by apply Hb); clear Hb Hr Hs;
    rewrite <- HL; unfold pay_in, pay_out, file_away, grant, report, deposit, open_entry; cbv zeta; simpl;
    repeat case_match; try done; by split_and!.
Qed.

End verdicts.

(** ** Votes at one ledger time *)

(** One vote when the vault, if any, pays whatever it is asked. *)
Definition poll1 cx (v : Z * Address) (L : ledger) : option ledger :=
  if default false (halted L) then None
  else if authorized cx v.2 then
    match admission v.2 v.1 L with
    | inl _ => None
    | inr (n, e) =>
        if decide (in_u32 (tally v.1 (ballots L) + 1)) then
          Some (book v.2 v.1 n
                  (if default DEFAULT_WEIGHT_THRESHOLD (bar L) <=? weight v.1 (ballots L) + n
                   then Some (timestamp cx) else settled e) e L)
        else None
    end
  else None.

Fixpoint poll cx (l : list (Z * Address)) (L : ledger) : option ledger :=
  match l with
  | [] => Some L
  | v :: rest => match poll1 cx v L with Some L' => poll cx rest L' | None => None end
  end.

(** No score and no weight is negative. *)
Definition nonneg (L : ledger) : Prop :=
  (forall g n, scores L !! g = Some n -> 0 <= n) /\ forall i, 0 <= weight i (ballots L).

(** The conditions of an admission, one by one. *)
Definition admissible (g : Address) (i n : Z) (e : entry) (L : ledger) : Prop :=
  default false (members L !! g) = true /\
  (exists tk least, asset L = Some (tk, least) /\ least < deposit L g) /\
  cast L i g = false /\ scores L !! g = Some n /\ n <> 0 /\ open_entry L i = Some e /\
  withdrawn e = false /\ in_u64 (weight i (ballots L) + n).

Lemma admission_inr g i n e L : admission g i L = inr (n, e) <-> admissible g i n e L.
Proof.
  unfold admission, admissible. split.
  - intros H. repeat (case_match; simplify_eq/=); split_and!; try done.
    + by destruct (default _ _).
    + eexists _, _. split; [done|]. lia.
    + lia.
  - intros (-> & (tk & least & -> & Hl) & -> & -> & Hn & -> & -> & Hw). simpl.
    destruct (Z.leb_spec (deposit L g) least); [lia|]. destruct (Z.eqb_spec n 0); [done|].
    by rewrite decide_True.
Qed.

(** A vote as its conditions and the ledger it leaves. *)
Definition settles cx (i n : Z) (e : entry) (L : ledger) : option Z :=
  if default DEFAULT_WEIGHT_THRESHOLD (bar L) <=? weight i (ballots L) + n
  then Some (timestamp cx) else settled e.

Lemma poll1_Some cx i g L L' :
  poll1 cx (i, g) L = Some L' <->
  default false (halted L) = false /\ authorized cx g = true /\
  exists n e, admissible g i n e L /\ in_u32 (tally i (ballots L) + 1) /\
    L' = book g i n (settles cx i n e L) e L.
Proof.
  unfold poll1, settles. simpl. split.
  - destruct (default false (halted L)); [done|]. destruct (authorized cx g); [|done].
    destruct (admission g i L) as [|[n e]] eqn:Ha; [done|]. apply admission_inr in Ha. case_decide; [|done].
    intros [= <-]. split_and!; [done..|]. by exists n, e.
  - intros (-> & -> & n & e & Ha & Ht & ->). apply admission_inr in Ha. by rewrite Ha, decide_True.
Qed.

Lemma nonneg_book g i n s e L : 0 <= n -> nonneg L -> nonneg (book g i n s e L).
Proof.
  intros Hn [H1 H2]. split; [done|]. intros j. cbn -[weight]. rewrite weight_snoc. specialize (H2 j).
  case_decide; lia.
Qed.

Lemma nonneg_poll1 cx v L L' : nonneg L -> poll1 cx v L = Some L' -> nonneg L'.
Proof.
  destruct v as [i g]. intros Hnn (_ & _ & n & e & (_ & _ & _ & Hs & _) & _ & ->)%poll1_Some.
  apply nonneg_book; [|done]. by eapply Hnn.
Qed.

(** The entry another ballot finds. *)
Lemma open_booked g i n s e L j :
  open_entry L i = Some e ->
  open_entry (book g i n s e L) j =
    if decide (i = j) then Some (Entry s (withdrawn e) (filed e)) else open_entry L j.
Proof.
  intros [_ Hf]%open_lookup. unfold open_entry, book. cbn -[tally weight]. case_decide; subst.
  - rewrite lookup_insert_eq. simpl. by rewrite Hf.
  - by rewrite lookup_insert_ne.
Qed.

Lemma book_entries g i n s e L : entries (book g i n s e L) = <[i := Entry s (withdrawn e) (filed e)]> (entries L).
Proof. done. Qed.

(** Votes on different tasks. *)
Lemma swap_apart cx g h i j n m e e' L :
  i <> j -> 0 <= n -> admissible g i n e L -> in_u32 (tally i (ballots L) + 1) ->
  let L1 := book g i n (settles cx i n e L) e L in
  admissible h j m e' L1 -> in_u32 (tally j (ballots L1) + 1) ->
  let L1' := book h j m (settles cx j m e' L) e' L in
  admissible h j m e' L /\ in_u32 (tally j (ballots L) + 1) /\
  admissible g i n e L1' /\ in_u32 (tally i (ballots L1') + 1) /\
  same_ledger (book h j m (settles cx j m e' L1) e' L1) (book g i n (settles cx i n e L1') e L1').
Proof.
  intros Hij Hn (A1 & A2 & A3 & A4 & A5 & A6 & A7 & A8) At L1 (B1 & B2 & B3 & B4 & B5 & B6 & B7 & B8) Bt L1'.
  subst L1 L1'. unfold admissible, settles in *. rewrite cast_booked in *. rewrite (open_booked _ _ _ _ _ _ _ A6) in B6.
  rewrite decide_False in B6 by done. rewrite (open_booked _ _ _ _ _ _ _ B6), decide_False by done.
  cbn -[tally weight] in *. rewrite ?weight_snoc, ?tally_snoc, ?decide_False, ?Z.add_0_r in * by congruence.
  apply orb_false_iff in B3 as [_ B3]. split_and!; try done.
  - rewrite A3. rewrite bool_decide_false by congruence. done.
  - split; cbn -[tally weight]; [|rewrite <- !(assoc_L (++)); apply Permutation_app_head, Permutation_swap].
    unfold book, set_entries, set_ballots. cbn -[tally weight]. f_equal. by apply insert_insert_ne.
Qed.

(** Votes on one task. *)
Lemma swap_same cx g h i n m e L :
  0 <= n -> 0 <= m -> admissible g i n e L -> in_u32 (tally i (ballots L) + 1) -> 0 <= weight i (ballots L) ->
  let L1 := book g i n (settles cx i n e L) e L in
  let e1 := Entry (settles cx i n e L) (withdrawn e) (filed e) in
  admissible h i m e1 L1 -> in_u32 (tally i (ballots L1) + 1) ->
  let L1' := book h i m (settles cx i m e L) e L in
  let e1' := Entry (settles cx i m e L) (withdrawn e) (filed e) in
  admissible h i m e L /\ admissible g i n e1' L1' /\ in_u32 (tally i (ballots L1') + 1) /\
  same_ledger (book h i m (settles cx i m e1 L1) e1 L1) (book g i n (settles cx i n e1' L1') e1' L1').
Proof.
  intros Hn Hm (A1 & A2 & A3 & A4 & A5 & A6 & A7 & A8) At Hw L1 e1 (B1 & B2 & B3 & B4 & B5 & B6 & B7 & B8) Bt L1' e1'.
  subst L1 L1'. unfold admissible, settles in *. rewrite cast_booked in *.
  apply orb_false_iff in B3 as [B3' B3]. apply bool_decide_eq_false_1 in B3'.
  assert (open_entry L i = Some e) as A6' by done. rewrite (open_booked _ _ _ _ _ _ _ A6), decide_True by done.
  cbn -[tally weight] in *. rewrite ?weight_snoc, ?tally_snoc, ?decide_True in * by done.
  unfold in_u64 in *. split_and!; try done; try lia.
  - rewrite A3. rewrite bool_decide_false by congruence. done.
  - split; cbn -[tally weight]; [|rewrite <- !(assoc_L (++)); apply Permutation_app_head, Permutation_swap].
    unfold book, set_entries, set_ballots. cbn -[tally weight]. f_equal. rewrite !insert_insert_eq. f_equal. f_equal.
    rewrite ?weight_snoc, ?decide_True by done. cbn -[tally weight].
    repeat match goal with |- context [?x <=? ?y] => destruct (Z.leb_spec x y) end; try done; lia.
Qed.

(** Adjacent votes may change places. *)
Lemma poll_swap cx v1 v2 L L1 L2 :
  nonneg L -> poll1 cx v1 L = Some L1 -> poll1 cx v2 L1 = Some L2 ->
  exists L1' L2', poll1 cx v2 L = Some L1' /\ poll1 cx v1 L1' = Some L2' /\ same_ledger L2 L2'.
Proof.
  destruct v1 as [i g], v2 as [j h]. intros Hnn H1 H2.
  apply poll1_Some in H1 as (Hh & Hg & n & e & A & At & ->).
  apply poll1_Some in H2 as (_ & Hh' & m & e' & B & Bt & ->).
  assert (0 <= n) as Hn by (eapply Hnn, A). assert (0 <= m) as Hm by (eapply Hnn, B).
  destruct (decide (i = j)) as [<-|Hij].
  - assert (e' = Entry (settles cx i n e L) (withdrawn e) (filed e)) as ->.
    { destruct A as (_ & _ & _ & _ & _ & A & _), B as (_ & _ & _ & _ & _ & B & _).
      rewrite (open_booked _ _ _ _ _ _ _ A), decide_True in B by done. congruence. }
    destruct (swap_same cx g h i n m e L) as (C1 & C2 & C3 & C4); try done; [apply Hnn|].
    eexists _, _. split_and!; [apply poll1_Some; by eauto 10|apply poll1_Some; by eauto 10|exact C4].
  - destruct (swap_apart cx g h i j n m e e' L) as (C1 & C2 & C3 & C4 & C5); try done.
    eexists _, _. split_and!; [apply poll1_Some; by eauto 10|apply poll1_Some; by eauto 10|exact C5].
Qed.

(** ** Any order *)

Lemma poll1_proper cx v L1 L2 L1' :
  same_ledger L1 L2 -> poll1 cx v L1 = Some L1' -> exists L2', poll1 cx v L2 = Some L2' /\ same_ledger L1' L2'.
Proof.
  destruct v as [i g]. intros HL (Hh & Hg & n & e & A & At & ->)%poll1_Some.
  apply admission_inr in A. rewrite (admission_proper g g eq_refl i i eq_refl L1 L2 HL) in A.
  assert (settles cx i n e L1 = settles cx i n e L2) as Hs.
  { unfold settles. destruct HL as [<- HL]. simpl in *. by rewrite (weight_proper i i eq_refl _ _ HL). }
  exists (book g i n (settles cx i n e L2) e L2). split; [|rewrite Hs; by apply same_book].
  apply poll1_Some. apply admission_inr in A. split_and!; [by destruct HL as [<- _]|done|].
  exists n, e. split_and!; [done| |done]. by rewrite <- (tally_proper i i eq_refl _ _ (proj2 HL)).
Qed.

Lemma poll_proper cx l L1 L2 L1' :
  same_ledger L1 L2 -> poll cx l L1 = Some L1' -> exists L2', poll cx l L2 = Some L2' /\ same_ledger L1' L2'.
Proof.
  revert L1 L2. induction l as [|v l IH]; intros L1 L2 HL H; simpl in *; [simplify_eq; by eauto|].
  destruct (poll1 cx v L1) as [L3|] eqn:E; [|done].
  destruct (poll1_proper cx v L1 L2 L3 HL E) as (L4 & -> & H34). by apply (IH L3 L4).
Qed.

Lemma poll_permutation cx l1 l2 L L1 :
  l1 ≡ₚ l2 -> nonneg L -> poll cx l1 L = Some L1 -> exists L2, poll cx l2 L = Some L2 /\ same_ledger L1 L2.
Proof.
  intros Hp. revert L L1. induction Hp as [|v l1 l2 _ IH|v1 v2 l|l1 l2 l3 _ IH1 _ IH2]; intros L L1 Hnn H.
  - by exists L1.
  - simpl in *. destruct (poll1 cx v L) as [L3|] eqn:E; [|done]. apply IH; [by eapply nonneg_poll1|done].
  - simpl in *. destruct (poll1 cx v2 L) as [L3|] eqn:E2; [|done].
    destruct (poll1 cx v1 L3) as [L4|] eqn:E1; [|done].
    destruct (poll_swap cx v2 v1 L L3 L4 Hnn E2 E1) as (L5 & L6 & -> & -> & H46).
    by apply (poll_proper cx l L4).
  - apply IH1 in H as (L2 & H & H12); [|done]. apply IH2 in H as (L3 & H & H23); [|done].
    exists L3. split; [done|]. by etrans.
Qed.

(** ** The contract *)

Section contract.
Context {Sto Wld : Type} `{!InstanceStorage Sto} `{!World Wld}.
Implicit Types (st : state Sto Wld) (cx : context) (L : ledger).

(** The vault, if there is one, pays whatever it is asked to, at any time. *)
Definition vault_pays st : Prop :=
  match vault st with
  | Some v => forall i (w : Wld), is_Some (release_funds v i w)
  | None => True
  end.

Definition votes cx (l : list (Z * Address)) : list (context * Call) :=
  (fun v => (cx, Call.Vote v.2 v.1)) <$> l.

(** Every call of a history commits. *)
Fixpoint all_commit (l : list (context * Call)) st : Prop :=
  match l with
  | [] => True
  | (cx, c) :: rest => exists st', commits cx c st st' /\ all_commit rest st'
  end.

Lemma poll1_vote cx i g L (w : Wld) :
  match payer L with Some v => forall i w, is_Some (release_funds v i w) | None => True end ->
  match poll1 cx (i, g) L with
  | Some L' => exists w' es, transact cx (Call.Vote g i) L w = Accept L' w' es
  | None => forall L' w' es, transact cx (Call.Vote g i) L w <> Accept L' w' es
  end.
Proof.
  intros Hv. unfold poll1, transact, running, by_signer, ballot. simpl.
  destruct (default false (halted L)); [by intros|]. destruct (authorized cx g); [|by intros].
  destruct (admission g i L) as [|[n e]]; [by intros|]. case_decide; [|by intros].
  destruct (_ <=? _); [|by eauto]. destruct (payer L) as [v|]; [|by eauto].
  destruct (Hv i w) as [w' ->]. by eauto.
Qed.

(** The contract's votes are the ledger's. *)
Lemma votes_poll cx l st L :
  ctx_wf cx -> Forall in_u64 l.*1 -> well_typed st -> represents L st -> ledger_ok L -> vault_pays st ->
  (forall L', poll cx l L = Some L' ->
     all_commit (votes cx l) st /\ represents L' (invoke_all (votes cx l) st)) /\
  (all_commit (votes cx l) st -> is_Some (poll cx l L)).
Proof.
  intros Hcx. revert st L. induction l as [|[i g] l IH]; intros st L Hl Hwt HR Hok Hv.
  { split; [intros L' [= <-]; by split|by eexists]. }
  simpl in Hl. apply Forall_cons in Hl as [Hi Hl].
  pose proof (exec_agrees cx (Call.Vote g i) st L Hwt Hi HR Hok) as Ha.
  pose proof Hv as Hp. unfold vault_pays in Hp. rewrite (view_payer L st HR) in Hp.
  apply (poll1_vote cx i g L (world st)) in Hp.
  assert (forall st', commits cx (Call.Vote g i) st st' ->
    well_typed st' /\ vault_pays st') as Hnext.
  { intros st' Hcm. pose proof (commits_typed _ _ _ _ Hwt Hcm) as [H1 H2]. split; [done|].
    unfold vault_pays, vault. rewrite (look_frame c_Address _ _ (storage st)); [done|]. apply H2. simpl; solve_not_elem. }
  simpl poll. cbn [votes fmap list_fmap all_commit invoke_all]. unfold invoke at 1. cbn [fst snd].
  destruct (poll1 cx (i, g) L) as [L1|]; last first.
  { split; [done|]. intros (st' & (_ & _ & Hrun) & _). cbn [fst snd] in Hrun. rewrite Hrun in Ha.
    destruct (transact _ _ _ _) as [L' w' es| |]; try done. by destruct (Hp L' w' es). }
  destruct Hp as (w' & es & Hp). rewrite Hp in Ha.
  destruct (run cx (exec (Call.Vote g i)) st) as [[] st'| |] eqn:E; try done.
  destruct Ha as (HR' & Hok' & _). assert (commits cx (Call.Vote g i) st st') as Hcm by done.
  destruct (Hnext st' Hcm) as [Hwt' Hv']. destruct (IH st' L1 Hl Hwt' HR' Hok' Hv') as [I1 I2]. split.
  - intros L' HL'. apply I1 in HL' as [J1 J2]. split; [by exists st'|done].
  - intros (st2 & (_ & _ & Hrun) & H). apply I2. cbn [fst snd] in Hrun. rewrite E in Hrun. by injection Hrun as <-.
Qed.

Lemma represented_nonneg L st : well_typed st -> represents L st -> ledger_ok L -> nonneg L.
Proof.
  intros Hwt HR Hok. split.
  - intros g n Hn. rewrite <- (view_reputation L st HR) in Hn. by eapply Lifecycle.reputation_range.
  - intros i. destruct (entries L !! i) as [e|] eqn:He.
    + assert (exists k, sget k (storage st) = Some (VTask (task_of (ballots L) i e)) /\
        (k = DataKey.ActiveTask i \/ k = DataKey.ArchivedTask i)) as (k & Hk & Hk').
      { destruct (filed e) eqn:Hf; [exists (DataKey.ArchivedTask i)|exists (DataKey.ActiveTask i)];
          rewrite HR; simpl; rewrite He, Hf; auto. }
      apply Hwt in Hk. destruct Hk' as [-> | ->], Hk as [_ Hk]; unfold task_ok, in_u64 in Hk; simpl in Hk; lia.
    + by destruct (uncounted L i Hok He) as [_ ->].
Qed.

(** C8: the order in which votes arrive does not matter.  If a list of votes goes
    through at one ledger time, every rearrangement of it goes through, and the
    contract ends in the same state: each task has the same votes, weight and
    resolution, the same voters are marked, and the list of votes holds the same
    entries; provided the vault, when there is one, pays whenever it is asked. *)
Theorem votes_in_any_order cx l1 l2 st :
  reachable st -> ctx_wf cx -> Forall in_u64 l1.*1 -> vault_pays st -> l1 ≡ₚ l2 ->
  all_commit (votes cx l1) st ->
  all_commit (votes cx l2) st /\
  (forall k, k <> DataKey.AllVotes ->
     sget k (storage (invoke_all (votes cx l2) st)) = sget k (storage (invoke_all (votes cx l1) st))) /\
  all_votes (invoke_all (votes cx l2) st) ≡ₚ all_votes (invoke_all (votes cx l1) st).
Proof.
  intros Hr Hcx Hl Hv Hp Hc. pose proof (reachable_well_typed st Hr) as Hwt.
  destruct (reachable_ledger st Hr) as (L & HR & Hok).
  destruct (votes_poll cx l1 st L Hcx Hl Hwt HR Hok Hv) as [H1 H2]. apply H2 in Hc as [L1 Hc].
  apply H1 in Hc as HR1. destruct HR1 as [_ HR1].
  destruct (poll_permutation cx l1 l2 L L1 Hp) as (L2 & Hc2 & H12); [by eapply represented_nonneg|done|].
  rewrite Hp in Hl. destruct (votes_poll cx l2 st L Hcx Hl Hwt HR Hok Hv) as [H3 _].
  apply H3 in Hc2 as [H4 HR2]. split_and!; [done| |].
  - intros k Hk. rewrite HR1, HR2. symmetry. by apply same_encode.
  - rewrite (view_votes L1 _ HR1), (view_votes L2 _ HR2). by rewrite (proj2 H12).
Qed.

End contract.

(** ** Payments and witness *)

Fixpoint all_end (l : list (context * Call)) (st : sample_state) : bool :=
  match l with
  | [] => true
  | (cx, c) :: rest =>
      bool_decide (ending (run cx (exec c) st) = Some (inl tt)) && all_end rest (invoke cx c st)
  end.

Lemma all_end_commit l st : calls_wf l -> all_end l st = true -> all_commit l st.
Proof.
  revert st. induction l as [|[cx c] l IH]; intros st Hl H; [done|].
  apply Forall_cons in Hl as [[Hcx Hc] Hl]. apply andb_true_iff in H as [H1%bool_decide_eq_true_1 H2].
  exists (invoke cx c st). split; [by apply ending_invoke|by apply IH].
Qed.

(** Three guardians, of weights 200, 150 and 5, may vote on task 1. *)
Definition rivals : sample_state :=
  invoke_all (take 10 script ++
    [(at_time 11, Call.AddGuardian admin guardian3); (at_time 11, Call.SetReputation admin guardian3 5);
     (at_time 11, Call.LockTokens guardian3 50)]) (deployed w0).

Definition heavy_first : list (Z * Address) := [(1, guardian1); (1, guardian2); (1, guardian3)].
Definition light_first : list (Z * Address) := [(1, guardian3); (1, guardian1); (1, guardian2)].

Lemma rivals_reachable : reachable rivals.
Proof. apply reachable_invoke_all; [by_eval | apply reachable_deployed]. Qed.

(** What the order of the votes does decide is how often the vault is asked to
    pay: the same three votes, at the same time, make it pay for the task once
    when the lightest comes first, and twice when it comes last. *)
Theorem vote_order_changes_payments :
  heavy_first ≡ₚ light_first /\
  all_commit (votes (at_time 12) heavy_first) rivals /\ all_commit (votes (at_time 12) light_first) rivals /\
  payments (world (invoke_all (votes (at_time 12) heavy_first) rivals)) = [(vault1, 1); (vault1, 1)] /\
  payments (world (invoke_all (votes (at_time 12) light_first) rivals)) = [(vault1, 1)].
Proof.
  split; [by_eval|].
  split_and!; try (apply all_end_commit; [by_eval|]); vm_compute; reflexivity.
Qed.

Lemma votes_in_any_order_witness :
  all_commit (votes (at_time 12) light_first) rivals /\
  all_votes (invoke_all (votes (at_time 12) light_first) rivals) ≡ₚ
    all_votes (invoke_all (votes (at_time 12) heavy_first) rivals).
Proof.
  assert (vault_pays rivals) as Hv.
  { unfold vault_pays. assert (vault rivals = Some vault1) as -> by (vm_compute; reflexivity).
    intros i w. eexists. reflexivity. }
  pose proof (votes_in_any_order (at_time 12) heavy_first light_first rivals rivals_reachable
    ltac:(by_eval) ltac:(by_eval) Hv ltac:(by_eval)
    ltac:(apply all_end_commit; [by_eval|vm_compute; reflexivity])) as (H1 & _ & H3).
  split; [exact H1|exact H3].
Defined.
