(* ===== verification/Quorum.v ===== *)
(** * A quorum resolves a task

    Guardians do not get in each other's way: votes that are admissible one by one
    are admissible together, in any order, and together they do what their weights
    add up to.  In particular guardians who hold the threshold between them can
    resolve a task ([quorum_votes]). *)

From stdpp Require Import prelude gmap list strings.
From Stdlib Require Import ZArith Lia.
From S2P Require Import Prelude.
From S2P Require Import Types.
From S2P Require Import Host.
From S2P Require Import Logic.
From S2P Require Import Typing.
From S2P Require Import SampleHost.
From S2P Require Import CircuitBreaker.
From S2P Require Import Storage.
From S2P Require Import Tasks.
From S2P Require Import Contract.
From S2P Require Import VoteSpec.
From S2P Require Import System.
From S2P Require Import SampleRun.
From S2P Require Import Spec.
From S2P Require Import Tally.
From S2P Require Import Ledger.
From S2P Require Import Commute.

(** ** On the ledger *)

Lemma settles_book cx g i n m e s L :
  0 <= m ->
  settles cx i m (Entry (settles cx i n e L) (withdrawn e) (filed e)) (book g i n s e L) = settles cx i (n + m) e L.
Proof.
  intros Hm. unfold settles. cbn -[weight]. rewrite weight_snoc, decide_True by done.
  repeat match goal with |- context [?x <=? ?y] => destruct (Z.leb_spec x y) end; try done; lia.
Qed.

(** Everything but the size of the sum. *)
Definition eligible (i : Z) (e : entry) (L : ledger) (b : Address * Z) : Prop :=
  default false (members L !! b.1) = true /\
  (exists tk least, asset L = Some (tk, least) /\ least < deposit L b.1) /\
  cast L i b.1 = false /\ scores L !! b.1 = Some b.2 /\ b.2 <> 0.

Lemma admissible_eligible g i n e L :
  admissible g i n e L <->
  eligible i e L (g, n) /\ open_entry L i = Some e /\ withdrawn e = false /\ in_u64 (weight i (ballots L) + n).
Proof. unfold admissible, eligible. simpl. tauto. Qed.

(** Somebody else's ballot takes nothing away. *)
Lemma eligible_booked g i n s e e' L b :
  b.1 <> g -> eligible i e L b -> eligible i e' (book g i n s e L) b.
Proof.
  intros Hne (H1 & H2 & H3 & H4 & H5). unfold eligible. rewrite cast_booked, H3.
  rewrite bool_decide_false by congruence. done.
Qed.

(** What is left of task [i] after ballots of total weight [n], [k] of them. *)
Record counted cx (i k n : Z) (e : entry) (L L' : ledger) : Prop := {
  ct_tally : tally i (ballots L') = tally i (ballots L) + k;
  ct_weight : weight i (ballots L') = weight i (ballots L) + n;
  ct_entry : open_entry L' i = Some (Entry (settles cx i n e L) (withdrawn e) (filed e));
}.

Lemma eligible_weigh i e L bs : nonneg L -> Forall (eligible i e L) bs -> 0 <= weigh bs.
Proof.
  intros [Hs _] H. induction H as [|b bs (_ & _ & _ & Hb & _) _ IH]; simpl; [done|].
  specialize (Hs _ _ Hb). lia.
Qed.

(** One ballot. *)
Lemma poll1_counted cx i e L g n :
  default false (halted L) = false -> authorized cx g = true -> eligible i e L (g, n) ->
  open_entry L i = Some e -> withdrawn e = false -> in_u64 (weight i (ballots L) + n) ->
  in_u32 (tally i (ballots L) + 1) ->
  let L1 := book g i n (settles cx i n e L) e L in
  poll1 cx (i, g) L = Some L1 /\ counted cx i 1 n e L L1.
Proof.
  intros Hh Ha Hel He Hw Hn Ht L1. split.
  - apply poll1_Some. split_and!; [done..|]. exists n, e. by rewrite admissible_eligible.
  - subst L1. split.
    + cbn -[tally]. by rewrite tally_snoc, decide_True.
    + cbn -[weight]. by rewrite weight_snoc, decide_True.
    + by rewrite (open_booked _ _ _ _ _ _ _ He), decide_True.
Qed.

Lemma poll_quorum cx i e L b bs :
  default false (halted L) = false -> Forall (fun b => authorized cx b.1 = true) (b :: bs) ->
  nonneg L -> open_entry L i = Some e -> withdrawn e = false ->
  NoDup (b :: bs).*1 -> Forall (eligible i e L) (b :: bs) ->
  weight i (ballots L) + weigh (b :: bs) <= u64_max ->
  tally i (ballots L) + Z.of_nat (length (b :: bs)) <= u32_max ->
  exists L', poll cx ((fun b => (i, b.1)) <$> b :: bs) L = Some L' /\
    counted cx i (Z.of_nat (length (b :: bs))) (weigh (b :: bs)) e L L'.
Proof.
  revert b e L. induction bs as [|b2 bs IH]; intros [g n] e L Hh Ha Hnn He Hw Hnd Hel Hwt Ht;
    pose proof (eligible_weigh i e L _ Hnn Hel) as Hpos;
    apply Forall_cons in Ha as [Ha1 Ha]; apply Forall_cons in Hel as [Hel1 Hel];
    pose proof (eligible_weigh i e L _ Hnn Hel) as Hpos';
    rewrite fmap_cons in Hnd; apply NoDup_cons in Hnd as [Hg Hnd];
    assert (0 <= n) as Hn by (eapply Hnn, Hel1);
    assert (0 <= tally i (ballots L)) as Ht0 by (unfold tally; lia);
    pose proof (proj2 Hnn i) as Hw0.
  - simpl in Hwt, Ht. rewrite Z.add_0_r in Hwt.
    destruct (poll1_counted cx i e L g n) as [Hp HC]; try done; try (unfold in_u64, in_u32; lia).
    eexists. simpl. rewrite Hp, Z.add_0_r. by split.
  - change (weigh ((g, n) :: b2 :: bs)) with (n + weigh (b2 :: bs)) in *.
    change (length ((g, n) :: b2 :: bs)) with (S (length (b2 :: bs))) in *.
    destruct (poll1_counted cx i e L g n) as [Hp [C1 C2 C3]]; try done; try (unfold in_u64, in_u32; lia).
    set (L1 := book g i n (settles cx i n e L) e L) in *.
    destruct (IH b2 (Entry (settles cx i n e L) (withdrawn e) (filed e)) L1) as (L' & Hp' & [D1 D2 D3]); try done.
    + by apply nonneg_book.
    + rewrite Forall_forall in Hel |- *. intros b Hb. apply eligible_booked with (e := e); [|by apply Hel].
      intros <-. apply Hg, list_elem_of_fmap. by exists b.
    + lia.
    + lia.
    + exists L'. rewrite fmap_cons. cbn [poll fst]. rewrite Hp. split; [exact Hp'|]. split; [lia|lia|].
      rewrite D3. unfold L1. by rewrite settles_book.
Qed.

(** ** On the contract *)

Section quorum.
Context {Sto Wld : Type} `{!InstanceStorage Sto} `{!World Wld}.
Implicit Types (st : state Sto Wld) (cx : context) (L : ledger).

(** The votes of these guardians on task [i], in this order. *)
Definition quorum (i : Z) (bs : list (Address * Z)) : list (Z * Address) := (fun b => (i, b.1)) <$> bs.

Lemma check_eligible L st i t b :
  represents L st -> ledger_ok L -> vote_check b.1 i st = inr (b.2, t) ->
  exists e, t = task_of (ballots L) i e /\ eligible i e L b /\ open_entry L i = Some e /\ withdrawn e = false.
Proof.
  intros HR Hok Hck. rewrite (vote_check_admission _ _ st L HR Hok) in Hck.
  destruct (admission b.1 i L) as [|[n e]] eqn:Ha; [done|]. injection Hck as -> <-.
  apply admission_inr, admissible_eligible in Ha as (H1 & H2 & H3 & _). exists e. by destruct b.
Qed.

(** C7: guardians who hold the threshold between them resolve a task.  Take any
    number of different guardians, each of whom may vote on the task as things
    stand, and let them all vote at one ledger time: every vote goes through, the
    task counts all of them, with the sum of their weights, and it is resolved, at
    that time, exactly when this sum reaches the threshold or it was resolved
    already; provided the contract is not paused, the counters have room, and the
    vault, when there is one, pays. *)
Theorem quorum_votes cx i st t bs :
  reachable st -> ctx_wf cx -> in_u64 i -> paused st = false -> vault_pays st ->
  bs <> [] -> NoDup bs.*1 ->
  Forall (fun b => authorized cx b.1 = true /\ vote_check b.1 i st = inr (b.2, t)) bs ->
  let total := Task.total_weight_accrued t + weigh bs in
  total <= u64_max -> Task.votes t + Z.of_nat (length bs) <= u32_max ->
  all_commit (votes cx (quorum i bs)) st /\
  exists t', active_task (invoke_all (votes cx (quorum i bs)) st) i = Some t' /\
    Task.votes t' = Task.votes t + Z.of_nat (length bs) /\ Task.total_weight_accrued t' = total /\
    Task.is_done t' = (weight_threshold st <=? total) || Task.is_done t /\
    Task.resolved_at t' = if weight_threshold st <=? total then timestamp cx else Task.resolved_at t.
Proof.
  intros Hr Hcx Hi Hp Hv Hne Hnd Hbs total Htot Hcnt. pose proof (reachable_well_typed st Hr) as Hwt.
  destruct (reachable_ledger st Hr) as (L & HR & Hok). destruct bs as [|b bs]; [done|].
  apply Forall_and in Hbs as [Hau Hck]. pose proof (Forall_inv Hck) as H0. cbv beta in H0.
  destruct (check_eligible L st i t b HR Hok H0) as (e & -> & _ & He & Hwd).
  assert (Forall (eligible i e L) (b :: bs)) as Hel.
  { apply (Forall_impl _ _ _ Hck). intros b' Hb'.
    destruct (check_eligible L st i _ b' HR Hok Hb') as (e' & _ & H & He' & _). congruence. }
  subst total. cbn in Htot, Hcnt |- *.
  destruct (poll_quorum cx i e L b bs) as (L' & Hpoll & [C1 C2 C3]); try done.
  { by rewrite <- (view_paused L st HR). } { by eapply represented_nonneg. }
  destruct (votes_poll cx (quorum i (b :: bs)) st L Hcx) as [Hvp _]; try done.
  { unfold quorum. rewrite <- list_fmap_compose. apply Forall_fmap, Forall_true. by intros. }
  apply Hvp in Hpoll as [Hall HR']. split; [exact Hall|].
  exists (task_of (ballots L') i (Entry (settles cx i (weigh (b :: bs)) e L) (withdrawn e) (filed e))).
  split; [by rewrite (view_active L' _ HR'), C3|]. rewrite (view_bar L st HR). unfold settles. cbn.
  fold (tally i (ballots L')) (tally i (ballots L)) (weight i (ballots L')) (weight i (ballots L)) in *.
  split_and!; [exact C1|exact C2|by case_match|by case_match].
Qed.

End quorum.

(** ** Witness *)

(** Two guardians of weights 200 and 150, on a task nobody voted on. *)
Lemma quorum_votes_witness :
  exists t', active_task (invoke_all (votes (at_time 12) (quorum 2 [(guardian1, 200); (guardian2, 150)])) (scene 10)) 2 = Some t' /\
    Task.votes t' = 2 /\ Task.is_done t' = true /\ Task.resolved_at t' = 12.
Proof.
  assert (vault_pays (scene 10)) as Hv.
  { unfold vault_pays. assert (vault (scene 10) = Some vault1) as -> by (vm_compute; reflexivity).
    intros i w. eexists. reflexivity. }
  pose proof (quorum_votes (at_time 12) 2 (scene 10) (new_task 2) [(guardian1, 200); (guardian2, 150)]
    (scene_reachable 10) ltac:(by_eval) ltac:(by_eval) ltac:(vm_compute; reflexivity) Hv ltac:(discriminate)
    ltac:(by_eval) ltac:(by_eval) ltac:(by_eval) ltac:(by_eval)) as [_ (t' & Ht & H1 & _ & H3 & H4)].
  assert (weight_threshold (scene 10) = 300) as Hthr by (vm_compute; reflexivity).
  rewrite Hthr in H3, H4. exists t'. split; [exact Ht|]. split; [exact H1|]. split; [exact H3|exact H4].
Defined.
