(* ===== verification/Takeover.v ===== *)
(** * What one signer can do alone

    No entry point compares its administrator with anything, so whoever signs for
    an address holds every right of the contract.  [anyone_can_resolve] composes
    the calls on the ledger ([Ledger.transact]): one signer resolves an open task
    alone and has the vault pay for it. *)

From stdpp Require Import prelude gmap list strings.
From Stdlib Require Import ZArith Lia.
From S2P Require Import Prelude.
From S2P Require Import Types.
From S2P Require Import Host.
From S2P Require Import Logic.
From S2P Require Import Typing.
From S2P Require Import SampleHost.
From S2P Require Import Storage.
From S2P Require Import Tasks.
From S2P Require Import Contract.
From S2P Require Import VoteSpec.
From S2P Require Import System.
From S2P Require Import SampleRun.
From S2P Require Import Spec.
From S2P Require Import Commits.
From S2P Require Import Ledger.

Section takeover.
Context {Sto Wld : Type} `{!InstanceStorage Sto} `{!World Wld}.
Implicit Types (st : state Sto Wld) (L : ledger).

(** [m] signs and nobody else. *)
Definition alone (m self : Address) (now : Z) : context := Context (fun a => bool_decide (a = m)) now self.

(** Lift the pause, register oneself, take a score, drop the threshold, deposit,
    vote. *)
Definition coup (m : Address) (n i : Z) : list Call :=
  [Call.Unpause m; Call.AddGuardian m m; Call.SetReputation m m 1; Call.SetWeightThreshold m 0;
   Call.LockTokens m n; Call.Vote m i].

Lemma transact_cons cx c rest L w es0 L' w' es :
  transact cx c L w = Accept L' w' es ->
  transact_all ((cx, c) :: rest) L w es0 = transact_all rest L' w' (es0 ++ es).
Proof. intros H. simpl. by rewrite H. Qed.

Lemma admission_intro g i L tk least n e :
  members L !! g = Some true -> asset L = Some (tk, least) -> least < deposit L g ->
  cast L i g = false -> scores L !! g = Some n -> n <> 0 -> open_entry L i = Some e ->
  withdrawn e = false -> in_u64 (weight i (ballots L) + n) -> admission g i L = inr (n, e).
Proof.
  intros Hm Ha Hd Hc Hs Hn He Hw Hu. unfold admission. rewrite Hm, Ha. simpl.
  destruct (Z.leb_spec (deposit L g) least); [lia|]. rewrite Hc, Hs.
  destruct (Z.eqb_spec n 0); [done|]. by rewrite He, Hw, decide_True.
Qed.

(** What the vault, if there is one, makes of the world when asked to pay. *)
Definition paid_by (v : option Address) (i : Z) (w : Wld) : option Wld :=
  match v with Some v => release_funds v i w | None => Some w end.

(** A ballot past the bar settles the task and has the vault pay, or fails if it refuses. *)
Lemma ballot_settles cx g i L (w : Wld) n e :
  admission g i L = inr (n, e) -> in_u32 (tally i (ballots L) + 1) ->
  default DEFAULT_WEIGHT_THRESHOLD (bar L) <= weight i (ballots L) + n ->
  ballot cx g i L w =
    match paid_by (payer L) i w with
    | Some w2 => Accept (book g i n (Some (timestamp cx)) e L) w2
                   [resolved_event i (weight i (ballots L) + n); vote_event i g n]
    | None => Refuse ContractError.EscrowUnavailable
    end.
Proof.
  intros Ha Ht Hb. unfold ballot. rewrite Ha, decide_True by done.
  destruct (Z.leb_spec (default DEFAULT_WEIGHT_THRESHOLD (bar L)) (weight i (ballots L) + n)); [|lia].
  unfold paid_by. by destruct (payer L).
Qed.

(** [m] registered, with a score, a deposit and a bar that anything reaches. *)
Definition armed (m : Address) (n : Z) L : ledger :=
  set_deposits (<[m := deposit L m + n]> (deposits L))
    (set_bar (Some 0)
       (set_scores (<[m := 1]> (scores L))
          (set_members (<[m := true]> (members L))
             (if bool_decide (is_Some (members L !! m)) then roll L else roll L ++ [m])
             (set_halted (Some false) L)))).

Lemma coup_arms m self now n i L tk least w w1 :
  asset L = Some (tk, least) -> in_i128 (deposit L m + n) -> token_transfer tk m self n w = Some w1 ->
  exists es, forall es0,
    transact_all ((fun c => (alone m self now, c)) <$> coup m n i) L w es0 =
    transact_all [(alone m self now, Call.Vote m i)] (armed m n L) w1 (es0 ++ es).
Proof.
  intros Ha Hd Hp.
  assert (forall v, by_signer (Wld := Wld) (alone m self now) m v = v) as Hs.
  { intros v. unfold by_signer. simpl. by rewrite bool_decide_true. }
  eexists. intros es0. unfold coup. cbn [fmap list_fmap].
  erewrite transact_cons by (cbn; by rewrite Hs).
  erewrite transact_cons by (cbn; unfold running; cbn; by rewrite Hs).
  erewrite transact_cons by (cbn; unfold running; cbn; by rewrite Hs).
  erewrite transact_cons by (cbn; by rewrite Hs).
  erewrite transact_cons by (cbn; rewrite Hs; unfold pay_in, deposit in *; cbn; rewrite Ha, Hp, decide_True by done; reflexivity).
  rewrite <- !(app_assoc es0). reflexivity.
Qed.

Lemma armed_vote m self now n i L tk least e (w : Wld) :
  asset L = Some (tk, least) -> open_entry L i = Some e -> withdrawn e = false -> cast L i m = false ->
  least < deposit L m + n ->
  in_u32 (tally i (ballots L) + 1) -> in_u64 (weight i (ballots L) + 1) -> 0 <= weight i (ballots L) ->
  transact (alone m self now) (Call.Vote m i) (armed m n L) w =
    match paid_by (payer L) i w with
    | Some w2 => Accept (book m i 1 (Some now) e (armed m n L)) w2
                   [resolved_event i (weight i (ballots L) + 1); vote_event i m 1]
    | None => Refuse ContractError.EscrowUnavailable
    end.
Proof.
  intros Ha He Hw Hc Hl Ht Hwt Hw0. cbn. unfold running, by_signer; cbn. rewrite bool_decide_true by done.
  apply (ballot_settles (alone m self now) m i (armed m n L)); [|done|change (0 <= weight i (ballots L) + 1); lia].
  apply (admission_intro m i _ tk least 1 e); try done; unfold deposit; cbn; rewrite ?lookup_insert_eq; done.
Qed.

Lemma coup_ledger m self now n i L tk least e w w1 :
  asset L = Some (tk, least) -> open_entry L i = Some e -> withdrawn e = false -> cast L i m = false ->
  in_i128 (deposit L m + n) -> least < deposit L m + n ->
  in_u32 (tally i (ballots L) + 1) -> in_u64 (weight i (ballots L) + 1) -> 0 <= weight i (ballots L) ->
  token_transfer tk m self n w = Some w1 ->
  exists L' es, forall es0,
    transact_all ((fun c => (alone m self now, c)) <$> coup m n i) L w es0
      = (L', default w1 (paid_by (payer L) i w1), es0 ++ es) /\
    match paid_by (payer L) i w1 with
    | Some _ => open_entry L' i = Some (Entry (Some now) (withdrawn e) (filed e))
    | None => open_entry L' i = Some e /\ ballots L' = ballots L
    end.
Proof.
  intros Ha He Hw Hc Hd Hl Ht Hwt Hw0 Hp. pose proof (open_lookup L i e He) as [_ Hf].
  destruct (coup_arms m self now n i L tk least w w1 Ha Hd Hp) as [es Hes].
  pose proof (armed_vote m self now n i L tk least e w1 Ha He Hw Hc Hl Ht Hwt Hw0) as Hv.
  destruct (paid_by (payer L) i w1) as [w2|]; eexists _, _; intros es0; rewrite Hes; cbn [transact_all]; rewrite Hv.
  - rewrite <- (app_assoc es0). split; [done|]. unfold open_entry. cbn. by rewrite lookup_insert_eq, Hf.
  - done.
Qed.

(** C17: no right of the contract needs more than one's own signature.  In any
    reachable state take an open task that [m] has not voted on, with room in its two
    counters.  Let [m], whoever that is, sign six calls alone, the fifth a deposit
    that takes [m]'s balance past the lock threshold and that the token carries out.
    Provided that the vault, if one is set, pays when it is asked, the task is then
    resolved, at once and by this single vote, and the vault has been asked to
    release its funds: no guardian, no administrator and no pause stands in the way.
    If the vault refuses, the vote fails and the task is as it was. *)
Theorem anyone_can_resolve m self now n i st t tk w1 :
  reachable st -> in_u64 now -> in_u64 i -> in_i128 n ->
  active_task st i = Some t -> Task.is_cancelled t = false -> has_voted st i m = false ->
  Task.votes t < u32_max -> Task.total_weight_accrued t < u64_max ->
  token_address st = Some tk ->
  lock_threshold st < locked_balance st m + n -> in_i128 (locked_balance st m + n) ->
  token_transfer tk m self n (world st) = Some w1 ->
  let st' := invoke_all ((fun c => (alone m self now, c)) <$> coup m n i) st in
  Forall (fun c => signer c = Some m) (coup m n i) /\
  match match vault st with Some v => release_funds v i w1 | None => Some w1 end with
  | Some w2 =>
      world st' = w2 /\
      exists t', active_task st' i = Some t' /\ Task.is_done t' = true /\ Task.resolved_at t' = now
  | None => world st' = w1 /\ active_task st' i = Some t
  end.
Proof.
  intros Hr Hnow Hi Hn Ht Hc Hv Hvotes Hweight Htk Hl Hd Hp st'.
  pose proof (reachable_well_typed st Hr) as Hwt. destruct (reachable_ledger st Hr) as (L & HR & Hok).
  pose proof (look_Some _ _ _ _ Ht) as Hok_t. apply Hwt in Hok_t as [_ Hty].
  rewrite (view_active L st HR) in Ht. destruct (open_entry L i) as [e|] eqn:He; [|done].
  simpl in Ht. injection Ht as <-.
  rewrite (view_token L st HR) in Htk. destruct (asset L) as [[tk' least]|] eqn:Ha; [|done]. injection Htk as ->.
  rewrite (view_least L st HR), Ha, (view_deposit L st HR) in Hl. rewrite (view_deposit L st HR) in Hd.
  rewrite (view_payer L st HR). rewrite (view_voted L st HR) in Hv.
  cbn in Hc, Hvotes, Hweight, Hl. unfold task_ok, in_u32, in_u64 in Hty. cbn in Hty.
  fold (tally i (ballots L)) in *. fold (weight i (ballots L)) in *.
  destruct (coup_ledger m self now n i L tk least e (world st) w1 Ha He Hc Hv Hd Hl)
    as (L' & es & Hall); [unfold in_u32; lia|unfold in_u64; lia|lia|done|].
  destruct (Hall (effects st)) as [Hta He'].
  assert (calls_wf ((fun c => (alone m self now, c)) <$> coup m n i)) as Hwf.
  { unfold coup. cbn [fmap list_fmap]. repeat apply Forall_cons_2; try apply Forall_nil_2; by split. }
  pose proof (history_agrees _ st L Hwf Hwt HR Hok) as H. rewrite Hta in H. destruct H as (HR' & _ & Hw & _).
  split; [by repeat constructor|]. fold st' in HR', Hw. fold (paid_by (payer L) i w1).
  rewrite (view_active L' _ HR'). destruct (paid_by (payer L) i w1) as [w2|]; (split; [done|]).
  - rewrite He'. by eexists.
  - destruct He' as [-> ->]. done.
Qed.

End takeover.

(** ** Witness *)

(** A stranger with some tokens resolves task 2, which nobody voted on. *)
Lemma anyone_can_resolve_witness :
  exists t', active_task (invoke_all ((fun c => (alone guardian3 self 20, c)) <$> coup guardian3 11 2) (scene 10)) 2 = Some t' /\
    Task.is_done t' = true /\ Task.resolved_at t' = 20.
Proof.
  assert (is_Some (token_transfer token guardian3 self 11 (world (scene 10)))) as [w1 H1] by by_eval.
  pose proof (anyone_can_resolve guardian3 self 20 11 2 (scene 10) (new_task 2) token w1
    (scene_reachable 10) ltac:(by_eval) ltac:(by_eval) ltac:(by_eval) ltac:(vm_compute; reflexivity)
    eq_refl ltac:(vm_compute; reflexivity) ltac:(by_eval) ltac:(by_eval) ltac:(vm_compute; reflexivity)
    ltac:(by_eval) ltac:(by_eval) H1) as H.
  assert (vault (scene 10) = Some vault1) as Hv by (vm_compute; reflexivity). rewrite Hv in H.
  exact (proj2 (proj2 H)).
Defined.
