(* ===== verification/Lifetime.v ===== *)
(** * How long the contract lives

    Entries of the ledger expire: each has a last ledger at which it can be used.
    The contract has two, its instance, with everything it stores in it, and its
    code, and a call needs both.  [extend_ttl] prolongs them together.  Apart from
    that anybody may ask the network to prolong an entry that has not expired, or to
    restore one that has ([Archival]).  Histories here are deeds at numbered ledgers
    ([live]): calls, and the network's two operations on either entry.

    Of the contract's own calls only [initialize] and [add_guardian] prolong
    anything.  A contract that registers tasks, votes, resolves and pays, but
    registers no guardian, expires on a ledger that is known beforehand, with
    everything in it, unless somebody looks after it from outside
    ([unrenewed_contract_expires]). *)

From stdpp Require Import prelude gmap list strings.
From Stdlib Require Import ZArith Lia.
From S2P Require Import Prelude.
From S2P Require Import Types.
From S2P Require Import Host.
From S2P Require Import Logic.
From S2P Require Import Typing.
From S2P Require Import SampleHost.
From S2P Require Import Guardian.
From S2P Require Import CircuitBreaker.
From S2P Require Import Storage.
From S2P Require Import Contract.
From S2P Require Import VoteSpec.
From S2P Require Import System.
From S2P Require Import SampleRun.
From S2P Require Import Ledger.

(** ** The network's archival *)

(** [prolong now threshold extend_to until]: an entry that can be used until ledger
    [until] is prolonged at ledger [now].  Nothing happens while at least [threshold]
    ledgers remain, otherwise the entry can be used for [extend_to] more, as far as
    the network's maximum allows, and never for less than before.  A restored entry
    can be used for the network's minimum. *)
Class Archival := {
  max_ttl : Z;
  min_ttl : Z;
  prolong : forall (now threshold extend_to until : Z), Z;
  prolong_early now t e until : t <= until - now -> prolong now t e until = until;
  prolong_late now t e until :
    until - now < t <= e -> prolong now t e until = Z.max until (now + Z.min e max_ttl);
  max_ttl_suffices : LEDGER_TTL <= max_ttl;
  min_ttl_positive : 0 < min_ttl;
}.

(** The two entries, and the last ledger of each. *)
Inductive entry_part := Instance_entry | Code_entry.

Record lives := Lives { instance_until : Z; code_until : Z }.

Definition until (p : entry_part) (v : lives) : Z :=
  match p with Instance_entry => instance_until v | Code_entry => code_until v end.

Definition alter (f : Z -> Z) (p : entry_part) (v : lives) : lives :=
  match p with
  | Instance_entry => Lives (f (instance_until v)) (code_until v)
  | Code_entry => Lives (instance_until v) (f (code_until v))
  end.

Definition usable (now : Z) (v : lives) : bool := (now <=? instance_until v) && (now <=? code_until v).

(** What happens on the ledger: a call, the extension of an entry, which is open to
    anybody, by the network's operation (the threshold is then [extend_to]) or from
    another contract, and the restoration of an entry by anybody. *)
Inductive deed :=
| Calls (cx : context) (c : Call)
| Extends (p : entry_part) (threshold extend_to : Z)
| Restores (p : entry_part).

(** The network refuses a threshold above the new life. *)
Definition deed_wf (d : deed) : Prop :=
  match d with
  | Calls cx c => ctx_wf cx /\ call_wf c
  | Extends _ t e => t <= e
  | Restores _ => True
  end.

Section lifetime.
Context {Sto Wld : Type} `{!InstanceStorage Sto} `{!World Wld} {archival : Archival}.
Implicit Types (st : state Sto Wld) (cx : context) (v : lives).

Definition prolong_all (now : Z) (es : list effect) (v : lives) : lives :=
  foldl (fun v e => match e with
                    | TtlExtended t x => Lives (prolong now t x (instance_until v)) (prolong now t x (code_until v))
                    | _ => v
                    end) v es.

(** A call at ledger [now]: refused once an entry has expired. *)
Definition on_ledger (now : Z) cx (c : Call) (x : state Sto Wld * lives) : state Sto Wld * lives :=
  let '(st, v) := x in
  if usable now v then
    let st' := invoke cx c st in (st', prolong_all now (drop (length (effects st)) (effects st')) v)
  else (st, v).

(** An extension does nothing to an entry that has expired, a restoration nothing to
    one that has not. *)
Definition do_deed (now : Z) (d : deed) (x : state Sto Wld * lives) : state Sto Wld * lives :=
  match d with
  | Calls cx c => on_ledger now cx c x
  | Extends p t e => (x.1, alter (fun u => if now <=? u then prolong now t e u else u) p x.2)
  | Restores p => (x.1, alter (fun u => if now <=? u then u else now + min_ttl - 1) p x.2)
  end.

Fixpoint live (l : list (Z * deed)) (x : state Sto Wld * lives) : state Sto Wld * lives :=
  match l with [] => x | (now, d) :: rest => live rest (do_deed now d x) end.

(** The calls that prolong the contract's life. *)
Definition renews (c : Call) : bool :=
  match c with Call.Initialize _ _ | Call.AddGuardian _ _ => true | _ => false end.

Definition completes cx (c : Call) st : bool :=
  match run cx (exec c) st with Done _ _ => true | _ => false end.

(** Both entries can be used at least until [u]. *)
Definition at_least (u : Z) v : lives := Lives (Z.max (instance_until v) u) (Z.max (code_until v) u).

(** How far a deed can make an entry live, if at all. *)
Definition reach (p : entry_part) (now : Z) (d : deed) : option Z :=
  match d with
  | Calls _ c => if renews c then Some (now + 100000) else None
  | Extends q _ e => match p, q with
                     | Instance_entry, Instance_entry | Code_entry, Code_entry => Some (now + Z.min e max_ttl)
                     | _, _ => None
                     end
  | Restores q => match p, q with
                  | Instance_entry, Instance_entry | Code_entry, Code_entry => Some (now + min_ttl - 1)
                  | _, _ => None
                  end
  end.

(** ** What a call does to it *)

(** The host's rule, for the only argument the contract passes. *)
Lemma prolong_full now u : prolong now LEDGER_TTL LEDGER_TTL u = Z.max u (now + LEDGER_TTL).
Proof.
  pose proof max_ttl_suffices. destruct (Z.le_gt_cases LEDGER_TTL (u - now)).
  - rewrite prolong_early by done. lia.
  - rewrite prolong_late by lia. lia.
Qed.

Lemma prolong_bound now t e u : t <= e -> u <= prolong now t e u <= Z.max u (now + Z.min e max_ttl).
Proof.
  intros He. destruct (Z.le_gt_cases t (u - now)); [rewrite prolong_early by done|rewrite prolong_late by lia]; lia.
Qed.

Lemma prolong_all_full now v : prolong_all now [TtlExtended LEDGER_TTL LEDGER_TTL] v = at_least (now + LEDGER_TTL) v.
Proof. unfold prolong_all, at_least. simpl. by rewrite !prolong_full. Qed.

Lemma transact_renews cx c L (w : Wld) L' w' es :
  transact cx c L w = Accept L' w' es ->
  forall now v, prolong_all now es v = if renews c then at_least (now + LEDGER_TTL) v else v.
Proof.
  intros H now v. rewrite <- prolong_all_full. destruct c; unfold transact in H; transact_inv H; try done.
  unfold ballot in H. destruct (admission _ _ _) as [|[n e]]; [done|]. cbv zeta in H.
  by repeat (case_match; simplify_eq).
Qed.

(** A call made in time prolongs the life if it is one of the two and completes,
    and otherwise leaves it. *)
Lemma on_ledger_in_time now cx c st v :
  reachable st -> call_wf c -> usable now v = true ->
  on_ledger now cx c (st, v) =
    (invoke cx c st, if renews c && completes cx c st then at_least (now + LEDGER_TTL) v else v).
Proof.
  intros Hr Hc Hn. unfold on_ledger. rewrite Hn. f_equal.
  destruct (reachable_ledger st Hr) as (L & HR & Hok).
  pose proof (exec_agrees cx c st L (reachable_well_typed st Hr) Hc HR Hok) as Ha.
  unfold invoke, completes. destruct (run cx (exec c) st) as [[] st'|e st'|r].
  - destruct (transact cx c L (world st)) as [L' w es| |] eqn:Ht; try done. destruct Ha as (_ & _ & _ & ->).
    rewrite drop_app_length, andb_true_r. by eapply transact_renews.
  - by rewrite drop_all, andb_false_r.
  - by rewrite drop_all, andb_false_r.
Qed.

Lemma usable_until now p v : usable now v = true -> now <= until p v.
Proof. unfold usable. intros [H1 H2]%andb_true_iff. destruct p; simpl; lia. Qed.

Lemma on_ledger_late now cx c st v : usable now v = false -> on_ledger now cx c (st, v) = (st, v).
Proof. intros H. unfold on_ledger. by rewrite H. Qed.

Lemma do_deed_reachable now d x : deed_wf d -> reachable x.1 -> reachable (do_deed now d x).1.
Proof.
  destruct x as [st v], d as [cx c| |]; [|done..]. intros [Hcx Hc] Hr. simpl in *. destruct (usable now v); [|done].
  simpl. eapply reachable_step; [done|]. by apply invoke_step.
Qed.

(** No deed makes an entry live longer than it can reach. *)
Lemma do_deed_bound now d st v p s :
  deed_wf d -> reachable st -> (forall r, reach p now d = Some r -> r <= s) ->
  until p (do_deed now d (st, v)).2 <= Z.max (until p v) s.
Proof.
  intros Hd Hr Hs. destruct d as [cx c|q t e|q]; simpl in *.
  - destruct Hd as [_ Hc]. destruct (usable now v) eqn:Hu; [|simpl; lia].
    pose proof (on_ledger_in_time now cx c st v Hr Hc Hu) as H. unfold on_ledger in H. rewrite Hu in H.
    injection H as H. rewrite H. destruct (renews c); simpl; [|lia]. specialize (Hs _ eq_refl).
    unfold LEDGER_TTL. destruct (completes cx c st), p; simpl in *; lia.
  - destruct p, q; simpl in *; try lia; specialize (Hs _ eq_refl);
      (destruct (_ <=? _); [pose proof (prolong_bound now t e (instance_until v) Hd); pose proof (prolong_bound now t e (code_until v) Hd)|]); lia.
  - destruct p, q; simpl in *; try lia; specialize (Hs _ eq_refl); destruct (_ <=? _); lia.
Qed.

Lemma live_reachable l x : Forall (fun y => deed_wf y.2) l -> reachable x.1 -> reachable (live l x).1.
Proof.
  revert x. induction l as [|[now d] l IH]; intros x Hl Hr; [done|]. apply Forall_cons in Hl as [Hd Hl].
  apply IH; [done|]. by apply do_deed_reachable.
Qed.

Lemma live_bound l x p s :
  Forall (fun y => deed_wf y.2) l -> reachable x.1 ->
  Forall (fun y => forall r, reach p y.1 y.2 = Some r -> r <= s) l ->
  until p (live l x).2 <= Z.max (until p x.2) s.
Proof.
  revert x. induction l as [|[now d] l IH]; intros [st v] Hl Hr Hs; [simpl; lia|].
  apply Forall_cons in Hl as [Hd Hl]. apply Forall_cons in Hs as [Hs0 Hs]. cbn [live].
  pose proof (do_deed_bound now d st v p s Hd Hr Hs0).
  specialize (IH (do_deed now d (st, v)) Hl (do_deed_reachable _ _ _ Hd Hr) Hs). simpl. lia.
Qed.

(** ** Property *)

(** C19: a contract that is used but not renewed expires.  After any history of
    calls, extensions and restorations, a call made while both entries can be used
    has its effect, and makes both usable for 100 000 further ledgers, if fewer were
    left, when it is an [initialize] or an [add_guardian] that completes; every other
    call, removing a guardian, setting a reputation, registering a task or voting,
    leaves both dates as they are.  So take one of the two entries, and let no
    guardian's registration, and nobody's extension or restoration of that entry,
    reach beyond ledger [s].  Then no call later than [s], or than the date the entry
    had at the start, has any effect: votes no longer count, and deposits do not come
    back. *)
Theorem unrenewed_contract_expires l st v p s :
  Forall (fun x => deed_wf x.2) l -> reachable st ->
  Forall (fun x => forall r, reach p x.1 x.2 = Some r -> r <= s) l ->
  let '(st', v') := live l (st, v) in
  (forall now cx c, call_wf c -> usable now v' = true ->
     do_deed now (Calls cx c) (st', v') =
       (invoke cx c st', if renews c && completes cx c st' then at_least (now + 100000) v' else v')) /\
  (forall now cx c, Z.max (until p v) s < now -> do_deed now (Calls cx c) (st', v') = (st', v')).
Proof.
  intros Hl Hr Hs. pose proof (live_bound l (st, v) p s Hl Hr Hs) as Hb.
  pose proof (live_reachable l (st, v) Hl Hr) as Hr'.
  destruct (live l (st, v)) as [st' v']. simpl in Hb, Hr'. split.
  - intros now cx c Hc Hn. by apply on_ledger_in_time.
  - intros now cx c Hn. apply on_ledger_late. apply not_true_iff_false. intros H%(usable_until now p). lia.
Qed.

End lifetime.

(** ** Witnesses *)

(** A network whose entries live at most 3 110 400 ledgers, and at least 4096 once
    restored. *)
#[local] Instance sample_archival : Archival.
Proof.
  refine {| max_ttl := 3110400; min_ttl := 4096;
            prolong now t e u := if t <=? u - now then u else Z.max u (now + Z.min e 3110400) |}.
  - intros now t e u H. by rewrite (proj2 (Z.leb_le _ _) H).
  - intros now t e u H. destruct (Z.leb_spec t (u - now)); [lia|done].
  - unfold LEDGER_TTL. lia.
  - lia.
Defined.

(** The sample history, one call every ten thousand ledgers: the second guardian
    is registered on ledger 30 000.  On ledger 60 000 somebody extends the life of
    the code, and not that of the instance. *)
Definition slow (n : nat) : list (Z * deed) :=
  imap (fun k x => (10000 * Z.of_nat k + 10000, Calls x.1 x.2)) (take n script) ++
  [(60000, Extends Code_entry 500000 500000)].

(** The second vote on task 1 arrives on ledger 130 000, in time, or one ledger
    later. *)
Lemma unrenewed_contract_expires_witness :
  let x := live (slow 11) (deployed w0, Lives 100000 100000) in
  x.2 = Lives 130000 560000 /\
  has_voted (do_deed 130000 (Calls (at_time 12) (Call.Vote guardian2 1)) x).1 1 guardian2 = true /\
  do_deed 130001 (Calls (at_time 12) (Call.Vote guardian2 1)) x = x.
Proof.
  intros x. split; [vm_compute; reflexivity|]. split; [vm_compute; reflexivity|].
  pose proof (unrenewed_contract_expires (slow 11) (deployed w0) (Lives 100000 100000) Instance_entry 130000
    ltac:(repeat constructor; by_eval) (reachable_deployed w0)
    ltac:(repeat constructor; simpl; intros r Hr; by simplify_eq)) as H.
  fold x in H. destruct x as [st' v']. apply H. by_eval.
Defined.
