(* ===== verification/Independence.v ===== *)
(** * Calls that do not meet

    Every call has the keys it looks at ([consults]) and the keys it sets
    ([alters]); the indexes, to which calls only append, and the mutex, which no
    call leaves behind, are neither.  Two calls are [independent] if neither sets
    what the other looks at or sets, and not both call other contracts.

    A call sees no more than the keys it consults ([transact_local]) and changes no
    more than those it alters ([transact_frame]).  So independent calls may be made
    in any order: each is answered as if it were the only one, and the contract
    ends in the same state, up to the order of the indexes and of the events
    ([independent_calls_in_any_order]). *)

From stdpp Require Import prelude gmap list strings.
From Stdlib Require Import ZArith Lia Permutation Morphisms.
From S2P Require Import Prelude.
From S2P Require Import Types.
From S2P Require Import Host.
From S2P Require Import Logic.
From S2P Require Import Typing.
From S2P Require Import SampleHost.
From S2P Require Import Guardian.
From S2P Require Import CircuitBreaker.
From S2P Require Import Storage.
From S2P Require Import Tasks.
From S2P Require Import Drips.
From S2P Require Import Contract.
From S2P Require Import VoteSpec.
From S2P Require Import System.
From S2P Require Import SampleRun.
From S2P Require Import Spec.
From S2P Require Import Registry.
From S2P Require Import Refinement.
From S2P Require Import Custody.
From S2P Require Import Ledger.

(** ** What a call looks at and what it sets *)

Definition indexes : list DataKey :=
  [DataKey.AllGuardians; DataKey.AllTasks; DataKey.AllVotes; DataKey.AllRewardStreams].

Definition consults (c : Call) : list DataKey :=
  match c with
  | Call.Initialize _ _ => [DataKey.Initialized]
  | Call.TogglePause _ => [DataKey.Paused]
  | Call.Pause _ | Call.Unpause _ | Call.SetWeightThreshold _ _ | Call.SetVaultAddress _ _
  | Call.ResetCircuitBreaker _ => []
  | Call.AddGuardian _ g | Call.RemoveGuardian _ g => [DataKey.Paused; DataKey.Guardian g]
  | Call.LockTokens g _ => [DataKey.TokenAddress; DataKey.LockedBalance g]
  | Call.ResignGuardian g | Call.UnlockTokens g =>
      [DataKey.TokenAddress; DataKey.Guardian g; DataKey.LockedBalance g]
  | Call.SetReputation _ _ _ => [DataKey.Paused]
  | Call.RegisterTask _ i | Call.ArchiveTask i =>
      [DataKey.Paused; DataKey.ActiveTask i; DataKey.ArchivedTask i]
  | Call.CancelTask _ i => [DataKey.Paused; DataKey.ActiveTask i]
  | Call.Vote g i =>
      [DataKey.Paused; DataKey.Guardian g; DataKey.TokenAddress; DataKey.LockThreshold;
       DataKey.LockedBalance g; DataKey.Voted i g; DataKey.Reputation g; DataKey.ActiveTask i;
       DataKey.WeightThreshold; DataKey.VaultAddress]
  | Call.StartRewardStream _ _ _ i => [DataKey.Paused; DataKey.ActiveTask i; DataKey.RewardStream i]
  | Call.RecordFailure => [DataKey.FailureCount; DataKey.Paused]
  end.

Definition alters (c : Call) : list DataKey :=
  filter (fun k => k ∉ DataKey.Lock :: indexes) (footprint c).

Definition apart (c1 c2 : Call) : Prop :=
  Forall (fun k => k ∉ consults c2 ++ alters c2) (alters c1).

Definition independent (c1 c2 : Call) : Prop :=
  apart c1 c2 /\ apart c2 c1 /\ calls_out c1 && calls_out c2 = false.

#[global] Instance independent_dec c1 c2 : Decision (independent c1 c2) := ltac:(unfold independent, apart; apply _).

Lemma independent_sym c1 c2 : independent c1 c2 -> independent c2 c1.
Proof. intros (H1 & H2 & H3). split_and!; [done..|]. by rewrite andb_comm. Qed.

(** *** The code reads nothing else *)

Definition reads_protocol (ks : list DataKey) : protocol := {|
  guar X op := match op with StorageGet k | StorageHas k => k ∈ ks | _ => True end;
  rely X op x := True;
  may_fail _ := True;
  may_trap _ := True;
|}.

Lemma exec_consults c :
  obeys (reads_protocol (DataKey.Lock :: indexes ++ consults c)) (exec c) (fun _ => True).
Proof. destruct c; unfold exec; obey; simpl; try done; try solve_elem. Qed.

(** ** Ledgers that agree on some keys *)

Definition agree (ks : list DataKey) (L1 L2 : ledger) : Prop := forall k, k ∈ ks -> encode L1 k = encode L2 k.

Lemma agree_key {T} (f : T -> Val) ks k L1 L2 (o1 o2 : option T) :
  agree ks L1 L2 -> k ∈ ks -> encode L1 k = f <$> o1 -> encode L2 k = f <$> o2 ->
  (forall x y, f x = f y -> x = y) -> o1 = o2.
Proof.
  intros H Hk H1 H2 Hf. specialize (H k Hk). rewrite H1, H2 in H.
  destruct o1, o2; simplify_eq/=; [|done]. f_equal. by apply Hf.
Qed.

(** What the keys say, as facts on the ledger's fields. *)
Section agreement.
Context (ks : list DataKey) (L1 L2 : ledger) (Ha : agree ks L1 L2).

Local Ltac key_is f H :=
  eapply (agree_key f _ _ _ _ _ _ Ha H);
    [simpl; try done; by destruct (asset L1)|simpl; try done; by destruct (asset L2)|by intros x y [= ->]].

Lemma agree_paused : DataKey.Paused ∈ ks -> halted L1 = halted L2.
Proof. intros Hk. key_is VBool Hk. Qed.
Lemma agree_failures : DataKey.FailureCount ∈ ks -> failures L1 = failures L2.
Proof. intros Hk. key_is VU32 Hk. Qed.
Lemma agree_bar : DataKey.WeightThreshold ∈ ks -> bar L1 = bar L2.
Proof. intros Hk. key_is VU64 Hk. Qed.
Lemma agree_payer : DataKey.VaultAddress ∈ ks -> payer L1 = payer L2.
Proof. intros Hk. key_is VAddress Hk. Qed.
Lemma agree_member g : DataKey.Guardian g ∈ ks -> members L1 !! g = members L2 !! g.
Proof. intros Hk. key_is VBool Hk. Qed.
Lemma agree_score g : DataKey.Reputation g ∈ ks -> scores L1 !! g = scores L2 !! g.
Proof. intros Hk. key_is VU64 Hk. Qed.
Lemma agree_deposit g : DataKey.LockedBalance g ∈ ks -> deposit L1 g = deposit L2 g.
Proof. 
  intros Hk. unfold deposit. f_equal. key_is VI128 Hk.
Qed.
Lemma agree_token : DataKey.TokenAddress ∈ ks -> fst <$> asset L1 = fst <$> asset L2.
Proof.
  intros Hk. key_is VAddress Hk.
Qed.
Lemma agree_asset : DataKey.TokenAddress ∈ ks -> DataKey.LockThreshold ∈ ks -> asset L1 = asset L2.
Proof.
  intros Hk Hk'. apply agree_token in Hk.
  assert (snd <$> asset L1 = snd <$> asset L2) as Hs.
  { key_is VI128 Hk'. }
  destruct (asset L1) as [[]|], (asset L2) as [[]|]; simplify_eq/=; done.
Qed.
Lemma agree_initialized : DataKey.Initialized ∈ ks -> is_Some (asset L1) <-> is_Some (asset L2).
Proof.
  intros Hk. specialize (Ha _ Hk). simpl in Ha.
  destruct (asset L1), (asset L2); simplify_eq/=; split; intros []; by eauto.
Qed.
Lemma agree_cast i g : DataKey.Voted i g ∈ ks -> cast L1 i g = cast L2 i g.
Proof. intros Hk. specialize (Ha _ Hk). simpl in Ha. by destruct (cast L1 i g), (cast L2 i g). Qed.
Lemma agree_grant i : DataKey.RewardStream i ∈ ks -> grants L1 !! i = grants L2 !! i.
Proof.
  intros Hk. eapply (agree_key _ _ _ _ _ _ _ Ha Hk); [done..|]. intros [] [] H. by simplify_eq/=.
Qed.

(** An open task, with what its ballots come to. *)
Lemma agree_open i :
  DataKey.ActiveTask i ∈ ks ->
  open_entry L1 i = open_entry L2 i /\
  (is_Some (open_entry L1 i) ->
   tally i (ballots L1) = tally i (ballots L2) /\ weight i (ballots L1) = weight i (ballots L2)).
Proof.
  intros Hk. specialize (Ha _ Hk). simpl in Ha. unfold open_entry. revert Ha. unfold task_of.
  generalize (tally i (ballots L1)) (tally i (ballots L2)) (weight i (ballots L1)) (weight i (ballots L2)).
  intros t1 t2 w1 w2 Ha. destruct (entries L1 !! i) as [[s1 d1 []]|], (entries L2 !! i) as [[s2 d2 []]|];
    simplify_eq/=; split; try done; try by intros [].
  destruct s1, s2; by simplify_eq/=.
Qed.

Lemma agree_unknown i :
  DataKey.ActiveTask i ∈ ks -> DataKey.ArchivedTask i ∈ ks ->
  is_Some (entries L1 !! i) <-> is_Some (entries L2 !! i).
Proof.
  intros Hk Hk'. pose proof (Ha _ Hk) as H1. pose proof (Ha _ Hk') as H2. simpl in *.
  destruct (entries L1 !! i) as [[s1 d1 []]|], (entries L2 !! i) as [[s2 d2 []]|];
    simplify_eq/=; split; intros []; by eauto.
Qed.

End agreement.

(** ** What a transaction depends on and what it changes *)

(** What a transaction appends to the indexes. *)
Record additions := Additions {
  enrolled : list Address;
  opened : list Z;
  polled : list (Z * Address);
  granted : list Z;
}.

Definition grown (L : ledger) (x : additions) (L' : ledger) : Prop :=
  roll L' = roll L ++ enrolled x /\ order L' = order L ++ opened x /\
  (ballots L').*1 = (ballots L).*1 ++ polled x /\ grant_order L' = grant_order L ++ granted x.

Definition no_additions : additions := Additions [] [] [] [].

Definition additions_of (c : Call) (L : ledger) : additions :=
  match c with
  | Call.AddGuardian _ g => if bool_decide (is_Some (members L !! g)) then no_additions else Additions [g] [] [] []
  | Call.RegisterTask _ i => Additions [] [i] [] []
  | Call.Vote g i => Additions [] [] [(i, g)] []
  | Call.StartRewardStream _ _ _ i => Additions [] [] [] [i]
  | _ => no_additions
  end.

Section transactions.
Context {Wld : Type} `{!World Wld}.
Implicit Types (cx : context) (L : ledger) (w : Wld).

(** The outcomes of a ballot. *)
Lemma ballot_accept cx g i L w L' w' es :
  ballot cx g i L w = Accept L' w' es ->
  exists n s e, open_entry L i = Some e /\ L' = book g i n s e L.
Proof.
  unfold ballot. intros H. destruct (admission g i L) as [|[n e]] eqn:Ha; [done|]. cbv zeta in H.
  assert (open_entry L i = Some e).
  { unfold admission in Ha. by repeat (case_match; simplify_eq/=). }
  repeat (case_match; simplify_eq/=); eexists _, _, _; by split.
Qed.

Lemma transact_vote cx g i L w L' w' es :
  transact cx (Call.Vote g i) L w = Accept L' w' es ->
  exists n s e, open_entry L i = Some e /\ L' = book g i n s e L.
Proof. simpl. intros [_ [_ H]%by_signer_accept]%running_accept. by apply ballot_accept in H. Qed.

Lemma transact_grown cx c L w L' w' es : transact cx c L w = Accept L' w' es -> grown L (additions_of c L) L'.
Proof.
  intros H. destruct c as [| | | | | | | | | | | | | |g i| | | |];
    try (unfold transact in H; transact_inv H; unfold grown, no_additions; simpl; try case_bool_decide;
         simpl; rewrite ?app_nil_r; done).
  apply transact_vote in H as (n & s & e & _ & ->). unfold grown. simpl. by rewrite fmap_app, !app_nil_r.
Qed.

Lemma transact_frame cx c L w L' w' es k :
  transact cx c L w = Accept L' w' es -> k ∉ footprint c -> k ∉ indexes -> encode L' k = encode L k.
Proof.
  intros H Hk Hi. destruct c as [| | | | | | | | | | | | | |g i| | | |]; simpl in Hk;
    rewrite ?not_elem_of_cons in Hk; destruct_and? Hk.
  all: try (apply transact_vote in H as (n & s & e & He & ->); apply book_frame; [done|naive_solver..]).
  all: unfold transact in H; transact_inv H; destruct k; try done; simpl;
    rewrite ?lookup_insert_ne, ?lookup_delete_ne by congruence; try done.
  all: try (by exfalso; apply Hi; solve_elem).
  all: match goal with |- context [<[?i := _]> (entries _) !! ?j] =>
         destruct (decide (i = j)) as [->|]; [rewrite lookup_insert_eq|by rewrite lookup_insert_ne]
       end; simpl.
  all: match goal with
       | He : open_entry _ _ = Some _ |- _ => apply open_lookup in He as [-> ->]; try done
       | Hn : bool_decide (is_Some ?o) = false |- _ => by destruct o
       end.
Qed.

(** What a call answers, sets and appends depends on the keys it consults; if it
    calls no other contract it does not see the world. *)
Definition tied (c : Call) (L1 L2 : ledger) (w1 w2 : Wld) (v1 v2 : verdict Wld) : Prop :=
  match v1, v2 with
  | Accept L1' w1' es1, Accept L2' w2' es2 =>
      es1 = es2 /\ agree (alters c) L1' L2' /\ additions_of c L1 = additions_of c L2 /\
      (if calls_out c then w1' = w2' else w1' = w1 /\ w2' = w2)
  | Refuse e1, Refuse e2 => e1 = e2
  | Crash r1, Crash r2 => r1 = r2
  | _, _ => False
  end.

Lemma tied_running c L1 L2 w1 w2 v1 v2 :
  halted L1 = halted L2 -> tied c L1 L2 w1 w2 v1 v2 -> tied c L1 L2 w1 w2 (running L1 v1) (running L2 v2).
Proof. intros Hp Hv. unfold running. rewrite Hp. by destruct (default false (halted L2)). Qed.

Lemma tied_signer c L1 L2 w1 w2 cx a v1 v2 :
  tied c L1 L2 w1 w2 v1 v2 -> tied c L1 L2 w1 w2 (by_signer cx a v1) (by_signer cx a v2).
Proof. intros Hv. unfold by_signer. by destruct (authorized cx a). Qed.

Lemma agree_alters c L1 L2 :
  (forall k, k ∈ footprint c -> k <> DataKey.Lock -> k ∉ indexes -> encode L1 k = encode L2 k) ->
  agree (alters c) L1 L2.
Proof.
  intros H k [Hk1 Hk2]%list_elem_of_filter. apply not_elem_of_cons in Hk1 as [Hk1 Hk3]. by apply H.
Qed.

Lemma tied_vote cx g i L1 L2 w :
  agree (consults (Call.Vote g i)) L1 L2 ->
  tied (Call.Vote g i) L1 L2 w w (ballot cx g i L1 w) (ballot cx g i L2 w).
Proof.
  intros H.
  destruct (agree_open _ _ _ H i ltac:(solve_elem)) as [Ho Hc].
  pose proof (agree_cast _ _ _ H i g ltac:(solve_elem)) as Hv.
  assert (admission g i L1 = admission g i L2) as Hd.
  { unfold admission. rewrite (agree_member _ _ _ H g ltac:(solve_elem)), (agree_asset _ _ _ H ltac:(solve_elem) ltac:(solve_elem)),
      (agree_deposit _ _ _ H g ltac:(solve_elem)), (agree_score _ _ _ H g ltac:(solve_elem)), Hv, Ho.
    destruct (open_entry L2 i) eqn:He; [|done]. by rewrite (proj2 (Hc ltac:(by rewrite Ho))). }
  assert (forall n s e, open_entry L2 i = Some e -> agree (alters (Call.Vote g i)) (book g i n s e L1) (book g i n s e L2)) as Hb.
  { intros n s e He. destruct (Hc ltac:(by rewrite Ho, He)) as [Ht Hw]. apply agree_alters.
    intros k Hk _ Hi. simpl in Hk. rewrite !elem_of_cons, elem_of_nil in Hk.
    destruct Hk as [->|[->|[->|[->|[]]]]]; [done|by destruct Hi; solve_elem|..].
    - unfold encode. by rewrite !cast_booked, Hv.
    - simpl. rewrite !lookup_insert_eq. simpl. unfold task_of. by rewrite !tally_snoc, !weight_snoc, Ht, Hw. }
  unfold ballot. rewrite Hd, (agree_bar _ _ _ H ltac:(solve_elem)), (agree_payer _ _ _ H ltac:(solve_elem)).
  destruct (admission g i L2) as [|[n e]] eqn:Ha; [done|].
  assert (open_entry L2 i = Some e) as He by (unfold admission in Ha; by repeat (case_match; simplify_eq/=)).
  destruct (Hc ltac:(by rewrite Ho, He)) as [-> ->]. cbv zeta.
  destruct (decide _); [|done]. destruct (_ <=? _); [destruct (payer L2) as [v|]; [destruct (release_funds v i w)|]|];
    try done; (split_and!; [done|by apply Hb|done|done]).
Qed.

(** Both ledgers accept: the keys set hold the same. *)
Local Ltac same_keys :=
  let k := fresh "k" in let Hk := fresh "Hk" in let Hi := fresh "Hi" in
  apply agree_alters; intros k Hk _ Hi; simpl in Hk; rewrite ?elem_of_cons, ?elem_of_nil in Hk;
  repeat (destruct Hk as [->|Hk]); try done; try (by destruct Hi; solve_elem); simpl;
  rewrite ?lookup_insert_eq, ?lookup_delete_eq; try done.

Local Ltac same_views H :=
  repeat match goal with
  | |- context [members ?L !! ?g] => rewrite (agree_member _ L _ H g ltac:(solve_elem))
  | |- context [deposit ?L ?g] => rewrite (agree_deposit _ L _ H g ltac:(solve_elem))
  | |- context [grants ?L !! ?i] => rewrite (agree_grant _ L _ H i ltac:(solve_elem))
  | |- context [default _ (failures ?L)] => rewrite (agree_failures _ L _ H ltac:(solve_elem))
  | |- context [default _ (halted ?L)] => rewrite (agree_paused _ L _ H ltac:(solve_elem))
  end.

Local Ltac both_accept := unfold tied; simpl; (split_and!; [done|same_keys|done..]).

Lemma tied_pay_out c cx tk g L1 L2 w :
  c = Call.ResignGuardian g \/ c = Call.UnlockTokens g ->
  deposit L1 g = deposit L2 g -> agree (consults c) L1 L2 -> forall L1' L2',
  deposits L1' = deposits L1 -> deposits L2' = deposits L2 -> members L1' !! g = members L2' !! g ->
  tied c L1 L2 w w (pay_out cx tk g L1' w) (pay_out cx tk g L2' w).
Proof.
  intros Hc Hd H L1' L2' H1 H2 Hm. unfold pay_out, deposit in *. rewrite H1, H2, Hd.
  assert (encode L1' (DataKey.LockedBalance g) = encode L2' (DataKey.LockedBalance g)) as Hl.
  { simpl. rewrite H1, H2. apply (H (DataKey.LockedBalance g)). destruct Hc as [-> | ->]; solve_elem. }
  destruct (0 <? _); [destruct (token_transfer _ _ _ _ w); [|done]|];
    destruct Hc as [-> | ->]; unfold tied; simpl; (split_and!; [done| |done..]); same_keys; by rewrite Hm.
Qed.

Lemma tied_register a task_id L1 L2 w1 w2 :
  ledger_ok L1 -> ledger_ok L2 -> agree (consults (Call.RegisterTask a task_id)) L1 L2 ->
  let new L : verdict Wld -> verdict Wld := fun v =>
    if bool_decide (is_Some (entries L !! task_id)) then Refuse ContractError.NotAuthorized else v in
  let add L := set_entries (<[task_id := Entry None false false]> (entries L)) (order L ++ [task_id]) L in
  tied (Call.RegisterTask a task_id) L1 L2 w1 w2
    (new L1 (Accept (add L1) w1 [])) (new L2 (Accept (add L2) w2 [])).
Proof.
  intros Hok1 Hok2 H. cbv zeta beta.
  pose proof (agree_unknown _ _ _ H task_id ltac:(solve_elem) ltac:(solve_elem)) as Hu.
  rewrite (bool_decide_ext _ _ Hu). case_bool_decide as Hn; [done|]. both_accept.
  rewrite <- Hu in Hn. apply eq_None_not_Some in Hn as Hn1. rewrite Hu in Hn. apply eq_None_not_Some in Hn as Hn2.
  destruct (uncounted L1 task_id Hok1 Hn1) as [Ht1 Hw1], (uncounted L2 task_id Hok2 Hn2) as [Ht2 Hw2].
  unfold task_of. by rewrite Ht1, Hw1, Ht2, Hw2.
Qed.

Lemma tied_archive cx task_id L1 L2 w1 w2 :
  agree (consults (Call.ArchiveTask task_id)) L1 L2 ->
  tied (Call.ArchiveTask task_id) L1 L2 w1 w2 (file_away cx task_id L1 w1) (file_away cx task_id L2 w2).
Proof.
  intros H.
  destruct (agree_open _ _ _ H task_id ltac:(solve_elem)) as [Ho Hc]. unfold file_away. rewrite Ho in *.
  destruct (open_entry L2 task_id) as [e|] eqn:He; [|done]. destruct Hc as [Ht Hwt]; [done|]. destruct (settled e) as [t|]; [|done].
  destruct (t =? 0); [done|]. destruct (_ <? _); [|done].
  both_accept. unfold task_of. by rewrite Ht, Hwt.
Qed.

Lemma transact_local cx c L1 L2 w1 w2 :
  ledger_ok L1 -> ledger_ok L2 -> agree (consults c) L1 L2 -> (calls_out c = true -> w1 = w2) ->
  tied c L1 L2 w1 w2 (transact cx c L1 w1) (transact cx c L2 w2).
Proof.
  intros Hok1 Hok2 H Hw.
  destruct c as [| | | | | | | | | | | | | |g i| | | |]; unfold transact;
    try (apply tied_running; [by apply (agree_paused _ _ _ H); solve_elem|]); try apply tied_signer;
    try (specialize (Hw eq_refl) as ->).
  all: try (same_views H; both_accept).
  - pose proof (agree_initialized _ _ _ H ltac:(solve_elem)) as Hi.
    rewrite (bool_decide_ext _ _ Hi). case_bool_decide; [done|]. both_accept.
  - pose proof (agree_member _ _ _ H guardian ltac:(solve_elem)) as Hm.
    unfold tied. simpl. rewrite Hm. split_and!; [done|same_keys|done..].
  - pose proof (agree_member _ _ _ H guardian ltac:(solve_elem)) as Hm.
    rewrite Hm. case_bool_decide; [|done]. both_accept.
  - pose proof (agree_token _ _ _ H ltac:(solve_elem)) as Ht. unfold pay_in. same_views H.
    destruct (asset L1) as [[tk b]|], (asset L2) as [[tk' b']|]; simplify_eq/=; [|done].
    destruct (token_transfer _ _ _ _ w2); [|done]. case_decide; [|done]. both_accept.
  - pose proof (agree_token _ _ _ H ltac:(solve_elem)) as Ht. same_views H.
    destruct (asset L1) as [[tk b]|], (asset L2) as [[tk' b']|]; simplify_eq/=; [|done].
    destruct (default _ _); [|done].
    apply tied_pay_out; auto; [by apply (agree_deposit _ _ _ H); solve_elem|]. simpl. by rewrite !lookup_insert_eq.
  - pose proof (agree_token _ _ _ H ltac:(solve_elem)) as Ht. same_views H.
    destruct (asset L1) as [[tk b]|], (asset L2) as [[tk' b']|]; simplify_eq/=; [|done].
    destruct (default _ _); [done|].
    apply tied_pay_out; auto; [by apply (agree_deposit _ _ _ H); solve_elem|].
    by apply (agree_member _ _ _ H); solve_elem.
  - by apply tied_register.
  - destruct (agree_open _ _ _ H task_id ltac:(solve_elem)) as [Ho Hc]. rewrite Ho in *.
    destruct (open_entry L2 task_id) as [e|] eqn:He; [|done]. destruct Hc as [Ht Hwt]; [done|].
    both_accept. unfold task_of. by rewrite Ht, Hwt.
  - by apply tied_vote.
  - by apply tied_archive.
  - destruct (agree_open _ _ _ H task_id ltac:(solve_elem)) as [Ho _]. unfold grant. rewrite Ho. same_views H.
    destruct (open_entry L2 task_id) as [e|] eqn:He; [|done]. destruct (withdrawn e); [done|].
    destruct (bool_decide _); [|done]. simpl. destruct (bool_decide _); [done|].
    destruct (invoke_contract _ _ _ _); [|done]. both_accept.
  - pose proof (agree_paused _ _ _ H ltac:(solve_elem)) as Hp. unfold report. same_views H. cbv zeta.
    case_decide; [|done]. destruct (_ && _); both_accept. by rewrite Hp.
Qed.

End transactions.

(** ** Exchanging two transactions *)

Lemma consults_off c k : k ∈ consults c -> k <> DataKey.Lock /\ k ∉ indexes.
Proof.
  intros Hk. enough (Forall (fun k => k <> DataKey.Lock /\ k ∉ indexes) (consults c)) as H.
  { rewrite Forall_forall in H. by apply H. }
  unfold indexes. destruct c; simpl; repeat (apply Forall_cons_2; [split; [done|solve_not_elem]|]); apply Forall_nil_2.
Qed.

Lemma alters_spec c k : k ∉ indexes -> k <> DataKey.Lock -> k ∈ footprint c <-> k ∈ alters c.
Proof. intros Hi Hl. unfold alters. rewrite list_elem_of_filter, not_elem_of_cons. tauto. Qed.

Lemma alters_off c k : k ∈ alters c -> k <> DataKey.Lock /\ k ∉ indexes.
Proof. intros [Hk _]%list_elem_of_filter. by apply not_elem_of_cons in Hk. Qed.

Section schedules.
Context {Wld : Type} `{!World Wld}.
Implicit Types (x y : context * Call) (t : ledger * Wld * list effect).

(** A ledger, the world and the events so far. *)
Definition ledger_in t : ledger := t.1.1.
Definition world_in t : Wld := t.1.2.

Definition settle x t : ledger * Wld * list effect :=
  match transact x.1 x.2 (ledger_in t) (world_in t) with
  | Accept L' w' es' => (L', w', t.2 ++ es')
  | _ => t
  end.

(** The same but for the order of the indexes and of the events. *)
Definition alike t1 t2 : Prop :=
  (forall k, k ∉ indexes -> encode (ledger_in t1) k = encode (ledger_in t2) k) /\
  roll (ledger_in t1) ≡ₚ roll (ledger_in t2) /\ order (ledger_in t1) ≡ₚ order (ledger_in t2) /\
  (ballots (ledger_in t1)).*1 ≡ₚ (ballots (ledger_in t2)).*1 /\
  grant_order (ledger_in t1) ≡ₚ grant_order (ledger_in t2) /\
  world_in t1 = world_in t2 /\ t1.2 ≡ₚ t2.2.

#[export] Instance alike_equivalence : Equivalence alike.
Proof.
  split; unfold alike.
  - done.
  - intros t1 t2 (H1 & H2 & H3 & H4 & H5 & H6 & H7). split_and!; try done. intros k Hk. by rewrite H1.
  - intros t1 t2 t3 (H1 & H2 & H3 & H4 & H5 & H6 & H7) (I1 & I2 & I3 & I4 & I5 & I6 & I7).
    split_and!; try by etrans. intros k Hk. by rewrite H1, I1.
Qed.

(** How a transaction is answered. *)
Definition reply (v : verdict Wld) : unit + (ContractError + trap) :=
  match v with Accept _ _ _ => inl tt | Refuse e => inr (inl e) | Crash r => inr (inr r) end.

Definition reply_to x t := reply (transact x.1 x.2 (ledger_in t) (world_in t)).

Lemma tied_reply c L1 L2 w1 w2 (v1 v2 : verdict Wld) : tied c L1 L2 w1 w2 v1 v2 -> reply v1 = reply v2.
Proof. destruct v1, v2; simpl; try done; by intros ->. Qed.

Lemma settle_ok x t : ledger_ok (ledger_in t) -> ledger_ok (ledger_in (settle x t)).
Proof.
  destruct x as [cx c], t as [[L w] es]. unfold settle. cbn [fst snd ledger_in world_in]. intros Hok.
  destruct (transact cx c L w) as [L' w' es'| |] eqn:H; try done. cbn.
  destruct c; try (apply transact_vote in H as (n & s & e & [He _]%open_lookup & ->); by apply booked_ok);
    unfold transact in H; transact_inv H; try done; by apply entry_known.
Qed.

(** A call that calls out sees the world it changes; another leaves it. *)
Lemma transact_world cx c L (w w' : Wld) L' es :
  ledger_ok L -> transact cx c L w = Accept L' w' es -> calls_out c = false -> w' = w.
Proof.
  intros Hok H Hc. pose proof (transact_local cx c L L w w Hok Hok ltac:(done) ltac:(done)) as Ht.
  rewrite H in Ht. simpl in Ht. rewrite Hc in Ht. naive_solver.
Qed.

(** Equal additions keep equivalent indexes equivalent. *)
Lemma grown_alike L1 L2 (x : additions) L1' L2' :
  grown L1 x L1' -> grown L2 x L2' ->
  roll L1 ≡ₚ roll L2 -> order L1 ≡ₚ order L2 -> (ballots L1).*1 ≡ₚ (ballots L2).*1 -> grant_order L1 ≡ₚ grant_order L2 ->
  roll L1' ≡ₚ roll L2' /\ order L1' ≡ₚ order L2' /\ (ballots L1').*1 ≡ₚ (ballots L2').*1 /\
  grant_order L1' ≡ₚ grant_order L2'.
Proof.
  intros (-> & -> & -> & ->) (-> & -> & -> & ->) H1 H2 H3 H4. by rewrite H1, H2, H3, H4.
Qed.

Lemma grown_swap L (x y : additions) L1 L12 L2 L21 :
  grown L x L1 -> grown L1 y L12 -> grown L y L2 -> grown L2 x L21 ->
  roll L12 ≡ₚ roll L21 /\ order L12 ≡ₚ order L21 /\ (ballots L12).*1 ≡ₚ (ballots L21).*1 /\
  grant_order L12 ≡ₚ grant_order L21.
Proof.
  intros (H1 & H2 & H3 & H4) (-> & -> & -> & ->) (I1 & I2 & I3 & I4) (-> & -> & -> & ->).
  rewrite H1, H2, H3, H4, I1, I2, I3, I4, <- !(assoc_L (++)).
  split_and!; apply Permutation_app_head, Permutation_app_comm.
Qed.

Lemma settle_alike x t1 t2 :
  ledger_ok (ledger_in t1) -> ledger_ok (ledger_in t2) -> alike t1 t2 ->
  reply_to x t1 = reply_to x t2 /\ alike (settle x t1) (settle x t2).
Proof.
  destruct x as [cx c], t1 as [[L1 w1] es1], t2 as [[L2 w2] es2]. intros Hok1 Hok2 Ha.
  pose proof Ha as (Hk & H1 & H2 & H3 & H4 & Hw & He). unfold reply_to, settle. cbn [fst snd ledger_in world_in] in *. subst w2.
  assert (agree (consults c) L1 L2) as Hag by (intros k Hc; apply Hk; by eapply consults_off).
  pose proof (transact_local cx c L1 L2 w1 w1 Hok1 Hok2 Hag ltac:(done)) as Ht.
  split; [by eapply tied_reply|].
  destruct (transact cx c L1 w1) as [L1' w1' es1'| |] eqn:E1, (transact cx c L2 w1) as [L2' w2' es2'| |] eqn:E2; try done.
  destruct Ht as (-> & Hal & Hadd & Hw).
  pose proof (transact_grown _ _ _ _ _ _ _ E1) as G1. pose proof (transact_grown _ _ _ _ _ _ _ E2) as G2.
  rewrite <- Hadd in G2. destruct (grown_alike _ _ _ _ _ G1 G2 H1 H2 H3 H4) as (I1 & I2 & I3 & I4).
  unfold alike. cbn [fst snd ledger_in world_in]. split_and!; try done.
  - intros k Hi. destruct (decide (k = DataKey.Lock)) as [->|Hl]; [done|].
    destruct (decide (k ∈ alters c)) as [Hc|Hc]; [by apply Hal|].
    rewrite <- alters_spec in Hc by done.
    rewrite (transact_frame _ _ _ _ _ _ _ _ E1 Hc Hi), (transact_frame _ _ _ _ _ _ _ _ E2 Hc Hi). by apply Hk.
  - destruct (calls_out c); [done|]. by destruct Hw as [-> ->].
  - by rewrite He.
Qed.

(** After a call that does not meet it, a call finds what it found before. *)
Lemma apart_agree cx c d L (w w' : Wld) L' es :
  apart c d -> transact cx c L w = Accept L' w' es -> agree (consults d ++ alters d) L' L.
Proof.
  intros Hd H k Hk. assert (k <> DataKey.Lock /\ k ∉ indexes) as [Hl Hi].
  { apply elem_of_app in Hk as [Hk|Hk]; [by eapply consults_off|by eapply alters_off]. }
  eapply transact_frame; [done| |done]. rewrite alters_spec by done. intros Hc.
  unfold apart in Hd. rewrite Forall_forall in Hd. by apply (Hd k).
Qed.

Lemma settle_tied x y t :
  ledger_ok (ledger_in t) -> independent x.2 y.2 ->
  tied y.2 (ledger_in (settle x t)) (ledger_in t) (world_in (settle x t)) (world_in t)
    (transact y.1 y.2 (ledger_in (settle x t)) (world_in (settle x t)))
    (transact y.1 y.2 (ledger_in t) (world_in t)).
Proof.
  intros Hok (Hxy & _ & Hcalls). pose proof (settle_ok x t Hok) as Hok'.
  destruct x as [cx c], y as [cy d], t as [[L w] es]. cbn [fst snd] in *. revert Hok'.
  unfold settle. cbn [fst snd ledger_in world_in] in *.
  destruct (transact cx c L w) as [L' w' es'| |] eqn:E; cbn [fst snd ledger_in world_in]; intros Hok';
    apply transact_local; try done.
  - intros k Hk. eapply apart_agree; [done..|]. apply elem_of_app. by left.
  - intros Hd. rewrite Hd, andb_true_r in Hcalls. exact (transact_world _ _ _ _ _ _ _ Hok E Hcalls).
Qed.

Lemma settle_skip x t : reply_to x t <> inl tt -> settle x t = t.
Proof. unfold reply_to, settle. by destruct (transact _ _ _ _). Qed.

Lemma settle_swap x y t :
  ledger_ok (ledger_in t) -> independent x.2 y.2 ->
  reply_to y (settle x t) = reply_to y t /\ alike (settle y (settle x t)) (settle x (settle y t)).
Proof.
  intros Hok Hi. pose proof (settle_tied x y t Hok Hi) as Ty.
  pose proof (settle_tied y x t Hok (independent_sym _ _ Hi)) as Tx.
  pose proof (tied_reply _ _ _ _ _ _ _ Ty) as Ry. pose proof (tied_reply _ _ _ _ _ _ _ Tx) as Rx.
  fold (reply_to y (settle x t)) (reply_to y t) in Ry. fold (reply_to x (settle y t)) (reply_to x t) in Rx.
  split; [done|].
  destruct (reply_to x t) as [[]|] eqn:Ax.
  2: { rewrite (settle_skip x t), (settle_skip x (settle y t)) by congruence. done. }
  destruct (reply_to y t) as [[]|] eqn:Ay.
  2: { rewrite (settle_skip y t), (settle_skip y (settle x t)) by congruence. done. }
  destruct Hi as (Hxy & Hyx & Hcalls). destruct x as [cx c], y as [cy d], t as [[L w] es].
  unfold reply_to, settle in *. cbn [fst snd ledger_in world_in] in *. clear Rx Ry.
  destruct (transact cx c L w) as [Lx wx ex| |] eqn:Ex; try done.
  destruct (transact cy d L w) as [Ly wy ey| |] eqn:Ey; try done. cbn [fst snd ledger_in world_in] in *.
  destruct (transact cy d Lx wx) as [Lxy wxy exy| |] eqn:Exy; try done.
  destruct (transact cx c Ly wy) as [Lyx wyx eyx| |] eqn:Eyx; try done.
  destruct Ty as (-> & Gy & Ady & Wy), Tx as (-> & Gx & Adx & Wx).
  pose proof (transact_grown _ _ _ _ _ _ _ Ex) as G1. pose proof (transact_grown _ _ _ _ _ _ _ Exy) as G2.
  pose proof (transact_grown _ _ _ _ _ _ _ Ey) as G3. pose proof (transact_grown _ _ _ _ _ _ _ Eyx) as G4.
  rewrite Ady in G2. rewrite Adx in G4. destruct (grown_swap _ _ _ _ _ _ _ G1 G2 G3 G4) as (I1 & I2 & I3 & I4).
  unfold alike. cbn [fst snd ledger_in world_in]. split_and!; try done.
  - intros k Hk. destruct (decide (k = DataKey.Lock)) as [->|Hl]; [done|].
    destruct (decide (k ∈ alters d)) as [Hd|Hd]; [|destruct (decide (k ∈ alters c)) as [Hc|Hc]].
    + rewrite (Gy k Hd). symmetry. eapply transact_frame; [exact Eyx| |done].
      rewrite alters_spec by done. intros Hc. unfold apart in Hxy. rewrite Forall_forall in Hxy.
      apply (Hxy k Hc). apply elem_of_app. by right.
    + rewrite (Gx k Hc). eapply transact_frame; [exact Exy| |done]. by rewrite alters_spec.
    + rewrite <- alters_spec in Hc, Hd by done.
      rewrite (transact_frame _ _ _ _ _ _ _ _ Exy Hd Hk), (transact_frame _ _ _ _ _ _ _ _ Ex Hc Hk).
      by rewrite (transact_frame _ _ _ _ _ _ _ _ Eyx Hc Hk), (transact_frame _ _ _ _ _ _ _ _ Ey Hd Hk).
  - destruct (calls_out c), (calls_out d); try done; naive_solver.
  - rewrite <- !(assoc_L (++)). apply Permutation_app_head, Permutation_app_comm.
Qed.

(** ** Schedules *)

(** No two of the calls meet. *)
Fixpoint schedulable (l : list (context * Call)) : Prop :=
  match l with
  | [] => True
  | x :: rest => Forall (fun y => independent x.2 y.2) rest /\ schedulable rest
  end.

Definition settle_all (l : list (context * Call)) t := foldl (fun t x => settle x t) t l.

Lemma schedulable_permutation l1 l2 : l1 ≡ₚ l2 -> schedulable l1 -> schedulable l2.
Proof.
  induction 1 as [|x l1 l2 Hp IH|x y l|l1 l2 l3 _ IH1 _ IH2]; simpl.
  - done.
  - intros [H1 H2]. split; [|by apply IH]. rewrite Forall_forall in *. intros y Hy. apply H1. by rewrite Hp.
  - rewrite !Forall_cons. intros ((H1 & H2) & H3 & H4). split_and!; try done. by apply independent_sym.
  - auto.
Qed.

Lemma settle_all_ok l t : ledger_ok (ledger_in t) -> ledger_ok (ledger_in (settle_all l t)).
Proof. revert t. induction l as [|x l IH]; intros t Hok; [done|]. by apply IH, settle_ok. Qed.

Lemma settle_all_alike l t1 t2 :
  ledger_ok (ledger_in t1) -> ledger_ok (ledger_in t2) -> alike t1 t2 -> alike (settle_all l t1) (settle_all l t2).
Proof.
  revert t1 t2. induction l as [|x l IH]; intros t1 t2 H1 H2 Ha; [done|].
  apply IH; [by apply settle_ok..|]. by apply settle_alike.
Qed.

Lemma settle_all_permutation l1 l2 t :
  l1 ≡ₚ l2 -> schedulable l1 -> ledger_ok (ledger_in t) -> alike (settle_all l1 t) (settle_all l2 t).
Proof.
  intros Hp. revert t. induction Hp as [|x l1 l2 Hp IH|x y l|l1 l2 l3 H1 IH1 _ IH2]; intros t Hs Hok.
  - done.
  - apply IH; [by destruct Hs|by apply settle_ok].
  - simpl in Hs. rewrite Forall_cons in Hs. destruct Hs as [[Hi _] _].
    apply (settle_all_alike l (settle x (settle y t)) (settle y (settle x t)));
      [by do 2 apply settle_ok..|]. by apply settle_swap.
  - etrans; [by apply IH1|]. apply IH2; [by eapply schedulable_permutation|done].
Qed.

Fixpoint replies (l : list (context * Call)) t : list (unit + (ContractError + trap)) :=
  match l with [] => [] | x :: rest => reply_to x t :: replies rest (settle x t) end.

(** Each call of a schedule is answered as if it were the only one. *)
Lemma replies_alone l t :
  schedulable l -> ledger_ok (ledger_in t) -> replies l t = (fun x => reply_to x t) <$> l.
Proof.
  revert t. induction l as [|x l IH]; intros t Hs Hok; [done|]. destruct Hs as [Hx Hs]. simpl. f_equal.
  rewrite IH by (try done; by apply settle_ok). apply list_fmap_ext. intros i y Hy. apply settle_swap; [done|].
  rewrite Forall_forall in Hx. apply Hx. by apply list_elem_of_lookup_2 in Hy.
Qed.

End schedules.

#[global] Instance schedulable_dec l : Decision (schedulable l).
Proof. induction l as [|x l IH]; simpl; apply _. Defined.

(** ** The contract *)

Section contract.
Context {Sto Wld : Type} `{!InstanceStorage Sto} `{!World Wld}.
Implicit Types (st : state Sto Wld) (cx : context).

(** The answer of a call to its caller. *)
Definition answer (x : context * Call) st : unit + (ContractError + trap) :=
  match run x.1 (exec x.2) st with Done _ _ => inl tt | Failed e _ => inr (inl e) | Trapped r => inr (inr r) end.

Fixpoint answers (l : list (context * Call)) st : list (unit + (ContractError + trap)) :=
  match l with [] => [] | (cx, c) :: rest => answer (cx, c) st :: answers rest (invoke cx c st) end.

(** The same store but for the order of the four indexes, the same world, and the
    same events in some order. *)
Definition same_books st1 st2 : Prop :=
  (forall k, k ∉ indexes -> sget k (storage st1) = sget k (storage st2)) /\
  all_guardians st1 ≡ₚ all_guardians st2 /\ all_tasks st1 ≡ₚ all_tasks st2 /\
  all_votes st1 ≡ₚ all_votes st2 /\ all_streams st1 ≡ₚ all_streams st2 /\
  world st1 = world st2 /\ effects st1 ≡ₚ effects st2.

(** A state and what its ledger, world and events are. *)
Definition stands_for (t : ledger * Wld * list effect) st : Prop :=
  represents (ledger_in t) st /\ ledger_ok (ledger_in t) /\ world st = world_in t /\ effects st = t.2.

Lemma stands_answer x t st :
  well_typed st -> call_wf x.2 -> stands_for t st -> answer x st = reply_to x t.
Proof.
  intros Hwt Hc (HR & Hok & Hw & _). destruct x as [cx c]. unfold answer, reply_to. rewrite <- Hw.
  pose proof (exec_agrees cx c st _ Hwt Hc HR Hok) as Ha. cbn [fst snd] in *.
  unfold agrees in Ha. destruct (run cx (exec c) st) as [[]| |], (transact cx c (ledger_in t) (world st)); simpl; congruence || done.
Qed.

Lemma stands_settle x t st :
  well_typed st -> call_wf x.2 -> stands_for t st -> stands_for (settle x t) (invoke x.1 x.2 st).
Proof.
  intros Hwt Hc (HR & Hok & Hw & He). destruct x as [cx c]. unfold invoke, settle. rewrite <- Hw.
  pose proof (exec_agrees cx c st _ Hwt Hc HR Hok) as Ha. cbn [fst snd] in *.
  destruct (run cx (exec c) st) as [[] st'| |], (transact cx c (ledger_in t) (world st)) as [L' w' es'| |]; try done.
  destruct Ha as (H1 & H2 & H3 & H4). by rewrite He in H4.
Qed.

Lemma stands_history l t st :
  calls_wf l -> well_typed st -> stands_for t st ->
  stands_for (settle_all l t) (invoke_all l st) /\ answers l st = replies l t.
Proof.
  revert t st. induction l as [|[cx c] l IH]; intros t st Hl Hwt Ht; [done|].
  apply Forall_cons in Hl as [[Hcx Hc] Hl]. cbn [fst snd] in *.
  pose proof (stands_settle (cx, c) t st Hwt Hc Ht) as Ht'.
  destruct (IH _ _ Hl (invoke_typed cx c st Hcx Hc Hwt) Ht') as [H1 H2]. split; [done|].
  simpl. by rewrite H2, (stands_answer (cx, c) t).
Qed.

Lemma alike_books t1 t2 st1 st2 : stands_for t1 st1 -> stands_for t2 st2 -> alike t1 t2 -> same_books st1 st2.
Proof.
  intros (R1 & _ & W1 & E1) (R2 & _ & W2 & E2) (Hk & H1 & H2 & H3 & H4 & Hw & He). unfold same_books.
  rewrite (view_roll _ _ R1), (view_roll _ _ R2), (view_tasks _ _ R1), (view_tasks _ _ R2),
    (view_votes _ _ R1), (view_votes _ _ R2), (view_streams _ _ R1), (view_streams _ _ R2), W1, W2, E1, E2.
  split_and!; try done. intros k Hi. by rewrite R1, R2, Hk.
Qed.

(** C9: calls that do not meet may be made in any order.  Let no two calls of a
    list be such that one sets an entry that the other looks at or sets, and let at
    most one of them call another contract.  Then, whatever the order, each call is
    answered as if it were the only one, be it with success, an error or a trap;
    and the contract ends in the same state: every entry holds the same value, the
    four indexes list the same items, the other contracts were asked the same, and
    the same events were published. *)
Theorem independent_calls_in_any_order l1 l2 st :
  reachable st -> calls_wf l1 -> schedulable l1 -> l1 ≡ₚ l2 ->
  answers l2 st = (fun x => answer x st) <$> l2 /\
  same_books (invoke_all l1 st) (invoke_all l2 st).
Proof.
  intros Hr Hl1 Hs1 Hp. pose proof (reachable_well_typed st Hr) as Hwt.
  destruct (reachable_ledger st Hr) as (L & HR & Hok).
  assert (stands_for (L, world st, effects st) st) as Ht by done.
  assert (calls_wf l2) as Hl2 by (unfold calls_wf; by rewrite <- Hp).
  pose proof (schedulable_permutation _ _ Hp Hs1) as Hs2.
  destruct (stands_history l1 _ st Hl1 Hwt Ht) as [T1 _]. destruct (stands_history l2 _ st Hl2 Hwt Ht) as [T2 A2]. split.
  - rewrite A2, replies_alone by done. apply list_fmap_ext. intros i y Hy. symmetry. apply stands_answer; [done| |done].
    unfold calls_wf in Hl2. rewrite Forall_lookup in Hl2. by eapply Hl2.
  - eapply alike_books; [done..|]. by apply settle_all_permutation.
Qed.

End contract.

(** ** Witness *)

(** Seven calls after the tenth of the sample history, the last of which fails:
    there is no task 5. *)
Definition busy : list (context * Call) :=
  [(at_time 11, Call.Vote guardian1 1); (at_time 11, Call.RegisterTask admin 3);
   (at_time 12, Call.CancelTask admin 2); (at_time 12, Call.AddGuardian admin guardian3);
   (at_time 12, Call.SetReputation admin guardian2 7); (at_time 13, Call.RegisterTask admin 4);
   (at_time 13, Call.CancelTask admin 5)].

Lemma independent_calls_in_any_order_witness :
  answers (reverse busy) (scene 10) =
    [inr (inl ContractError.NotAuthorized); inl tt; inl tt; inl tt; inl tt; inl tt; inl tt] /\
  all_tasks (invoke_all busy (scene 10)) = [1; 2; 3; 4] /\
  all_tasks (invoke_all (reverse busy) (scene 10)) = [1; 2; 4; 3] /\
  same_books (invoke_all busy (scene 10)) (invoke_all (reverse busy) (scene 10)).
Proof.
  split_and!; [vm_compute; reflexivity..|].
  apply (independent_calls_in_any_order busy (reverse busy) (scene 10) (scene_reachable 10));
    [by_eval|by_eval|symmetry; apply reverse_Permutation].
Defined.
