(* ===== verification/Upgrade.v ===== *)
(** * Replacing the code

    [upgrade_contract] has the host run other code from the next call on.  Here the
    deployed contract is the hash of its code with its state; [installed] is the
    code the network has under each hash.  A call runs the code in force; a run that
    completes may have asked for other code ([WasmUpdated]), which has to be
    installed.

    Only [upgrade_contract] replaces the code; whoever signs it can, whatever the
    state, and the next code finds the storage, the world and the ledger they stand
    for exactly as the last call left them ([upgrades_hand_over]). *)

From stdpp Require Import prelude gmap list strings.
From Stdlib Require Import ZArith Lia Strings.Byte.
From S2P Require Import Prelude.
From S2P Require Import Types.
From S2P Require Import Host.
From S2P Require Import Logic.
From S2P Require Import Frame.
From S2P Require Import Typing.
From S2P Require Import SampleHost.
From S2P Require Import Contract.
From S2P Require Import System.
From S2P Require Import SampleRun.
From S2P Require Import Refinement.
From S2P Require Import Ledger.

(** ** Deployed code *)

Definition wasm_hash : Type := list byte.

(** What a code does on a call and on a request to be replaced. *)
Record code := Code {
  on_call : Call -> prog unit;
  on_upgrade : Address -> wasm_hash -> prog unit;
}.

Definition vero : code := Code exec upgrade_contract.

Inductive action :=
| Invoke (c : Call)
| Upgrade (admin : Address) (new_wasm_hash : wasm_hash).

Definition program_of (k : code) (a : action) : prog unit :=
  match a with Invoke c => on_call k c | Upgrade a h => on_upgrade k a h end.

(** The codes a run asked for. *)
Definition asked_for (es : list effect) : list wasm_hash :=
  omap (fun e => match e with WasmUpdated h => Some h | _ => None end) es.

(** The events without them. *)
Definition other_effects (es : list effect) : list effect :=
  filter (fun e => Is_true (match e with WasmUpdated _ => false | _ => true end)) es.

Section upgrades.
Context {Sto Wld : Type} `{!InstanceStorage Sto} `{!World Wld} (installed : wasm_hash -> option code).
Implicit Types (st : state Sto Wld) (cx : context) (d : wasm_hash * state Sto Wld).

(** One transaction: it commits if the code in force completes and every code it
    asked for is installed; the last of them is then in force. *)
Definition act cx (a : action) d : wasm_hash * state Sto Wld :=
  match installed d.1 with
  | None => d
  | Some k =>
      match run cx (program_of k a) d.2 with
      | Done _ st' =>
          let hs := asked_for (drop (length (effects d.2)) (effects st')) in
          if forallb (fun h => bool_decide (is_Some (installed h))) hs
          then (default d.1 (last hs), st') else d
      | _ => d
      end
  end.

Fixpoint act_all (l : list (context * action)) d : wasm_hash * state Sto Wld :=
  match l with [] => d | (cx, a) :: rest => act_all rest (act cx a d) end.

(** The calls of a history, without its upgrades. *)
Definition calls_of (l : list (context * action)) : list (context * Call) :=
  omap (fun x => match x.2 with Invoke c => Some (x.1, c) | Upgrade _ _ => None end) l.

Definition actions_wf (l : list (context * action)) : Prop := calls_wf (calls_of l).

(** An upgrade that its administrator signed, to code that is there. *)
Definition takes_effect cx (a : action) : option wasm_hash :=
  match a with
  | Upgrade adm h => if authorized cx adm && bool_decide (is_Some (installed h)) then Some h else None
  | Invoke _ => None
  end.

(** Every upgrade that takes effect is to another copy of this code. *)
Definition redeploys (l : list (context * action)) : Prop :=
  Forall (fun x => match takes_effect x.1 x.2 with Some h => installed h = Some vero | None => True end) l.

(** The code in force after a history. *)
Definition in_force (l : list (context * action)) (h : wasm_hash) : wasm_hash :=
  foldl (fun h x => default h (takes_effect x.1 x.2)) h l.

(** ** One step *)

Lemma asked_for_topics ts es : Forall (has_topic ts) es -> asked_for es = [] /\ other_effects es = es.
Proof.
  unfold other_effects. induction 1 as [|e es He _ [IH1 IH2]]; [done|].
  destruct e as [[|t []] d| |]; try done; (split; [exact IH1|rewrite filter_cons_True by done; by f_equal]).
Qed.

(** A call of this code leaves the code in force. *)
Lemma act_call cx c h st :
  ctx_wf cx -> call_wf c -> installed h = Some vero -> act cx (Invoke c) (h, st) = (h, invoke cx c st).
Proof.
  intros Hcx Hc Hh. unfold act, invoke. simpl. rewrite Hh. simpl.
  destruct (run cx (exec c) st) as [[] st'| |] eqn:E; try done.
  destruct (commits_log cx c st st' (conj Hcx (conj Hc E))) as (es & -> & Hes). rewrite drop_app_length.
  by destruct (asked_for_topics _ _ Hes) as [-> _].
Qed.

(** An upgrade of this code. *)
Lemma act_upgrade cx a k h st :
  installed h = Some vero ->
  act cx (Upgrade a k) (h, st) =
    match takes_effect cx (Upgrade a k) with
    | Some k => (k, log (WasmUpdated k) st)
    | None => (h, st)
    end.
Proof.
  intros Hh. unfold act, takes_effect. cbn [fst snd]. rewrite Hh. unfold program_of. simpl on_upgrade.
  unfold upgrade_contract. rewrite run_bind, run_auth. destruct (authorized cx a); [|done].
  change (run cx (perform (UpdateCurrentContractWasm k)) st) with (Done tt (log (WasmUpdated k) st)). simpl.
  rewrite drop_app_length. simpl. by destruct (bool_decide _).
Qed.

(** ** Histories *)

(** Two states that one ledger stands behind. *)
Definition same_account st1 st2 : Prop :=
  well_typed st1 /\ well_typed st2 /\ world st1 = world st2 /\
  other_effects (effects st1) = other_effects (effects st2) /\
  exists L, represents L st1 /\ represents L st2 /\ ledger_ok L.

Lemma same_account_invoke cx c st1 st2 :
  ctx_wf cx -> call_wf c -> same_account st1 st2 -> same_account (invoke cx c st1) (invoke cx c st2).
Proof.
  intros Hcx Hc (T1 & T2 & Hw & He & L & R1 & R2 & Hok).
  pose proof (invoke_typed cx c st1 Hcx Hc T1) as T1'. pose proof (invoke_typed cx c st2 Hcx Hc T2) as T2'.
  pose proof (exec_agrees cx c st1 L T1 Hc R1 Hok) as A1. pose proof (exec_agrees cx c st2 L T2 Hc R2 Hok) as A2.
  rewrite <- Hw in A2. unfold invoke, agrees in *.
  destruct (run cx (exec c) st1) as [[] st1'| |], (run cx (exec c) st2) as [[] st2'| |],
    (transact cx c L (world st1)) as [L' w' es| |]; try done; try by (split_and!; eauto).
  destruct A1 as (I1 & I2 & I3 & I4), A2 as (J1 & J2 & J3 & J4).
  split_and!; [done..|congruence| |by exists L'].
  rewrite I4, J4. unfold other_effects in *. by rewrite !filter_app, He.
Qed.

Lemma same_account_log h st1 st2 : same_account st1 st2 -> same_account (log (WasmUpdated h) st1) st2.
Proof.
  intros (T1 & T2 & Hw & He & L & R1 & R2 & Hok). split_and!; [done..| |by exists L].
  rewrite <- He. unfold other_effects. simpl. by rewrite filter_app, app_nil_r.
Qed.

Lemma act_all_account l h st1 st2 :
  installed h = Some vero -> actions_wf l -> redeploys l -> same_account st1 st2 ->
  (act_all l (h, st1)).1 = in_force l h /\ installed (in_force l h) = Some vero /\
  same_account (act_all l (h, st1)).2 (invoke_all (calls_of l) st2).
Proof.
  revert h st1 st2. induction l as [|[cx a] l IH]; intros h st1 st2 Hh Hl Hr Hs; [done|].
  apply Forall_cons in Hr as [Hr0 Hr]. cbn [act_all in_force foldl fst snd] in *. destruct a as [c|adm k].
  - unfold actions_wf in Hl. simpl in Hl. apply Forall_cons in Hl as [[Hcx Hc] Hl].
    rewrite act_call by done. by apply IH, same_account_invoke.
  - rewrite act_upgrade by done. destruct (takes_effect cx (Upgrade adm k)) as [k'|]; simpl.
    + apply IH; [done..|]. by apply same_account_log.
    + by apply IH.
Qed.

(** C16: only [upgrade_contract] replaces the code, and it hands everything over.
    Take any history of calls among which the contract is upgraded, again and
    again, to copies of its own code.  Then the code in force is the one of the last
    upgrade that was signed and installed; storage and world are, entry by entry,
    what the calls alone would have made of them, and the events the same but for
    the upgrades themselves.  Whatever that state is, paused or not initialised
    included, an upgrade to any installed code, by anyone who signs for the
    address passed as administrator, takes effect: the next code starts from
    exactly this storage and this world. *)
Theorem upgrades_hand_over l h st :
  reachable st -> installed h = Some vero -> actions_wf l -> redeploys l ->
  let '(h', st') := act_all l (h, st) in
  let plain := invoke_all (calls_of l) st in
  h' = in_force l h /\ store_eq (storage st') (storage plain) /\ world st' = world plain /\
  other_effects (effects st') = other_effects (effects plain) /\
  forall cx adm k next, installed k = Some next ->
    act cx (Upgrade adm k) (h', st') =
      if authorized cx adm then (k, State (storage st') (world st') (effects st' ++ [WasmUpdated k]))
      else (h', st').
Proof.
  intros Hr Hh Hl Hd. destruct (reachable_ledger st Hr) as (L & HR & Hok).
  pose proof (reachable_well_typed st Hr) as Hwt.
  destruct (act_all_account l h st st Hh Hl Hd) as (H1 & H2 & H3); [by split_and!; eauto|].
  destruct (act_all l (h, st)) as [h' st']. simpl in H1, H3. subst h'.
  destruct H3 as (_ & _ & Hw & He & L' & R1 & R2 & _). split_and!; [done| |done..|].
  - intros k. by rewrite R1, R2.
  - intros cx adm k next Hk. rewrite act_upgrade by done. simpl. rewrite Hk. simpl.
    by destruct (authorized cx adm).
Qed.

End upgrades.

(** ** Witness *)

Definition copy (n : byte) : wasm_hash := replicate 32 n.

(** Code that pays the contract's tokens out on any call. *)
Definition drain : code :=
  Code (fun _ => perform (TokenTransfer token self guardian3 100)) (fun _ _ => mret ()).

(** Two copies of this code are installed, and the other one. *)
Definition sample_installed (h : wasm_hash) : option code :=
  match h with
  | x00 :: _ | x01 :: _ => Some vero
  | x02 :: _ => Some drain
  | _ => None
  end.

(** The sample history with three upgrades in the middle: to a copy, to code that
    is nowhere, and one that nobody signed. *)
Definition upgraded : list (context * action) :=
  (prod_map id Invoke <$> take 9 script) ++
  [(at_time 10, Upgrade admin (copy x01)); (at_time 10, Upgrade guardian3 (copy x03));
   (unsigned 10, Upgrade admin (copy x02))] ++
  (prod_map id Invoke <$> drop 9 (take 12 script)).

Lemma upgrades_hand_over_witness :
  in_force sample_installed upgraded (copy x00) = copy x01 /\
  sget (DataKey.ActiveTask 1) (storage (act_all sample_installed upgraded (copy x00, deployed w0)).2) =
    sget (DataKey.ActiveTask 1) (storage (scene 12)) /\
  (act (Sto := gmap DataKey Val) sample_installed (at_time 30) (Upgrade guardian3 (copy x02))
     (act_all sample_installed upgraded (copy x00, deployed w0))).1 = copy x02.
Proof.
  split; [vm_compute; reflexivity|].
  pose proof (upgrades_hand_over sample_installed upgraded (copy x00) (deployed w0) (reachable_deployed w0)
    eq_refl ltac:(by_eval)) as H. specialize (H ltac:(by repeat constructor)).
  assert (calls_of upgraded = take 12 script) as Hc by reflexivity. rewrite Hc in H. unfold scene.
  destruct (act_all sample_installed upgraded (copy x00, deployed w0)) as [h' st'].
  destruct H as (-> & Hs & _ & _ & Hu). split; [exact (Hs _)|].
  by rewrite (Hu (at_time 30) guardian3 (copy x02) drain eq_refl).
Defined.
