(* ===== verification/Restoration.v ===== *)
(** * After the contract has expired

    An expired entry is not lost: the network keeps it, refuses every access to it,
    and gives it back as it was to whoever pays for its restoration, with the
    shortest life the network allows ([Restores] of Lifetime.v).

    Expiry skips calls and changes nothing: whatever the history of calls, extensions
    and restorations, the state is the one the calls made in time lead to, and a
    deposit that an expired contract does not pay back can be asked for again after
    a restoration ([expired_deposit_comes_back]). *)

From stdpp Require Import prelude gmap list strings.
From Stdlib Require Import ZArith Lia.
From S2P Require Import Prelude.
From S2P Require Import Types.
From S2P Require Import Host.
From S2P Require Import Logic.
From S2P Require Import Typing.
From S2P Require Import SampleHost.
From S2P Require Import Guardian.
From S2P Require Import Contract.
From S2P Require Import VoteSpec.
From S2P Require Import System.
From S2P Require Import SampleRun.
From S2P Require Import Spec.
From S2P Require Import Custody.
From S2P Require Import Ledger.
From S2P Require Import Lifetime.

Section restoration.
Context {Sto Wld : Type} `{!InstanceStorage Sto} `{!World Wld} {archival : Archival}.
Implicit Types (st : state Sto Wld) (cx : context) (v : lives).

(** The calls of a history. *)
Definition calls_in (l : list (Z * deed)) : list (context * Call) :=
  omap (fun x => match x.2 with Calls cx c => Some (cx, c) | _ => None end) l.

(** Those made while the contract could be used. *)
Fixpoint in_time (l : list (Z * deed)) (x : state Sto Wld * lives) : list (context * Call) :=
  match l with
  | [] => []
  | (now, d) :: rest =>
      match d with
      | Calls cx c => if usable now x.2 then [(cx, c)] else []
      | _ => []
      end ++ in_time rest (do_deed now d x)
  end.

Lemma in_time_sublist l x : in_time l x `sublist_of` calls_in l.
Proof.
  revert x. induction l as [|[now [cx c| |]] l IH]; intros x; simpl; [constructor| |apply IH..].
  destruct (usable now x.2); simpl; constructor; apply IH.
Qed.

(** The state is what the calls made in time make of it. *)
Lemma live_calls l x : (live l x).1 = invoke_all (in_time l x) x.1.
Proof.
  revert x. induction l as [|[now d] l IH]; intros [st v]; [done|]. cbn [live]. rewrite IH.
  destruct d as [cx c| |]; simpl; [|done..]. by destruct (usable now v).
Qed.

Lemma Forall_sublist {A} (P : A -> Prop) k l : k `sublist_of` l -> Forall P l -> Forall P k.
Proof. induction 1 as [|x k l _ IH|x k l _ IH]; rewrite ?Forall_cons; naive_solver. Qed.

(** Both entries restored, whichever of them has expired. *)
Definition restored (now : Z) (x : state Sto Wld * lives) : state Sto Wld * lives :=
  do_deed now (Restores Code_entry) (do_deed now (Restores Instance_entry) x).

Lemma restored_state now x : (restored now x).1 = x.1.
Proof. done. Qed.

Lemma restored_until now x p :
  until p (restored now x).2 = if now <=? until p x.2 then until p x.2 else now + min_ttl - 1.
Proof. by destruct p. Qed.

Lemma restored_usable now x : usable now (restored now x).2 = true.
Proof.
  pose proof min_ttl_positive. pose proof (restored_until now x Instance_entry) as Hi.
  pose proof (restored_until now x Code_entry) as Hc. cbn [until] in Hi, Hc.
  unfold usable. rewrite Hi, Hc. apply andb_true_iff.
  destruct (Z.leb_spec now (instance_until x.2)), (Z.leb_spec now (code_until x.2)); lia.
Qed.

(** Taking a deposit out prolongs nothing. *)
Lemma way_out_in_time now cx g st v :
  reachable st -> usable now v = true ->
  do_deed now (Calls cx (way_out st g)) (st, v) = (invoke cx (way_out st g) st, v).
Proof.
  intros Hr Hu. simpl do_deed.
  pose proof (on_ledger_in_time now cx (way_out st g) st v Hr (proj2 (way_out_refunds st g)) Hu) as H.
  unfold way_out in *. by destruct (registered st g).
Qed.

Context (self : Address) `{!TokenLedger Wld self}.

Lemma live_custody l w v :
  (forall tk, 0 <= balance tk self w) -> calls_wf (calls_in l) -> outside_calls self (calls_in l) ->
  in_custody self (live l (deployed w, v)).1.
Proof.
  intros Hw Hwf Ho. rewrite live_calls. pose proof (in_time_sublist l (deployed w, v)) as Hs.
  apply in_custody_invoke_all; [by eapply Forall_sublist..|by apply in_custody_deployed].
Qed.

(** C20: expiry costs no deposit.  From deployment, let any history of calls,
    extensions and restorations run on a contract whose entries expire.  Its state is
    the one the calls made in time lead to, as if the others had not been made.  Once
    one of the two entries has expired, no call has any effect.  Anybody's restoration
    of what has expired brings the contract back, for as long as the network lets a
    restored entry live, with all that was locked, and with tokens to pay it: on any
    ledger on which both entries can then be used, a guardian's own call,
    [resign_guardian] while registered and [unlock_tokens] otherwise, pays the
    whole balance if the token carries out the transfer of it, and changes nothing if
    the token refuses; and it does not prolong the contract's life. *)
Theorem expired_deposit_comes_back l w v now later cx g tk :
  (forall tk, 0 <= balance tk self w) -> calls_wf (calls_in l) -> outside_calls self (calls_in l) ->
  let '(st, v1) := live l (deployed w, v) in
  st = invoke_all (in_time l (deployed w, v)) (deployed w) /\
  in_time l (deployed w, v) `sublist_of` calls_in l /\
  (usable now v1 = false -> forall cx' c, do_deed now (Calls cx' c) (st, v1) = (st, v1)) /\
  let '(st2, v2) := do_deed now (Restores Code_entry) (do_deed now (Restores Instance_entry) (st, v1)) in
  st2 = st /\ usable now v2 = true /\
  (forall p, until p v2 = if now <=? until p v1 then until p v1 else now + min_ttl - 1) /\
  (usable later v2 = true -> token_address st = Some tk ->
   ctx_wf cx -> self_address cx = self -> authorized cx g = true -> g <> self ->
   let c := if registered st g then Call.ResignGuardian g else Call.UnlockTokens g in
   let '(st3, v3) := do_deed later (Calls cx c) (st2, v2) in
   0 <= locked_balance st g <= balance tk self (world st) /\ v3 = v2 /\
   (locked_balance st g = 0 \/ is_Some (token_transfer tk self g (locked_balance st g) (world st)) ->
    locked_balance st3 g = 0 /\ balance tk g (world st3) = balance tk g (world st) + locked_balance st g) /\
   (0 < locked_balance st g -> token_transfer tk self g (locked_balance st g) (world st) = None -> st3 = st)).
Proof.
  intros Hw Hwf Ho. pose proof (live_custody l w v Hw Hwf Ho) as Hc.
  pose proof (live_calls l (deployed w, v)) as Hst. pose proof (in_time_sublist l (deployed w, v)) as Hsub.
  destruct (live l (deployed w, v)) as [st v1]. simpl in Hc, Hst.
  pose proof (restored_state now (st, v1)) as Hs2. pose proof (restored_usable now (st, v1)) as Hu2.
  pose proof (fun p => restored_until now (st, v1) p) as Hp2. unfold restored in *.
  do 2 (split; [done|]). split; [intros Hu cx' c; by apply on_ledger_late|].
  destruct (do_deed now (Restores Code_entry) _) as [st2 v2]. simpl in Hs2, Hu2, Hp2. subst st2.
  do 3 (split; [done|]). intros Hu Htk Hcx Hself Ha Hne. fold (way_out st g).
  pose proof (in_custody_reachable self st Hc) as Hr. rewrite (way_out_in_time later cx g st v2 Hr Hu).
  split; [by apply covered|]. split; [done|]. split.
  - intros Hpay. destruct (refund_goes_through self cx g st tk) as (st3 & (_ & _ & Hrun) & Hz & Hb); [done..|].
    unfold invoke. by rewrite Hrun.
  - intros Hpos Hno. pose proof (way_out_spec self cx g st tk Htk Ha Hself) as H.
    rewrite (proj2 (Z.ltb_lt _ _) Hpos), Hno in H.
    pose proof (exec_spec cx (way_out st g) st (reachable_well_typed st Hr) (proj2 (way_out_refunds st g))) as He.
    rewrite H in He. unfold invoke. by destruct (run _ _ _).
Qed.

End restoration.

(** ** Witness *)

#[local] Existing Instance sample_archival.

(** The sample history until its second vote, one call every ten thousand ledgers,
    with the code's life extended by a stranger; the first guardian is removed by an
    administrator, and the instance expires on ledger 130 000. *)
Definition slow_deeds : list (Z * deed) :=
  slow 11 ++
  [(120000, Calls (at_time 12) (Call.RemoveGuardian admin guardian1));
   (130001, Calls (at_time 13) (Call.UnlockTokens guardian1))].

Lemma expired_deposit_comes_back_witness :
  let '(st, v) := live slow_deeds (deployed w0, Lives 100000 100000) in
  v = Lives 130000 560000 /\ locked_balance st guardian1 = 50 /\
  locked_balance (do_deed 200005 (Calls (at_time 15) (Call.UnlockTokens guardian1))
    (do_deed 200000 (Restores Code_entry) (do_deed 200000 (Restores Instance_entry) (st, v)))).1 guardian1 = 0.
Proof.
  assert (forall tk, 0 <= balance (self := self) tk self w0) as Hw by (intros tk; simpl; by destruct (decide _)).
  pose proof (expired_deposit_comes_back self slow_deeds w0 (Lives 100000 100000) 200000 200005 (at_time 15) guardian1 token
    Hw ltac:(by_eval) ltac:(by_eval)) as H.
  assert ((live slow_deeds (deployed w0, Lives 100000 100000)).2 = Lives 130000 560000) as Hu by (vm_compute; reflexivity).
  assert (locked_balance (live slow_deeds (deployed w0, Lives 100000 100000)).1 guardian1 = 50) as Hb by (vm_compute; reflexivity).
  assert (token_address (live slow_deeds (deployed w0, Lives 100000 100000)).1 = Some token) as Ht by (vm_compute; reflexivity).
  assert (registered (live slow_deeds (deployed w0, Lives 100000 100000)).1 guardian1 = false) as Hg by (vm_compute; reflexivity).
  assert (is_Some (token_transfer token self guardian1 50 (world (live slow_deeds (deployed w0, Lives 100000 100000)).1)))
    as Hpay by by_eval.
  destruct (live slow_deeds (deployed w0, Lives 100000 100000)) as [st v]. cbn [fst snd] in *. subst v.
  destruct H as (_ & _ & _ & H). cbn [do_deed fst snd] in H |- *. destruct H as (_ & _ & _ & H).
  specialize (H ltac:(vm_compute; reflexivity) Ht ltac:(by_eval) eq_refl eq_refl ltac:(discriminate)).
  rewrite Hg, Hb in H. split; [done|]. split; [done|]. cbn [do_deed] in H.
  destruct (on_ledger 200005 _ _ _) as [st3 v3]. destruct H as (_ & _ & H & _). apply H. by right.
Defined.
