(* ===== verification/Growth.v ===== *)
(** * How much the contract stores

    All state is one entry of the ledger, the instance storage, which every call
    loads as a whole and whose size the network limits.  Every committed vote,
    registration and stream leaves an item in an index and a key of its own, and
    no call takes them back: archiving moves a task to another key.  So the number
    of stored keys lies between the number of those calls and four times the
    number of all ([storage_grows_with_use]). *)

From stdpp Require Import prelude gmap list strings.
From Stdlib Require Import ZArith Lia.
From S2P Require Import Prelude.
From S2P Require Import Types.
From S2P Require Import Host.
From S2P Require Import Logic.
From S2P Require Import Typing.
From S2P Require Import SampleHost.
From S2P Require Import Storage.
From S2P Require Import Tasks.
From S2P Require Import Contract.
From S2P Require Import VoteSpec.
From S2P Require Import System.
From S2P Require Import SampleRun.
From S2P Require Import Spec.
From S2P Require Import Lifecycle.
From S2P Require Import Tally.
From S2P Require Import Registry.
From S2P Require Import Custody.
From S2P Require Import Ledger.
From S2P Require Import Independence.

Section growth.
Context {Sto Wld : Type} `{!InstanceStorage Sto} `{!World Wld}.
Implicit Types (st : state Sto Wld) (cx : context).

(** ** Counting keys *)

Definition stored st (k : DataKey) : Prop := is_Some (sget k (storage st)).

#[local] Instance stored_dec st k : Decision (stored st k) := ltac:(unfold stored; apply _).

Definition stores_at_least st (n : nat) : Prop :=
  exists ks, NoDup ks /\ Forall (stored st) ks /\ length ks = n.

Definition stores_at_most st (n : nat) : Prop :=
  forall ks, NoDup ks -> Forall (stored st) ks -> (length ks <= n)%nat.

(** ** Counting calls *)

Definition committed1 cx (c : Call) st : list Call :=
  match run cx (exec c) st with Done _ _ => [c] | _ => [] end.

(** The calls of a history that commit. *)
Fixpoint committed (l : list (context * Call)) st : list Call :=
  match l with
  | [] => []
  | (cx, c) :: rest => committed1 cx c st ++ committed rest (invoke cx c st)
  end.

Definition is_cast (c : Call) : bool := match c with Call.Vote _ _ => true | _ => false end.
Definition is_registration (c : Call) : bool := match c with Call.RegisterTask _ _ => true | _ => false end.
Definition is_stream_start (c : Call) : bool := match c with Call.StartRewardStream _ _ _ _ => true | _ => false end.

Definition count (p : Call -> bool) (cs : list Call) : nat := length (List.filter p cs).

Lemma count_app p cs1 cs2 : count p (cs1 ++ cs2) = (count p cs1 + count p cs2)%nat.
Proof. unfold count. by rewrite List.filter_app, length_app. Qed.

(** ** One call *)

Lemma commits_lengths cx c st st' :
  reachable st -> commits cx c st st' ->
  length (all_votes st') = (length (all_votes st) + count is_cast [c])%nat /\
  length (all_tasks st') = (length (all_tasks st) + count is_registration [c])%nat /\
  length (all_streams st') = (length (all_streams st) + count is_stream_start [c])%nat.
Proof.
  intros Hr (Hcx & Hc & Hrun). destruct (reachable_ledger st Hr) as (L & HR & Hok).
  pose proof (exec_agrees cx c st L (reachable_well_typed st Hr) Hc HR Hok) as Ha. rewrite Hrun in Ha.
  destruct (transact cx c L (world st)) as [L' w es| |] eqn:Ht; try done. destruct Ha as (HR' & _).
  apply transact_grown in Ht as (_ & H2 & H3 & H4).
  rewrite (view_votes L st HR), (view_votes L' st' HR'), (view_tasks L st HR), (view_tasks L' st' HR'),
    (view_streams L st HR), (view_streams L' st' HR'), H2, H3, H4, !length_app.
  unfold count. destruct c; simpl; try case_bool_decide; simpl; lia.
Qed.

Lemma footprint_four c : (length (footprint c) <= 4)%nat.
Proof. destruct c; simpl; lia. Qed.

Lemma commits_adds cx c st st' ks :
  reachable st -> commits cx c st st' -> NoDup ks -> Forall (fun k => stored st' k /\ ~ stored st k) ks ->
  (length ks <= 4)%nat.
Proof.
  intros Hr Hcm Hnd Hks. trans (length (footprint c)); [|apply footprint_four].
  apply submseteq_length, NoDup_submseteq; [done|]. rewrite Forall_forall in Hks. intros k Hk.
  destruct (Hks k Hk) as [Hin Hno]. destruct (decide (k ∈ footprint c)) as [|Hf]; [done|].
  unfold stored in *. by rewrite (commits_frame cx c st st' k Hr Hcm Hf) in Hin.
Qed.

Lemma commits_at_most cx c st st' n :
  reachable st -> commits cx c st st' -> stores_at_most st n -> stores_at_most st' (n + 4).
Proof.
  intros Hr Hcm Hn ks Hnd Hks. rewrite Forall_forall in Hks.
  assert (length ks = length (filter (stored st) ks) + length (filter (fun k => ~ stored st k) ks))%nat as ->.
  { rewrite <- length_app. apply Permutation_length. symmetry. apply filter_app_complement. }
  assert (length (filter (stored st) ks) <= n)%nat.
  { apply Hn; [by apply NoDup_filter|]. rewrite Forall_forall. by intros k [Hk _]%list_elem_of_filter. }
  assert (length (filter (fun k => ~ stored st k) ks) <= 4)%nat; [|lia].
  apply (commits_adds cx c st st'); [done..|by apply NoDup_filter|].
  rewrite Forall_forall. intros k [Hk Hin]%list_elem_of_filter. auto.
Qed.

(** ** What stays *)

(** Where a known task is stored. *)
Definition task_key st (i : Z) : DataKey :=
  if bool_decide (stored st (DataKey.ActiveTask i)) then DataKey.ActiveTask i else DataKey.ArchivedTask i.

Lemma reachable_at_least st :
  reachable st -> stores_at_least st (length (all_votes st) + length (all_tasks st) + length (all_streams st)).
Proof.
  intros Hr. destruct (reachable_ledger st Hr) as (L & HR & Hok).
  exists (((fun v => DataKey.Voted v.1 v.2) <$> all_votes st) ++ (task_key st <$> all_tasks st) ++
     (DataKey.RewardStream <$> all_streams st)).
  pose proof (ti_nodup st (tally_reachable st Hr)) as N1. destruct (tasks_exact_reachable st Hr) as [N2 K2].
  destruct (streams_exact_reachable st Hr) as [N3 K3 _]. split_and!.
  - rewrite !NoDup_app. split_and!; try (apply NoDup_fmap_2; [|done]).
    + intros [] [] H. by simplify_eq/=.
    + intros k (v & -> & _)%list_elem_of_fmap. rewrite elem_of_app, !list_elem_of_fmap. unfold task_key.
      intros [(i & H & _)|(i & H & _)]; [by case_bool_decide|done].
    + intros i j. unfold task_key. intros H. repeat case_bool_decide; congruence.
    + intros k (i & -> & _)%list_elem_of_fmap. rewrite list_elem_of_fmap. unfold task_key.
      intros (j & H & _). by case_bool_decide.
    + intros i j H. congruence.
  - rewrite !Forall_app, !Forall_fmap, !Forall_forall. split_and!.
    + intros [i g] Hv. unfold stored. simpl. rewrite HR. simpl. unfold cast.
      rewrite (view_votes L st HR) in Hv. rewrite bool_decide_true by done. done.
    + intros i Hi%K2. simpl. unfold task_key. case_bool_decide as Ha; [done|].
      unfold stored in *. destruct (sget (DataKey.ArchivedTask i) (storage st)) eqn:E; [done|]. destruct Hi.
      unfold phase_of, active_task, archived_task, look. rewrite E. by destruct (sget (DataKey.ActiveTask i) (storage st)) eqn:E2;
        [destruct Ha|].
    + intros i Hi%K3. simpl. unfold reward_stream, look in Hi. unfold stored.
      destruct (sget _ _); [done|by destruct Hi].
  - by rewrite !length_app, !length_fmap, Nat.add_assoc.
Qed.

(** ** Histories *)

Record tallied (cs : list Call) st : Prop := {
  td_votes : length (all_votes st) = count is_cast cs;
  td_tasks : length (all_tasks st) = count is_registration cs;
  td_streams : length (all_streams st) = count is_stream_start cs;
  td_most : stores_at_most st (4 * length cs);
}.

Lemma tallied_deployed w : tallied [] (deployed w).
Proof.
  split; unfold all_votes, all_tasks, all_streams; rewrite ?look_deployed; try done.
  intros [|k ks] _ Hks; [done|]. apply Forall_cons in Hks as [[v Hk] _]. by rewrite sget_deployed in Hk.
Qed.

Lemma tallied_history l cs st :
  calls_wf l -> reachable st -> tallied cs st -> tallied (cs ++ committed l st) (invoke_all l st).
Proof.
  revert cs st. induction l as [|[cx c] l IH]; intros cs st Hl Hr Ht; [by rewrite app_nil_r|].
  apply Forall_cons in Hl as [[Hcx Hc] Hl]. simpl in Hcx, Hc |- *. rewrite (assoc_L (++)). apply IH; [done| |].
  { eapply reachable_step; [done|]. by apply invoke_step. }
  unfold committed1, invoke. destruct (run cx (exec c) st) as [[] st'| |] eqn:E; rewrite ?app_nil_r; try done.
  assert (commits cx c st st') as Hcm by done. destruct Ht as [H1 H2 H3 H4].
  destruct (commits_lengths cx c st st' Hr Hcm) as (I1 & I2 & I3).
  split; rewrite ?count_app, ?length_app; try congruence.
  replace (4 * (length cs + length [c]))%nat with (4 * length cs + 4)%nat by (simpl; lia).
  by eapply commits_at_most.
Qed.

(** C26: what is stored grows with use and is never given back.  After any history
    of calls the three indexes have exactly one item for every vote, registration
    and reward stream that was committed, whatever was archived, cancelled or
    removed since; and at least that many keys are stored besides.  On the other
    hand no call, made after any history, adds more than four keys to those stored
    before it. *)
Theorem storage_grows_with_use l w :
  calls_wf l ->
  let st : state Sto Wld := invoke_all l (deployed w) in
  let cs := committed l (deployed (Sto := Sto) w) in
  length (all_votes st) = count is_cast cs /\
  length (all_tasks st) = count is_registration cs /\
  length (all_streams st) = count is_stream_start cs /\
  stores_at_least st (count is_cast cs + count is_registration cs + count is_stream_start cs) /\
  stores_at_most st (4 * length cs) /\
  (forall cx c st' ks, commits cx c st st' -> NoDup ks ->
     Forall (fun k => stored st' k /\ ~ stored st k) ks -> (length ks <= 4)%nat).
Proof.
  intros Hl st cs. destruct (tallied_history l [] _ Hl (reachable_deployed w) (tallied_deployed w)) as [H1 H2 H3 H4].
  cbn [app] in H1, H2, H3, H4. fold cs st in H1, H2, H3, H4.
  assert (reachable st) as Hr by (by apply reachable_invoke_all, reachable_deployed).
  split_and!; [done..| |done|].
  - rewrite <- H1, <- H2, <- H3. by apply reachable_at_least.
  - intros cx c st' ks Hcm. by apply (commits_adds cx c).
Qed.

End growth.

(** ** Witness *)

(** The sample history ends with the archival of task 1: its two votes, two tasks
    and one stream are all still there. *)
Lemma storage_grows_with_use_witness :
  length (committed script (deployed w0)) = 14%nat /\
  length (all_votes (scene 14)) = 2%nat /\ stores_at_least (scene 14) 5 /\ stores_at_most (scene 14) 56.
Proof.
  assert (length (committed script (deployed w0)) = 14%nat) as H0 by (vm_compute; reflexivity).
  assert (count is_cast (committed script (deployed w0)) = 2%nat) as Ev by (vm_compute; reflexivity).
  assert (count is_registration (committed script (deployed w0)) = 2%nat) as Et by (vm_compute; reflexivity).
  assert (count is_stream_start (committed script (deployed w0)) = 1%nat) as Es by (vm_compute; reflexivity).
  pose proof (storage_grows_with_use (Sto := gmap DataKey Val) script w0 (script_wf 14)) as (H1 & _ & _ & H4 & H5 & _).
  rewrite Ev in H1. rewrite Ev, Et, Es in H4. rewrite H0 in H5.
  split_and!; [exact H0|exact H1|exact H4|exact H5].
Defined.
